(* ===== verification/_CoqProject ===== *)
-Q . S2P
Prelude.v
Tables.v
Tracing.v
QueryNode.v
Grammar.v
Automaton.v
Diagnostic.v
Invariants.v
Safety.v
LoopInvariant.v
StackDepth.v
Behaviour.v
Refinement.v
Completeness.v
Driver.v
GrowStack.v
StackPeak.v
DebugTrace.v
NoRecovery.v
