(* ===== verification/Prelude.v ===== *)
(** * A verification development of the RediSearch query parser

    The program is [src/src/query_parser/parser.c]: the LEMON-generated
    LALR(1) parser that turns the token stream of a full-text query into
    a [QueryNode] tree.  It has four parts, which this library models in
    dependency order, one file each, with the debug-build support and
    the diagnostic text beside them, followed by the specification
    they are checked against, by the two other stack configurations
    the generated code can be compiled in (a heap stack grown by
    [realloc], and a peak counter), by the build without [NDEBUG] that
    prints a trace, and by the build without error recovery:

    - [Prelude] (this file): the outcome monad used for code whose C
      behaviour is undefined (failed [assert], a union member read
      under the wrong tag, a read past a table or through a null
      pointer), the C array read [arr_get], the shared tactics and the
      [lemon] hint database.
    - [Tables]: the generated tables of [parser.c] ([yy_action],
      [yy_lookahead], [yy_shift_ofst], [yy_reduce_ofst], [yy_default],
      [yyRuleInfo]) and the two lookup routines [yy_find_shift_action]
      and [yy_find_reduce_action], translated line by line.  The
      grammar's right-hand sides are read from [yyRuleName], and
      [Tracing] checks them against [yyRuleInfo].  Theorems
      proved by evaluation on all 38 states: the action of a terminal
      is always a shift, a reduce or the error action; end of input is
      never shifted; every state has one accessing symbol; and, the LR
      viability property, every reduce action finds the rule's
      right-hand side on any well-linked stack with a defined goto
      below it.
    - [QueryNode]: the query tree built by the semantic actions
      ([NewTokenNode], [NewPhraseNode], [NewUnionNode], [NewNotNode],
      [NewOptionalNode], [NewPrefixNode], the two [_AddChild]
      mutators, the recursive [QueryNode_Free]) and the field resolver
      [IndexSpec_GetFieldBit] as a type class.  These live in
      [query_node.c] and [spec.c], which are not under [src/]; they are
      modelled from the specification.
    - [Automaton]: the parser proper: [yyParser] and [yyStackEntry],
      [yy_destructor], [yy_pop_parser_stack], [yyStackOverflow],
      [yy_shift], [yy_reduce] with the 22 semantic actions of
      [parser.y], [yy_syntax_error], [yy_accept], [yy_parse_failed],
      and the main loop of [Parse] (the build without [YYERRORSYMBOL],
      [YYFALLBACK] and [YYWILDCARD], with [YYSTACKDEPTH] = 100 and
      [NDEBUG]).  The C stack array with its index [yyidx] is a list
      whose head is the top ([yyidx] = length - 1); the allocator is a
      counter of live query nodes.

    - [Tracing]: the tables and the global state of the build
      without [NDEBUG]: [yyTokenName], [yyRuleName] and [ParseTrace]
      on the pair [yyTraceFILE], [yyTracePrompt].
    - [Diagnostic]: the length of the text [yy_syntax_error] prints,
      and a reader for it ([read_int], [read_syntax_error]).

    - [Grammar]: the abstract specification, the grammar of section
      4.2 of the specification with the tree each production builds,
      as an inductive derivation relation [derives] and its start
      symbol [derives_query], and the shape [wf_node] of the trees it
      builds.  It is written from the specification, not from the
      code, and is what [Refinement] checks the code against.

    The development proves, in the remaining files:

    - [Invariants]: the state invariant.  [wf_stack]: the stack is a
      path of the automaton from state 0 and each minor holds the union
      member its major calls for.  [acct]: every live query node is
      owned by exactly one stack entry or by [ctx->root].  Each
      semantic action, [yy_reduce], [yy_shift] and the popping loops
      succeed on a well-formed state and keep both.
    - [Safety]: the loop of [Parse] never fails an [assert], never
      reads a wrong union member, and ends within its fuel; a whole
      parse ([Query_Parse]: [ParseAlloc], one [Parse] per lexer token,
      end of input, [ParseFree]) always returns, leaks no node and
      leaves [ctx->ok] set exactly when no diagnostic was stored; end
      of input always brings the automaton to its accepting or failed
      state (C12).
    - [LoopInvariant]: a Section whose hypotheses are the two
      obligations of an invariant of the loop (one iteration keeps it,
      the re-initialisation of an empty stack keeps it); it holds
      after [Parse], after [Parse_all] and after [Query_Parse].
      [Refinement] and [StackDepth] instantiate it.
    - [StackDepth]: no parse holds more than [YYSTACKDEPTH] entries
      (C10), and the [NDEBUG] fast path of [yy_reduce], which skips the
      overflow test, agrees with the [yy_reduce] of the other build,
      [yy_reduce_debug], on every such stack (C11).
    - [Diagnostic] also proves the round trip (C13): the message
      stored in [ctx->errorMsg] reads back as the token's offset and
      text, so [%d] with the fuel of [fmt_d] prints every 64-bit offset
      in full.
    - [Behaviour]: the branches where the code departs from the
      specification, each in general: the error action, on every
      state and token, drops the token, keeps [ctx->root], and writes
      the diagnostic over any earlier one exactly when [yyerrcnt <= 0]
      (C14); a shift that finds the stack full returns from the loop
      with the stack emptied and [ctx] untouched, so the overflow is
      silent (C15); without a schema, [modifierlist ':' expr] sets the
      mask to 0 while [modifier ':' expr] keeps the default (C16).
      Then the diagnostic of [yy_syntax_error] is never truncated
      (C17) and the field-list mask has exactly the bits of the listed
      fields (C18).  Evaluated examples follow: the parses of section 8
      of the specification, and the divergences on concrete queries
      (a failed parse with a root, an overflow that restarts, a second
      diagnostic, a token fed after the end of input starting a second
      parse that overwrites the root).
    - [Refinement]: a parse with a schema that keeps [ctx->ok] set
      leaves in [ctx->root] the tree [Grammar] assigns to the input, or
      to a suffix of it when the stack overflowed, which takes at least
      [YYSTACKDEPTH] tokens (C5); whatever errors it meets, the root is
      the tree of a subsequence of the input, error recovery only
      deleting tokens (C6), and so has the shape [wf_node] (C7).  Each
      stack entry carries a derivation of the tokens it covers; each
      semantic action builds the value of its production.
    - [Completeness]: the converse.  Every token sequence of fewer
      than [YYSTACKDEPTH] tokens that [Grammar] derives as a query is
      accepted with [ctx->ok] set and its tree in [ctx->root] (C8);
      with [Refinement], a parse of such a lexer stream keeps
      [ctx->ok] exactly when the stream is a query of the grammar
      (C9); two derivations of one such stream build the same tree.
      The proof is the LR argument on the generated
      tables: a table of (state, symbol, look-ahead) triples, closed
      under the rules, is computed and its closure checked by
      evaluation, which is where the absence of conflicts shows.
    - [Tracing]: every rule text of [yyRuleName], read back word by
      word through [yyTokenName], is the left-hand side and the
      right-hand-side count of [yyRuleInfo] (C19); [ParseTrace] never
      leaves tracing half configured (C20).
    - [Driver]: [yy_reduce] and the loop of [Parse] written once over
      a [StackPolicy] (the [yy_shift] of a build and the state that
      holds its stack); on the fixed array they are [Automaton]'s, and
      any policy that pushes like it below [YYSTACKDEPTH] entries runs
      each [Parse] call as the fixed build does.
    - [GrowStack]: the [YYSTACKDEPTH <= 0] build, whose stack is a
      heap array grown by [yyGrowStack], with [realloc] an arbitrary
      oracle.  With a [realloc] that never fails it returns what the
      fixed build returns on fewer than [YYSTACKDEPTH - 1] tokens
      (C21); whatever [realloc] does, the stack stays inside the array
      (C22); the sizes are [100 * (2^k - 1)] and the 25th growth
      overflows [int] (C23); a failed first allocation makes every
      query parse as empty with no error (C24); and with a reliable
      [realloc] a shift never overflows while the next size fits an
      [int] (C25), so a query nested past 100 entries, which the fixed
      build loses, parses in full.
    - [StackPeak]: the [YYTRACKMAXSTACKDEPTH] build, whose [yy_shift]
      raises the counter [yyidxMax] that [ParseStackPeak] returns; the
      counter changes no parse, stays between the top index and
      [YYSTACKDEPTH], and is an index rather than the depth its
      comment announces.
    - [DebugTrace]: the build without [NDEBUG], every [fprintf] of
      the fixed-stack build in place (the ["Stack grows"] line of
      [yyGrowStack], lines 343 to 348, belongs to the heap-stack build
      and is not modelled), its output a writer monad over the outcome
      monad (a result and the strings written, [tbind] appending them)
      with its own notation [x <~ m ;; k].  [erase] forgets the text;
      through it the debug build, tracing on or off, returns exactly
      what the [NDEBUG] build returns on every lexer stream (C26); with
      no stream nothing is written (C27); the [Stack:] line of a shift
      names the stack symbols and reads back as them (C28); a [Parse]
      call that clears [ctx->ok] wrote [Syntax Error!] (C29).
    - [NoRecovery]: the build with [YYNOERRORRECOVERY], whose error
      branch reports every error and drops the token.  It agrees with
      the default build on every parse that keeps [ctx->ok] (C30), is
      as safe on every lexer stream (C31), and does not abandon the
      parse as its comment says: its error action reports every error
      whatever [yyerrcnt], and keeps the stack even at end of input
      (C32), so a parser fed more tokens resumes the parse.

    Fuel: the [do ... while] loop of [Parse] is run by [yy_parse_loop]
    with fuel [1 + yy_measure p], where [yy_measure] weighs the stack
    symbols ([query] 1, [union] and terminals 3, the others 2) so that
    every reduce other than the final [query] one strictly decreases
    it, and every other step ends the loop; [Safety] proves this fuel
    is always enough, so [Stuck OutOfFuel] never happens.  The digit
    loop [dec_digits] of [%d] gets fuel [1 + log2 |z|], which
    [Diagnostic] shows covers the decimal digits of [z].  The stack
    bound is the code's: [YYSTACKDEPTH] = 100 entries.

    The trace stream is modelled by the text written to it, one string
    per [fprintf] call; the stream itself ([FILE *]) is an opaque
    handle, and a failing [fprintf] is not modelled.

    Not modelled: the [YYERRORSYMBOL] error recovery (lines 1063 to
    1117) and the [YYFALLBACK] and [YYWILDCARD] lookups, which are not
    compiled: the grammar never uses its [error] token and declares
    no fallback and no wildcard; the
    [yyidx] values below [-1] that a parser without a stack array
    reaches in the [YYSTACKDEPTH <= 0] build (only [yyidx < 0] is
    tested); the lexer, which is not part of [src/] (its output is any list of
    token kinds 1 to 10); the ["Stack grows to %d entries!"] trace of
    [yyGrowStack] (lines 343 to 348), compiled only in a heap-stack
    build with tracing on; the C strings and the [Vector] library
    (ownership of field-name strings is not tracked, only nodes). *)

From Stdlib Require Import ZArith String List Bool Lia.
Import ListNotations.

Declare Scope lemon_scope.
Delimit Scope lemon_scope with lemon.
Open Scope Z_scope.

(** ** Outcomes of C code whose behaviour can be undefined *)

(** Why an execution of the model stops without a result: an [assert]
    of the generated code that fails, a read of a union member other
    than the one last written, an [int] computation that overflows
    (undefined in C), another read the C standard leaves undefined (an
    index past the end of a table, a null [char *] printed with [%s]),
    or a loop run out of fuel. *)
Inductive stuck_reason : Type :=
| AssertFailed (what : string)
| BadUnionRead (what : string)
| SignedOverflow (what : string)
| UndefinedRead (what : string)
| OutOfFuel.

Inductive outcome (A : Type) : Type :=
| Ok (a : A)
| Stuck (why : stuck_reason).
Arguments Ok {A} a.
Arguments Stuck {A} why.

Definition obind {A B : Type} (m : outcome A) (k : A -> outcome B) : outcome B :=
  match m with
  | Ok a => k a
  | Stuck r => Stuck r
  end.

Notation "x <- m ;; k" := (obind m (fun x => k))
  (at level 61, m at next level, right associativity) : lemon_scope.
Notation "' pat <- m ;; k" := (obind m (fun x => match x with pat => k end))
  (at level 61, pat pattern, m at next level, right associativity) : lemon_scope.

Definition is_ok {A : Type} (m : outcome A) : bool :=
  match m with Ok _ => true | Stuck _ => false end.

Lemma obind_ok_inv {A B : Type} (m : outcome A) (k : A -> outcome B) (b : B) :
  obind m k = Ok b -> exists a, m = Ok a /\ k a = Ok b.
Proof. destruct m as [a|r]; simpl; [eauto | discriminate]. Qed.

Lemma obind_ok {A B : Type} (a : A) (k : A -> outcome B) :
  obind (Ok a) k = k a.
Proof. reflexivity. Qed.

Lemma obind_ret_r {A : Type} (m : outcome A) : obind m Ok = m.
Proof. destruct m; reflexivity. Qed.

(** ** C arrays *)

(** [a[i]] for a constant table: the caller checks the bounds first. *)
Definition arr_get (a : list Z) (i : Z) : Z := nth (Z.to_nat i) a 0.

(** [0 <= i && i < n], the bounds test the generated code writes out. *)
Definition in_range (i n : Z) : bool := (0 <=? i) && (i <? n).

Lemma in_range_spec (i n : Z) : in_range i n = true <-> 0 <= i < n.
Proof.
  unfold in_range. rewrite andb_true_iff, Z.leb_le, Z.ltb_lt. tauto.
Qed.

(** ** Finite enumeration of integer ranges, for checks by evaluation *)

(** [forall_Z lo n f] checks [f] on [lo, lo+1, ..., lo+n-1]. *)
Fixpoint forall_Z (lo : Z) (n : nat) (f : Z -> bool) : bool :=
  match n with
  | O => true
  | S n' => f lo && forall_Z (lo + 1) n' f
  end.

Lemma forall_Z_spec (lo : Z) (n : nat) (f : Z -> bool) :
  forall_Z lo n f = true -> forall i, lo <= i < lo + Z.of_nat n -> f i = true.
Proof.
  revert lo. induction n as [|n IH]; simpl; intros lo H i Hi; [lia|].
  apply andb_true_iff in H as [H0 H1].
  destruct (Z.eq_dec i lo) as [->|Hne]; [exact H0|].
  apply (IH (lo + 1)); [exact H1|lia].
Qed.

(** ** Shared list lemmas *)

Fixpoint sum_nat (l : list nat) : nat :=
  match l with [] => O | x :: l' => (x + sum_nat l')%nat end.

Lemma sum_nat_app (l1 l2 : list nat) :
  sum_nat (l1 ++ l2) = (sum_nat l1 + sum_nat l2)%nat.
Proof. induction l1; simpl; lia. Qed.

Lemma skipn_nth_cons {A : Type} (n : nat) (l : list A) (d : A) :
  (n < length l)%nat -> skipn n l = nth n l d :: skipn (S n) l.
Proof.
  revert l. induction n as [|n IH]; intros [|x l] H; simpl in *; try lia; [reflexivity|].
  apply IH. lia.
Qed.

(** [subseq l1 l2]: [l1] is [l2] with some elements deleted. *)
Inductive subseq {A : Type} : list A -> list A -> Prop :=
| subseq_nil : subseq [] []
| subseq_skip x l1 l2 : subseq l1 l2 -> subseq l1 (x :: l2)
| subseq_keep x l1 l2 : subseq l1 l2 -> subseq (x :: l1) (x :: l2).

Lemma subseq_nil_l {A : Type} (l : list A) : subseq [] l.
Proof. induction l; constructor; assumption. Qed.

Lemma subseq_refl {A : Type} (l : list A) : subseq l l.
Proof. induction l; constructor; assumption. Qed.

Lemma subseq_app {A : Type} (l1 l2 m1 m2 : list A) :
  subseq l1 l2 -> subseq m1 m2 -> subseq (l1 ++ m1) (l2 ++ m2).
Proof. intros H Hm. induction H; simpl; [exact Hm | constructor; assumption ..]. Qed.

(** Deleting what is appended. *)
Lemma subseq_app_r {A : Type} (l1 l2 m : list A) : subseq l1 l2 -> subseq l1 (l2 ++ m).
Proof. intros H. rewrite <- (app_nil_r l1). apply subseq_app; [exact H | apply subseq_nil_l]. Qed.


(** ** Strings *)

Lemma str_length_append (a b : string) :
  String.length (a ++ b)%string = (String.length a + String.length b)%nat.
Proof. induction a as [|c a IH]; simpl; [reflexivity | rewrite IH; reflexivity]. Qed.

Lemma substring0_length_le (n : nat) (s : string) :
  (String.length (substring 0 n s) <= n)%nat.
Proof.
  revert n. induction s as [|c s IH]; intros [|n]; simpl; try lia.
  specialize (IH n). lia.
Qed.

Lemma substring0_all (n : nat) (s : string) :
  (String.length s <= n)%nat -> substring 0 n s = s.
Proof.
  revert n. induction s as [|c s IH]; intros [|n] H; simpl in *; try reflexivity; try lia.
  rewrite IH by lia. reflexivity.
Qed.

(** ** Automation *)

Create HintDb lemon discriminated.
Create Rewrite HintDb lemon_rw.
#[export] Hint Resolve obind_ok_inv : lemon.
#[export] Hint Resolve subseq_nil_l subseq_refl subseq_app subseq_app_r : lemon.
#[export] Hint Rewrite @obind_ok : lemon_rw.
#[export] Hint Rewrite sum_nat_app : lemon_rw.

(** Invert every [obind ... = Ok _] hypothesis, naming the intermediate
    result, and substitute. *)
Ltac inv_ok :=
  repeat match goal with
  | H : obind ?m ?k = Ok _ |- _ =>
      let a := fresh "r" in
      let Hm := fresh "Hm" in
      apply obind_ok_inv in H as [a [Hm H]]
  | H : Ok _ = Ok _ |- _ => injection H as H; subst
  | H : Stuck _ = Ok _ |- _ => discriminate H
  end.

Ltac inv H := inversion H; subst; clear H.
