(* ===== verification/Tables.v ===== *)
(** * The LALR tables of [parser.c] and their lookup routines

    The constants, the five packed tables and [yyRuleInfo] are copied
    from [src/src/query_parser/parser.c]; [yy_find_shift_action] and
    [yy_find_reduce_action] translate the C routines for the build of
    this file (no [YYFALLBACK], no [YYWILDCARD], no [YYERRORSYMBOL]),
    with each [assert] an [AssertFailed] outcome.  The theorems are
    facts about the tables, checked on every state by evaluation, that
    the automaton's proofs rest on: which actions a terminal can
    select, that every state has a single accessing symbol, and the LR
    viability property of the reduce actions ([reduce_viable]). *)

From Stdlib Require Import ZArith String List Bool Lia.
From S2P Require Import Prelude.
Import ListNotations.
Open Scope Z_scope.
Open Scope lemon_scope.

Module Tables.

(** ** Symbols (the order of [yyTokenName]) *)

Definition TK_EOF := 0.
Definition TK_OR := 1.
Definition TK_LP := 2.
Definition TK_RP := 3.
Definition TK_QUOTE := 4.
Definition TK_TERM := 5.
Definition TK_AT := 6.
Definition TK_MINUS := 7.
Definition TK_TILDE := 8.
Definition TK_STAR := 9.
Definition TK_COLON := 10.
Definition YYERRORSYM := 11.
Definition NT_modifierlist := 12.
Definition NT_modifier := 13.
Definition NT_query := 14.
Definition NT_exprlist := 15.
Definition NT_expr := 16.
Definition NT_union := 17.
Definition NT_exact := 18.

(** Terminals are the symbols below [YYERRORSYM]. *)
Definition is_terminal (X : Z) : bool := (0 <=? X) && (X <? YYERRORSYM).

(** ** Constants *)

Definition YYNOCODE := 20.
Definition YYSTACKDEPTH := 100.
Definition YYNSTATE := 38.
Definition YYNRULE := 22.
Definition YY_NO_ACTION := YYNSTATE + YYNRULE + 2.
Definition YY_ACCEPT_ACTION := YYNSTATE + YYNRULE + 1.
Definition YY_ERROR_ACTION := YYNSTATE + YYNRULE.

(** ** The tables *)

Definition yy_action : list Z := [
  39; 33;  1; 35; 16; 10; 17;  6;  9;  1;
  24; 16; 10; 17;  6;  9;  1; 26; 16; 10;
  17;  6;  9; 40; 28;  1; 31; 16; 10; 17;
   6;  9; 13; 11; 61;  2;  5; 19; 12; 38;
  32;  1; 20; 16; 10; 17;  6;  9; 13; 11;
  23;  4;  3; 19; 12;  1; 15; 16; 10; 17;
   6;  9; 13; 11; 14;  7; 34; 19; 12; 62;
  13; 11; 27; 18; 21; 19; 12; 37; 36; 13;
  11; 62;  8; 30; 19; 12; 62; 13; 11; 62;
  62; 22; 19; 12; 62; 62; 13; 11; 62; 62;
  25; 19; 12; 62; 13; 11; 62; 62; 29; 19;
  12].

Definition yy_lookahead : list Z := [
   0;  5;  2;  5;  4;  5;  6;  7;  8;  2;
   3;  4;  5;  6;  7;  8;  2;  3;  4;  5;
   6;  7;  8;  0;  5;  2;  5;  4;  5;  6;
   7;  8; 12; 13; 14; 15; 16; 17; 18;  0;
   5;  2;  1;  4;  5;  6;  7;  8; 12; 13;
   5; 15; 16; 17; 18;  2;  1;  4;  5;  6;
   7;  8; 12; 13;  1; 10; 16; 17; 18; 19;
  12; 13;  9;  1; 16; 17; 18;  4;  5; 12;
  13; 19; 10; 16; 17; 18; 19; 12; 13; 19;
  19; 16; 17; 18; 19; 19; 12; 13; 19; 19;
  16; 17; 18; 19; 12; 13; 19; 19; 16; 17;
  18].

Definition YY_SHIFT_USE_DFLT := -5.
Definition YY_SHIFT_MAX := 20.
Definition yy_shift_ofst : list Z := [
  23; 53; 39; 14;  7;  0; 53; 53; 53; 53;
  63; 72; 73; 55; 19; -4; -2; 21; 35; 41;
  45].

Definition YY_REDUCE_USE_DFLT := -1.
Definition YY_REDUCE_MAX := 9.
Definition yy_reduce_ofst : list Z := [
  20; 36; 75; 84; 75; 84; 92; 50; 58; 67].

Definition yy_default : list Z := [
  60; 60; 60; 60; 60; 60; 60; 60; 60; 60;
  46; 60; 60; 60; 60; 60; 60; 60; 60; 43;
  60; 54; 42; 58; 45; 41; 44; 52; 59; 47;
  48; 49; 50; 51; 53; 55; 56; 57].

Definition YY_SZ_ACTTAB := Z.of_nat (length yy_action).

(** [yyRuleInfo]: left-hand side and number of right-hand-side symbols. *)
Definition yyRuleInfo : list (Z * Z) := [
  (14, 1); (14, 1); (14, 0); (15, 2); (15, 2); (16, 1); (16, 3); (16, 3);
  (16, 1); (16, 2); (16, 2); (13, 2); (12, 3); (12, 3); (16, 2); (16, 3);
  (16, 3); (18, 2); (18, 2); (16, 2); (17, 3); (17, 3)].

Definition rule_lhs (r : Z) : Z := fst (nth (Z.to_nat r) yyRuleInfo (0, 0)).
Definition rule_nrhs (r : Z) : Z := snd (nth (Z.to_nat r) yyRuleInfo (0, 0)).

(** The right-hand sides, as [yyRuleName] spells them. *)
Definition yyRuleRhs : list (list Z) := [
  (*  0 query ::= exprlist *)             [NT_exprlist];
  (*  1 query ::= expr *)                 [NT_expr];
  (*  2 query ::= *)                      [];
  (*  3 exprlist ::= expr expr *)         [NT_expr; NT_expr];
  (*  4 exprlist ::= exprlist expr *)     [NT_exprlist; NT_expr];
  (*  5 expr ::= union *)                 [NT_union];
  (*  6 expr ::= LP expr RP *)            [TK_LP; NT_expr; TK_RP];
  (*  7 expr ::= LP exprlist RP *)        [TK_LP; NT_exprlist; TK_RP];
  (*  8 expr ::= TERM *)                  [TK_TERM];
  (*  9 expr ::= MINUS expr *)            [TK_MINUS; NT_expr];
  (* 10 expr ::= TILDE expr *)            [TK_TILDE; NT_expr];
  (* 11 modifier ::= AT TERM *)           [TK_AT; TK_TERM];
  (* 12 modifierlist ::= modifier OR TERM *)     [NT_modifier; TK_OR; TK_TERM];
  (* 13 modifierlist ::= modifierlist OR TERM *) [NT_modifierlist; TK_OR; TK_TERM];
  (* 14 expr ::= TERM STAR *)             [TK_TERM; TK_STAR];
  (* 15 expr ::= modifierlist COLON expr *) [NT_modifierlist; TK_COLON; NT_expr];
  (* 16 expr ::= modifier COLON expr *)   [NT_modifier; TK_COLON; NT_expr];
  (* 17 exact ::= QUOTE TERM *)           [TK_QUOTE; TK_TERM];
  (* 18 exact ::= exact TERM *)           [NT_exact; TK_TERM];
  (* 19 expr ::= exact QUOTE *)           [NT_exact; TK_QUOTE];
  (* 20 union ::= union OR TERM *)        [NT_union; TK_OR; TK_TERM];
  (* 21 union ::= TERM OR TERM *)         [TK_TERM; TK_OR; TK_TERM]].

Definition rule_rhs (r : Z) : list Z := nth (Z.to_nat r) yyRuleRhs [].

(** ** Lookup routines *)

(** [yy_find_shift_action]: the action for state [stateno] (the state
    on top of the stack) and terminal look-ahead [iLookAhead].  With
    neither [YYFALLBACK] nor [YYWILDCARD] compiled, a miss in the
    packed table falls back to [yy_default]. *)
Definition yy_find_shift_action (stateno iLookAhead : Z) : outcome Z :=
  if (stateno >? YY_SHIFT_MAX) || (arr_get yy_shift_ofst stateno =? YY_SHIFT_USE_DFLT)
  then Ok (arr_get yy_default stateno)
  else if iLookAhead =? YYNOCODE then Stuck (AssertFailed "iLookAhead!=YYNOCODE")
  else
    let i := arr_get yy_shift_ofst stateno + iLookAhead in
    if (i <? 0) || (i >=? YY_SZ_ACTTAB) || negb (arr_get yy_lookahead i =? iLookAhead)
    then Ok (arr_get yy_default stateno)
    else Ok (arr_get yy_action i).

(** [yy_find_reduce_action]: the goto of nonterminal [iLookAhead] from
    [stateno]; without [YYERRORSYMBOL] every check is an [assert]. *)
Definition yy_find_reduce_action (stateno iLookAhead : Z) : outcome Z :=
  if stateno >? YY_REDUCE_MAX then Stuck (AssertFailed "stateno<=YY_REDUCE_MAX")
  else
    let i := arr_get yy_reduce_ofst stateno in
    if i =? YY_REDUCE_USE_DFLT then Stuck (AssertFailed "i!=YY_REDUCE_USE_DFLT")
    else if iLookAhead =? YYNOCODE then Stuck (AssertFailed "iLookAhead!=YYNOCODE")
    else
      let i := i + iLookAhead in
      if negb (in_range i YY_SZ_ACTTAB) then Stuck (AssertFailed "i>=0 && i<YY_SZ_ACTTAB")
      else if negb (arr_get yy_lookahead i =? iLookAhead)
      then Stuck (AssertFailed "yy_lookahead[i]==iLookAhead")
      else Ok (arr_get yy_action i).

(** ** The automaton read off the tables *)

(** The transition of the LR automaton on symbol [X]: a shift for a
    terminal, a goto for a nonterminal. *)
Definition yy_trans (s X : Z) : option Z :=
  match (if is_terminal X then yy_find_shift_action s X
         else yy_find_reduce_action s X) with
  | Ok a => if (0 <=? a) && (a <? YYNSTATE) then Some a else None
  | Stuck _ => None
  end.

Definition yy_states : list Z := map Z.of_nat (seq 0 38).
Definition yy_symbols : list Z := map Z.of_nat (seq 0 19).

Definition opt_Z_eqb (o : option Z) (s : Z) : bool :=
  match o with Some a => a =? s | None => false end.

(** The accessing symbol of a state: the symbol of the transitions
    into it ([YYNOCODE] for state 0, which has none), found by search
    and tabulated once. *)
Definition yy_accessing_of (s : Z) : Z :=
  match find (fun X => existsb (fun p => opt_Z_eqb (yy_trans p X) s) yy_states)
             yy_symbols with
  | Some X => X
  | None => YYNOCODE
  end.

Definition yy_accessing_tbl : list Z :=
  Eval vm_compute in map yy_accessing_of yy_states.

Definition yy_accessing (s : Z) : Z := nth (Z.to_nat s) yy_accessing_tbl YYNOCODE.

(** The predecessors of each state, tabulated. *)
Definition yy_preds_tbl : list (list Z) :=
  Eval vm_compute in
    map (fun s => filter (fun p => opt_Z_eqb (yy_trans p (yy_accessing s)) s) yy_states)
        yy_states.

Definition yy_preds (s : Z) : list Z := nth (Z.to_nat s) yy_preds_tbl [].

(** A well-linked stack of states, top first: each state is reached
    from the one below it on its accessing symbol; state 0 is at the
    bottom. *)
Fixpoint yy_linked (ss : list Z) : Prop :=
  match ss with
  | [] => False
  | [s] => s = 0
  | s :: ((s' :: _) as rest) =>
      yy_trans s' (yy_accessing s) = Some s /\ yy_linked rest
  end.

(** The goto after a reduce to [X] from [o] is a shift, or the accept
    of [query] from state 0. *)
Definition goto_okb (o X : Z) : bool :=
  match yy_find_reduce_action o X with
  | Ok a => ((0 <=? a) && (a <? YYNSTATE) && negb (X =? NT_query))
            || ((a =? YY_ACCEPT_ACTION) && (X =? NT_query) && (o =? 0))
  | Stuck _ => false
  end.

(** Every backward walk from [s] spells [syms] (top first) and ends in
    a state with a good goto on [lhs]. *)
Fixpoint rhs_check (syms : list Z) (s lhs : Z) : bool :=
  match syms with
  | [] => goto_okb s lhs
  | X :: syms' =>
      negb (s =? 0) && (yy_accessing s =? X)
      && forallb (fun p => rhs_check syms' p lhs) (yy_preds s)
  end.

(** The check of all reduce actions of all states. *)
Definition reduce_check_state (s : Z) : bool :=
  forall_Z 0 11 (fun la =>
    match yy_find_shift_action s la with
    | Ok a =>
        if (YYNSTATE <=? a) && (a <? YYNSTATE + YYNRULE)
        then rhs_check (rev (rule_rhs (a - YYNSTATE))) s (rule_lhs (a - YYNSTATE))
        else true
    | Stuck _ => false
    end).

(** ** Facts about the tables *)

Lemma yy_trans_range (s X a : Z) : yy_trans s X = Some a -> 0 <= a < YYNSTATE.
Proof.
  unfold yy_trans. destruct (if is_terminal X then _ else _) as [b|]; [|discriminate].
  destruct ((0 <=? b) && (b <? YYNSTATE)) eqn:E; [|discriminate].
  intros [= <-]. apply andb_true_iff in E as [E1 E2]. lia.
Qed.

Lemma yy_linked_range (ss : list Z) :
  yy_linked ss -> Forall (fun s => 0 <= s < YYNSTATE) ss.
Proof.
  induction ss as [|s [|s' ss'] IH]; simpl; intros H; [contradiction| |].
  - subst. repeat constructor; unfold YYNSTATE; lia.
  - destruct H as [Ht Hl]. constructor; [eapply yy_trans_range; eauto | auto].
Qed.

(** Checks by evaluation over all states and symbols. *)
Definition accessing_check : bool :=
  forall_Z 0 38 (fun p => forall_Z 0 19 (fun X =>
    match yy_trans p X with
    | Some s => (yy_accessing s =? X) && negb (s =? 0)
    | None => true
    end)).

Definition preds_check : bool :=
  forall_Z 0 38 (fun p => forall_Z 0 38 (fun s =>
    implb (opt_Z_eqb (yy_trans p (yy_accessing s)) s)
          (existsb (Z.eqb p) (yy_preds s)))).

Lemma accessing_check_ok : accessing_check = true.
Proof. vm_compute. reflexivity. Qed.

Lemma preds_check_ok : preds_check = true.
Proof. vm_compute. reflexivity. Qed.

Lemma reduce_check_ok : forall_Z 0 38 reduce_check_state = true.
Proof. vm_compute. reflexivity. Qed.

Lemma opt_Z_eqb_Some (a s : Z) : opt_Z_eqb (Some a) s = true <-> a = s.
Proof. simpl. apply Z.eqb_eq. Qed.

(** Each state has a single accessing symbol, and no transition enters
    state 0. *)
Lemma yy_trans_accessing (p X s : Z) :
  0 <= p < YYNSTATE -> 0 <= X < 19 -> yy_trans p X = Some s ->
  yy_accessing s = X /\ s <> 0.
Proof.
  intros Hp HX Ht.
  pose proof (forall_Z_spec _ _ _ accessing_check_ok p ltac:(unfold YYNSTATE in Hp; lia)) as H.
  pose proof (forall_Z_spec _ _ _ H X ltac:(lia)) as H'. simpl in H'.
  rewrite Ht in H'. apply andb_true_iff in H' as [H1 H2].
  apply Z.eqb_eq in H1. rewrite negb_true_iff, Z.eqb_neq in H2. auto.
Qed.

Lemma yy_preds_complete (p s : Z) :
  0 <= p < YYNSTATE -> yy_trans p (yy_accessing s) = Some s -> In p (yy_preds s).
Proof.
  intros Hp Ht. pose proof (yy_trans_range _ _ _ Ht) as Hs.
  pose proof (forall_Z_spec _ _ _ preds_check_ok p ltac:(unfold YYNSTATE in Hp; lia)) as H.
  pose proof (forall_Z_spec _ _ _ H s ltac:(unfold YYNSTATE in Hs; lia)) as H'. simpl in H'.
  rewrite Ht in H'. simpl in H'. rewrite Z.eqb_refl in H'. simpl in H'.
  apply existsb_exists in H' as [q [Hq Heq]]. apply Z.eqb_eq in Heq. subst. exact Hq.
Qed.

Lemma rhs_check_sound (syms : list Z) :
  forall s rest lhs, rhs_check syms s lhs = true -> yy_linked (s :: rest) ->
  (length syms < length (s :: rest))%nat
  /\ map yy_accessing (firstn (length syms) (s :: rest)) = syms
  /\ goto_okb (nth (length syms) (s :: rest) 0) lhs = true.
Proof.
  induction syms as [|X syms IH]; intros s rest lhs Hc Hl; simpl in Hc |- *.
  - repeat split; [lia | exact Hc].
  - apply andb_true_iff in Hc as [Hc Hall]. apply andb_true_iff in Hc as [Hn0 HX].
    rewrite negb_true_iff, Z.eqb_neq in Hn0. apply Z.eqb_eq in HX.
    destruct rest as [|s' rest]; [simpl in Hl; contradiction|].
    destruct Hl as [Ht Hl].
    pose proof (yy_linked_range _ Hl) as Hr. inversion Hr as [|? ? Hs' _]; subst.
    rewrite forallb_forall in Hall.
    specialize (Hall s' (yy_preds_complete _ _ Hs' Ht)).
    destruct (IH s' rest lhs Hall Hl) as (Hlen & Hmap & Hgoto).
    simpl in *. repeat split; [lia | congruence | exact Hgoto].
Qed.

(** The LR viability property: in a well-linked stack whose top state
    selects a reduce by rule [r], the top [length (rule_rhs r)] states
    are accessed by exactly the rule's right-hand side, there is a
    state below them, and the goto from it on the rule's left-hand
    side is a shift (or the accept of [query] from state 0). *)
Lemma reduce_viable (s : Z) (rest : list Z) (la a : Z) :
  yy_linked (s :: rest) -> 0 <= la < 11 ->
  yy_find_shift_action s la = Ok a -> YYNSTATE <= a < YYNSTATE + YYNRULE ->
  let r := a - YYNSTATE in
  (length (rule_rhs r) < length (s :: rest))%nat
  /\ map yy_accessing (firstn (length (rule_rhs r)) (s :: rest)) = rev (rule_rhs r)
  /\ goto_okb (nth (length (rule_rhs r)) (s :: rest) 0) (rule_lhs r) = true.
Proof.
  intros Hl Hla Hf Ha r.
  pose proof (yy_linked_range _ Hl) as Hr. inversion Hr as [|? ? Hs _]; subst.
  pose proof (forall_Z_spec _ _ _ reduce_check_ok s ltac:(unfold YYNSTATE in Hs; lia)) as H.
  pose proof (forall_Z_spec _ _ _ H la ltac:(lia)) as H'. cbv beta in H'.
  rewrite Hf in H'.
  assert (Hc : (YYNSTATE <=? a) && (a <? YYNSTATE + YYNRULE) = true)
    by (apply andb_true_iff; split; [apply Z.leb_le | apply Z.ltb_lt]; lia).
  rewrite Hc in H'.
  destruct (rhs_check_sound _ _ _ _ H' Hl) as (H1 & H2 & H3).
  rewrite length_rev in *. auto.
Qed.

(** The action of a terminal is a shift, a reduce or the error action
    (never the accept or the empty slot), and end of input is never
    shifted. *)
Definition shift_check : bool :=
  forall_Z 0 38 (fun s => forall_Z 0 11 (fun la =>
    match yy_find_shift_action s la with
    | Ok a => (0 <=? a) && (a <=? YY_ERROR_ACTION) && implb (la =? TK_EOF) (YYNSTATE <=? a)
    | Stuck _ => false
    end)).

Lemma shift_check_ok : shift_check = true.
Proof. vm_compute. reflexivity. Qed.

Lemma yy_find_shift_action_cases (s la : Z) :
  0 <= s < YYNSTATE -> 0 <= la < 11 ->
  exists a, yy_find_shift_action s la = Ok a /\ 0 <= a <= YY_ERROR_ACTION
            /\ (la = TK_EOF -> YYNSTATE <= a).
Proof.
  intros Hs Hla.
  pose proof (forall_Z_spec _ _ _ shift_check_ok s ltac:(unfold YYNSTATE in Hs; lia)) as H.
  pose proof (forall_Z_spec _ _ _ H la ltac:(lia)) as H'. cbv beta in H'.
  destruct (yy_find_shift_action s la) as [a|]; [|discriminate].
  exists a. apply andb_true_iff in H' as [H1 H3]. apply andb_true_iff in H1 as [H1 H2].
  apply Z.leb_le in H1, H2. split; [reflexivity|]. split; [lia|].
  intros ->. rewrite Z.eqb_refl in H3. apply Z.leb_le. exact H3.
Qed.

Definition rule_check : bool :=
  forall_Z 0 22 (fun r => (Z.of_nat (length (rule_rhs r)) =? rule_nrhs r)
                          && (NT_modifierlist <=? rule_lhs r) && (rule_lhs r <=? NT_exact)
                          && ((rule_lhs r =? NT_query) || (1 <=? rule_nrhs r))).

Lemma rule_check_ok : rule_check = true.
Proof. vm_compute. reflexivity. Qed.

(** [yyRuleInfo] agrees with the right-hand sides of [yyRuleName], and
    every left-hand side is a nonterminal. *)
Lemma rule_rhs_length (r : Z) :
  0 <= r < YYNRULE ->
  Z.of_nat (length (rule_rhs r)) = rule_nrhs r
  /\ NT_modifierlist <= rule_lhs r <= NT_exact
  /\ (rule_lhs r = NT_query \/ 1 <= rule_nrhs r).
Proof.
  intros Hr.
  pose proof (forall_Z_spec _ _ _ rule_check_ok r ltac:(unfold YYNRULE in Hr; lia)) as H.
  cbv beta in H. apply andb_true_iff in H as [H H4]. apply andb_true_iff in H as [H H3].
  apply andb_true_iff in H as [H1 H2].
  apply Z.eqb_eq in H1. apply Z.leb_le in H2, H3.
  apply orb_true_iff in H4 as [H4|H4]; [apply Z.eqb_eq in H4 | apply Z.leb_le in H4]; auto.
Qed.

(** Every entry of [yy_action] is non-negative. *)
Lemma yy_action_nonneg (i : Z) : 0 <= arr_get yy_action i.
Proof.
  unfold arr_get. destruct (Nat.lt_ge_cases (Z.to_nat i) (length yy_action)) as [H|H].
  - assert (Hall : Forall (fun a => 0 <= a) yy_action)
      by (repeat constructor; vm_compute; discriminate).
    rewrite Forall_forall in Hall. apply Hall, nth_In, H.
  - rewrite nth_overflow by exact H. lia.
Qed.

(** State 0 is entered by no transition: in a well-linked stack it is
    the bottom. *)
Lemma yy_linked_zero (rest : list Z) : yy_linked (0 :: rest) -> rest = [].
Proof.
  destruct rest as [|s rest]; [reflexivity|]. simpl. intros [Ht _].
  replace (yy_accessing 0) with YYNOCODE in Ht by reflexivity.
  unfold yy_trans, yy_find_reduce_action in Ht.
  replace (is_terminal YYNOCODE) with false in Ht by reflexivity.
  replace (YYNOCODE =? YYNOCODE) with true in Ht by reflexivity.
  destruct (s >? YY_REDUCE_MAX); [discriminate|].
  destruct (arr_get yy_reduce_ofst s =? YY_REDUCE_USE_DFLT); discriminate.
Qed.

Lemma goto_okb_cases (o X : Z) :
  goto_okb o X = true ->
  exists a, yy_find_reduce_action o X = Ok a
    /\ ((0 <= a < YYNSTATE /\ X <> NT_query) \/ (a = YY_ACCEPT_ACTION /\ X = NT_query /\ o = 0)).
Proof.
  unfold goto_okb. destruct (yy_find_reduce_action o X) as [a|]; [|discriminate].
  intros H. exists a. split; [reflexivity|].
  apply orb_true_iff in H as [H|H]; repeat rewrite andb_true_iff in H.
  - destruct H as [[H1 H2] H3]. rewrite negb_true_iff, Z.eqb_neq in H3.
    apply Z.leb_le in H1. apply Z.ltb_lt in H2. left. auto.
  - destruct H as [[H1 H2] H3]. apply Z.eqb_eq in H1, H2, H3. right. auto.
Qed.

(** A goto to a state is a transition of the automaton. *)
Lemma yy_trans_goto (o X a : Z) :
  NT_modifierlist <= X -> yy_find_reduce_action o X = Ok a -> 0 <= a < YYNSTATE ->
  yy_trans o X = Some a.
Proof.
  intros HX Hf Ha. unfold yy_trans.
  replace (is_terminal X) with false
    by (symmetry; unfold is_terminal, YYERRORSYM, NT_modifierlist in *;
        apply andb_false_iff; right; apply Z.ltb_ge; lia).
  rewrite Hf. replace ((0 <=? a) && (a <? YYNSTATE)) with true
    by (symmetry; apply andb_true_iff; split; [apply Z.leb_le | apply Z.ltb_lt]; lia).
  reflexivity.
Qed.

(** A rule for [query] is reduced only on end of input. *)
Definition query_reduce_check : bool :=
  forall_Z 0 38 (fun s => forall_Z 1 10 (fun la =>
    match yy_find_shift_action s la with
    | Ok a => implb ((YYNSTATE <=? a) && (a <? YYNSTATE + YYNRULE))
                    (negb (rule_lhs (a - YYNSTATE) =? NT_query))
    | Stuck _ => false
    end)).

Lemma query_reduce_check_ok : query_reduce_check = true.
Proof. vm_compute. reflexivity. Qed.

Lemma query_reduce_only_at_eof (s la a : Z) :
  0 <= s < YYNSTATE -> 1 <= la < 11 -> yy_find_shift_action s la = Ok a ->
  YYNSTATE <= a < YYNSTATE + YYNRULE -> rule_lhs (a - YYNSTATE) <> NT_query.
Proof.
  intros Hs Hla Hf Ha.
  pose proof (forall_Z_spec _ _ _ query_reduce_check_ok s ltac:(unfold YYNSTATE in Hs; lia)) as H.
  pose proof (forall_Z_spec _ _ _ H la ltac:(lia)) as H'. cbv beta in H'. rewrite Hf in H'.
  replace ((YYNSTATE <=? a) && (a <? YYNSTATE + YYNRULE)) with true in H'
    by (symmetry; apply andb_true_iff; split; [apply Z.leb_le | apply Z.ltb_lt]; lia).
  simpl in H'. rewrite negb_true_iff, Z.eqb_neq in H'. exact H'.
Qed.

End Tables.
