(* ===== verification/Tracing.v ===== *)
(** * The tracing support of the build without [NDEBUG]

    [parser.c] keeps, for tracing, the names of the symbols
    ([yyTokenName], lines 291 to 297) and the text of every rule
    ([yyRuleName], lines 303 to 326), and two globals set by
    [ParseTrace] (lines 258 to 282).  The [NDEBUG] build that
    [Automaton] models uses neither, but the rule texts are the
    grammar as the generator printed it: [yyRuleName_agrees] reads
    every text back word by word through [yyTokenName] and checks it
    against [yyRuleInfo], left-hand side and right-hand-side count, so
    the numeric tables the parser runs on are the grammar of
    [parser.y], and the right-hand sides [Tables] uses for its reduce
    checks are the ones the texts name.
    [ParseTrace] is modelled on the pair of globals; tracing is on
    exactly when both a stream and a prompt were given, and the two
    globals are never half set ([ParseTrace_consistent]).  The trace
    output of the fixed-stack build, its [fprintf] calls, is modelled
    in [DebugTrace]; the ["Stack grows to %d entries!"] line of
    [yyGrowStack] (lines 343 to 348) exists only in the growable build
    with tracing on, which no file models. *)

From Stdlib Require Import ZArith Ascii String List Bool Lia.
From S2P Require Import Prelude Tables.
Import ListNotations.
Import Tables.
Open Scope Z_scope.

Module Tracing.

(** ** The names of the symbols and of the rules *)

Definition yyTokenName : list string := [
  "$"; "OR"; "LP"; "RP";
  "QUOTE"; "TERM"; "AT"; "MINUS";
  "TILDE"; "STAR"; "COLON"; "error";
  "modifierlist"; "modifier"; "query"; "exprlist";
  "expr"; "union"; "exact"]%string.

Definition yyRuleName : list string := [
  "query ::= exprlist";
  "query ::= expr";
  "query ::=";
  "exprlist ::= expr expr";
  "exprlist ::= exprlist expr";
  "expr ::= union";
  "expr ::= LP expr RP";
  "expr ::= LP exprlist RP";
  "expr ::= TERM";
  "expr ::= MINUS expr";
  "expr ::= TILDE expr";
  "modifier ::= AT TERM";
  "modifierlist ::= modifier OR TERM";
  "modifierlist ::= modifierlist OR TERM";
  "expr ::= TERM STAR";
  "expr ::= modifierlist COLON expr";
  "expr ::= modifier COLON expr";
  "exact ::= QUOTE TERM";
  "exact ::= exact TERM";
  "expr ::= exact QUOTE";
  "union ::= union OR TERM";
  "union ::= TERM OR TERM"]%string.

(** The name of symbol [X]. *)
Definition token_name (X : Z) : string := nth (Z.to_nat X) yyTokenName EmptyString.

(** ** Reading a rule text back *)

(** The index of a name in a table. *)
Fixpoint index_of (nm : string) (l : list string) (i : Z) : option Z :=
  match l with
  | [] => None
  | x :: l' => if String.eqb x nm then Some i else index_of nm l' (i + 1)
  end.

(** The symbol code whose [yyTokenName] is [nm]. *)
Definition symbol_code (nm : string) : option Z := index_of nm yyTokenName 0.

Definition names_distinct_check : bool :=
  forall_Z 0 19 (fun X => match symbol_code (token_name X) with Some Y => Y =? X | None => false end).

Lemma symbol_code_name (X : Z) : 0 <= X < 19 -> symbol_code (token_name X) = Some X.
Proof.
  intros HX. assert (Hc : names_distinct_check = true) by (vm_compute; reflexivity).
  pose proof (forall_Z_spec _ _ _ Hc X ltac:(simpl; lia)) as H. cbv beta in H.
  destruct (symbol_code (token_name X)) as [Y|]; [|discriminate H]. apply Z.eqb_eq in H. subst. reflexivity.
Qed.

(** The words of a text separated by single spaces. *)
Fixpoint split_words (s : string) : list string :=
  match s with
  | EmptyString => [EmptyString]
  | String c s' =>
      if Ascii.eqb c " "%char then EmptyString :: split_words s'
      else match split_words s' with
           | w :: ws => String c w :: ws
           | [] => [String c EmptyString]
           end
  end.

(** The symbol codes of a list of names, if every name is one. *)
Fixpoint symbol_codes (ws : list string) : option (list Z) :=
  match ws with
  | [] => Some []
  | w :: ws' =>
      match symbol_code w, symbol_codes ws' with
      | Some X, Some Xs => Some (X :: Xs)
      | _, _ => None
      end
  end.

(** A rule text ["lhs ::= X1 ... Xn"] decoded through [yyTokenName]:
    the code of the left-hand side and the codes of the right-hand
    side. *)
Definition decode_rule_text (t : string) : option (Z * list Z) :=
  match split_words t with
  | lhs :: sep :: rhs =>
      if String.eqb sep "::=" then
        match symbol_code lhs, symbol_codes rhs with
        | Some l, Some rs => Some (l, rs)
        | _, _ => None
        end
      else None
  | _ => None
  end.

(** Rule [r] of [yyRuleName], decoded, is the left-hand side that
    [yyRuleInfo] records, a right-hand side of the length [yyRuleInfo]
    records, and the right-hand side the table checks of [Tables] use. *)
Definition rule_name_ok (r : Z) : bool :=
  match decode_rule_text (nth (Z.to_nat r) yyRuleName EmptyString) with
  | Some (l, rs) =>
      (l =? rule_lhs r) && (Z.of_nat (length rs) =? rule_nrhs r)
      && (if list_eq_dec Z.eq_dec rs (rule_rhs r) then true else false)
  | None => false
  end.

Definition rule_names_check : bool :=
  (length yyRuleName =? Z.to_nat YYNRULE)%nat && forall_Z 0 22 rule_name_ok.

Lemma rule_names_check_ok : rule_names_check = true.
Proof. vm_compute. reflexivity. Qed.

Lemma rule_name_ok_spec (r : Z) :
  rule_name_ok r = true ->
  decode_rule_text (nth (Z.to_nat r) yyRuleName EmptyString) = Some (rule_lhs r, rule_rhs r)
  /\ Z.of_nat (length (rule_rhs r)) = rule_nrhs r.
Proof.
  unfold rule_name_ok.
  destruct (decode_rule_text _) as [[l rs]|]; [|discriminate].
  destruct (list_eq_dec Z.eq_dec rs (rule_rhs r)) as [->|]; rewrite ?andb_false_r; [|discriminate].
  intros H. apply andb_true_iff in H as [H _]. apply andb_true_iff in H as [Hl Hn].
  apply Z.eqb_eq in Hl, Hn. subst l. split; [reflexivity | exact Hn].
Qed.

(** ** [ParseTrace] *)

(** The two globals; a [FILE*] is an opaque handle, [NULL] is [None]. *)
Record TraceState := mkTrace {
  yyTraceFILE : option nat;
  yyTracePrompt : option string
}.

(** [static FILE *yyTraceFILE = 0; static char *yyTracePrompt = 0;] *)
Definition trace_init : TraceState := mkTrace None None.

(** [ParseTrace(TraceFILE, zTracePrompt)]: store both, then clear the
    prompt if there is no stream, or else the stream if there is no
    prompt. *)
Definition ParseTrace (st : TraceState) (TraceFILE : option nat) (zTracePrompt : option string)
  : TraceState :=
  let st1 := mkTrace TraceFILE zTracePrompt in
  match yyTraceFILE st1 with
  | None => mkTrace (yyTraceFILE st1) None
  | Some _ =>
      match yyTracePrompt st1 with
      | None => mkTrace None (yyTracePrompt st1)
      | Some _ => st1
      end
  end.

(** Tracing writes only when both globals are set. *)
Definition trace_on (st : TraceState) : bool :=
  match yyTraceFILE st, yyTracePrompt st with
  | Some _, Some _ => true
  | _, _ => false
  end.

(** A pointer is not [NULL]. *)
Definition is_set {A : Type} (o : option A) : bool := match o with Some _ => true | None => false end.

(** The globals are both set or both cleared. *)
Definition trace_consistent (st : TraceState) : bool :=
  Bool.eqb (is_set (yyTraceFILE st)) (is_set (yyTracePrompt st)).

(** A sequence of [ParseTrace] calls from the initial globals. *)
Definition run_trace (calls : list (option nat * option string)) : TraceState :=
  fold_left (fun st c => ParseTrace st (fst c) (snd c)) calls trace_init.

Lemma ParseTrace_result (st : TraceState) (f : option nat) (pr : option string) :
  ParseTrace st f pr
  = match f, pr with Some _, Some _ => mkTrace f pr | _, _ => mkTrace None None end.
Proof. destruct f, pr; reflexivity. Qed.

Section Claims.


(** C20. [ParseTrace] never leaves tracing half configured: after any
    sequence of calls, the stream and the prompt are both set or both
    cleared, and the last call turned tracing on exactly when it was
    given both a stream and a prompt. *)
Theorem ParseTrace_consistent (calls : list (option nat * option string)) :
  trace_consistent (run_trace calls) = true
  /\ forall c rest, calls = rest ++ [c] ->
     trace_on (run_trace calls) = is_set (fst c) && is_set (snd c).
Proof.
  unfold run_trace. split.
  - destruct calls as [|c rest] using rev_ind; [reflexivity|].
    rewrite fold_left_app. simpl. rewrite ParseTrace_result.
    destruct (fst c), (snd c); reflexivity.
  - intros c rest ->. rewrite fold_left_app. simpl. rewrite ParseTrace_result.
    destruct (fst c), (snd c); reflexivity.
Qed.

End Claims.


Lemma ParseTrace_consistent_witness :
  trace_consistent (run_trace [(Some 1%nat, Some "> "%string); (Some 2%nat, None)]) = true
  /\ trace_on (run_trace [(Some 1%nat, Some "> "%string); (Some 2%nat, None)]) = false.
Proof.
  destruct (ParseTrace_consistent [(Some 1%nat, Some "> "%string); (Some 2%nat, None)]) as [H1 H2].
  split; [exact H1|]. exact (H2 (Some 2%nat, None) [(Some 1%nat, Some "> "%string)] eq_refl).
Defined.

End Tracing.
