(* ===== verification/QueryNode.v ===== *)
(** * Query nodes, the tree the semantic actions build

    [parser.c] calls the constructors of [query_node.c]
    ([NewTokenNode], [NewPhraseNode], [NewUnionNode], [NewNotNode],
    [NewOptionalNode], [NewPrefixNode]), the mutators
    [QueryPhraseNode_AddChild] and [QueryUnionNode_AddChild], the
    recursive [QueryNode_Free], and the schema lookup
    [IndexSpec_GetFieldBit] of [spec.c].  Those files are not under
    [src/]: this file models them from the specification (section 3,
    4.3 and 4.4).  A [QueryNode] is an inductive with one constructor
    per node kind, each carrying its [fieldMask]; a mutator applied to
    a node of the wrong kind is [None] (in C it writes through the
    wrong union member).  The field resolver is an interface, the type
    class [FieldResolver], with the promise that a lookup yields one
    field bit or nothing; [ListSchema] implements it. *)

From Stdlib Require Import ZArith String List Bool Lia.
From S2P Require Import Prelude.
Import ListNotations.
Open Scope Z_scope.

Module QueryNode.

#[local] Set Warnings "-register-all".

(** [QueryToken] of [parse.h]: the text, its length and its offset. *)
Record QueryToken := mkToken { qt_s : string; qt_len : Z; qt_pos : Z }.

(** The default mask, "match all fields": every bit set, at any
    width. *)
Definition RS_FIELDMASK_ALL : Z := -1.

Inductive QueryNode : Type :=
| QN_Token (fieldMask : Z) (str : string) (len : Z)
| QN_Phrase (fieldMask : Z) (exact : bool) (children : list QueryNode)
| QN_Union (fieldMask : Z) (children : list QueryNode)
| QN_Not (fieldMask : Z) (child : QueryNode)
| QN_Optional (fieldMask : Z) (child : QueryNode)
| QN_Prefix (fieldMask : Z) (str : string) (len : Z).

(** ** Constructors and mutators *)

Definition NewTokenNode (s : string) (len : Z) : QueryNode :=
  QN_Token RS_FIELDMASK_ALL s len.
Definition NewPrefixNode (s : string) (len : Z) : QueryNode :=
  QN_Prefix RS_FIELDMASK_ALL s len.
Definition NewPhraseNode (exact : bool) : QueryNode :=
  QN_Phrase RS_FIELDMASK_ALL exact [].
Definition NewUnionNode : QueryNode := QN_Union RS_FIELDMASK_ALL [].
Definition NewNotNode (child : QueryNode) : QueryNode := QN_Not RS_FIELDMASK_ALL child.
Definition NewOptionalNode (child : QueryNode) : QueryNode :=
  QN_Optional RS_FIELDMASK_ALL child.

(** Append a child to a phrase node. *)
Definition QueryPhraseNode_AddChild (parent child : QueryNode) : option QueryNode :=
  match parent with
  | QN_Phrase m ex ch => Some (QN_Phrase m ex (ch ++ [child]))
  | _ => None
  end.

(** Append a child to a union node. *)
Definition QueryUnionNode_AddChild (parent child : QueryNode) : option QueryNode :=
  match parent with
  | QN_Union m ch => Some (QN_Union m (ch ++ [child]))
  | _ => None
  end.

Definition fieldMask (n : QueryNode) : Z :=
  match n with
  | QN_Token m _ _ | QN_Phrase m _ _ | QN_Union m _ | QN_Not m _
  | QN_Optional m _ | QN_Prefix m _ _ => m
  end.

(** [n->fieldMask = m]. *)
Definition set_fieldMask (m : Z) (n : QueryNode) : QueryNode :=
  match n with
  | QN_Token _ s l => QN_Token m s l
  | QN_Phrase _ ex ch => QN_Phrase m ex ch
  | QN_Union _ ch => QN_Union m ch
  | QN_Not _ c => QN_Not m c
  | QN_Optional _ c => QN_Optional m c
  | QN_Prefix _ s l => QN_Prefix m s l
  end.

(** ** Ownership: the number of heap nodes of a tree *)

Fixpoint node_count (n : QueryNode) : nat :=
  match n with
  | QN_Token _ _ _ | QN_Prefix _ _ _ => 1
  | QN_Phrase _ _ ch | QN_Union _ ch => S (sum_nat (map node_count ch))
  | QN_Not _ c | QN_Optional _ c => S (node_count c)
  end.

Definition children_count (l : list QueryNode) : nat := sum_nat (map node_count l).

(** [QueryNode_Free]: releases the node and, recursively, its children;
    on the allocator's count of live nodes it subtracts the tree's
    size. *)
Definition QueryNode_Free (live : nat) (n : QueryNode) : nat := (live - node_count n)%nat.

Lemma node_count_children (m : Z) (ex : bool) (ch : list QueryNode) :
  node_count (QN_Phrase m ex ch) = S (children_count ch)
  /\ node_count (QN_Union m ch) = S (children_count ch).
Proof.
  split; reflexivity.
Qed.

Lemma node_count_pos (n : QueryNode) : (1 <= node_count n)%nat.
Proof. destruct n; simpl; lia. Qed.

Lemma node_count_set_fieldMask (m : Z) (n : QueryNode) :
  node_count (set_fieldMask m n) = node_count n.
Proof. destruct n; reflexivity. Qed.

Lemma children_count_app (l1 l2 : list QueryNode) :
  children_count (l1 ++ l2) = (children_count l1 + children_count l2)%nat.
Proof. unfold children_count. rewrite map_app. apply sum_nat_app. Qed.

(** Appending a child moves its nodes into the parent. *)
Lemma AddChild_node_count (p c p' : QueryNode) :
  (QueryPhraseNode_AddChild p c = Some p' \/ QueryUnionNode_AddChild p c = Some p') ->
  node_count p' = (node_count p + node_count c)%nat.
Proof.
  intros [H|H]; destruct p as [| m ex ch | m ch | | |]; simpl in H; try discriminate;
    injection H as <-.
  - rewrite (proj1 (node_count_children m ex (ch ++ [c]))),
      (proj1 (node_count_children m ex ch)), children_count_app.
    unfold children_count at 2. simpl. lia.
  - rewrite (proj2 (node_count_children m false (ch ++ [c]))),
      (proj2 (node_count_children m false ch)), children_count_app.
    unfold children_count at 2. simpl. lia.
Qed.

Lemma node_count_phrase (m : Z) (ex : bool) (ch : list QueryNode) :
  node_count (QN_Phrase m ex ch) = S (children_count ch).
Proof. apply node_count_children. Qed.

Lemma node_count_union (m : Z) (ch : list QueryNode) :
  node_count (QN_Union m ch) = S (children_count ch).
Proof. apply (node_count_children m false). Qed.

Lemma children_count_nil : children_count [] = O.
Proof. reflexivity. Qed.

Lemma children_count_cons (c : QueryNode) (l : list QueryNode) :
  children_count (c :: l) = (node_count c + children_count l)%nat.
Proof. reflexivity. Qed.

#[export] Hint Rewrite node_count_set_fieldMask : lemon_rw.

(** ** The field resolver *)

(** What [spec.c] promises the parser: the mask bit of a field name
    ([IndexSpec_GetFieldBit(spec, name, len)]), a single bit when the
    name is a field of the schema and 0 otherwise. *)
Class FieldResolver (IndexSpec : Type) := {
  IndexSpec_GetFieldBit : IndexSpec -> string -> Z -> Z;
  GetFieldBit_single : forall sp name len,
    IndexSpec_GetFieldBit sp name len = 0
    \/ exists k, 0 <= k /\ IndexSpec_GetFieldBit sp name len = 2 ^ k
}.

(** A schema as the ordered list of its field names; field [i] owns
    bit [i].  The name compared is the first [len] bytes. *)
Definition ListSchema := list string.

Fixpoint list_field_bit (fields : list string) (name : string) (i : Z) : Z :=
  match fields with
  | [] => 0
  | f :: fs => if String.eqb f name then 2 ^ i else list_field_bit fs name (i + 1)
  end.

Lemma list_field_bit_single (fields : list string) (name : string) (i : Z) :
  0 <= i ->
  list_field_bit fields name i = 0
  \/ exists k, 0 <= k /\ list_field_bit fields name i = 2 ^ k.
Proof.
  revert i. induction fields as [|f fs IH]; simpl; intros i Hi; [auto|].
  destruct (String.eqb f name); [right; exists i; auto | apply IH; lia].
Qed.

#[export] Instance ListSchema_resolver : FieldResolver ListSchema := {
  IndexSpec_GetFieldBit sp name len :=
    list_field_bit sp (substring 0 (Z.to_nat len) name) 0;
  GetFieldBit_single sp name len :=
    list_field_bit_single sp (substring 0 (Z.to_nat len) name) 0 (Z.le_refl 0)
}.

End QueryNode.
