(* ===== verification/Grammar.v ===== *)
(** * The query grammar of the specification, as a derivation relation

    The contract of the parser (specification, section 4.2): the
    grammar of queries with the value each production builds.
    [derives X w v] says that the symbol [X] (a terminal code or a
    nonterminal code of [Tables]) derives the token sequence [w] with
    the semantic value [v]: the token itself for terminals and
    [modifier], the list of field names for [modifierlist], a query
    node for the others.  [derives_query w r] is the start symbol: the
    root [r] of a query [w].

    The values are written from the specification's semantic actions:
    implicit intersection is a non-exact phrase, appended to on the
    left; grouping adds no node; a field scope writes the OR of the
    field bits into the mask, and leaves the default when there is no
    schema (section 4.4); a quoted phrase is an exact phrase; a union
    of terms is left-associative.  [wf_node] is the shape of the trees
    derivations build ([derives_wf]).  [Refinement] proves that a
    parse that keeps [ctx->ok] builds such a derivation of its input,
    and any parse one of a subsequence of it. *)

From Stdlib Require Import ZArith String List Bool Lia.
From S2P Require Import Prelude Tables QueryNode.
Import ListNotations.
Import Tables QueryNode.
Open Scope Z_scope.

Module Grammar.

(** A token as the lexer hands it to [Parse]: its kind and its value. *)
Definition token : Type := (Z * QueryToken)%type.

(** The semantic value of a symbol. *)
Inductive sem : Type :=
| SemToken (t : QueryToken)
| SemNames (names : list string)
| SemNode (n : QueryNode).

Section Derivations.
Context {IndexSpec : Type} `{FR : FieldResolver IndexSpec}.
Variable sp : option IndexSpec.

(** The mask of a list of field names: the OR of their bits. *)
Definition field_bits (s : IndexSpec) (names : list string) : Z :=
  fold_right (fun name acc =>
                Z.lor (IndexSpec_GetFieldBit s name (Z.of_nat (String.length name))) acc)
             0 names.

(** [modifierlist ':' expr]: the mask becomes the OR of the bits; with
    no schema the default mask is left in place. *)
Definition scope_fields (names : list string) (n : QueryNode) : QueryNode :=
  match sp with
  | Some s => set_fieldMask (field_bits s names) n
  | None => n
  end.

(** [modifier ':' expr]: the mask becomes the bit of the one field. *)
Definition scope_field (t : QueryToken) (n : QueryNode) : QueryNode :=
  match sp with
  | Some s => set_fieldMask (IndexSpec_GetFieldBit s (qt_s t) (qt_len t)) n
  | None => n
  end.

Inductive derives : Z -> list token -> sem -> Prop :=
(* a terminal derives itself *)
| D_token k t :
    1 <= k < 11 -> derives k [(k, t)] (SemToken t)
(* exprlist ::= expr expr *)
| D_exprlist_pair w1 w2 a b :
    derives NT_expr w1 (SemNode a) -> derives NT_expr w2 (SemNode b) ->
    derives NT_exprlist (w1 ++ w2) (SemNode (QN_Phrase RS_FIELDMASK_ALL false [a; b]))
(* exprlist ::= exprlist expr *)
| D_exprlist_more w1 w2 m cs e :
    derives NT_exprlist w1 (SemNode (QN_Phrase m false cs)) -> derives NT_expr w2 (SemNode e) ->
    derives NT_exprlist (w1 ++ w2) (SemNode (QN_Phrase m false (cs ++ [e])))
(* expr ::= union *)
| D_expr_union w n :
    derives NT_union w (SemNode n) -> derives NT_expr w (SemNode n)
(* expr ::= '(' expr ')' *)
| D_expr_paren l w r n :
    derives NT_expr w (SemNode n) ->
    derives NT_expr ([(TK_LP, l)] ++ w ++ [(TK_RP, r)]) (SemNode n)
(* expr ::= '(' exprlist ')' *)
| D_expr_paren_list l w r n :
    derives NT_exprlist w (SemNode n) ->
    derives NT_expr ([(TK_LP, l)] ++ w ++ [(TK_RP, r)]) (SemNode n)
(* expr ::= TERM *)
| D_expr_term t :
    derives NT_expr [(TK_TERM, t)] (SemNode (NewTokenNode (qt_s t) (qt_len t)))
(* expr ::= '-' expr *)
| D_expr_not o w n :
    derives NT_expr w (SemNode n) -> derives NT_expr ((TK_MINUS, o) :: w) (SemNode (NewNotNode n))
(* expr ::= '~' expr *)
| D_expr_optional o w n :
    derives NT_expr w (SemNode n) ->
    derives NT_expr ((TK_TILDE, o) :: w) (SemNode (NewOptionalNode n))
(* expr ::= TERM '*' *)
| D_expr_prefix t s :
    derives NT_expr [(TK_TERM, t); (TK_STAR, s)] (SemNode (NewPrefixNode (qt_s t) (qt_len t)))
(* expr ::= modifierlist ':' expr *)
| D_expr_fields w1 c w2 names n :
    derives NT_modifierlist w1 (SemNames names) -> derives NT_expr w2 (SemNode n) ->
    derives NT_expr (w1 ++ (TK_COLON, c) :: w2) (SemNode (scope_fields names n))
(* expr ::= modifier ':' expr *)
| D_expr_field w1 c w2 t n :
    derives NT_modifier w1 (SemToken t) -> derives NT_expr w2 (SemNode n) ->
    derives NT_expr (w1 ++ (TK_COLON, c) :: w2) (SemNode (scope_field t n))
(* modifier ::= '@' TERM *)
| D_modifier a t :
    derives NT_modifier [(TK_AT, a); (TK_TERM, t)] (SemToken t)
(* modifierlist ::= modifier '|' TERM *)
| D_modifierlist_pair w a o t :
    derives NT_modifier w (SemToken a) ->
    derives NT_modifierlist (w ++ [(TK_OR, o); (TK_TERM, t)]) (SemNames [qt_s a; qt_s t])
(* modifierlist ::= modifierlist '|' TERM *)
| D_modifierlist_more w names o t :
    derives NT_modifierlist w (SemNames names) ->
    derives NT_modifierlist (w ++ [(TK_OR, o); (TK_TERM, t)]) (SemNames (names ++ [qt_s t]))
(* exact ::= QUOTE TERM *)
| D_exact_start q t :
    derives NT_exact [(TK_QUOTE, q); (TK_TERM, t)]
      (SemNode (QN_Phrase RS_FIELDMASK_ALL true [NewTokenNode (qt_s t) (qt_len t)]))
(* exact ::= exact TERM *)
| D_exact_more w m cs t :
    derives NT_exact w (SemNode (QN_Phrase m true cs)) ->
    derives NT_exact (w ++ [(TK_TERM, t)])
      (SemNode (QN_Phrase m true (cs ++ [NewTokenNode (qt_s t) (qt_len t)])))
(* expr ::= exact QUOTE *)
| D_expr_exact w q n :
    derives NT_exact w (SemNode n) -> derives NT_expr (w ++ [(TK_QUOTE, q)]) (SemNode n)
(* union ::= union '|' TERM *)
| D_union_more w m cs o t :
    derives NT_union w (SemNode (QN_Union m cs)) ->
    derives NT_union (w ++ [(TK_OR, o); (TK_TERM, t)])
      (SemNode (QN_Union m (cs ++ [NewTokenNode (qt_s t) (qt_len t)])))
(* union ::= TERM '|' TERM *)
| D_union_pair a o b :
    derives NT_union [(TK_TERM, a); (TK_OR, o); (TK_TERM, b)]
      (SemNode (QN_Union RS_FIELDMASK_ALL
                  [NewTokenNode (qt_s a) (qt_len a); NewTokenNode (qt_s b) (qt_len b)])).

(** query ::= exprlist | expr | (empty) *)
Inductive derives_query : list token -> option QueryNode -> Prop :=
| Q_exprlist w n : derives NT_exprlist w (SemNode n) -> derives_query w (Some n)
| Q_expr w n : derives NT_expr w (SemNode n) -> derives_query w (Some n)
| Q_empty : derives_query [] None.

(** ** Shape of derivations *)

(** Every symbol derives a nonempty sequence: the empty query is the
    only empty derivation. *)
Lemma derives_nonempty (X : Z) (w : list token) (v : sem) :
  derives X w v -> w <> [].
Proof.
  induction 1; intros E; try discriminate E; try tauto;
    apply app_eq_nil in E as [E1 E2]; try discriminate E2; tauto.
Qed.

(** A terminal derives exactly one token of its kind. *)
Lemma derives_terminal (k : Z) (w : list token) (v : sem) :
  derives k w v -> 0 <= k < 11 -> exists t, w = [(k, t)] /\ v = SemToken t.
Proof.
  intros H Hk. destruct H;
    try (unfold NT_expr, NT_exprlist, NT_union, NT_modifier, NT_modifierlist, NT_exact in Hk;
         lia); eauto.
Qed.

(** ** The trees a derivation builds are well formed *)

(** A child of an exact phrase or of a union: a plain term node. *)
Definition is_plain_token (n : QueryNode) : bool :=
  match n with
  | QN_Token m _ _ => m =? RS_FIELDMASK_ALL
  | _ => false
  end.

(** The shape of the trees of the specification: an implicit
    intersection has at least two children, an exact phrase at least
    one and only terms, a union at least two terms; masks are free,
    since a field scope may overwrite them. *)
Fixpoint wf_node (n : QueryNode) : bool :=
  match n with
  | QN_Token _ _ _ | QN_Prefix _ _ _ => true
  | QN_Phrase _ false cs => (2 <=? length cs)%nat && forallb wf_node cs
  | QN_Phrase _ true cs => (1 <=? length cs)%nat && forallb is_plain_token cs
  | QN_Union _ cs => (2 <=? length cs)%nat && forallb is_plain_token cs
  | QN_Not _ c | QN_Optional _ c => wf_node c
  end.

Lemma wf_node_set_fieldMask (m : Z) (n : QueryNode) : wf_node (set_fieldMask m n) = wf_node n.
Proof. destruct n as [| ? [|] | | | |]; reflexivity. Qed.

(** Appending a child keeps the shape. *)
Lemma forallb_snoc {A : Type} (f : A -> bool) (l : list A) (x : A) :
  forallb f (l ++ [x]) = forallb f l && f x.
Proof. rewrite forallb_app. simpl. rewrite andb_true_r. reflexivity. Qed.

Lemma length_snoc_leb {A : Type} (k : nat) (l : list A) (x : A) :
  (k <=? length l)%nat = true -> (k <=? length (l ++ [x]))%nat = true.
Proof. intros H. apply Nat.leb_le in H. apply Nat.leb_le. rewrite length_app. simpl. lia. Qed.

Definition sem_wf (v : sem) : bool :=
  match v with SemNode n => wf_node n | _ => true end.

Lemma derives_wf (X : Z) (w : list token) (v : sem) : derives X w v -> sem_wf v = true.
Proof.
  induction 1; cbn [sem_wf wf_node] in *; auto;
    try (unfold scope_fields, scope_field; destruct sp; rewrite ?wf_node_set_fieldMask; assumption).
  - simpl. rewrite IHderives1, IHderives2. reflexivity.
  - apply andb_true_iff in IHderives1 as [Hl Hf].
    rewrite (length_snoc_leb _ _ _ Hl), forallb_snoc, Hf, IHderives2. reflexivity.
  - apply andb_true_iff in IHderives as [Hl Hf].
    rewrite (length_snoc_leb _ _ _ Hl), forallb_snoc, Hf. reflexivity.
  - apply andb_true_iff in IHderives as [Hl Hf].
    rewrite (length_snoc_leb _ _ _ Hl), forallb_snoc, Hf. reflexivity.
Qed.

(** The root of a query is well formed. *)
Lemma derives_query_wf (w : list token) (n : QueryNode) :
  derives_query w (Some n) -> wf_node n = true.
Proof.
  intros H. inversion H as [? ? Hd | ? ? Hd |]; subst; exact (derives_wf _ _ _ Hd).
Qed.

End Derivations.

End Grammar.
