(* ===== verification/Automaton.v ===== *)
(** * The parser: [yyParser], its stack, and [Parse]

    A line-by-line model of the driver of [src/src/query_parser/parser.c]
    together with the semantic actions of [parser.y] inlined in
    [yy_reduce].  The parser state [yyParser] holds the stack (a list,
    top first; the C index [yyidx] is its length minus one), the error
    counter [yyerrcnt], the parse context [parseCtx] the actions write
    ([ctx->root], [ctx->ok], [ctx->errorMsg], and the schema reached
    through [ctx->q->ctx->spec]), and the allocator's count of live
    query nodes.  [YYMINORTYPE] is the C union as a tagged variant:
    reading a member that is not the one held is [BadUnionRead].

    The section is parameterised by the field resolver interface
    [FieldResolver] of [QueryNode]. *)

From Stdlib Require Import ZArith String List Bool Lia.
From S2P Require Import Prelude Tables QueryNode.
Import ListNotations.
Import Tables QueryNode.
Open Scope Z_scope.
Open Scope lemon_scope.

Module Automaton.

Section Parser.
Context {IndexSpec : Type} `{FR : FieldResolver IndexSpec}.

(** ** State *)

Inductive YYMINORTYPE : Type :=
| yyinit
| yy0 (tok : QueryToken)
| yy2 (names : list string)
| yy3 (node : QueryNode).

Record yyStackEntry := mkEntry {
  stateno : Z;
  major : Z;
  minor : YYMINORTYPE
}.

Record parseCtx := mkCtx {
  root : option QueryNode;
  ok : bool;
  errorMsg : option string;
  spec : option IndexSpec
}.

Record yyParser := mkParser {
  yystack : list yyStackEntry;
  yyerrcnt : Z;
  pctx : parseCtx;
  live_nodes : nat
}.

Definition yyidx (p : yyParser) : Z := Z.of_nat (length (yystack p)) - 1.

Definition set_stack (p : yyParser) (st : list yyStackEntry) : yyParser :=
  mkParser st (yyerrcnt p) (pctx p) (live_nodes p).
Definition set_errcnt (p : yyParser) (n : Z) : yyParser :=
  mkParser (yystack p) n (pctx p) (live_nodes p).
Definition set_ctx (p : yyParser) (c : parseCtx) : yyParser :=
  mkParser (yystack p) (yyerrcnt p) c (live_nodes p).
Definition set_live (p : yyParser) (n : nat) : yyParser :=
  mkParser (yystack p) (yyerrcnt p) (pctx p) n.
Definition set_root (p : yyParser) (r : option QueryNode) : yyParser :=
  let c := pctx p in set_ctx p (mkCtx r (ok c) (errorMsg c) (spec c)).

(** One more node allocated. *)
Definition alloc (p : yyParser) : yyParser := set_live p (S (live_nodes p)).

(** ** Reading the union *)

Definition get_yy0 (m : YYMINORTYPE) : outcome QueryToken :=
  match m with yy0 t => Ok t | _ => Stuck (BadUnionRead "yy0") end.
Definition get_yy2 (m : YYMINORTYPE) : outcome (list string) :=
  match m with yy2 v => Ok v | _ => Stuck (BadUnionRead "yy2") end.
Definition get_yy3 (m : YYMINORTYPE) : outcome QueryNode :=
  match m with yy3 n => Ok n | _ => Stuck (BadUnionRead "yy3") end.

(** [yymsp[-k].minor]: the minor of the entry [k] below the top. *)
Definition yymsp (p : yyParser) (k : nat) : outcome YYMINORTYPE :=
  match nth_error (yystack p) k with
  | Some e => Ok (minor e)
  | None => Stuck (AssertFailed "yymsp within the stack")
  end.

Definition phrase_add (parent child : QueryNode) : outcome QueryNode :=
  match QueryPhraseNode_AddChild parent child with
  | Some n => Ok n
  | None => Stuck (BadUnionRead "QueryPhraseNode_AddChild on a non-phrase node")
  end.
Definition union_add (parent child : QueryNode) : outcome QueryNode :=
  match QueryUnionNode_AddChild parent child with
  | Some n => Ok n
  | None => Stuck (BadUnionRead "QueryUnionNode_AddChild on a non-union node")
  end.

(** ** Destructors and popping *)

(** [yy_destructor]: the [%destructor]s of [parser.y]: nodes are freed
    recursively; a [modifierlist] frees its vector (not the strings it
    holds); a [modifier] frees its string; terminals have none. *)
Definition yy_destructor (p : yyParser) (yymajor : Z) (m : YYMINORTYPE) : outcome yyParser :=
  if (yymajor =? YYERRORSYM) || ((NT_query <=? yymajor) && (yymajor <=? NT_exact)) then
    n <- get_yy3 m ;; Ok (set_live p (QueryNode_Free (live_nodes p) n))
  else if yymajor =? NT_modifierlist then
    _ <- get_yy2 m ;; Ok p
  else if yymajor =? NT_modifier then
    _ <- get_yy0 m ;; Ok p
  else Ok p.

(** [yy_pop_parser_stack]: pop the top entry, running its destructor;
    returns the popped major (0 on an empty stack). *)
Definition yy_pop_parser_stack (p : yyParser) : outcome (yyParser * Z) :=
  match yystack p with
  | [] => Ok (p, 0)
  | e :: rest =>
      p' <- yy_destructor p (major e) (minor e) ;;
      Ok (set_stack p' rest, major e)
  end.

(** [while (yyidx >= 0) yy_pop_parser_stack(p)], as [n] iterations. *)
Fixpoint yy_pop_n (n : nat) (p : yyParser) : outcome yyParser :=
  match n with
  | O => Ok p
  | S n' => '(p', _) <- yy_pop_parser_stack p ;; yy_pop_n n' p'
  end.

Definition yy_pop_all (p : yyParser) : outcome yyParser :=
  yy_pop_n (length (yystack p)) p.

(** [yyStackOverflow]: the stack is emptied, nothing else is done. *)
Definition yyStackOverflow (p : yyParser) : outcome yyParser := yy_pop_all p.

(** [yy_accept] and [yy_parse_failed] both empty the stack. *)
Definition yy_accept (p : yyParser) : outcome yyParser := yy_pop_all p.
Definition yy_parse_failed (p : yyParser) : outcome yyParser := yy_pop_all p.

(** [yy_shift]: push, or overflow when [yyidx] reaches [YYSTACKDEPTH]. *)
Definition yy_shift (p : yyParser) (yyNewState yyMajor : Z) (m : YYMINORTYPE)
  : outcome yyParser :=
  if Z.of_nat (length (yystack p)) >=? YYSTACKDEPTH then yyStackOverflow p
  else Ok (set_stack p (mkEntry yyNewState yyMajor m :: yystack p)).


(** ** The semantic actions ([yy_reduce], cases 0 to 21) *)

(** The field mask of [modifierlist ':' expr]: starts from 0 and ORs
    the bit of every name, looked up only when the query has a schema. *)
Definition modifierlist_mask (sp : option IndexSpec) (names : list string) : Z :=
  fold_left (fun acc name =>
               match sp with
               | Some s => Z.lor acc (IndexSpec_GetFieldBit s name (Z.of_nat (String.length name)))
               | None => acc
               end) names 0.

(** The action of rule [yyruleno] on the stack of [p]: the value of the
    left-hand side ([yygotominor]) and the parser with its context and
    allocator updated. *)
Definition yy_rule_action (p : yyParser) (yyruleno : Z) : outcome (YYMINORTYPE * yyParser) :=
  let sp := spec (pctx p) in
  match yyruleno with
  | 0 | 1 => (* query ::= exprlist | expr *)
      m0 <- yymsp p 0 ;; n <- get_yy3 m0 ;; Ok (yyinit, set_root p (Some n))
  | 2 => (* query ::= *) Ok (yyinit, set_root p None)
  | 3 => (* exprlist ::= expr expr *)
      m1 <- yymsp p 1 ;; a <- get_yy3 m1 ;; m0 <- yymsp p 0 ;; b <- get_yy3 m0 ;;
      ph1 <- phrase_add (NewPhraseNode false) a ;; ph2 <- phrase_add ph1 b ;;
      Ok (yy3 ph2, alloc p)
  | 4 => (* exprlist ::= exprlist expr *)
      m1 <- yymsp p 1 ;; l <- get_yy3 m1 ;; m0 <- yymsp p 0 ;; e <- get_yy3 m0 ;;
      l' <- phrase_add l e ;; Ok (yy3 l', p)
  | 5 => (* expr ::= union *)
      m0 <- yymsp p 0 ;; n <- get_yy3 m0 ;; Ok (yy3 n, p)
  | 6 | 7 => (* expr ::= LP expr RP | LP exprlist RP *)
      m1 <- yymsp p 1 ;; n <- get_yy3 m1 ;; Ok (yy3 n, p)
  | 8 => (* expr ::= TERM *)
      m0 <- yymsp p 0 ;; t <- get_yy0 m0 ;;
      Ok (yy3 (NewTokenNode (qt_s t) (qt_len t)), alloc p)
  | 9 => (* expr ::= MINUS expr *)
      m0 <- yymsp p 0 ;; n <- get_yy3 m0 ;; Ok (yy3 (NewNotNode n), alloc p)
  | 10 => (* expr ::= TILDE expr *)
      m0 <- yymsp p 0 ;; n <- get_yy3 m0 ;; Ok (yy3 (NewOptionalNode n), alloc p)
  | 11 => (* modifier ::= AT TERM *)
      m0 <- yymsp p 0 ;; t <- get_yy0 m0 ;; Ok (yy0 t, p)
  | 12 => (* modifierlist ::= modifier OR TERM *)
      m2 <- yymsp p 2 ;; a <- get_yy0 m2 ;; m0 <- yymsp p 0 ;; t <- get_yy0 m0 ;;
      Ok (yy2 [qt_s a; qt_s t], p)
  | 13 => (* modifierlist ::= modifierlist OR TERM *)
      m2 <- yymsp p 2 ;; v <- get_yy2 m2 ;; m0 <- yymsp p 0 ;; t <- get_yy0 m0 ;;
      Ok (yy2 (v ++ [qt_s t]), p)
  | 14 => (* expr ::= TERM STAR *)
      m1 <- yymsp p 1 ;; t <- get_yy0 m1 ;;
      Ok (yy3 (NewPrefixNode (qt_s t) (qt_len t)), alloc p)
  | 15 => (* expr ::= modifierlist COLON expr *)
      m2 <- yymsp p 2 ;; v <- get_yy2 m2 ;; m0 <- yymsp p 0 ;; n <- get_yy3 m0 ;;
      Ok (yy3 (set_fieldMask (modifierlist_mask sp v) n), p)
  | 16 => (* expr ::= modifier COLON expr *)
      m2 <- yymsp p 2 ;; t <- get_yy0 m2 ;; m0 <- yymsp p 0 ;; n <- get_yy3 m0 ;;
      Ok (yy3 (match sp with
               | Some s => set_fieldMask (IndexSpec_GetFieldBit s (qt_s t) (qt_len t)) n
               | None => n
               end), p)
  | 17 => (* exact ::= QUOTE TERM *)
      m0 <- yymsp p 0 ;; t <- get_yy0 m0 ;;
      ph <- phrase_add (NewPhraseNode true) (NewTokenNode (qt_s t) (qt_len t)) ;;
      Ok (yy3 ph, alloc (alloc p))
  | 18 => (* exact ::= exact TERM *)
      m1 <- yymsp p 1 ;; e <- get_yy3 m1 ;; m0 <- yymsp p 0 ;; t <- get_yy0 m0 ;;
      e' <- phrase_add e (NewTokenNode (qt_s t) (qt_len t)) ;; Ok (yy3 e', alloc p)
  | 19 => (* expr ::= exact QUOTE *)
      m1 <- yymsp p 1 ;; e <- get_yy3 m1 ;; Ok (yy3 e, p)
  | 20 => (* union ::= union OR TERM *)
      m2 <- yymsp p 2 ;; u <- get_yy3 m2 ;; m0 <- yymsp p 0 ;; t <- get_yy0 m0 ;;
      u' <- union_add u (NewTokenNode (qt_s t) (qt_len t)) ;; Ok (yy3 u', alloc p)
  | 21 => (* union ::= TERM OR TERM *)
      m2 <- yymsp p 2 ;; a <- get_yy0 m2 ;; m0 <- yymsp p 0 ;; b <- get_yy0 m0 ;;
      u1 <- union_add NewUnionNode (NewTokenNode (qt_s a) (qt_len a)) ;;
      u2 <- union_add u1 (NewTokenNode (qt_s b) (qt_len b)) ;;
      Ok (yy3 u2, alloc (alloc (alloc p)))
  | _ => Ok (yyinit, p)
  end.

(** [yy_reduce]: run the action, pop the right-hand side, and take the
    goto of the left-hand side from the state below it: a push (the
    [NDEBUG] fast path when something was popped, [yy_shift] otherwise)
    or the accept. *)
Definition yy_reduce (p : yyParser) (yyruleno : Z) : outcome yyParser :=
  '(yygotominor, p1) <- yy_rule_action p yyruleno ;;
  let yygoto := rule_lhs yyruleno in
  let yysize := rule_nrhs yyruleno in
  let st := skipn (Z.to_nat yysize) (yystack p1) in
  below <- (match st with
            | e :: _ => Ok e
            | [] => Stuck (AssertFailed "yymsp[-yysize] within the stack")
            end) ;;
  yyact <- yy_find_reduce_action (stateno below) yygoto ;;
  if yyact <? YYNSTATE then
    if yysize >? 0 then Ok (set_stack p1 (mkEntry yyact yygoto yygotominor :: st))
    else yy_shift (set_stack p1 st) yyact yygoto yygotominor
  else if yyact =? YY_ACCEPT_ACTION then yy_accept (set_stack p1 st)
  else Stuck (AssertFailed "yyact == YYNSTATE + YYNRULE + 1").

(** ** The diagnostic of [yy_syntax_error] *)

Definition digit_char (d : Z) : Ascii.ascii := Ascii.ascii_of_nat (48 + Z.to_nat d).

(** Decimal digits of [n >= 0], most significant first, before [acc]. *)
Fixpoint dec_digits (fuel : nat) (n : Z) (acc : string) : string :=
  match fuel with
  | O => acc
  | S f =>
      let acc' := String (digit_char (n mod 10)) acc in
      if n <? 10 then acc' else dec_digits f (n / 10) acc'
  end.

(** [%d]: a number has at most [log2 |z| + 1] decimal digits. *)
Definition fmt_d (z : Z) : string :=
  let fuel := S (Z.to_nat (Z.log2 (Z.abs z))) in
  if z <? 0 then String (Ascii.ascii_of_nat 45) (dec_digits fuel (- z) EmptyString)
  else dec_digits fuel z EmptyString.

Definition newline : string := String (Ascii.ascii_of_nat 10) EmptyString.

(** The text of ["Syntax error at offset %d near '%.*s'\n"]. *)
Definition fmt_syntax_error (t : QueryToken) : string :=
  ("Syntax error at offset " ++ fmt_d (qt_pos t) ++ " near '"
   ++ substring 0 (Z.to_nat (qt_len t)) (qt_s t) ++ "'" ++ newline)%string.

(** [snprintf(buf, size, ...)] with [size >= 1]: at most [size - 1]
    characters are written. *)
Definition snprintf (size : Z) (s : string) : string :=
  substring 0 (Z.to_nat (size - 1)) s.

(** [yy_syntax_error]: [ctx->ok = 0] and [ctx->errorMsg = strdup(buf)]
    with [buf] of [TOKEN.len + 100] bytes; the previous message, if
    any, is overwritten. *)
Definition yy_syntax_error (p : yyParser) (yymajor : Z) (m : YYMINORTYPE) : outcome yyParser :=
  t <- get_yy0 m ;;
  let c := pctx p in
  Ok (set_ctx p (mkCtx (root c) false
                       (Some (snprintf (qt_len t + 100) (fmt_syntax_error t))) (spec c))).

(** ** [Parse] *)

(** One iteration of the [do ... while] loop of [Parse]; returns the
    parser and the new [yymajor]. *)
Definition yy_parse_step (p : yyParser) (yymajor : Z) (yyminorunion : YYMINORTYPE)
  (yyendofinput : bool) : outcome (yyParser * Z) :=
  top <- (match yystack p with
          | e :: _ => Ok e
          | [] => Stuck (AssertFailed "yyidx >= 0")
          end) ;;
  yyact <- yy_find_shift_action (stateno top) yymajor ;;
  if yyact <? YYNSTATE then
    if yyendofinput then Stuck (AssertFailed "!yyendofinput")
    else
      p1 <- yy_shift p yyact yymajor yyminorunion ;;
      Ok (set_errcnt p1 (yyerrcnt p1 - 1), YYNOCODE)
  else if yyact <? YYNSTATE + YYNRULE then
    p1 <- yy_reduce p (yyact - YYNSTATE) ;; Ok (p1, yymajor)
  else if negb (yyact =? YY_ERROR_ACTION) then Stuck (AssertFailed "yyact == YY_ERROR_ACTION")
  else
    p1 <- (if yyerrcnt p <=? 0 then yy_syntax_error p yymajor yyminorunion else Ok p) ;;
    p2 <- yy_destructor (set_errcnt p1 3) yymajor yyminorunion ;;
    p3 <- (if yyendofinput then yy_parse_failed p2 else Ok p2) ;;
    Ok (p3, YYNOCODE).

(** The loop, [while (yymajor != YYNOCODE && yyidx >= 0)]. *)
Fixpoint yy_parse_loop (fuel : nat) (p : yyParser) (yymajor : Z) (yyminorunion : YYMINORTYPE)
  (yyendofinput : bool) : outcome yyParser :=
  match fuel with
  | O => Stuck OutOfFuel
  | S f =>
      '(p1, m1) <- yy_parse_step p yymajor yyminorunion yyendofinput ;;
      if (m1 =? YYNOCODE) || (length (yystack p1) =? 0)%nat then Ok p1
      else yy_parse_loop f p1 m1 yyminorunion yyendofinput
  end.

(** The weight of a stack symbol; every reduce strictly lowers the
    total weight of the stack. *)
Definition yy_weight (X : Z) : nat :=
  if X =? NT_query then 1
  else if (X =? NT_union) || is_terminal X then 3
  else 2.

Definition yy_measure (st : list yyStackEntry) : nat :=
  sum_nat (map (fun e => yy_weight (major e)) st).

(** The stack of a fresh parse: state 0 with the end-of-input major. *)
Definition yy_init_stack : list yyStackEntry := [mkEntry 0 TK_EOF yyinit].

(** [Parse(yyp, yymajor, yyminor, ctx)]: (re)initialise the stack if it
    is empty, then run the loop. *)
Definition Parse (p : yyParser) (yymajor : Z) (yyminor : QueryToken) : outcome yyParser :=
  let p0 := match yystack p with
            | [] => set_errcnt (set_stack p yy_init_stack) (-1)
            | _ => p
            end in
  yy_parse_loop (S (yy_measure (yystack p0))) p0 yymajor (yy0 yyminor) (yymajor =? TK_EOF).

(** [ParseAlloc]: an empty stack ([yyidx = -1]). *)
Definition ParseAlloc (c : parseCtx) : yyParser := mkParser [] 0 c 0.

(** [ParseFree]: pop (and destroy) whatever is left on the stack. *)
Definition ParseFree (p : yyParser) : outcome yyParser := yy_pop_all p.

(** ** The caller: feeding a token stream *)

(** The lexer's loop: one [Parse] call per token, in order. *)
Fixpoint Parse_all (p : yyParser) (ts : list (Z * QueryToken)) : outcome yyParser :=
  match ts with
  | [] => Ok p
  | (k, t) :: ts' => p' <- Parse p k t ;; Parse_all p' ts'
  end.

(** [Query_Parse]: a fresh context ([ok = 1], no root, no message),
    the tokens, end of input, then [ParseFree]. *)
Definition Query_Parse (sp : option IndexSpec) (ts : list (Z * QueryToken)) (eof : QueryToken)
  : outcome yyParser :=
  p <- Parse_all (ParseAlloc (mkCtx None true None sp)) (ts ++ [(TK_EOF, eof)]) ;;
  ParseFree p.

End Parser.

End Automaton.
