(* ===== verification/Diagnostic.v ===== *)
(** * The diagnostic of [yy_syntax_error] reads back

    [yy_syntax_error] (parser.c, lines 947 to 965) prints
    "Syntax error at offset %d near '%.*s'" and a newline into a buffer
    of [TOKEN.len + 100] bytes.  This file bounds the printed text
    ([fmt_d_length_64]: an offset that fits 64 bits takes at most 64
    characters, so [snprintf] never truncates the message) and gives a
    reader for it: [read_int] reads a [%d], [read_syntax_error] the
    whole message.  The round trip [read_int_fmt_d] shows that the
    digit loop [dec_digits], with the fuel [fmt_d] gives it, prints
    every integer in full and correctly; [yy_syntax_error_roundtrip]
    that the message stored in [ctx->errorMsg] gives back the offset
    and the text of the token. *)

From Stdlib Require Import ZArith String Ascii List Bool Lia.
From S2P Require Import Prelude Tables QueryNode Automaton.
Import ListNotations.
Import Tables QueryNode Automaton.
Open Scope Z_scope.
Open Scope lemon_scope.

Module Diagnostic.

(** ** The length of the message *)

Lemma dec_digits_length (fuel : nat) (n : Z) (acc : string) :
  (String.length (dec_digits fuel n acc) <= fuel + String.length acc)%nat.
Proof.
  revert n acc. induction fuel as [|fuel IH]; intros n acc; simpl; [lia|].
  destruct (n <? 10); simpl; [lia|].
  specialize (IH (n / 10) (String (digit_char (n mod 10)) acc)). simpl in IH. lia.
Qed.

Lemma fmt_d_length (z : Z) :
  (String.length (fmt_d z) <= 2 + Z.to_nat (Z.log2 (Z.abs z)))%nat.
Proof.
  unfold fmt_d. set (f := S (Z.to_nat (Z.log2 (Z.abs z)))).
  destruct (z <? 0).
  - pose proof (dec_digits_length f (- z) EmptyString). simpl in *. unfold f in *. lia.
  - pose proof (dec_digits_length f z EmptyString). simpl in *. unfold f in *. lia.
Qed.

Lemma fmt_d_length_64 (z : Z) :
  - 2 ^ 63 < z < 2 ^ 63 -> (String.length (fmt_d z) <= 64)%nat.
Proof.
  intros Hz. pose proof (fmt_d_length z) as H.
  assert (Hl : Z.log2 (Z.abs z) <= 62).
  { destruct (Z.eq_dec z 0) as [->|Hn]; [simpl; lia|].
    apply Z.lt_succ_r, Z.log2_lt_pow2; [lia|]. simpl (Z.succ 62). lia. }
  pose proof (Z.log2_nonneg (Z.abs z)). lia.
Qed.

(** The buffer of [TOKEN.len + 100] bytes holds the whole message. *)
Lemma snprintf_syntax_error (t : QueryToken) :
  0 <= qt_len t -> - 2 ^ 63 < qt_pos t < 2 ^ 63 ->
  snprintf (qt_len t + 100) (fmt_syntax_error t) = fmt_syntax_error t.
Proof.
  intros Hlen Hpos. unfold snprintf. apply substring0_all.
  unfold fmt_syntax_error. rewrite !str_length_append.
  pose proof (fmt_d_length_64 _ Hpos).
  pose proof (substring0_length_le (Z.to_nat (qt_len t)) (qt_s t)).
  simpl. lia.
Qed.

(** ** A reader for the message *)

(** The value of a decimal digit. *)
Definition digit_val (c : ascii) : option Z :=
  let n := Z.of_nat (nat_of_ascii c) - 48 in
  if (0 <=? n) && (n <? 10) then Some n else None.

(** Read the digits at the head of [s] into the accumulator [k]; the
    rest of [s] is returned. *)
Fixpoint read_digits (s : string) (k : Z) : Z * string :=
  match s with
  | String c s' =>
      match digit_val c with
      | Some d => read_digits s' (10 * k + d)
      | None => (k, s)
      end
  | EmptyString => (k, EmptyString)
  end.

(** [s] does not start with a digit. *)
Definition no_digit_head (s : string) : bool :=
  match s with
  | String c _ => match digit_val c with Some _ => false | None => true end
  | EmptyString => true
  end.

(** A [%d]: an optional minus sign and at least one digit. *)
Definition read_nat (s : string) : option (Z * string) :=
  if no_digit_head s then None else Some (read_digits s 0).

Definition read_int (s : string) : option (Z * string) :=
  match s with
  | String c s' =>
      if Ascii.eqb c "-"%char
      then match read_nat s' with Some (v, r) => Some (- v, r) | None => None end
      else read_nat s
  | EmptyString => None
  end.

(** Remove the prefix [pre] of [s]. *)
Fixpoint strip_prefix (pre s : string) : option string :=
  match pre, s with
  | EmptyString, _ => Some s
  | String a pre', String b s' => if Ascii.eqb a b then strip_prefix pre' s' else None
  | String _ _, EmptyString => None
  end.

(** Remove the suffix [suf] of [s]. *)
Definition strip_suffix (suf s : string) : option string :=
  let n := (String.length s - String.length suf)%nat in
  if (String.length suf <=? String.length s)%nat && String.eqb (substring n (String.length suf) s) suf
  then Some (substring 0 n s) else None.

Definition syntax_error_prefix : string := "Syntax error at offset ".
Definition syntax_error_middle : string := " near '".
Definition syntax_error_suffix : string := ("'" ++ newline)%string.

(** The offset and the token text of a diagnostic. *)
Definition read_syntax_error (msg : string) : option (Z * string) :=
  match strip_prefix syntax_error_prefix msg with
  | Some r1 =>
      match read_int r1 with
      | Some (pos, r2) =>
          match strip_prefix syntax_error_middle r2 with
          | Some r3 =>
              match strip_suffix syntax_error_suffix r3 with
              | Some tok => Some (pos, tok)
              | None => None
              end
          | None => None
          end
      | None => None
      end
  | None => None
  end.

(** ** Reading back what [fmt_d] prints *)

Lemma digit_val_char (d : Z) : 0 <= d < 10 -> digit_val (digit_char d) = Some d.
Proof.
  intros Hd. unfold digit_val, digit_char.
  rewrite Ascii.nat_ascii_embedding by lia.
  replace (Z.of_nat (48 + Z.to_nat d) - 48) with d by lia.
  replace ((0 <=? d) && (d <? 10)) with true by (symmetry; apply andb_true_iff; lia).
  reflexivity.
Qed.

Lemma digit_val_mod (n : Z) : digit_val (digit_char (n mod 10)) = Some (n mod 10).
Proof. apply digit_val_char, Z.mod_pos_bound. lia. Qed.

Lemma dec_digits_app (fuel : nat) (n : Z) (acc r : string) :
  (dec_digits fuel n acc ++ r)%string = dec_digits fuel n (acc ++ r).
Proof.
  revert n acc. induction fuel as [|fuel IH]; intros n acc; simpl; [reflexivity|].
  destruct (n <? 10); [reflexivity | apply IH].
Qed.

(** Reading the digits of [n] after [k] gives [k] shifted by as many
    digits, plus [n], when the fuel covers the digits of [n]. *)
Lemma read_digits_dec (fuel : nat) (n : Z) (acc : string) (k : Z) :
  0 <= n < 10 ^ Z.of_nat fuel ->
  exists m, 0 <= m /\ read_digits (dec_digits fuel n acc) k = read_digits acc (k * 10 ^ m + n).
Proof.
  revert n acc k. induction fuel as [|fuel IH]; intros n acc k Hn.
  - exists 0. simpl in *. split; [lia|]. f_equal. lia.
  - cbn [dec_digits]. destruct (Z.ltb_spec n 10) as [Lt|Ge].
    + exists 1. split; [lia|]. cbn [read_digits]. rewrite digit_val_mod.
      rewrite Z.mod_small by lia. f_equal. lia.
    + assert (Hq : 0 <= n / 10 < 10 ^ Z.of_nat fuel).
      { rewrite Nat2Z.inj_succ, Z.pow_succ_r in Hn by lia.
        split; [apply Z.div_pos; lia | apply Z.div_lt_upper_bound; lia]. }
      destruct (IH (n / 10) (String (digit_char (n mod 10)) acc) k Hq) as (m & Hm & ->).
      exists (m + 1). split; [lia|]. cbn [read_digits]. rewrite digit_val_mod. f_equal.
      rewrite Z.pow_add_r by lia. pose proof (Z.div_mod n 10). lia.
Qed.

Lemma read_digits_stop (acc : string) (k : Z) :
  no_digit_head acc = true -> read_digits acc k = (k, acc).
Proof.
  destruct acc as [|c acc]; [reflexivity|]. cbn [no_digit_head read_digits].
  destruct (digit_val c); congruence.
Qed.

(** What [dec_digits] prints starts with a digit. *)
Lemma dec_digits_head (fuel : nat) (n : Z) (acc : string) :
  no_digit_head acc = false \/ fuel <> O -> no_digit_head (dec_digits fuel n acc) = false.
Proof.
  revert n acc. induction fuel as [|fuel IH]; intros n acc H; [destruct H; [exact H | lia]|].
  cbn [dec_digits]. assert (Hd : no_digit_head (String (digit_char (n mod 10)) acc) = false)
    by (cbn [no_digit_head]; rewrite digit_val_mod; reflexivity).
  destruct (n <? 10); [exact Hd | apply IH; left; exact Hd].
Qed.

(** The fuel of [fmt_d] covers the digits: [n < 2 ^ (log2 n + 1) <= 10 ^ (log2 n + 1)]. *)
Lemma fmt_d_fuel (n : Z) :
  0 <= n -> n < 10 ^ Z.of_nat (S (Z.to_nat (Z.log2 n))).
Proof.
  intros Hn. pose proof (Z.log2_nonneg n) as Hl.
  rewrite Nat2Z.inj_succ, Z2Nat.id by lia.
  destruct (Z.eq_dec n 0) as [->|Hn0]; [simpl; lia|].
  apply Z.lt_le_trans with (2 ^ Z.succ (Z.log2 n)).
  - apply Z.log2_spec. lia.
  - apply Z.pow_le_mono_l. lia.
Qed.

Lemma read_nat_dec (n : Z) (r : string) :
  0 <= n -> no_digit_head r = true ->
  read_nat (dec_digits (S (Z.to_nat (Z.log2 n))) n r) = Some (n, r).
Proof.
  intros Hn Hr. unfold read_nat.
  rewrite dec_digits_head by (right; discriminate).
  destruct (read_digits_dec (S (Z.to_nat (Z.log2 n))) n r 0 (conj Hn (fmt_d_fuel n Hn)))
    as (m & _ & ->).
  rewrite read_digits_stop by exact Hr. reflexivity.
Qed.

(** [read_int] reads back what [%d] prints, up to the first character
    that is not a digit. *)
Lemma read_int_fmt_d (z : Z) (r : string) :
  no_digit_head r = true -> read_int (fmt_d z ++ r) = Some (z, r).
Proof.
  intros Hr. unfold fmt_d. destruct (Z.ltb_spec z 0) as [Lt|Ge].
  - cbn [append read_int]. rewrite dec_digits_app. simpl (EmptyString ++ r)%string.
    replace (Z.abs z) with (- z) by lia. rewrite read_nat_dec by (lia || exact Hr).
    change (ascii_of_nat 45) with "-"%char. rewrite Ascii.eqb_refl. f_equal. f_equal. lia.
  - rewrite dec_digits_app. simpl (EmptyString ++ r)%string.
    replace (Z.abs z) with z by lia.
    pose proof (dec_digits_head (S (Z.to_nat (Z.log2 z))) z r ltac:(right; discriminate)) as Hh.
    destruct (dec_digits (S (Z.to_nat (Z.log2 z))) z r) as [|c s'] eqn:Hs; [discriminate Hh|].
    assert (Hc : Ascii.eqb c "-"%char = false).
    { destruct (Ascii.eqb_spec c "-"%char) as [->|]; [discriminate Hh | reflexivity]. }
    cbn [read_int]. rewrite Hc, <- Hs. apply read_nat_dec; [lia | exact Hr].
Qed.

(** ** Reading back the message *)

Lemma strip_prefix_app (pre s : string) : strip_prefix pre (pre ++ s) = Some s.
Proof. induction pre as [|c pre IH]; [reflexivity|]. cbn. rewrite Ascii.eqb_refl. exact IH. Qed.

Lemma substring_app_l (a b : string) : substring 0 (String.length a) (a ++ b) = a.
Proof. induction a as [|c a IH]; [destruct b; reflexivity|]. cbn. rewrite IH. reflexivity. Qed.

Lemma substring_app_r (a b : string) (n : nat) :
  substring (String.length a) n (a ++ b) = substring 0 n b.
Proof. induction a as [|c a IH]; [reflexivity|]. exact IH. Qed.

Lemma strip_suffix_app (s suf : string) : strip_suffix suf (s ++ suf) = Some s.
Proof.
  unfold strip_suffix. rewrite str_length_append.
  replace (String.length s + String.length suf - String.length suf)%nat with (String.length s) by lia.
  rewrite substring_app_r, substring0_all, String.eqb_refl, substring_app_l by lia.
  replace (String.length suf <=? String.length s + String.length suf)%nat with true
    by (symmetry; apply Nat.leb_le; lia).
  reflexivity.
Qed.

(** The reader inverts the printer, whatever the token text holds. *)
Lemma read_syntax_error_fmt (t : QueryToken) :
  read_syntax_error (fmt_syntax_error t)
  = Some (qt_pos t, substring 0 (Z.to_nat (qt_len t)) (qt_s t)).
Proof.
  unfold read_syntax_error, fmt_syntax_error.
  rewrite (strip_prefix_app syntax_error_prefix).
  rewrite read_int_fmt_d by reflexivity.
  rewrite (strip_prefix_app syntax_error_middle).
  rewrite (strip_suffix_app _ syntax_error_suffix). reflexivity.
Qed.

(** C13. The diagnostic round trip: after [yy_syntax_error] on a token
    whose offset fits a 64-bit integer, [ctx->errorMsg] holds a message
    from which the reader recovers the token's offset and the
    [TOKEN.len] characters of its text that [%.*s] printed: [%d] prints
    the offset in full and in decimal, and [snprintf] cuts nothing. *)
Theorem yy_syntax_error_roundtrip (p p' : @yyParser ListSchema) (la : Z) (t : QueryToken) :
  0 <= qt_len t -> - 2 ^ 63 < qt_pos t < 2 ^ 63 ->
  yy_syntax_error p la (yy0 t) = Ok p' ->
  exists msg, errorMsg (pctx p') = Some msg
    /\ read_syntax_error msg = Some (qt_pos t, substring 0 (Z.to_nat (qt_len t)) (qt_s t)).
Proof.
  intros Hlen Hpos H. unfold yy_syntax_error in H. simpl in H. injection H as <-.
  eexists. split; [reflexivity|].
  rewrite snprintf_syntax_error by assumption. apply read_syntax_error_fmt.
Qed.

(** An instance: the token [title] at offset 1234567890123 (the offset
    of [Behaviour]'s diagnostic instance), and a negative offset. *)
Definition rt_token : QueryToken := mkToken "title" 5 1234567890123.
Definition rt_parser : @yyParser ListSchema := ParseAlloc (mkCtx None true None None).

Lemma yy_syntax_error_roundtrip_witness :
  exists p', yy_syntax_error rt_parser TK_TERM (yy0 rt_token) = Ok p'
    /\ exists msg, errorMsg (pctx p') = Some msg
         /\ read_syntax_error msg = Some (1234567890123, "title"%string).
Proof.
  eexists. split; [reflexivity|].
  exact (yy_syntax_error_roundtrip rt_parser _ TK_TERM rt_token
           ltac:(vm_compute; discriminate) ltac:(split; vm_compute; reflexivity) eq_refl).
Defined.

Lemma read_int_negative : read_int (fmt_d (-907) ++ " near")%string = Some (-907, " near"%string).
Proof. vm_compute. reflexivity. Qed.

End Diagnostic.
