(* ===== verification/Invariants.v ===== *)
(** * Invariants of the parser state, and why every step keeps them

    [wf_stack]: the stack is a path of the LR automaton from state 0
    (each entry is reached from the one below on its major), and the
    minor of every entry holds the union member its major calls for
    ([typedb]: a token for terminals and [modifier], a vector for
    [modifierlist], a node for the others, a phrase for [exprlist] and
    [exact], a union for [union]).  [acct]: every live query node is
    owned by exactly one stack entry or by [ctx->root].  The main
    lemmas show that each semantic action, [yy_reduce], [yy_shift] and
    the popping loops succeed on a well-formed state and keep both
    invariants. *)

From Stdlib Require Import ZArith String List Bool Lia.
From S2P Require Import Prelude Tables QueryNode Automaton.
Import ListNotations.
Import Tables QueryNode Automaton.
Open Scope Z_scope.
Open Scope lemon_scope.

Module Invariants.

(** ** Typing of the union *)

Definition is_phrase_b (ex : bool) (n : QueryNode) : bool :=
  match n with QN_Phrase _ e _ => Bool.eqb e ex | _ => false end.
Definition is_union_b (n : QueryNode) : bool :=
  match n with QN_Union _ _ => true | _ => false end.

Definition typedb (X : Z) (m : YYMINORTYPE) : bool :=
  match m with
  | yyinit => false
  | yy0 _ => is_terminal X || (X =? NT_modifier)
  | yy2 _ => X =? NT_modifierlist
  | yy3 n => (X =? NT_expr) || ((X =? NT_exprlist) && is_phrase_b false n)
             || ((X =? NT_exact) && is_phrase_b true n) || ((X =? NT_union) && is_union_b n)
  end.

Fixpoint wf_stack (st : list yyStackEntry) : Prop :=
  match st with
  | [] => True
  | [e] => stateno e = 0 /\ major e = TK_EOF /\ minor e = yyinit
  | e :: ((e' :: _) as rest) =>
      yy_trans (stateno e') (major e) = Some (stateno e)
      /\ typedb (major e) (minor e) = true /\ wf_stack rest
  end.

(** ** Ownership of nodes *)

Definition minor_nodes (m : YYMINORTYPE) : nat :=
  match m with yy3 n => node_count n | _ => O end.
Definition stack_nodes (st : list yyStackEntry) : nat :=
  sum_nat (map (fun e => minor_nodes (minor e)) st).
Definition root_nodes (r : option QueryNode) : nat :=
  match r with Some n => node_count n | None => O end.

(** Destructure the stack entries a rule pops, using their majors and
    the typing of their minors. *)
Ltac pop_typed :=
  repeat match goal with
  | e : yyStackEntry |- _ => destruct e as [? ? ?]
  | H : Forall _ (_ :: _) |- _ => inversion H; subst; clear H
  | H : Forall _ [] |- _ => clear H
  | H : typedb (major _) _ = true |- _ => cbn [major minor] in H
  | H : typedb _ (minor _) = true |- _ => cbn [major minor] in H
  | H : typedb ?X (yy3 ?n) = true |- _ =>
      is_var n;
      let b := eval vm_compute in (typedb X (yy3 n)) in
      lazymatch b with
      | true => clear H
      | _ => destruct n as [? ? ?|? [] ?|? ?|? ?|? ?|? ? ?]; vm_compute in H;
             try discriminate H; clear H
      end
  | H : typedb _ ?m = true |- _ =>
      is_var m; destruct m; try (vm_compute in H; discriminate H)
  | H : is_phrase_b _ ?n = true |- _ =>
      is_var n; destruct n; simpl in H; try discriminate H
  | H : (_ && _)%bool = true |- _ => apply andb_true_iff in H as [? ?]
  | H : (_ || _)%bool = true |- _ => apply orb_true_iff in H as [?|?]
  | H : Bool.eqb ?b _ = true |- _ => is_var b; destruct b; simpl in H; try discriminate H
  | H : (_ =? _) = true |- _ => apply Z.eqb_eq in H; try discriminate H
  | H : is_terminal _ = true |- _ => vm_compute in H; try discriminate H
  | H : is_union_b ?n = true |- _ => is_var n; destruct n; simpl in H; try discriminate H
  end.

(** Close an equation between node counts. *)
Ltac count_nodes :=
  unfold stack_nodes; cbn [map sum_nat minor_nodes minor node_count];
  repeat match goal with |- context [match ?x with Some _ => _ | None => _ end] => destruct x end;
  rewrite ?map_app; autorewrite with lemon_rw; cbn [map sum_nat node_count NewTokenNode]; lia.

Ltac alloc_count :=
  split; [unfold alloc, set_live; simpl; f_equal; lia | count_nodes].

Section Inv.
Context {IndexSpec : Type} `{FR : FieldResolver IndexSpec}.

Definition acct (p : @yyParser IndexSpec) : Prop :=
  live_nodes p = (stack_nodes (yystack p) + root_nodes (root (pctx p)))%nat.

Lemma stack_nodes_app (l1 l2 : list yyStackEntry) :
  stack_nodes (l1 ++ l2) = (stack_nodes l1 + stack_nodes l2)%nat.
Proof. unfold stack_nodes. rewrite map_app. apply sum_nat_app. Qed.

Lemma stack_nodes_firstn_skipn (n : nat) (st : list yyStackEntry) :
  stack_nodes st = (stack_nodes (firstn n st) + stack_nodes (skipn n st))%nat.
Proof. rewrite <- stack_nodes_app, firstn_skipn. reflexivity. Qed.

(** ** The stack as a path of the automaton *)

Lemma typedb_range (X : Z) (m : YYMINORTYPE) :
  typedb X m = true -> 0 <= X < 19.
Proof.
  destruct m; simpl; unfold is_terminal, YYERRORSYM, NT_modifier, NT_modifierlist,
    NT_expr, NT_exprlist, NT_exact, NT_union; intros H;
    repeat (rewrite ?orb_true_iff, ?andb_true_iff, ?Z.eqb_eq, ?Z.leb_le, ?Z.ltb_lt in H);
    lia.
Qed.

Lemma wf_stack_cons_inv (e : yyStackEntry) (rest : list yyStackEntry) :
  wf_stack (e :: rest) -> wf_stack rest.
Proof. destruct rest; simpl; tauto. Qed.

(** A well-formed stack spells a well-linked path of states. *)
Lemma wf_stack_linked (st : list yyStackEntry) :
  st <> [] -> wf_stack st -> yy_linked (map stateno st).
Proof.
  induction st as [|e [|e' st] IH]; intros Hne Hwf; [congruence| |].
  - simpl in *. tauto.
  - destruct Hwf as (Ht & Hty & Hwf).
    assert (Hl : yy_linked (map stateno (e' :: st))) by (apply IH; [discriminate | exact Hwf]).
    split; [|exact Hl].
    pose proof (yy_linked_range _ Hl) as Hr. inversion Hr as [|? ? Hs _]; subst.
    pose proof (typedb_range _ _ Hty) as HX.
    destruct (yy_trans_accessing _ _ _ Hs HX Ht) as [Hacc _]. rewrite Hacc. exact Ht.
Qed.

(** The majors of a well-formed stack are the accessing symbols of its
    states, the bottom entry apart. *)
Lemma wf_stack_majors (st : list yyStackEntry) (n : nat) :
  wf_stack st -> (n < length st)%nat ->
  map major (firstn n st) = map yy_accessing (firstn n (map stateno st))
  /\ Forall (fun e => typedb (major e) (minor e) = true) (firstn n st).
Proof.
  revert n. induction st as [|e st IH]; intros n Hwf Hn; [simpl in Hn; lia|].
  destruct n as [|n]; [simpl; auto|].
  destruct st as [|e' st]; [simpl in Hn; lia|].
  destruct Hwf as (Ht & Hty & Hwf).
  assert (Hl : yy_linked (map stateno (e' :: st))) by (apply wf_stack_linked; [discriminate|exact Hwf]).
  pose proof (yy_linked_range _ Hl) as Hr. inversion Hr as [|? ? Hs _]; subst.
  destruct (yy_trans_accessing _ _ _ Hs (typedb_range _ _ Hty) Ht) as [Hacc _].
  destruct (IH n Hwf ltac:(simpl in *; lia)) as [H1 H2].
  simpl. rewrite Hacc, H1. split; [reflexivity | constructor; assumption].
Qed.

(** ** The semantic actions *)

(** What an action leaves: for a [query] rule the root is set (to the
    popped node, or to nothing for the empty query); for the others the
    value is well typed and owns the popped nodes plus the [k] nodes the
    action allocated. *)
Definition action_post (r : Z) (popped : list yyStackEntry) (p : @yyParser IndexSpec)
  (gm : YYMINORTYPE) (p1 : @yyParser IndexSpec) : Prop :=
  if rule_lhs r =? NT_query then
    gm = yyinit
    /\ ((popped = [] /\ p1 = set_root p None)
        \/ (exists n, p1 = set_root p (Some n) /\ stack_nodes popped = node_count n))
  else
    typedb (rule_lhs r) gm = true
    /\ exists k, p1 = set_live p (live_nodes p + k)%nat
                 /\ minor_nodes gm = (stack_nodes popped + k)%nat.

Lemma rule_cases (r : Z) : 0 <= r < YYNRULE -> r = 0 \/ r = 1 \/ r = 2 \/ r = 3 \/ r = 4 \/ r = 5 \/ r = 6 \/ r = 7 \/ r = 8 \/ r = 9 \/ r = 10 \/ r = 11 \/ r = 12 \/ r = 13 \/ r = 14 \/ r = 15 \/ r = 16 \/ r = 17 \/ r = 18 \/ r = 19 \/ r = 20 \/ r = 21.
Proof. unfold YYNRULE. lia. Qed.

Lemma yy_rule_action_ok (p : @yyParser IndexSpec) (r : Z) :
  0 <= r < YYNRULE ->
  (length (rule_rhs r) < length (yystack p))%nat ->
  map major (firstn (length (rule_rhs r)) (yystack p)) = rev (rule_rhs r) ->
  Forall (fun e => typedb (major e) (minor e) = true) (firstn (length (rule_rhs r)) (yystack p)) ->
  exists gm p1, yy_rule_action p r = Ok (gm, p1)
    /\ action_post r (firstn (length (rule_rhs r)) (yystack p)) p gm p1.
Proof.
  intros Hr Hlen Hmaj Hty. destruct p as [st errc c live]. simpl in *.
  apply rule_cases in Hr.
  repeat (destruct Hr as [->|Hr]); [..|subst];
    let r := match goal with |- context [yy_rule_action _ ?r] => r end in
    let v := eval vm_compute in (rule_rhs r) in change (rule_rhs r) with v in *;
    let v := eval vm_compute in (rule_lhs r) in change (rule_lhs r) with v in *;
    destruct st as [|[s0 X0 m0] [|[s1 X1 m1] [|[s2 X2 m2] st]]];
    simpl in Hlen, Hmaj, Hty |- *; try lia; try discriminate Hmaj;
    try (inversion Hmaj; subst; clear Hmaj); pop_typed;
    unfold yy_rule_action, action_post; simpl.
  all: eexists; eexists; split; [reflexivity|]; simpl.
  all: split; [reflexivity|].
  all: first [ left; split; reflexivity
             | right; eexists; split; [reflexivity | count_nodes]
             | first [exists O; alloc_count | exists 1%nat; alloc_count
                     | exists 2%nat; alloc_count | exists 3%nat; alloc_count] ].
Qed.

(** ** Destructors, popping and shifting *)

Lemma set_live_same (p : @yyParser IndexSpec) : set_live p (live_nodes p) = p.
Proof. destruct p; reflexivity. Qed.

Lemma symbol_cases (X : Z) : 0 <= X < 19 -> X = 0 \/ X = 1 \/ X = 2 \/ X = 3 \/ X = 4 \/ X = 5 \/ X = 6 \/ X = 7 \/ X = 8 \/ X = 9 \/ X = 10 \/ X = 11 \/ X = 12 \/ X = 13 \/ X = 14 \/ X = 15 \/ X = 16 \/ X = 17 \/ X = 18.
Proof. lia. Qed.

(** An entry whose destructor is safe: a typed entry, or the bottom. *)
Definition entry_ok (e : yyStackEntry) : Prop :=
  typedb (major e) (minor e) = true \/ (major e = TK_EOF /\ minor e = yyinit).

Lemma yy_destructor_ok (p : @yyParser IndexSpec) (X : Z) (m : YYMINORTYPE) :
  entry_ok (mkEntry 0 X m) ->
  yy_destructor p X m = Ok (set_live p (live_nodes p - minor_nodes m)%nat).
Proof.
  unfold entry_ok; simpl. intros [H | [-> ->]].
  - pose proof (symbol_cases X (typedb_range _ _ H)) as HX.
    repeat destruct HX as [->|HX]; [..|subst]; destruct m; vm_compute in H;
      try discriminate H; unfold yy_destructor; simpl; rewrite ?Nat.sub_0_r, ?set_live_same;
      reflexivity.
  - simpl. rewrite Nat.sub_0_r, set_live_same. reflexivity.
Qed.

Lemma yy_pop_n_ok (n : nat) (p : @yyParser IndexSpec) :
  (n <= length (yystack p))%nat -> Forall entry_ok (firstn n (yystack p)) ->
  yy_pop_n n p = Ok (mkParser (skipn n (yystack p)) (yyerrcnt p) (pctx p)
                              (live_nodes p - stack_nodes (firstn n (yystack p)))).
Proof.
  revert p. induction n as [|n IH]; intros [st errc c live] Hn Hok; simpl in *.
  - rewrite Nat.sub_0_r. reflexivity.
  - destruct st as [|[s X m] st]; simpl in Hn; [lia|]. inversion Hok; subst.
    unfold yy_pop_parser_stack. simpl. rewrite (yy_destructor_ok _ X m ltac:(assumption)).
    simpl. rewrite IH by (simpl; lia || assumption). simpl.
    unfold stack_nodes. simpl. rewrite Nat.sub_add_distr. reflexivity.
Qed.

Lemma yy_pop_all_ok (p : @yyParser IndexSpec) :
  Forall entry_ok (yystack p) ->
  yy_pop_all p = Ok (mkParser [] (yyerrcnt p) (pctx p) (live_nodes p - stack_nodes (yystack p))).
Proof.
  intros Hok. unfold yy_pop_all. rewrite yy_pop_n_ok.
  - rewrite skipn_all, firstn_all. reflexivity.
  - lia.
  - rewrite firstn_all. exact Hok.
Qed.

Lemma yy_shift_ok (p : @yyParser IndexSpec) (s X : Z) (m : YYMINORTYPE) :
  Forall entry_ok (yystack p) ->
  yy_shift p s X m =
    Ok (if Z.of_nat (length (yystack p)) >=? YYSTACKDEPTH
        then mkParser [] (yyerrcnt p) (pctx p) (live_nodes p - stack_nodes (yystack p))
        else mkParser (mkEntry s X m :: yystack p) (yyerrcnt p) (pctx p) (live_nodes p)).
Proof.
  intros Hok. unfold yy_shift.
  destruct (Z.of_nat (length (yystack p)) >=? YYSTACKDEPTH); [apply yy_pop_all_ok, Hok|].
  destruct p; reflexivity.
Qed.

Lemma wf_stack_entries_ok (st : list yyStackEntry) : wf_stack st -> Forall entry_ok st.
Proof.
  induction st as [|e [|e' st] IH]; intros H; constructor.
  - destruct e as [s X m]; simpl in *. destruct H as (_ & -> & ->). right. auto.
  - constructor.
  - destruct H as (_ & Hty & _). left. exact Hty.
  - apply IH. exact (proj2 (proj2 H)).
Qed.

Lemma wf_stack_skipn (n : nat) (st : list yyStackEntry) : wf_stack st -> wf_stack (skipn n st).
Proof.
  revert st. induction n as [|n IH]; intros st H; [exact H|].
  destruct st as [|e st]; [exact I|]. apply IH, (wf_stack_cons_inv e), H.
Qed.

Lemma wf_stack_state0 (e : yyStackEntry) (rest : list yyStackEntry) :
  wf_stack (e :: rest) -> stateno e = 0 -> rest = [].
Proof.
  intros H H0. assert (Hne : e :: rest <> []) by discriminate.
  pose proof (wf_stack_linked _ Hne H) as Hl.
  simpl in Hl. rewrite H0 in Hl. apply yy_linked_zero in Hl.
  destruct rest; [reflexivity | discriminate Hl].
Qed.

(** ** Reductions *)

Lemma yy_measure_app (l1 l2 : list yyStackEntry) :
  yy_measure (l1 ++ l2) = (yy_measure l1 + yy_measure l2)%nat.
Proof. unfold yy_measure. rewrite map_app. apply sum_nat_app. Qed.

Lemma sum_nat_rev (l : list nat) : sum_nat (rev l) = sum_nat l.
Proof. induction l as [|x l IH]; simpl; [reflexivity|]. rewrite sum_nat_app. simpl. lia. Qed.

Definition weight_check : bool :=
  forall_Z 0 22 (fun r => (rule_lhs r =? NT_query)
                          || (yy_weight (rule_lhs r) <? sum_nat (map yy_weight (rule_rhs r)))%nat).

Lemma weight_check_ok : weight_check = true.
Proof. vm_compute. reflexivity. Qed.

(** Every reduce other than to [query] lowers the weight of the stack. *)
Lemma rule_weight_decreases (r : Z) :
  0 <= r < YYNRULE -> rule_lhs r <> NT_query ->
  (yy_weight (rule_lhs r) < sum_nat (map yy_weight (rule_rhs r)))%nat.
Proof.
  intros Hr Hq.
  pose proof (forall_Z_spec _ _ _ weight_check_ok r ltac:(unfold YYNRULE in Hr; lia)) as H.
  cbv beta in H. apply orb_true_iff in H as [H|H]; [apply Z.eqb_eq in H; contradiction|].
  apply Nat.ltb_lt, H.
Qed.

(** What the tables guarantee when the top state selects a reduce. *)
Lemma yy_reduce_frame (st : list yyStackEntry) (la a : Z) (e : yyStackEntry) (rest : list yyStackEntry) :
  st = e :: rest -> wf_stack st -> 0 <= la < 11 ->
  yy_find_shift_action (stateno e) la = Ok a -> YYNSTATE <= a < YYNSTATE + YYNRULE ->
  let r := a - YYNSTATE in
  (length (rule_rhs r) < length st)%nat
  /\ map major (firstn (length (rule_rhs r)) st) = rev (rule_rhs r)
  /\ Forall (fun e => typedb (major e) (minor e) = true) (firstn (length (rule_rhs r)) st)
  /\ goto_okb (stateno (nth (length (rule_rhs r)) st (mkEntry 0 0 yyinit))) (rule_lhs r) = true.
Proof.
  intros -> Hwf Hla Hf Ha r.
  assert (Hne : e :: rest <> []) by discriminate.
  pose proof (wf_stack_linked _ Hne Hwf) as Hl. simpl in Hl.
  destruct (reduce_viable _ _ _ _ Hl Hla Hf Ha) as (H1 & H2 & H3).
  fold r in H1, H2, H3. simpl in H1. rewrite length_map in H1.
  destruct (wf_stack_majors _ (length (rule_rhs r)) Hwf ltac:(simpl; lia)) as [Hm Hty].
  split; [simpl; lia|]. split; [rewrite Hm; exact H2|]. split; [exact Hty|].
  change (stateno e :: map stateno rest) with (map stateno (e :: rest)) in H3.
  change 0 with (stateno (mkEntry 0 0 yyinit)) in H3 at 1. rewrite map_nth in H3. exact H3.
Qed.


(** What a reduce leaves: a well-formed stack, exact ownership, the
    error state untouched; a [query] reduce accepts and empties the
    stack, any other pushes the left-hand side and lowers the measure. *)
Definition reduce_post (p p' : @yyParser IndexSpec) (r : Z) : Prop :=
  wf_stack (yystack p') /\ acct p' /\ yyerrcnt p' = yyerrcnt p
  /\ ok (pctx p') = ok (pctx p) /\ errorMsg (pctx p') = errorMsg (pctx p)
  /\ spec (pctx p') = spec (pctx p)
  /\ (if rule_lhs r =? NT_query then yystack p' = []
      else root (pctx p') = root (pctx p) /\ yystack p' <> []
           /\ (yy_measure (yystack p') < yy_measure (yystack p))%nat).

Lemma yy_measure_popped (st : list yyStackEntry) (r : Z) :
  map major (firstn (length (rule_rhs r)) st) = rev (rule_rhs r) ->
  yy_measure (firstn (length (rule_rhs r)) st) = sum_nat (map yy_weight (rule_rhs r)).
Proof.
  intros H. unfold yy_measure. rewrite <- map_map, H, map_rev. apply sum_nat_rev.
Qed.

Lemma yy_reduce_ok (p : @yyParser IndexSpec) (la a : Z) (e : yyStackEntry) (rest : list yyStackEntry) :
  yystack p = e :: rest -> wf_stack (e :: rest) -> acct p -> 0 <= la < 11 ->
  yy_find_shift_action (stateno e) la = Ok a -> YYNSTATE <= a < YYNSTATE + YYNRULE ->
  (rule_lhs (a - YYNSTATE) = NT_query -> root (pctx p) = None) ->
  exists p', yy_reduce p (a - YYNSTATE) = Ok p' /\ reduce_post p p' (a - YYNSTATE).
Proof.
  intros Hst Hwf Hacc Hla Hf Ha Hroot.
  rewrite <- Hst in Hwf.
  destruct (yy_reduce_frame _ _ _ _ _ Hst Hwf Hla Hf Ha) as (Hlen & Hmaj & Hty & Hgoto).
  set (r := a - YYNSTATE) in *.
  assert (Hr : 0 <= r < YYNRULE) by (unfold r, YYNRULE, YYNSTATE in *; lia).
  destruct (rule_rhs_length r Hr) as (Hn & Hlhs & Hq).
  destruct (yy_rule_action_ok p r Hr Hlen Hmaj Hty) as (gm & p1 & Hact & Hpost).
  set (n := length (rule_rhs r)) in *.
  set (below := nth n (yystack p) (mkEntry 0 0 yyinit)) in *.
  pose proof (skipn_nth_cons n (yystack p) (mkEntry 0 0 yyinit) Hlen) as Hsk. fold below in Hsk.
  pose proof (wf_stack_skipn n _ Hwf) as Hwf'. rewrite Hsk in Hwf'.
  pose proof (stack_nodes_firstn_skipn n (yystack p)) as Hnodes. rewrite Hsk in Hnodes.
  destruct (goto_okb_cases _ _ Hgoto) as (a' & Hgo & [[Ha' Hnq] | (-> & Hquery & H0)]);
    unfold yy_reduce; rewrite Hact; simpl obind; unfold acct, action_post, reduce_post in *.
  - (* a goto: push the left-hand side *)
    apply Z.eqb_neq in Hnq. rewrite Hnq in Hpost |- *. apply Z.eqb_neq in Hnq.
    destruct Hpost as (Hgm & k & -> & Hk).
    destruct Hq as [Hq|Hq]; [contradiction|].
    cbn [yystack set_live]. rewrite <- Hn, Nat2Z.id, Hsk. rewrite obind_ok, Hgo, obind_ok.
    replace (a' <? YYNSTATE) with true by (symmetry; apply Z.ltb_lt; lia).
    replace (Z.of_nat n >? 0) with true by (symmetry; apply Z.gtb_lt; lia).
    eexists; split; [reflexivity|]. cbn [yystack pctx yyerrcnt live_nodes set_stack].
    pose proof (rule_weight_decreases r Hr Hnq) as Hw.
    pose proof (yy_measure_popped _ _ Hmaj) as Hm. fold n in Hm.
    pose proof (f_equal yy_measure (firstn_skipn n (yystack p))) as Hms.
    rewrite yy_measure_app, Hsk in Hms.
    split; [|split; [|split; [reflexivity|split; [reflexivity|split; [reflexivity|
      split; [reflexivity|split; [reflexivity|split; [discriminate|]]]]]]]].
    + simpl. split; [eapply yy_trans_goto; [lia | exact Hgo | exact Ha']|].
      split; [exact Hgm | exact Hwf'].
    + red. cbn [yystack set_stack set_live live_nodes pctx].
      unfold stack_nodes in *. cbn [map sum_nat minor] in *. lia.
    + cbn [yystack set_stack set_live]. unfold yy_measure in *. cbn [map sum_nat major] in *. lia.
  - (* the accept *)
    rewrite Hquery in Hpost, Hgo |- *. simpl in Hpost |- *.
    apply (wf_stack_state0 _ _ Hwf') in H0. rewrite H0 in Hwf', Hnodes, Hsk.
    destruct Hpost as (-> & Hcase).
    assert (Hp1 : yystack p1 = yystack p /\ yyerrcnt p1 = yyerrcnt p /\ pctx p1 = mkCtx (root (pctx p1)) (ok (pctx p)) (errorMsg (pctx p)) (spec (pctx p)) /\ live_nodes p1 = live_nodes p)
      by (destruct Hcase as [[_ ->]|[nd [-> _]]]; repeat split).
    destruct Hp1 as (Hs1 & He1 & Hc1 & Hl1).
    rewrite Hs1, <- Hn, Nat2Z.id, Hsk, obind_ok. rewrite Hgo, obind_ok. simpl.
    unfold yy_accept. rewrite yy_pop_all_ok by (simpl; apply wf_stack_entries_ok, Hwf').
    eexists; split; [reflexivity|]. simpl. rewrite Hc1. simpl.
    repeat split; auto.
    destruct Hwf' as (_ & _ & Hm0). unfold stack_nodes in *. simpl in *. rewrite Hm0 in *. simpl in *.
    unfold acct in *. rewrite (Hroot Hquery) in Hacc.
    destruct Hcase as [[Hpop ->]|[nd [-> Hnd]]]; simpl in *;
      [rewrite Hpop in Hnodes; simpl in *|]; lia.
Qed.

(** The shape of a reduce's result: a goto pushes the left-hand side
    (carrying the action's value) on the stack below the popped
    entries, leaving the context as it was; a [query] rule finds only
    the bottom entry below the popped ones and accepts, emptying the
    stack, with the context the action left. *)
Lemma yy_reduce_result (p p' : @yyParser IndexSpec) (la a : Z) (e : yyStackEntry)
  (rest : list yyStackEntry) :
  yystack p = e :: rest -> wf_stack (e :: rest) -> 0 <= la < 11 ->
  yy_find_shift_action (stateno e) la = Ok a -> YYNSTATE <= a < YYNSTATE + YYNRULE ->
  yy_reduce p (a - YYNSTATE) = Ok p' ->
  let r := a - YYNSTATE in let n := length (rule_rhs r) in
  exists gm p1, yy_rule_action p r = Ok (gm, p1)
    /\ ((rule_lhs r <> NT_query /\ (1 <= n)%nat /\ pctx p' = pctx p /\ live_nodes p' = live_nodes p1
         /\ exists a', yystack p' = mkEntry a' (rule_lhs r) gm :: skipn n (yystack p))
        \/ (rule_lhs r = NT_query /\ yystack p' = [] /\ pctx p' = pctx p1
            /\ exists b, skipn n (yystack p) = [b] /\ wf_stack [b])).
Proof.
  intros Hst Hwf Hla Hf Ha Hred r n. rewrite <- Hst in Hwf.
  destruct (yy_reduce_frame _ _ _ _ _ Hst Hwf Hla Hf Ha) as (Hlen & Hmaj & Hty & Hgoto).
  fold r n in Hlen, Hmaj, Hty, Hgoto.
  assert (Hr : 0 <= r < YYNRULE) by (unfold r, YYNRULE, YYNSTATE in *; lia).
  destruct (rule_rhs_length r Hr) as (Hn & Hlhs & Hq). fold n in Hn, Hq.
  destruct (yy_rule_action_ok p r Hr Hlen Hmaj Hty) as (gm & p1 & Hact & Hpost).
  exists gm, p1. split; [exact Hact|]. fold n in Hpost.
  set (below := nth n (yystack p) (mkEntry 0 0 yyinit)) in *.
  pose proof (skipn_nth_cons n (yystack p) (mkEntry 0 0 yyinit) Hlen) as Hsk. fold below in Hsk.
  pose proof (wf_stack_skipn n _ Hwf) as Hwf'. rewrite Hsk in Hwf'.
  unfold yy_reduce in Hred. fold r in Hred. rewrite Hact in Hred. simpl obind in Hred.
  unfold action_post in Hpost.
  destruct (goto_okb_cases _ _ Hgoto) as (a' & Hgo & [[Ha' Hnq] | (-> & Hquery & H0)]).
  - apply Z.eqb_neq in Hnq. rewrite Hnq in Hpost. apply Z.eqb_neq in Hnq.
    destruct Hpost as (_ & k & -> & _). destruct Hq as [Hq|Hq]; [contradiction|].
    cbn [yystack set_live] in Hred. rewrite <- Hn, Nat2Z.id, Hsk, obind_ok, Hgo, obind_ok in Hred.
    replace (a' <? YYNSTATE) with true in Hred by (symmetry; apply Z.ltb_lt; lia).
    replace (Z.of_nat n >? 0) with true in Hred by (symmetry; apply Z.gtb_lt; lia).
    injection Hred as <-. left. split; [exact Hnq|]. split; [lia|].
    split; [reflexivity|]. split; [reflexivity|]. exists a'. rewrite Hsk. reflexivity.
  - rewrite Hquery in Hpost, Hgo, Hred. rewrite Z.eqb_refl in Hpost.
    apply (wf_stack_state0 _ _ Hwf') in H0. rewrite H0 in Hsk, Hwf'.
    destruct Hpost as (_ & Hcase).
    assert (Hs1 : yystack p1 = yystack p) by (destruct Hcase as [[_ ->]|[nd [-> _]]]; reflexivity).
    rewrite Hs1, <- Hn, Nat2Z.id, Hsk, obind_ok, Hgo, obind_ok in Hred. simpl in Hred.
    unfold yy_accept in Hred.
    rewrite yy_pop_all_ok in Hred by (simpl; apply wf_stack_entries_ok, Hwf').
    injection Hred as <-. right. split; [exact Hquery|]. split; [reflexivity|].
    split; [reflexivity|]. exists below. split; [exact Hsk | exact Hwf'].
Qed.

End Inv.

End Invariants.
