(* ===== verification/Safety.v ===== *)
(** * Safety, termination and ownership of a whole parse

    From the step lemmas of [Invariants]: one iteration of the loop of
    [Parse] keeps the invariant [inv] (a well-formed stack, exact node
    ownership, and [ctx->ok] false exactly when a diagnostic is
    stored); the loop finishes within its fuel; [Parse] never reaches
    an [assert] or a wrong union read; and a whole [Query_Parse] of a
    stream of lexer tokens returns, with an empty stack and every live
    node owned by the root. *)

From Stdlib Require Import ZArith String List Bool Lia.
From S2P Require Import Prelude Tables QueryNode Automaton Invariants.
Import ListNotations.
Import Tables QueryNode Automaton Invariants.
Open Scope Z_scope.
Open Scope lemon_scope.

Module Safety.

Section Safe.
Context {IndexSpec : Type} `{FR : FieldResolver IndexSpec}.

(** [ctx->ok] is cleared exactly when [ctx->errorMsg] is set. *)
Definition msg_inv (c : @parseCtx IndexSpec) : Prop := ok c = true <-> errorMsg c = None.

Definition inv (p : @yyParser IndexSpec) : Prop :=
  wf_stack (yystack p) /\ acct p /\ msg_inv (pctx p).

Lemma is_terminal_token (la : Z) : 0 <= la < 11 -> is_terminal la = true.
Proof.
  intros H. unfold is_terminal, YYERRORSYM. apply andb_true_iff.
  split; [apply Z.leb_le | apply Z.ltb_lt]; lia.
Qed.

(** A token has no destructor: dropping it changes nothing. *)
Lemma yy_destructor_token (p : @yyParser IndexSpec) (la : Z) (t : QueryToken) :
  0 <= la < 11 -> yy_destructor p la (yy0 t) = Ok p.
Proof.
  intros Hla. rewrite yy_destructor_ok by (left; simpl; rewrite (is_terminal_token la Hla); reflexivity).
  simpl. rewrite Nat.sub_0_r. apply f_equal, set_live_same.
Qed.

Lemma wf_stack_top_range (e : yyStackEntry) (rest : list yyStackEntry) :
  wf_stack (e :: rest) -> 0 <= stateno e < YYNSTATE.
Proof.
  intros H. assert (Hne : e :: rest <> []) by discriminate.
  pose proof (yy_linked_range _ (wf_stack_linked _ Hne H)) as Hr.
  inversion Hr; assumption.
Qed.

(** A shifted token is a well-formed top of stack. *)
Lemma wf_stack_shift (e : yyStackEntry) (rest : list yyStackEntry) (la a : Z) (t : QueryToken) :
  wf_stack (e :: rest) -> 0 <= la < 11 -> yy_find_shift_action (stateno e) la = Ok a ->
  0 <= a < YYNSTATE -> wf_stack (mkEntry a la (yy0 t) :: e :: rest).
Proof.
  intros Hwf Hla Hf Ha. simpl. split; [|split; [|exact Hwf]].
  - unfold yy_trans. rewrite (is_terminal_token la Hla), Hf.
    replace ((0 <=? a) && (a <? YYNSTATE)) with true
      by (symmetry; apply andb_true_iff; split; [apply Z.leb_le | apply Z.ltb_lt]; lia).
    reflexivity.
  - simpl. rewrite (is_terminal_token la Hla). reflexivity.
Qed.

(** The error branch of the loop: report (when [yyerrcnt <= 0]),
    discard the token, and fail the parse at end of input. *)
Lemma error_branch_ok (p : @yyParser IndexSpec) (la : Z) (t : QueryToken) (eoi : bool) :
  inv p -> 0 <= la < 11 ->
  exists p', (p1 <- (if yyerrcnt p <=? 0 then yy_syntax_error p la (yy0 t) else Ok p) ;;
              p2 <- yy_destructor (set_errcnt p1 3) la (yy0 t) ;;
              p3 <- (if eoi then yy_parse_failed p2 else Ok p2) ;;
              Ok (p3, YYNOCODE)) = Ok (p', YYNOCODE)
    /\ inv p' /\ root (pctx p') = root (pctx p) /\ spec (pctx p') = spec (pctx p)
    /\ (eoi = true -> yystack p' = []).
Proof.
  intros (Hwf & Hacc & Hmsg) Hla.
  set (p1 := if yyerrcnt p <=? 0
             then set_ctx p (mkCtx (root (pctx p)) false
                     (Some (snprintf (qt_len t + 100) (fmt_syntax_error t))) (spec (pctx p)))
             else p).
  assert (Hp1 : (if yyerrcnt p <=? 0 then yy_syntax_error p la (yy0 t) else Ok p) = Ok p1)
    by (unfold p1; destruct (yyerrcnt p <=? 0); reflexivity).
  assert (Hinv1 : inv (set_errcnt p1 3)
                  /\ root (pctx p1) = root (pctx p) /\ spec (pctx p1) = spec (pctx p)).
  { unfold p1, inv, acct, msg_inv in *. destruct (yyerrcnt p <=? 0); simpl;
      repeat split; try tauto; intros H; discriminate H. }
  destruct Hinv1 as ((Hwf1 & Hacc1 & Hmsg1) & Hr1 & Hs1).
  rewrite Hp1, obind_ok, (yy_destructor_token _ _ _ Hla), obind_ok.
  destruct eoi.
  - unfold yy_parse_failed. rewrite yy_pop_all_ok by (apply wf_stack_entries_ok, Hwf1).
    eexists; split; [reflexivity|]. unfold inv, acct, msg_inv in *. simpl in *.
    repeat split; try tauto. lia.
  - eexists; split; [reflexivity|]. unfold inv, msg_inv in *. simpl in *.
    repeat split; try tauto. intros H; discriminate H.
Qed.

(** What one iteration leaves: the invariant, the schema, the root when
    the look-ahead is a token; and either the loop stops (the token was
    consumed or discarded, at end of input with an empty stack; or the
    stack was emptied) or it goes on with the same look-ahead, the same
    root and a lower measure. *)
Definition step_post (p p' : @yyParser IndexSpec) (la m' : Z) : Prop :=
  inv p' /\ spec (pctx p') = spec (pctx p)
  /\ (la <> TK_EOF -> root (pctx p') = root (pctx p))
  /\ ((m' = YYNOCODE /\ (la = TK_EOF -> yystack p' = []))
      \/ yystack p' = []
      \/ (m' = la /\ yystack p' <> [] /\ root (pctx p') = root (pctx p)
          /\ (yy_measure (yystack p') < yy_measure (yystack p))%nat)).

Lemma yy_parse_step_ok (p : @yyParser IndexSpec) (la : Z) (t : QueryToken) :
  inv p -> yystack p <> [] -> 0 <= la < 11 -> (la = TK_EOF -> root (pctx p) = None) ->
  exists p' m', yy_parse_step p la (yy0 t) (la =? TK_EOF) = Ok (p', m')
                /\ step_post p p' la m'.
Proof.
  intros Hinv Hne Hla Hroot. pose proof Hinv as (Hwf & Hacc & Hmsg).
  destruct (yystack p) as [|e rest] eqn:Hst; [contradiction|].
  destruct (yy_find_shift_action_cases _ _ (wf_stack_top_range _ _ Hwf) Hla) as (a & Hf & Ha & Heof).
  unfold yy_parse_step. rewrite Hst, obind_ok, Hf, obind_ok.
  destruct (Z.ltb_spec a YYNSTATE) as [Hsh|Hsh].
  - (* shift *)
    assert (Hla0 : la <> TK_EOF) by (intros Heq; specialize (Heof Heq); lia).
    replace (la =? TK_EOF) with false by (symmetry; apply Z.eqb_neq, Hla0).
    rewrite yy_shift_ok by (rewrite Hst; apply wf_stack_entries_ok, Hwf). rewrite Hst.
    unfold acct in Hacc. rewrite Hst in Hacc.
    destruct (Z.of_nat (length (e :: rest)) >=? YYSTACKDEPTH); simpl obind;
      do 2 eexists; split; [reflexivity| |reflexivity|];
      unfold step_post, inv, acct, msg_inv in *; cbn [yystack pctx live_nodes yyerrcnt set_errcnt].
    + split; [split; [exact I | split; [simpl; lia | exact Hmsg]]|].
      split; [reflexivity|]. split; [auto|]. left. split; [reflexivity | intros; contradiction].
    + split; [split; [apply wf_stack_shift; auto; lia
                     | split; [unfold stack_nodes in *; simpl in *; lia | exact Hmsg]]|].
      split; [reflexivity|]. split; [auto|]. left. split; [reflexivity | intros; contradiction].
  - destruct (Z.ltb_spec a (YYNSTATE + YYNRULE)) as [Hred|Hred].
    + (* reduce *)
      assert (Hq : rule_lhs (a - YYNSTATE) = NT_query -> root (pctx p) = None).
      { intros Hq. apply Hroot. destruct (Z.eq_dec la TK_EOF) as [->|Hn]; [reflexivity|].
        exfalso. refine (query_reduce_only_at_eof _ _ _ (wf_stack_top_range _ _ Hwf) _ Hf _ Hq);
          unfold TK_EOF in Hn; lia. }
      destruct (yy_reduce_ok p la a e rest Hst Hwf Hacc Hla Hf ltac:(lia) Hq)
        as (p' & Hr & Hwf' & Hacc' & He & Hok & Hmsg' & Hsp & Hcase).
      rewrite Hr. do 2 eexists; split; [reflexivity|].
      unfold step_post, inv, msg_inv in *. rewrite Hok, Hmsg', Hsp, Hst.
      repeat split; try tauto.
      * intros Hla0. destruct (rule_lhs (a - YYNSTATE) =? NT_query) eqn:E; [|tauto].
        exfalso. apply Z.eqb_eq in E. revert E.
        apply (query_reduce_only_at_eof (stateno e) la a (wf_stack_top_range _ _ Hwf));
          [unfold TK_EOF in Hla0; lia | exact Hf | lia].
      * destruct (rule_lhs (a - YYNSTATE) =? NT_query); [right; left; exact Hcase|].
        right; right. destruct Hcase as (H1 & H2 & H3). rewrite Hst in H3. auto.
    + (* the error action *)
      assert (Herr : a = YY_ERROR_ACTION) by (unfold YY_ERROR_ACTION in *; lia).
      replace (a =? YY_ERROR_ACTION) with true by (symmetry; apply Z.eqb_eq, Herr). simpl negb.
      cbv iota.
      destruct (error_branch_ok p la t (la =? TK_EOF) Hinv Hla) as (p' & Hb & Hinv' & Hr' & Hs' & Hst').
      rewrite Hb. do 2 eexists; split; [reflexivity|].
      split; [exact Hinv'|]. split; [exact Hs'|]. split; [auto|].
      left. split; [reflexivity|]. intros ->. apply Hst'. reflexivity.
Qed.

(** What a call of [Parse] (or its loop) guarantees. *)
Definition parse_post (p p' : @yyParser IndexSpec) (la : Z) : Prop :=
  inv p' /\ spec (pctx p') = spec (pctx p)
  /\ (la <> TK_EOF -> root (pctx p') = root (pctx p))
  /\ (la = TK_EOF -> yystack p' = []).

(** The loop terminates within [fuel] iterations when the fuel exceeds
    the measure of the stack. *)
Lemma yy_parse_loop_ok (fuel : nat) :
  forall (p : @yyParser IndexSpec) (la : Z) (t : QueryToken),
  inv p -> yystack p <> [] -> 0 <= la < 11 -> (la = TK_EOF -> root (pctx p) = None) ->
  (yy_measure (yystack p) < fuel)%nat ->
  exists p', yy_parse_loop fuel p la (yy0 t) (la =? TK_EOF) = Ok p' /\ parse_post p p' la.
Proof.
  induction fuel as [|fuel IH]; intros p la t Hinv Hne Hla Hroot Hfuel; [lia|].
  destruct (yy_parse_step_ok p la t Hinv Hne Hla Hroot)
    as (p1 & m1 & Hs & Hinv1 & Hsp1 & Hr1 & Hcase).
  simpl. rewrite Hs, obind_ok.
  destruct Hcase as [(-> & Heof) | [Hemp | (-> & Hne1 & Hr1' & Hm)]].
  - rewrite Z.eqb_refl. eexists; split; [reflexivity|]. unfold parse_post. auto.
  - rewrite Hemp, orb_true_r. eexists; split; [reflexivity|]. unfold parse_post. auto.
  - replace (la =? YYNOCODE) with false by (symmetry; apply Z.eqb_neq; unfold YYNOCODE; lia).
    replace (length (yystack p1) =? 0)%nat with false
      by (symmetry; apply Nat.eqb_neq; destruct (yystack p1); [contradiction | discriminate]).
    simpl orb. cbv iota.
    destruct (IH p1 la t Hinv1 Hne1 Hla ltac:(intros E; rewrite Hr1'; auto) ltac:(lia))
      as (p' & Hl & Hinv' & Hsp' & Hr' & Hst').
    exists p'. split; [exact Hl|]. unfold parse_post.
    split; [exact Hinv'|]. split; [congruence|]. split; [|exact Hst'].
    intros H. rewrite Hr' by exact H. exact Hr1'.
Qed.

(** [Parse] (re)initialises a finished parser and runs its loop to the
    end: it never fails an [assert], never reads a union member other
    than the one held, and keeps the invariant. *)
Lemma Parse_ok (p : @yyParser IndexSpec) (la : Z) (t : QueryToken) :
  inv p -> 0 <= la < 11 -> (la = TK_EOF -> root (pctx p) = None) ->
  exists p', Parse p la t = Ok p' /\ parse_post p p' la.
Proof.
  intros Hinv Hla Hroot. unfold Parse.
  set (p0 := match yystack p with
             | [] => set_errcnt (set_stack p yy_init_stack) (-1)
             | _ => p
             end).
  assert (H0 : inv p0 /\ yystack p0 <> [] /\ pctx p0 = pctx p).
  { unfold p0. destruct (yystack p) as [|e rest] eqn:Hst.
    - unfold inv, acct in *. rewrite Hst in Hinv. simpl in *.
      destruct Hinv as (_ & Hacc & Hmsg).
      split; [split; [repeat split | split; [exact Hacc | exact Hmsg]]|].
      split; [unfold yy_init_stack; discriminate | reflexivity].
    - split; [exact Hinv|]. split; [rewrite Hst; discriminate | reflexivity]. }
  destruct H0 as (Hinv0 & Hne0 & Hc0).
  destruct (yy_parse_loop_ok (S (yy_measure (yystack p0))) p0 la t Hinv0 Hne0 Hla
              ltac:(rewrite Hc0; exact Hroot) ltac:(lia)) as (p' & Hl & Hpost).
  exists p'. split; [exact Hl|]. unfold parse_post in *. rewrite Hc0 in Hpost. exact Hpost.
Qed.

(** The lexer's tokens: kinds 1 to 10 (end of input is fed last, by
    [Query_Parse]). *)
Definition lexer_tokens (ts : list (Z * QueryToken)) : Prop :=
  Forall (fun kt => 1 <= fst kt < 11) ts.

Lemma Parse_all_ok (ts : list (Z * QueryToken)) :
  forall p : @yyParser IndexSpec, inv p -> lexer_tokens ts ->
  exists p', Parse_all p ts = Ok p' /\ inv p'
             /\ root (pctx p') = root (pctx p) /\ spec (pctx p') = spec (pctx p).
Proof.
  induction ts as [|[k t] ts IH]; intros p Hinv Hts; simpl.
  - eexists; split; [reflexivity|]. auto.
  - inversion Hts as [|? ? Hk Hts']; subst. simpl in Hk.
    destruct (Parse_ok p k t Hinv ltac:(lia) ltac:(unfold TK_EOF; lia))
      as (p1 & Hp & Hinv1 & Hsp1 & Hr1 & _).
    rewrite Hp, obind_ok.
    destruct (IH p1 Hinv1 Hts') as (p' & Hl & Hinv' & Hr' & Hsp').
    exists p'. split; [exact Hl|]. split; [exact Hinv'|].
    rewrite Hr', Hsp', Hsp1, Hr1 by (unfold TK_EOF; lia). auto.
Qed.

(** The shared core of the parse-level theorems: a whole parse of a
    lexer token stream returns, with an empty stack and the invariant. *)
(** Feeding [ts1 ++ ts2] is feeding [ts1], then [ts2]. *)
Lemma Parse_all_app (ts1 ts2 : list (Z * QueryToken)) (p : @yyParser IndexSpec) :
  Parse_all p (ts1 ++ ts2) = (q <- Parse_all p ts1 ;; Parse_all q ts2).
Proof.
  revert p. induction ts1 as [|[k t] ts IH]; intros q; simpl; [reflexivity|].
  destruct (Parse q k t); simpl; [apply IH | reflexivity].
Qed.

Lemma Query_Parse_spec (sp : option IndexSpec) (ts : list (Z * QueryToken)) (eof : QueryToken) :
  lexer_tokens ts ->
  exists p, Query_Parse sp ts eof = Ok p /\ inv p /\ yystack p = [] /\ spec (pctx p) = sp.
Proof.
  intros Hts. unfold Query_Parse.
  assert (Hinv0 : inv (ParseAlloc (mkCtx None true None sp))).
  { unfold inv, acct, msg_inv. simpl. repeat split; auto. }
  destruct (Parse_all_ok ts _ Hinv0 Hts) as (p1 & Hp1 & Hinv1 & Hr1 & Hs1).
  rewrite Parse_all_app, Hp1, obind_ok. simpl.
  destruct (Parse_ok p1 TK_EOF eof Hinv1 ltac:(unfold TK_EOF; lia) ltac:(intros _; exact Hr1))
    as (p2 & Hp2 & Hinv2 & Hs2 & _ & Hst2).
  rewrite Hp2. simpl. unfold ParseFree.
  rewrite yy_pop_all_ok by (rewrite Hst2 by reflexivity; constructor).
  eexists; split; [reflexivity|].
  specialize (Hst2 eq_refl). unfold inv, acct, msg_inv in *. rewrite Hst2 in *. simpl in *.
  unfold stack_nodes in *. simpl in *. repeat split; try tauto; [lia | congruence].
Qed.


End Safe.

(** ** The parse-level theorems *)

Section Claims.
Context {IndexSpec : Type} `{FR : FieldResolver IndexSpec}.

(** C1. Safety and termination of a whole parse: for every stream of
    lexer tokens (kinds 1 to 10) followed by end of input, [Parse]
    returns on every call (the loop's fuel is enough), no [assert] of
    the generated code fails and no union member is read under the
    wrong tag, and [ParseFree] completes. *)
Theorem Query_Parse_total (sp : option IndexSpec) (ts : list (Z * QueryToken)) (eof : QueryToken) :
  lexer_tokens ts -> exists p, Query_Parse sp ts eof = Ok p.
Proof.
  intros Hts. destruct (Query_Parse_spec sp ts eof Hts) as (p & Hp & _). eauto.
Qed.

(** C2. No leaked and no doubly owned query node: when a parse of a
    lexer token stream returns, the parser stack is empty and the
    number of live query nodes is exactly the size of [ctx->root] (zero
    when there is no root), whether the parse succeeded or failed. *)
Theorem Query_Parse_no_leak (sp : option IndexSpec) (ts : list (Z * QueryToken))
  (eof : QueryToken) (p : @yyParser IndexSpec) :
  lexer_tokens ts -> Query_Parse sp ts eof = Ok p ->
  yystack p = [] /\ live_nodes p = root_nodes (root (pctx p)).
Proof.
  intros Hts Hp. destruct (Query_Parse_spec sp ts eof Hts) as (p' & Hp' & (_ & Hacc & _) & Hst & _).
  rewrite Hp in Hp'. injection Hp' as <-. unfold acct in Hacc. rewrite Hst in *.
  split; [reflexivity | exact Hacc].
Qed.

(** C3. The error protocol: at the end of a parse, [ctx->ok] is still
    set exactly when no diagnostic was stored in [ctx->errorMsg]. *)
Theorem Query_Parse_ok_iff_no_error (sp : option IndexSpec) (ts : list (Z * QueryToken))
  (eof : QueryToken) (p : @yyParser IndexSpec) :
  lexer_tokens ts -> Query_Parse sp ts eof = Ok p ->
  (ok (pctx p) = true <-> errorMsg (pctx p) = None).
Proof.
  intros Hts Hp. destruct (Query_Parse_spec sp ts eof Hts) as (p' & Hp' & (_ & _ & Hmsg) & _).
  rewrite Hp in Hp'. injection Hp' as <-. exact Hmsg.
Qed.

(** C4. Every call of [Parse] on a parser in the invariant (a
    well-formed stack, exact node ownership, the error protocol)
    returns a parser in the invariant, whatever token it is given. *)
Theorem Parse_keeps_invariant (p : @yyParser IndexSpec) (la : Z) (t : QueryToken) :
  inv p -> 1 <= la < 11 ->
  exists p', Parse p la t = Ok p' /\ inv p' /\ root (pctx p') = root (pctx p).
Proof.
  intros Hinv Hla.
  destruct (Parse_ok p la t Hinv ltac:(lia) ltac:(unfold TK_EOF; lia)) as (p' & Hp & Hinv' & _ & Hr & _).
  exists p'. split; [exact Hp|]. split; [exact Hinv'|]. apply Hr. unfold TK_EOF. lia.
Qed.

(** C12. End of input always completes the parse: from any parser in
    the invariant on which no root is set yet, [Parse] at end of input
    returns (its loop never runs out of fuel), and empties the stack:
    the automaton reaches its accepting or its failed state, and the
    invariant holds there. *)
Theorem Parse_eof_completes (p : @yyParser IndexSpec) (t : QueryToken) :
  inv p -> root (pctx p) = None ->
  exists p', Parse p TK_EOF t = Ok p' /\ yystack p' = [] /\ inv p'.
Proof.
  intros Hinv Hr.
  destruct (Parse_ok p TK_EOF t Hinv ltac:(unfold TK_EOF; lia) (fun _ => Hr))
    as (p' & Hp & Hinv' & _ & _ & Hemp).
  exists p'. split; [exact Hp|]. split; [exact (Hemp eq_refl) | exact Hinv'].
Qed.

End Claims.

(** ** Instances of the parse-level theorems

    The theorems applied to the query [a] (one term at offset 0, end of
    input at offset 1) with the list schema of two fields. *)

Definition ex_schema : ListSchema := ["title"; "body"]%string.
Definition ex_tokens : list (Z * QueryToken) := [(TK_TERM, mkToken "a" 1 0)].
Definition ex_eof : QueryToken := mkToken EmptyString 0 1.
Definition ex_parse : outcome (@yyParser ListSchema) := Query_Parse (Some ex_schema) ex_tokens ex_eof.
Definition ex_result : @yyParser ListSchema :=
  match ex_parse with Ok p => p | Stuck _ => ParseAlloc (mkCtx None true None None) end.

Lemma ex_tokens_lexer : lexer_tokens ex_tokens.
Proof. repeat constructor; unfold TK_TERM; simpl; lia. Qed.

Lemma ex_parse_ok : ex_parse = Ok ex_result.
Proof. vm_compute. reflexivity. Qed.

Lemma Query_Parse_total_witness :
  lexer_tokens ex_tokens /\ exists p, Query_Parse (Some ex_schema) ex_tokens ex_eof = Ok p.
Proof.
  split; [exact ex_tokens_lexer|]. apply Query_Parse_total. exact ex_tokens_lexer.
Defined.

Lemma Query_Parse_no_leak_witness :
  lexer_tokens ex_tokens /\ Query_Parse (Some ex_schema) ex_tokens ex_eof = Ok ex_result
  /\ yystack ex_result = [] /\ live_nodes ex_result = root_nodes (root (pctx ex_result)).
Proof.
  split; [exact ex_tokens_lexer|]. split; [exact ex_parse_ok|].
  apply (Query_Parse_no_leak (Some ex_schema) ex_tokens ex_eof ex_result ex_tokens_lexer ex_parse_ok).
Defined.

Lemma Query_Parse_ok_iff_no_error_witness :
  lexer_tokens ex_tokens /\ Query_Parse (Some ex_schema) ex_tokens ex_eof = Ok ex_result
  /\ (ok (pctx ex_result) = true <-> errorMsg (pctx ex_result) = None).
Proof.
  split; [exact ex_tokens_lexer|]. split; [exact ex_parse_ok|].
  apply (Query_Parse_ok_iff_no_error (Some ex_schema) ex_tokens ex_eof ex_result
           ex_tokens_lexer ex_parse_ok).
Defined.

Lemma ParseAlloc_inv : inv (@ParseAlloc ListSchema (mkCtx None true None (Some ex_schema))).
Proof. unfold inv, acct, msg_inv. simpl. repeat split; auto. Qed.

Lemma Parse_keeps_invariant_witness :
  inv (@ParseAlloc ListSchema (mkCtx None true None (Some ex_schema))) /\ 1 <= TK_TERM < 11
  /\ exists p', Parse (ParseAlloc (mkCtx None true None (Some ex_schema))) TK_TERM (mkToken "a" 1 0)
                 = Ok p' /\ inv p' /\ root (pctx p') = None.
Proof.
  split; [exact ParseAlloc_inv|]. split; [unfold TK_TERM; lia|].
  apply (Parse_keeps_invariant _ TK_TERM (mkToken "a" 1 0) ParseAlloc_inv).
  unfold TK_TERM; lia.
Defined.

(** The parser after the first token [a], then end of input. *)
Definition ex_mid : @yyParser ListSchema :=
  match Parse (ParseAlloc (mkCtx None true None (Some ex_schema))) TK_TERM (mkToken "a" 1 0) with
  | Ok p => p
  | Stuck _ => ParseAlloc (mkCtx None true None None)
  end.

Lemma ex_mid_inv : inv ex_mid /\ root (pctx ex_mid) = None.
Proof.
  destruct (Parse_ok _ TK_TERM (mkToken "a" 1 0) ParseAlloc_inv ltac:(unfold TK_TERM; lia)
              ltac:(unfold TK_TERM, TK_EOF; lia)) as (p' & Hp & Hinv & _ & _ & _).
  assert (E : ex_mid = p') by (unfold ex_mid; rewrite Hp; reflexivity).
  rewrite E. split; [exact Hinv|]. rewrite <- E. vm_compute. reflexivity.
Qed.

Lemma Parse_eof_completes_witness :
  inv ex_mid /\ root (pctx ex_mid) = None /\ yystack ex_mid <> []
  /\ exists p', Parse ex_mid TK_EOF ex_eof = Ok p' /\ yystack p' = [] /\ inv p'.
Proof.
  split; [exact (proj1 ex_mid_inv)|]. split; [exact (proj2 ex_mid_inv)|].
  split; [vm_compute; discriminate|].
  exact (Parse_eof_completes ex_mid ex_eof (proj1 ex_mid_inv) (proj2 ex_mid_inv)).
Defined.

End Safety.
