(* ===== verification/LoopInvariant.v ===== *)
(** * Invariants of a whole parse from invariants of one iteration

    A generic transfer: a property [P cs p] of the parser [p] and of
    the tokens [cs] fed to it so far, that one iteration of the loop of
    [Parse] keeps (with the token added to [cs] when the iteration
    consumed it) and that the re-initialisation of an empty stack
    keeps, holds after every [Parse] call, after [Parse_all] and after
    a whole [Query_Parse].  The section's hypotheses are the two
    obligations; [Refinement] and [StackDepth] discharge them for their
    invariants.  The shape lemma [yy_parse_step_shape] says what an
    iteration does to the look-ahead: it consumes it, or it keeps it
    (a reduce) and then the stack can only be empty at end of input. *)

From Stdlib Require Import ZArith String List Bool Lia.
From S2P Require Import Prelude Tables QueryNode Grammar Automaton Invariants Safety.
Import ListNotations.
Import Tables QueryNode Grammar Automaton Invariants Safety.
Open Scope Z_scope.
Open Scope lemon_scope.

Module LoopInvariant.

(** The tokens fed after one more call of [Parse]: the look-ahead is
    added unless it is the end of input. *)
Definition fed (la : Z) (t : QueryToken) (cs : list token) : list token :=
  if la =? TK_EOF then cs else cs ++ [(la, t)].

Section Shape.
Context {IndexSpec : Type} `{FR : FieldResolver IndexSpec}.

(** One iteration consumes the look-ahead ([YYNOCODE]: a shift, an
    overflow or an error), or keeps it after a reduce; a reduce can
    empty the stack (the accept) only at end of input. *)
Lemma yy_parse_step_shape (p p' : @yyParser IndexSpec) (la m' : Z) (t : QueryToken) :
  inv p -> 0 <= la < 11 ->
  yy_parse_step p la (yy0 t) (la =? TK_EOF) = Ok (p', m') ->
  m' = YYNOCODE \/ (m' = la /\ (yystack p' = [] -> la = TK_EOF)).
Proof.
  intros (Hwf & _ & _) Hla H. unfold yy_parse_step in H.
  destruct (yystack p) as [|e rest] eqn:Hst; [discriminate H|]. rewrite obind_ok in H.
  destruct (yy_find_shift_action (stateno e) la) as [a|] eqn:Hf; [|discriminate H].
  rewrite obind_ok in H.
  destruct (a <? YYNSTATE) eqn:Hsh.
  - destruct (la =? TK_EOF); [discriminate H|]. inv_ok. left. reflexivity.
  - destruct (a <? YYNSTATE + YYNRULE) eqn:Hred.
    + apply obind_ok_inv in H as (p1 & Hm & H). injection H as <- <-.
      right. split; [reflexivity|]. intros Hemp.
      destruct (Z.eq_dec la TK_EOF) as [E|E]; [exact E|]. exfalso.
      apply Z.ltb_ge in Hsh. apply Z.ltb_lt in Hred.
      destruct (yy_reduce_result p p1 la a e rest Hst Hwf Hla Hf ltac:(lia) Hm)
        as (gm & p2 & _ & [(_ & _ & _ & _ & a' & Hs') | (Hq & _)]).
      * rewrite Hs' in Hemp. discriminate Hemp.
      * exact (query_reduce_only_at_eof (stateno e) la a (wf_stack_top_range _ _ Hwf)
                 ltac:(unfold TK_EOF in E; lia) Hf ltac:(lia) Hq).
    + destruct (negb (a =? YY_ERROR_ACTION)); [discriminate H|]. inv_ok. left. reflexivity.
Qed.

(** Destructors and the popping loops leave the context alone; a
    destructor leaves the stack alone too, and [n] pops drop [n]
    entries. *)
Lemma yy_destructor_frame (p p' : @yyParser IndexSpec) (X : Z) (m : YYMINORTYPE) :
  yy_destructor p X m = Ok p' ->
  pctx p' = pctx p /\ yystack p' = yystack p /\ yyerrcnt p' = yyerrcnt p.
Proof.
  unfold yy_destructor.
  repeat match goal with |- context [if ?b then _ else _] => destruct b end;
    destruct m; simpl; intros H; inversion H; auto.
Qed.

Lemma yy_pop_n_frame (n : nat) (p p' : @yyParser IndexSpec) :
  yy_pop_n n p = Ok p' -> pctx p' = pctx p /\ yystack p' = skipn n (yystack p).
Proof.
  revert p. induction n as [|n IH]; intros p H; simpl in H; [injection H as <-; auto|].
  unfold yy_pop_parser_stack in H. destruct (yystack p) as [|e rest] eqn:Hst; simpl in H.
  - apply IH in H. rewrite Hst in H. destruct n; exact H.
  - destruct (yy_destructor p (major e) (minor e)) as [q|] eqn:Hd; simpl in H; [|discriminate H].
    apply IH in H as [Hc Hs]. apply yy_destructor_frame in Hd as (Hc' & _ & _).
    rewrite Hc, Hs. simpl. auto.
Qed.

(** A reduce keeps the schema and [ctx->ok], whatever [ctx->root]
    holds: the semantic actions only write the root and allocate. *)
Lemma yy_reduce_spec (p p' : @yyParser IndexSpec) (la a : Z) (e : yyStackEntry)
  (rest : list yyStackEntry) :
  yystack p = e :: rest -> wf_stack (e :: rest) -> 0 <= la < 11 ->
  yy_find_shift_action (stateno e) la = Ok a -> YYNSTATE <= a < YYNSTATE + YYNRULE ->
  yy_reduce p (a - YYNSTATE) = Ok p' ->
  spec (pctx p') = spec (pctx p) /\ ok (pctx p') = ok (pctx p).
Proof.
  intros Hst Hwf Hla Hf Ha Hred.
  destruct (yy_reduce_result p p' la a e rest Hst Hwf Hla Hf Ha Hred) as (gm & p1 & Hact & Hc).
  rewrite <- Hst in Hwf.
  destruct (yy_reduce_frame _ _ _ _ _ Hst Hwf Hla Hf Ha) as (Hlen & Hmaj & Hty & _).
  assert (Hr : 0 <= a - YYNSTATE < YYNRULE) by (unfold YYNRULE, YYNSTATE in *; lia).
  destruct (yy_rule_action_ok p _ Hr Hlen Hmaj Hty) as (gm' & p2 & Hact' & Hpost).
  rewrite Hact in Hact'. injection Hact' as <- <-.
  assert (Hp1 : spec (pctx p1) = spec (pctx p) /\ ok (pctx p1) = ok (pctx p)).
  { unfold action_post in Hpost. destruct (rule_lhs (a - YYNSTATE) =? NT_query).
    - destruct Hpost as (_ & [(_ & ->) | (n & -> & _)]); auto.
    - destruct Hpost as (_ & k & -> & _). auto. }
  destruct Hc as [(_ & _ & Hc & _) | (_ & _ & Hc & _)]; rewrite Hc; auto.
Qed.

(** The three branches of one iteration: a shift (never of the end of
    input); a reduce, which keeps the look-ahead; or the error action,
    which discards the token, empties the stack at end of input, and
    clears [ctx->ok] unless [yyerrcnt] was positive and [ok] set. *)
Lemma yy_parse_step_cases (p p' : @yyParser IndexSpec) (e : yyStackEntry)
  (rest : list yyStackEntry) (la m' : Z) (t : QueryToken) (eoi : bool) :
  yystack p = e :: rest -> wf_stack (e :: rest) -> 0 <= la < 11 ->
  yy_parse_step p la (yy0 t) eoi = Ok (p', m') ->
  exists a, yy_find_shift_action (stateno e) la = Ok a /\
  ((0 <= a < YYNSTATE /\ eoi = false /\ m' = YYNOCODE
    /\ exists p1, yy_shift p a la (yy0 t) = Ok p1 /\ p' = set_errcnt p1 (yyerrcnt p1 - 1))
   \/ (YYNSTATE <= a < YYNSTATE + YYNRULE /\ m' = la /\ yy_reduce p (a - YYNSTATE) = Ok p')
   \/ (a = YY_ERROR_ACTION /\ m' = YYNOCODE /\ spec (pctx p') = spec (pctx p)
       /\ root (pctx p') = root (pctx p)
       /\ yystack p' = (if eoi then [] else yystack p)
       /\ ((yyerrcnt p <= 0 \/ ok (pctx p) = false) -> ok (pctx p') = false))).
Proof.
  intros Hst Hwf Hla H. unfold yy_parse_step in H. rewrite Hst, obind_ok in H.
  destruct (yy_find_shift_action_cases _ _ (wf_stack_top_range _ _ Hwf) Hla) as (a & Hf & Ha & _).
  exists a. split; [exact Hf|]. rewrite Hf, obind_ok in H.
  destruct (Z.ltb_spec a YYNSTATE) as [Hsh|Hsh].
  - left. destruct eoi; [discriminate H|].
    apply obind_ok_inv in H as (p1 & H1 & H). injection H as <- <-.
    split; [lia|]. split; [reflexivity|]. split; [reflexivity|]. eauto.
  - right. destruct (Z.ltb_spec a (YYNSTATE + YYNRULE)) as [Hred|Hred].
    + left. apply obind_ok_inv in H as (p1 & H1 & H). injection H as <- <-. auto.
    + right. assert (Herr : a = YY_ERROR_ACTION) by (unfold YY_ERROR_ACTION in *; lia).
      rewrite Herr, Z.eqb_refl in H. simpl negb in H. cbv iota in H.
      apply obind_ok_inv in H as (p1 & H1 & H). apply obind_ok_inv in H as (p2 & H2 & H).
      apply obind_ok_inv in H as (p3 & H3 & H). injection H as <- <-.
      assert (Hc1 : spec (pctx p1) = spec (pctx p) /\ root (pctx p1) = root (pctx p)
                    /\ yystack p1 = yystack p
                    /\ ((yyerrcnt p <= 0 \/ ok (pctx p) = false) -> ok (pctx p1) = false)).
      { destruct (Z.leb_spec (yyerrcnt p) 0) as [E|E].
        - unfold yy_syntax_error in H1. simpl in H1. injection H1 as <-. simpl. auto.
        - injection H1 as <-. split; [reflexivity|]. split; [reflexivity|].
          split; [reflexivity|]. intros [E'|E']; [lia | exact E']. }
      apply yy_destructor_frame in H2 as (Hc2 & Hs2 & _). simpl in Hc2, Hs2.
      assert (H3' : pctx p3 = pctx p2 /\ yystack p3 = (if eoi then [] else yystack p2)).
      { destruct eoi; [|injection H3 as <-; auto].
        unfold yy_parse_failed, yy_pop_all in H3. apply yy_pop_n_frame in H3 as [Hc3 Hs3].
        rewrite Hs3, skipn_all. auto. }
      destruct H3' as [Hc3 Hs3]. rewrite Hc3, Hc2, Hs3, Hs2.
      destruct Hc1 as (Hs & Hr & Hst1 & Hok). rewrite Hst1. repeat split; assumption.
Qed.

End Shape.

Section Transfer.
Context {IndexSpec : Type} `{FR : FieldResolver IndexSpec}.

(** The invariant, on the tokens fed so far and the parser. *)
Variable P : list token -> @yyParser IndexSpec -> Prop.

(** One iteration keeps it, the look-ahead being added to the tokens
    fed when the iteration consumed it. *)
Hypothesis P_step : forall (p p' : @yyParser IndexSpec) (la m' : Z) (t : QueryToken) cs,
  inv p -> yystack p <> [] -> 0 <= la < 11 -> (la = TK_EOF -> root (pctx p) = None) ->
  P cs p -> yy_parse_step p la (yy0 t) (la =? TK_EOF) = Ok (p', m') ->
  P (if m' =? YYNOCODE then fed la t cs else cs) p'.

(** [Parse]'s (re)initialisation of an empty stack keeps it. *)
Hypothesis P_init : forall (p : @yyParser IndexSpec) cs,
  inv p -> yystack p = [] -> root (pctx p) = None -> P cs p ->
  P cs (set_errcnt (set_stack p yy_init_stack) (-1)).

Lemma yy_parse_loop_P (fuel : nat) :
  forall (p p' : @yyParser IndexSpec) (la : Z) (t : QueryToken) (cs : list token),
  inv p -> yystack p <> [] -> 0 <= la < 11 -> (la = TK_EOF -> root (pctx p) = None) ->
  P cs p -> yy_parse_loop fuel p la (yy0 t) (la =? TK_EOF) = Ok p' -> P (fed la t cs) p'.
Proof.
  induction fuel as [|fuel IH]; intros p p' la t cs Hinv Hne Hla Hroot HP H; [discriminate H|].
  simpl in H. apply obind_ok_inv in H as ([p1 m1] & Hs & H).
  pose proof (P_step p p1 la m1 t cs Hinv Hne Hla Hroot HP Hs) as HP1.
  destruct (yy_parse_step_ok p la t Hinv Hne Hla Hroot) as (p2 & m2 & Hs2 & Hinv1 & _ & _ & Hcase).
  rewrite Hs in Hs2. injection Hs2 as <- <-.
  destruct (yy_parse_step_shape p p1 la m1 t Hinv Hla Hs) as [-> | (-> & Hemp)].
  - rewrite Z.eqb_refl in H, HP1. injection H as <-. exact HP1.
  - assert (Hla' : (la =? YYNOCODE) = false) by (apply Z.eqb_neq; unfold YYNOCODE; lia).
    rewrite Hla' in H, HP1. simpl orb in H.
    destruct (length (yystack p1) =? 0)%nat eqn:Estop.
    + injection H as <-. apply Nat.eqb_eq, length_zero_iff_nil, Hemp in Estop.
      unfold fed. rewrite Estop, Z.eqb_refl. exact HP1.
    + apply Nat.eqb_neq in Estop.
      assert (Hne1 : yystack p1 <> []) by (intros E; rewrite E in Estop; contradiction).
      destruct Hcase as [(E & _) | [E | (_ & _ & Hr1 & _)]];
        [unfold YYNOCODE in E; lia | contradiction|].
      exact (IH p1 p' la t cs Hinv1 Hne1 Hla ltac:(rewrite Hr1; exact Hroot) HP1 H).
Qed.

Lemma Parse_P (p p' : @yyParser IndexSpec) (la : Z) (t : QueryToken) (cs : list token) :
  inv p -> 0 <= la < 11 -> root (pctx p) = None -> P cs p -> Parse p la t = Ok p' ->
  P (fed la t cs) p'.
Proof.
  intros Hinv Hla Hroot HP. unfold Parse.
  set (p0 := match yystack p with
             | [] => set_errcnt (set_stack p yy_init_stack) (-1)
             | _ => p
             end).
  assert (H0 : inv p0 /\ yystack p0 <> [] /\ pctx p0 = pctx p /\ P cs p0).
  { unfold p0. destruct (yystack p) as [|e rest] eqn:Hst.
    - pose proof (P_init p cs Hinv Hst Hroot HP) as HP0.
      destruct Hinv as (_ & Hacc & Hmsg). unfold inv, acct in *. rewrite Hst in Hacc. simpl in *.
      split; [split; [repeat split | split; [exact Hacc | exact Hmsg]]|].
      split; [unfold yy_init_stack; discriminate|]. split; [reflexivity | exact HP0].
    - split; [exact Hinv|]. split; [intros E; congruence|]. split; [reflexivity | exact HP]. }
  destruct H0 as (Hinv0 & Hne0 & Hc0 & HP0). intros H.
  exact (yy_parse_loop_P _ p0 p' la t cs Hinv0 Hne0 Hla
           ltac:(rewrite Hc0; intros; exact Hroot) HP0 H).
Qed.

Lemma Parse_all_P (ts : list token) :
  forall (p p' : @yyParser IndexSpec) (cs : list token),
  inv p -> lexer_tokens ts -> root (pctx p) = None -> P cs p -> Parse_all p ts = Ok p' ->
  P (cs ++ ts) p' /\ inv p' /\ root (pctx p') = None.
Proof.
  induction ts as [|[k t] ts IH]; intros p p' cs Hinv Hts Hroot HP H; simpl in H.
  - injection H as <-. rewrite app_nil_r. auto.
  - inversion Hts as [|? ? Hk Hts']; subst. simpl in Hk.
    apply obind_ok_inv in H as (p1 & H1 & H).
    destruct (Parse_ok p k t Hinv ltac:(lia) ltac:(intros; exact Hroot))
      as (p2 & H2 & Hinv1 & _ & Hr1 & _).
    rewrite H1 in H2. injection H2 as <-.
    pose proof (Parse_P p p1 k t cs Hinv ltac:(lia) Hroot HP H1) as HP1. unfold fed in HP1.
    replace (k =? TK_EOF) with false in HP1 by (symmetry; apply Z.eqb_neq; unfold TK_EOF; lia).
    assert (Hroot1 : root (pctx p1) = None) by (rewrite Hr1; [exact Hroot | unfold TK_EOF; lia]).
    destruct (IH p1 p' (cs ++ [(k, t)]) Hinv1 Hts' Hroot1 HP1 H) as (HP' & Hinv' & Hr').
    rewrite <- app_assoc in HP'. auto.
Qed.

(** A whole parse: the invariant, established for the fresh parser and
    no token, holds at the end for the whole input. *)
Lemma Query_Parse_P (sp : option IndexSpec) (ts : list token) (eof : QueryToken)
  (p : @yyParser IndexSpec) :
  P [] (ParseAlloc (mkCtx None true None sp)) -> lexer_tokens ts ->
  Query_Parse sp ts eof = Ok p -> P ts p /\ yystack p = [].
Proof.
  intros HP0 Hts H. unfold Query_Parse in H. rewrite Parse_all_app in H.
  apply obind_ok_inv in H as (p2 & H2 & H). apply obind_ok_inv in H2 as (p1 & H1 & H2).
  assert (Hinv0 : inv (ParseAlloc (mkCtx None true None sp)))
    by (unfold inv, acct, msg_inv; simpl; repeat split; auto).
  destruct (Parse_all_P ts _ p1 [] Hinv0 Hts eq_refl HP0 H1) as (HP1 & Hinv1 & Hr1).
  simpl in H2, HP1. apply obind_ok_inv in H2 as (p3 & H3 & E). injection E as <-.
  pose proof (Parse_P p1 p3 TK_EOF eof ts Hinv1 ltac:(unfold TK_EOF; lia) Hr1 HP1 H3) as HP.
  unfold fed in HP. rewrite Z.eqb_refl in HP.
  destruct (Parse_ok p1 TK_EOF eof Hinv1 ltac:(unfold TK_EOF; lia) ltac:(intros; exact Hr1))
    as (p4 & H4 & _ & _ & _ & Hemp).
  rewrite H3 in H4. injection H4 as <-. specialize (Hemp eq_refl).
  unfold ParseFree, yy_pop_all in H. rewrite Hemp in H. injection H as <-. auto.
Qed.

End Transfer.

End LoopInvariant.
