(* ===== verification/StackDepth.v ===== *)
(** * The stack depth bound and the fast path of [yy_reduce]

    [parser.c] is built with [NDEBUG]: after a reduce that popped at
    least one entry, [yy_reduce] writes the left-hand side into the
    freed slot itself, skipping the overflow test of [yy_shift] (lines
    901 to 913).  Without [NDEBUG] every goto goes through [yy_shift].
    [yy_reduce_debug] is that build's [yy_reduce].  The two agree on
    every stack of at most [YYSTACKDEPTH] entries
    ([yy_reduce_fast_path]), and no parse ever holds more: each
    iteration of [Parse] keeps the bound ([Parse_depth_bound], through
    the transfer of [LoopInvariant]).  So the optimisation is
    invisible, and the stack array of [YYSTACKDEPTH] entries is never
    written out of bounds. *)

From Stdlib Require Import ZArith String List Bool Lia.
From S2P Require Import Prelude Tables QueryNode Grammar Automaton Invariants Safety LoopInvariant.
Import ListNotations.
Import Tables QueryNode Grammar Automaton Invariants Safety LoopInvariant.
Open Scope Z_scope.
Open Scope lemon_scope.

Module StackDepth.

Section Depth.
Context {IndexSpec : Type} `{FR : FieldResolver IndexSpec}.

(** [yy_reduce] as compiled without [NDEBUG]: the goto always goes
    through [yy_shift] and its overflow test. *)
Definition yy_reduce_debug (p : @yyParser IndexSpec) (yyruleno : Z) : outcome yyParser :=
  '(yygotominor, p1) <- yy_rule_action p yyruleno ;;
  let yygoto := rule_lhs yyruleno in
  let yysize := rule_nrhs yyruleno in
  let st := skipn (Z.to_nat yysize) (yystack p1) in
  below <- (match st with
            | e :: _ => Ok e
            | [] => Stuck (AssertFailed "yymsp[-yysize] within the stack")
            end) ;;
  yyact <- yy_find_reduce_action (stateno below) yygoto ;;
  if yyact <? YYNSTATE then yy_shift (set_stack p1 st) yyact yygoto yygotominor
  else if yyact =? YY_ACCEPT_ACTION then yy_accept (set_stack p1 st)
  else Stuck (AssertFailed "yyact == YYNSTATE + YYNRULE + 1").

(** The stack fits the array of [YYSTACKDEPTH] entries. *)
Definition depth_ok (p : @yyParser IndexSpec) : Prop :=
  Z.of_nat (length (yystack p)) <= YYSTACKDEPTH.

(** The semantic actions read the stack and never change it. *)
Lemma yy_rule_action_stack (p p1 : @yyParser IndexSpec) (r : Z) (gm : YYMINORTYPE) :
  yy_rule_action p r = Ok (gm, p1) -> yystack p1 = yystack p.
Proof.
  unfold yy_rule_action. intros H.
  destruct r as [|q|q]; [|do 5 (try destruct q as [q|q|])|];
    cbn iota beta in H; inv_ok; reflexivity.
Qed.

(** Nor the error counter or [ctx->ok]: they write [ctx->root] and
    allocate, nothing else. *)
Lemma yy_rule_action_flags (p p1 : @yyParser IndexSpec) (r : Z) (gm : YYMINORTYPE) :
  yy_rule_action p r = Ok (gm, p1) -> yyerrcnt p1 = yyerrcnt p /\ ok (pctx p1) = ok (pctx p).
Proof.
  unfold yy_rule_action. intros H.
  destruct r as [|q|q]; [|do 5 (try destruct q as [q|q|])|];
    cbn iota beta in H; inv_ok; split; reflexivity.
Qed.

Lemma length_skipn_lt {A : Type} (n : nat) (l : list A) (x : A) (l' : list A) :
  (1 <= n)%nat -> skipn n l = x :: l' -> (length (skipn n l) < length l)%nat.
Proof.
  intros Hn Hs. rewrite length_skipn.
  assert (length (skipn n l) <> 0%nat) by (rewrite Hs; discriminate).
  rewrite length_skipn in H. lia.
Qed.

(** [yy_shift] below the bound pushes; at the bound it empties the
    stack: it never leaves more than [YYSTACKDEPTH] entries. *)
Lemma yy_shift_depth (p p' : @yyParser IndexSpec) (a X : Z) (m : YYMINORTYPE) :
  depth_ok p -> yy_shift p a X m = Ok p' -> depth_ok p'.
Proof.
  unfold depth_ok, yy_shift. intros Hd H.
  destruct (Z.geb_spec (Z.of_nat (length (yystack p))) YYSTACKDEPTH) as [Ge|Lt].
  - unfold yyStackOverflow, yy_pop_all in H. apply yy_pop_n_frame in H as [_ ->].
    rewrite skipn_all. simpl. unfold YYSTACKDEPTH. lia.
  - injection H as <-. simpl. lia.
Qed.

(** The popped stack of a reduce that popped something is strictly
    shorter. *)
Lemma reduce_pop_shorter (p1 : @yyParser IndexSpec) (r : Z) (below : yyStackEntry) rest :
  0 < rule_nrhs r -> skipn (Z.to_nat (rule_nrhs r)) (yystack p1) = below :: rest ->
  (length (below :: rest) < length (yystack p1))%nat.
Proof.
  intros Hn Hs. rewrite <- Hs. apply (length_skipn_lt _ _ below rest); [lia | exact Hs].
Qed.

(** A reduce keeps the bound. *)
Lemma yy_reduce_depth (p p' : @yyParser IndexSpec) (r : Z) :
  depth_ok p -> yy_reduce p r = Ok p' -> depth_ok p'.
Proof.
  unfold yy_reduce. intros Hd H.
  apply obind_ok_inv in H as ([gm p1] & Hact & H). apply yy_rule_action_stack in Hact.
  destruct (skipn (Z.to_nat (rule_nrhs r)) (yystack p1)) as [|below rest] eqn:Hs;
    [discriminate H|]. rewrite obind_ok in H.
  apply obind_ok_inv in H as (act & _ & H).
  assert (Hle : depth_ok (set_stack p1 (below :: rest))).
  { unfold depth_ok, set_stack in *. cbn [yystack]. rewrite <- Hs, length_skipn, Hact. lia. }
  destruct (act <? YYNSTATE).
  - destruct (Z.gtb_spec (rule_nrhs r) 0) as [Gt|Le].
    + injection H as <-. unfold depth_ok, set_stack in *. cbn [yystack length].
      pose proof (reduce_pop_shorter p1 r below rest Gt Hs) as Hl. rewrite Hact in Hl.
      cbn [length] in Hl. lia.
    + exact (yy_shift_depth _ _ _ _ _ Hle H).
  - destruct (act =? YY_ACCEPT_ACTION); [|discriminate H].
    unfold yy_accept, yy_pop_all in H. unfold depth_ok. apply yy_pop_n_frame in H as [_ ->].
    rewrite skipn_all. unfold YYSTACKDEPTH. simpl. lia.
Qed.

(** One iteration of [Parse] keeps the bound. *)
Lemma yy_parse_step_depth (p p' : @yyParser IndexSpec) (la m' : Z) (t : QueryToken) (eoi : bool) :
  inv p -> yystack p <> [] -> 0 <= la < 11 -> depth_ok p ->
  yy_parse_step p la (yy0 t) eoi = Ok (p', m') -> depth_ok p'.
Proof.
  intros (Hwf & _ & _) Hne Hla Hd H.
  destruct (yystack p) as [|e rest] eqn:Hst; [contradiction|].
  destruct (yy_parse_step_cases p p' e rest la m' t eoi Hst Hwf Hla H)
    as (a & _ & [(_ & _ & _ & p1 & Hs1 & ->) | [(_ & _ & Hr) | (_ & _ & _ & _ & Hs' & _)]]).
  - exact (yy_shift_depth _ _ _ _ _ Hd Hs1).
  - exact (yy_reduce_depth _ _ _ Hd Hr).
  - unfold depth_ok in *. rewrite Hs'. destruct eoi; [simpl; unfold YYSTACKDEPTH; lia | exact Hd].
Qed.

Lemma depth_ok_init (p : @yyParser IndexSpec) :
  depth_ok (set_errcnt (set_stack p yy_init_stack) (-1)).
Proof. unfold depth_ok, YYSTACKDEPTH. simpl. lia. Qed.

(** The fast path pushes into the slot the reduce freed; below
    [YYSTACKDEPTH] entries that is what [yy_shift] does. *)
Lemma yy_reduce_debug_agrees (p : @yyParser IndexSpec) (r : Z) :
  depth_ok p -> yy_reduce p r = yy_reduce_debug p r.
Proof.
  unfold yy_reduce, yy_reduce_debug, depth_ok. intros Hd.
  destruct (yy_rule_action p r) as [[gm p1]|] eqn:Hact; [|reflexivity]. simpl.
  apply yy_rule_action_stack in Hact.
  destruct (skipn (Z.to_nat (rule_nrhs r)) (yystack p1)) as [|below rest] eqn:Hs; [reflexivity|].
  simpl. destruct (yy_find_reduce_action (stateno below) (rule_lhs r)) as [act|]; [|reflexivity].
  simpl. destruct (act <? YYNSTATE); [|reflexivity].
  destruct (Z.gtb_spec (rule_nrhs r) 0) as [Gt|Le]; [|reflexivity].
  pose proof (reduce_pop_shorter p1 r below rest Gt Hs) as Hl. rewrite Hact in Hl.
  unfold yy_shift, set_stack. cbn [yystack].
  destruct (Z.geb_spec (Z.of_nat (length (below :: rest))) YYSTACKDEPTH) as [Ge|_];
    [lia | reflexivity].
Qed.


End Depth.

Section Claims.
Context {IndexSpec : Type} `{FR : FieldResolver IndexSpec}.

(** C10. The stack never outgrows its array: a call of [Parse] on a
    parser in the invariant whose stack holds at most [YYSTACKDEPTH]
    entries returns a parser whose stack holds at most [YYSTACKDEPTH]
    entries, every iteration of its loop keeping the bound ([yy_shift]
    empties the stack instead of pushing past it). *)
Theorem Parse_depth_bound (p p' : @yyParser IndexSpec) (la : Z) (t : QueryToken) :
  inv p -> 0 <= la < 11 -> root (pctx p) = None -> depth_ok p ->
  Parse p la t = Ok p' -> depth_ok p'.
Proof.
  intros Hinv Hla Hr Hd H.
  exact (Parse_P (fun _ q => depth_ok q)
           (fun p p' la m' t _ Hinv Hne Hla _ Hd H => yy_parse_step_depth p p' la m' t _ Hinv Hne Hla Hd H)
           (fun p _ _ _ _ _ => depth_ok_init p) p p' la t [] Hinv Hla Hr Hd H).
Qed.

(** C11. The [NDEBUG] fast path of [yy_reduce] is an optimisation only:
    on every parser whose stack is within [YYSTACKDEPTH] entries (all of
    them, by C10), [yy_reduce] returns what the [yy_reduce] of the build
    without [NDEBUG] returns, which pushes the left-hand side through
    [yy_shift] and its overflow test. *)
Theorem yy_reduce_fast_path (p : @yyParser IndexSpec) (r : Z) :
  depth_ok p -> yy_reduce p r = yy_reduce_debug p r.
Proof. exact (yy_reduce_debug_agrees p r). Qed.

End Claims.

(** ** Instances: the first token [a] of a query, and the reduce of
    [expr ::= TERM] that follows it *)

Definition dp_start : @yyParser ListSchema :=
  ParseAlloc (mkCtx None true None (Some ["title"; "body"]%string)).
Definition dp_token : QueryToken := mkToken "a" 1 0.
Definition dp_after : @yyParser ListSchema :=
  match Parse dp_start TK_TERM dp_token with Ok q => q | Stuck _ => dp_start end.

Lemma Parse_depth_bound_witness :
  Parse dp_start TK_TERM dp_token = Ok dp_after /\ length (yystack dp_after) = 2%nat
  /\ depth_ok dp_after.
Proof.
  assert (Hp : Parse dp_start TK_TERM dp_token = Ok dp_after) by (vm_compute; reflexivity).
  split; [exact Hp|]. split; [vm_compute; reflexivity|].
  refine (Parse_depth_bound dp_start dp_after TK_TERM dp_token _ _ _ _ Hp).
  - unfold inv, acct, msg_inv. simpl. repeat split; auto.
  - unfold TK_TERM. lia.
  - reflexivity.
  - unfold depth_ok, YYSTACKDEPTH. simpl. lia.
Defined.

Lemma yy_reduce_fast_path_witness :
  depth_ok dp_after /\ is_ok (yy_reduce dp_after 8) = true
  /\ yy_reduce dp_after 8 = yy_reduce_debug dp_after 8.
Proof.
  assert (Hd : depth_ok dp_after) by (unfold depth_ok, YYSTACKDEPTH; vm_compute; discriminate).
  split; [exact Hd|]. split; [vm_compute; reflexivity|].
  exact (yy_reduce_fast_path dp_after 8 Hd).
Defined.

End StackDepth.
