(* ===== verification/Behaviour.v ===== *)
(** * Observable behaviour of [Query_Parse]

    The branches of [Parse] where the code departs from the
    specification, proved for every state: the error action
    ([yy_parse_step_error]: the message is overwritten exactly when
    [yyerrcnt <= 0], the root is kept, the stack kept unless at end of
    input), the stack overflow ([yy_parse_loop_overflow]: the loop
    returns with the stack emptied and [ctx] untouched), and the two
    scoping actions without a schema ([scoping_without_schema]: a field
    list clears the mask, a single field keeps it).  Then the
    diagnostic of [yy_syntax_error] and the field masks with a schema.
    Last, evaluated examples: the parses the specification lists as
    testable properties (section 8), on token streams as the lexer
    produces them, and the same divergences on concrete queries, with
    a driver that starts a second parse after accepting. *)

From Stdlib Require Import ZArith String List Bool Lia.
From S2P Require Import Prelude Tables QueryNode Automaton Diagnostic Invariants Safety.
Import ListNotations.
Import Tables QueryNode Automaton Diagnostic Invariants Safety.
Open Scope Z_scope.
Open Scope lemon_scope.

Module Behaviour.

(** ** The diagnostic *)

(** C17. The diagnostic is never cut short: [snprintf] into the buffer
    of [TOKEN.len + 100] bytes keeps the whole message, for any offset
    that fits a 64-bit integer, so [ctx->errorMsg] holds the full text
    "Syntax error at offset <pos> near '<token>'". *)
Theorem yy_syntax_error_message_complete (p : @yyParser ListSchema) (la : Z) (t : QueryToken)
  (p' : @yyParser ListSchema) :
  0 <= qt_len t -> - 2 ^ 63 < qt_pos t < 2 ^ 63 ->
  yy_syntax_error p la (yy0 t) = Ok p' ->
  errorMsg (pctx p') = Some (fmt_syntax_error t) /\ ok (pctx p') = false.
Proof.
  intros Hlen Hpos H. unfold yy_syntax_error in H. simpl in H. injection H as <-. simpl.
  split; [|reflexivity]. rewrite snprintf_syntax_error by assumption. reflexivity.
Qed.

(** ** Field masks *)

Lemma modifierlist_mask_fold (sp : ListSchema) (names : list string) (acc : Z) (k : Z) :
  Z.testbit (fold_left (fun acc name =>
      Z.lor acc (IndexSpec_GetFieldBit sp name (Z.of_nat (String.length name)))) names acc) k
  = Z.testbit acc k
    || existsb (fun name => Z.testbit (IndexSpec_GetFieldBit sp name
                                         (Z.of_nat (String.length name))) k) names.
Proof.
  revert acc. induction names as [|n names IH]; intros acc; simpl.
  - rewrite orb_false_r. reflexivity.
  - rewrite IH, Z.lor_spec, orb_assoc. reflexivity.
Qed.

(** C18. With a schema, the mask that [modifierlist ':' expr] writes
    has exactly the bits of the listed field names: bit [k] is set iff
    it is the bit of one of the names. *)
Theorem modifierlist_mask_bits (sp : ListSchema) (names : list string) (k : Z) :
  Z.testbit (@modifierlist_mask ListSchema _ (Some sp) names) k = true
  <-> exists name, In name names
       /\ Z.testbit (IndexSpec_GetFieldBit sp name (Z.of_nat (String.length name))) k = true.
Proof.
  unfold modifierlist_mask.
  rewrite (modifierlist_mask_fold sp names 0 k), Z.testbit_0_l. simpl.
  rewrite existsb_exists. reflexivity.
Qed.

(** ** The branches where the code departs from the specification *)

Section Branches.
Context {IndexSpec : Type} `{FR : FieldResolver IndexSpec}.

(** The context [yy_syntax_error] leaves for token [t]. *)
Definition reported_ctx (c : @parseCtx IndexSpec) (t : QueryToken) : @parseCtx IndexSpec :=
  mkCtx (root c) false (Some (snprintf (qt_len t + 100) (fmt_syntax_error t))) (spec c).

Lemma modifierlist_mask_None (names : list string) :
  @modifierlist_mask IndexSpec _ None names = 0.
Proof.
  unfold modifierlist_mask. enough (H : forall acc, fold_left (fun acc (_ : string) => acc) names acc = acc)
    by exact (H 0).
  induction names as [|n names IH]; intros acc; [reflexivity | exact (IH acc)].
Qed.

(** C14. The error action, in full: whatever the state and the token,
    the token is dropped and [yyerrcnt] set to 3; the message is
    written, overwriting any earlier one, exactly when [yyerrcnt <= 0],
    i.e. once three tokens have been shifted since the last error;
    [ctx->root] is never touched; and the stack is kept, unless the
    token is the end of input, when it is emptied and its nodes freed.
    So a failed parse can keep a root, and a later error replaces the
    first diagnostic, where the specification keeps the first and
    leaves no root. *)
Theorem yy_parse_step_error (p : @yyParser IndexSpec) (e : yyStackEntry) (rest : list yyStackEntry)
  (la : Z) (t : QueryToken) (eoi : bool) :
  wf_stack (yystack p) -> yystack p = e :: rest -> 0 <= la < 11 ->
  yy_find_shift_action (stateno e) la = Ok YY_ERROR_ACTION ->
  yy_parse_step p la (yy0 t) eoi
  = Ok (mkParser (if eoi then [] else yystack p) 3
          (if yyerrcnt p <=? 0 then reported_ctx (pctx p) t else pctx p)
          (if eoi then live_nodes p - stack_nodes (yystack p) else live_nodes p)%nat, YYNOCODE).
Proof.
  intros Hwf Hst Hla Hf. unfold yy_parse_step. rewrite Hst. cbn [obind]. rewrite Hf. cbn [obind].
  change (YY_ERROR_ACTION <? YYNSTATE) with false.
  change (YY_ERROR_ACTION <? YYNSTATE + YYNRULE) with false. rewrite Z.eqb_refl. cbn [negb].
  rewrite <- Hst. destruct (yyerrcnt p <=? 0);
    unfold yy_syntax_error; cbn [obind get_yy0]; rewrite yy_destructor_token by exact Hla;
    cbn [obind]; (destruct eoi; [unfold yy_parse_failed; rewrite yy_pop_all_ok
      by (apply wf_stack_entries_ok; exact Hwf)|]); destruct p; reflexivity.
Qed.

(** C15. A stack overflow is silent: when a shift finds the 100
    entries of the stack in use, the loop of [Parse] returns at once
    with the stack emptied and its nodes freed, and with [ctx] (root,
    [ok], message) exactly as it was: no diagnostic, and the next token
    starts a fresh parse on an empty stack. *)
Theorem yy_parse_loop_overflow (f : nat) (p : @yyParser IndexSpec) (e : yyStackEntry)
  (rest : list yyStackEntry) (la a : Z) (t : QueryToken) :
  Forall entry_ok (yystack p) -> yystack p = e :: rest ->
  YYSTACKDEPTH <= Z.of_nat (length (yystack p)) ->
  yy_find_shift_action (stateno e) la = Ok a -> 0 <= a < YYNSTATE ->
  yy_parse_loop (S f) p la (yy0 t) false
  = Ok (mkParser [] (yyerrcnt p - 1) (pctx p) (live_nodes p - stack_nodes (yystack p))%nat).
Proof.
  intros Hok Hst Hfull Hf Ha. cbn [yy_parse_loop]. unfold yy_parse_step. rewrite Hst. cbn [obind].
  rewrite Hf. cbn [obind]. rewrite (proj2 (Z.ltb_lt a YYNSTATE)) by lia.
  rewrite <- Hst, yy_shift_ok by exact Hok.
  rewrite (proj2 (Z.geb_le _ _)) by exact Hfull. reflexivity.
Qed.

(** C16. Without a schema the two scoping rules part: [modifierlist
    ':' expr] sets the mask of the subtree to 0 (it matches no field),
    whatever the names, while [modifier ':' expr] leaves the subtree,
    and its default mask, as it is; the specification keeps the default
    in both cases. *)
Theorem scoping_without_schema (p : @yyParser IndexSpec) (e0 e1 e2 : yyStackEntry)
  (rest : list yyStackEntry) :
  spec (pctx p) = None -> yystack p = e0 :: e1 :: e2 :: rest ->
  (forall names n, minor e2 = yy2 names -> minor e0 = yy3 n ->
     yy_rule_action p 15 = Ok (yy3 (set_fieldMask 0 n), p))
  /\ (forall tk n, minor e2 = yy0 tk -> minor e0 = yy3 n -> yy_rule_action p 16 = Ok (yy3 n, p)).
Proof.
  intros Hsp Hst. unfold yy_rule_action, yymsp. rewrite Hsp, Hst. cbn [nth_error obind].
  split; intros x n H2 H0; rewrite H2, H0; cbn [get_yy0 get_yy2 get_yy3 obind];
    [rewrite modifierlist_mask_None|]; reflexivity.
Qed.

End Branches.

(** ** Token streams *)

Definition term (s : string) (pos : Z) : Z * QueryToken :=
  (TK_TERM, mkToken s (Z.of_nat (String.length s)) pos).
Definition punct (k : Z) (c : string) (pos : Z) : Z * QueryToken := (k, mkToken c 1 pos).
Definition eof (pos : Z) : QueryToken := mkToken EmptyString 0 pos.
Definition quote_char : string := String (Ascii.ascii_of_nat 34) EmptyString.

(** What the caller sees after a parse: the root, [ok], the message,
    and the number of live nodes. *)
Definition parse_result (sp : option ListSchema) (ts : list (Z * QueryToken)) (e : QueryToken)
  : option (option QueryNode * bool * option string * nat) :=
  match Query_Parse sp ts e with
  | Ok p => Some (root (pctx p), ok (pctx p), errorMsg (pctx p), live_nodes p)
  | Stuck _ => None
  end.

Definition tok (s : string) : QueryNode := QN_Token RS_FIELDMASK_ALL s (Z.of_nat (String.length s)).

(** ** The specification's examples (section 8) *)

(** The basic forms of section 8 of the specification: the empty
    query parses with no root and no diagnostic; [hello] is a single
    term node; a quoted ["hello world"] is an exact phrase of the two
    terms; [-hello] is the negation and [~hello] the optional match of
    the term; [hello*] is a prefix node; [a|b] is the union of the two
    terms. *)
Example parse_basic_forms :
  parse_result None [] (eof 0) = Some (None, true, None, O)
  /\ parse_result None [term "hello" 0] (eof 5) = Some (Some (tok "hello"), true, None, 1%nat)
  /\ parse_result None
       [punct TK_QUOTE quote_char 0; term "hello" 1; term "world" 7; punct TK_QUOTE quote_char 12] (eof 13)
     = Some (Some (QN_Phrase RS_FIELDMASK_ALL true [tok "hello"; tok "world"]), true, None, 3%nat)
  /\ parse_result None [punct TK_MINUS "-" 0; term "hello" 1] (eof 6)
     = Some (Some (QN_Not RS_FIELDMASK_ALL (tok "hello")), true, None, 2%nat)
  /\ parse_result None [punct TK_TILDE "~" 0; term "hello" 1] (eof 6)
     = Some (Some (QN_Optional RS_FIELDMASK_ALL (tok "hello")), true, None, 2%nat)
  /\ parse_result None [term "hello" 0; punct TK_STAR "*" 5] (eof 6)
     = Some (Some (QN_Prefix RS_FIELDMASK_ALL "hello" 5), true, None, 1%nat)
  /\ parse_result None [term "a" 0; punct TK_OR "|" 1; term "b" 2] (eof 3)
     = Some (Some (QN_Union RS_FIELDMASK_ALL [tok "a"; tok "b"]), true, None, 3%nat).
Proof. repeat split; vm_compute; reflexivity. Qed.

(** [hello world] is an implicit intersection: a non-exact phrase
    of the two terms, in order. *)
Example parse_implicit_and :
  parse_result None [term "hello" 0; term "world" 6] (eof 11)
  = Some (Some (QN_Phrase RS_FIELDMASK_ALL false [tok "hello"; tok "world"]), true, None, 3%nat).
Proof. vm_compute. reflexivity. Qed.

(** The schema of the examples: [title] is field 2, [body] field 5. *)
Definition schema : ListSchema := ["a"; "b"; "title"; "c"; "d"; "body"]%string.

(** With a schema, [@title:hello] restricts the term to the bit of
    [title], and [@title|body:hello] to the bits of both fields; the
    [|] inside the field list is not a union. *)
Example parse_field_modifiers :
  parse_result (Some schema)
    [punct TK_AT "@" 0; term "title" 1; punct TK_COLON ":" 6; term "hello" 7] (eof 12)
  = Some (Some (QN_Token (2 ^ 2) "hello" 5), true, None, 1%nat)
  /\ parse_result (Some schema)
    [punct TK_AT "@" 0; term "title" 1; punct TK_OR "|" 6; term "body" 7;
     punct TK_COLON ":" 11; term "hello" 12] (eof 17)
  = Some (Some (QN_Token (Z.lor (2 ^ 2) (2 ^ 5)) "hello" 5), true, None, 1%nat).
Proof. split; vm_compute; reflexivity. Qed.

(** A prefix operator binds tighter than juxtaposition: [-a b] is
    the intersection of [-a] and [b], not the negation of [a b]; and
    parentheses add no node: [(a b) c] intersects the inner phrase with
    [c], and [(a)] is the term [a]. *)
Example parse_precedence_and_grouping :
  parse_result None [punct TK_MINUS "-" 0; term "a" 1; term "b" 3] (eof 4)
  = Some (Some (QN_Phrase RS_FIELDMASK_ALL false [QN_Not RS_FIELDMASK_ALL (tok "a"); tok "b"]),
          true, None, 4%nat)
  /\ parse_result None [punct TK_LP "(" 0; term "a" 1; term "b" 3; punct TK_RP ")" 4; term "c" 6]
    (eof 7)
    = Some (Some (QN_Phrase RS_FIELDMASK_ALL false
                    [QN_Phrase RS_FIELDMASK_ALL false [tok "a"; tok "b"]; tok "c"]),
            true, None, 5%nat)
  /\ parse_result None [punct TK_LP "(" 0; term "a" 1; punct TK_RP ")" 2] (eof 3)
    = parse_result None [term "a" 0] (eof 1).
Proof. repeat split; vm_compute; reflexivity. Qed.

(** An unterminated quote fails at end of input: [ok] is cleared,
    the diagnostic names the end-of-input offset, there is no root and
    no node is left allocated. *)
Example parse_unterminated_quote_fails :
  parse_result None [punct TK_QUOTE quote_char 0; term "a" 1] (eof 2)
  = Some (None, false, Some ("Syntax error at offset 2 near ''" ++ newline)%string, O).
Proof. vm_compute. reflexivity. Qed.

(** ** Where the code departs from the specification *)

(** Error recovery keeps a root: after a syntax error the parser
    discards the token and goes on, so [: a] ends with [ok] cleared and
    a diagnostic, but with [ctx->root] set to the term [a] (the
    specification says a failed parse has no root). *)
Example recovery_keeps_root :
  parse_result None [punct TK_COLON ":" 0; term "a" 1] (eof 2)
  = Some (Some (tok "a"), false, Some ("Syntax error at offset 0 near ':'" ++ newline)%string,
          1%nat).
Proof. vm_compute. reflexivity. Qed.

(** A stack overflow is silent: 99 nested [-] fill the 100 entries
    of the stack, the next shift empties it without clearing [ok] or
    storing a diagnostic, and the parse restarts on the remaining
    tokens, so the result is the term [b] alone with [ok] set. *)
Example stack_overflow_restarts_silently :
  parse_result None (repeat (punct TK_MINUS "-" 0) 99 ++ [term "a" 99; term "b" 101]) (eof 102)
  = Some (Some (tok "b"), true, None, 1%nat).
Proof. vm_compute. reflexivity. Qed.

(** Without a schema, a field list clears the mask to 0 (matching
    no field) while a single field leaves the default "all fields": the
    specification asks for the default in both cases. *)
Example field_list_without_schema_clears_mask :
  parse_result None
    [punct TK_AT "@" 0; term "t" 1; punct TK_OR "|" 2; term "b" 3; punct TK_COLON ":" 4;
     term "x" 5] (eof 6)
    = Some (Some (QN_Token 0 "x" 1), true, None, 1%nat)
  /\ parse_result None [punct TK_AT "@" 0; term "t" 1; punct TK_COLON ":" 2; term "x" 3] (eof 4)
    = Some (Some (tok "x"), true, None, 1%nat).
Proof. split; vm_compute; reflexivity. Qed.

(** A later syntax error replaces the first diagnostic: once three
    tokens have been shifted after an error, the next error is
    reported again and [ctx->errorMsg] is overwritten (the
    specification keeps the first). *)
Example second_error_replaces_message :
  parse_result None
    [punct TK_RP ")" 0; term "a" 2; term "b" 4; term "c" 6; punct TK_RP ")" 8] (eof 9)
  = Some (Some (QN_Phrase RS_FIELDMASK_ALL false [tok "a"; tok "b"; tok "c"]), false,
          Some ("Syntax error at offset 8 near ')'" ++ newline)%string, 4%nat).
Proof. vm_compute. reflexivity. Qed.

(** The driver used past the end of input: [a], end of input, then
    [b] and end of input again, fed to one parser; the root after the
    first end of input, the root at the end, and the live nodes. *)
Definition reuse_result : option (option QueryNode * option QueryNode * nat) :=
  let p0 := @ParseAlloc ListSchema (mkCtx None true None None) in
  match (p1 <- Parse_all p0 [term "a" 0] ;; p2 <- Parse p1 TK_EOF (eof 1) ;;
         p3 <- Parse p2 TK_TERM (snd (term "b" 2)) ;; p4 <- Parse p3 TK_EOF (eof 3) ;;
         Ok (p2, p4)) with
  | Ok (p2, p4) => Some (root (pctx p2), root (pctx p4), live_nodes p4)
  | Stuck _ => None
  end.

(** The accepting state is not final: a token fed after the end
    of input finds the stack empty, [Parse] re-initialises it and a
    second parse runs on the same context, whose accept overwrites
    [ctx->root]; the first tree is lost while its node is still
    allocated (two live nodes, one reachable).  The specification makes
    both terminal states final. *)
Example parse_after_accept_restarts :
  reuse_result = Some (Some (tok "a"), Some (tok "b"), 2%nat).
Proof. vm_compute. reflexivity. Qed.

(** ** Instances of the theorems with hypotheses *)

Definition ex_error_parser : @yyParser ListSchema := ParseAlloc (mkCtx None true None (Some schema)).
Definition ex_error_token : QueryToken := mkToken "title" 5 1234567890123.
Definition ex_error_result : @yyParser ListSchema :=
  match yy_syntax_error ex_error_parser TK_TERM (yy0 ex_error_token) with
  | Ok p => p | Stuck _ => ex_error_parser end.

Lemma yy_syntax_error_message_complete_witness :
  0 <= qt_len ex_error_token /\ - 2 ^ 63 < qt_pos ex_error_token < 2 ^ 63
  /\ yy_syntax_error ex_error_parser TK_TERM (yy0 ex_error_token) = Ok ex_error_result
  /\ errorMsg (pctx ex_error_result) = Some (fmt_syntax_error ex_error_token)
  /\ ok (pctx ex_error_result) = false.
Proof.
  assert (Hlen : 0 <= qt_len ex_error_token) by (simpl; lia).
  assert (Hpos : - 2 ^ 63 < qt_pos ex_error_token < 2 ^ 63) by (simpl; lia).
  assert (He : yy_syntax_error ex_error_parser TK_TERM (yy0 ex_error_token) = Ok ex_error_result)
    by reflexivity.
  split; [exact Hlen|]. split; [exact Hpos|]. split; [exact He|].
  exact (yy_syntax_error_message_complete _ _ _ _ Hlen Hpos He).
Defined.

(** The error action on a parser that reported an error and shifted
    one token since ([yyerrcnt = 2]): the message stays; and on a
    parser with [yyerrcnt <= 0]: it is replaced. *)
Definition ex_rp : QueryToken := mkToken ")" 1 4.
Definition ex_after_error (n : Z) : @yyParser ListSchema :=
  mkParser yy_init_stack n (mkCtx None false (Some "first"%string) None) 0.

Lemma yy_parse_step_error_witness :
  wf_stack (yystack (ex_after_error 2)) /\ 0 <= TK_RP < 11
  /\ yy_find_shift_action 0 TK_RP = Ok YY_ERROR_ACTION
  /\ yy_parse_step (ex_after_error 2) TK_RP (yy0 ex_rp) false
     = Ok (mkParser yy_init_stack 3 (mkCtx None false (Some "first"%string) None) 0, YYNOCODE)
  /\ yy_parse_step (ex_after_error 0) TK_RP (yy0 ex_rp) true
     = Ok (mkParser [] 3 (reported_ctx (pctx (ex_after_error 0)) ex_rp) 0, YYNOCODE).
Proof.
  assert (Hwf : forall n, wf_stack (yystack (ex_after_error n))) by (intros n; simpl; repeat split).
  assert (Hla : 0 <= TK_RP < 11) by (unfold TK_RP; lia).
  assert (Hf : yy_find_shift_action 0 TK_RP = Ok YY_ERROR_ACTION) by (vm_compute; reflexivity).
  split; [exact (Hwf 2)|]. split; [exact Hla|]. split; [exact Hf|]. split.
  - exact (yy_parse_step_error (ex_after_error 2) _ [] TK_RP ex_rp false (Hwf 2) eq_refl Hla Hf).
  - exact (yy_parse_step_error (ex_after_error 0) _ [] TK_RP ex_rp true (Hwf 0) eq_refl Hla Hf).
Defined.

(** 99 prefix [-] above the bottom entry: the 100 entries of the stack
    in use, in state 6, where a term is shifted (to state 10). *)
Definition ex_minus : yyStackEntry := mkEntry 6 TK_MINUS (yy0 (mkToken "-" 1 0)).
Definition ex_full : @yyParser ListSchema :=
  mkParser (repeat ex_minus 99 ++ yy_init_stack) (-99) (mkCtx None true None None) 0.

Lemma yy_parse_loop_overflow_witness :
  Forall entry_ok (yystack ex_full) /\ YYSTACKDEPTH <= Z.of_nat (length (yystack ex_full))
  /\ yy_find_shift_action 6 TK_TERM = Ok 10
  /\ yy_parse_loop 1 ex_full TK_TERM (yy0 (mkToken "a" 1 99)) false
     = Ok (mkParser [] (-100) (mkCtx None true None None) 0).
Proof.
  assert (Hok : Forall entry_ok (yystack ex_full)).
  { apply Forall_app. split; [|repeat constructor; right; split; reflexivity].
    apply Forall_forall. intros x Hx. apply repeat_spec in Hx. subst x. left. reflexivity. }
  assert (Hd : YYSTACKDEPTH <= Z.of_nat (length (yystack ex_full))) by (vm_compute; discriminate).
  assert (Hf : yy_find_shift_action 6 TK_TERM = Ok 10) by (vm_compute; reflexivity).
  split; [exact Hok|]. split; [exact Hd|]. split; [exact Hf|].
  exact (yy_parse_loop_overflow 0 ex_full ex_minus _ TK_TERM 10 (mkToken "a" 1 99) Hok eq_refl Hd Hf
           ltac:(unfold YYNSTATE; lia)).
Defined.

(** [@t|b:x] about to reduce, with no schema. *)
Definition ex_scoped : @yyParser ListSchema :=
  mkParser [mkEntry 0 NT_expr (yy3 (tok "x")); mkEntry 0 TK_COLON (yy0 (mkToken ":" 1 4));
            mkEntry 0 NT_modifierlist (yy2 ["t"; "b"]%string)] (-1) (mkCtx None true None None) 1.

Lemma scoping_without_schema_witness :
  spec (pctx ex_scoped) = None
  /\ yy_rule_action ex_scoped 15 = Ok (yy3 (QN_Token 0 "x" 1), ex_scoped).
Proof.
  split; [reflexivity|].
  exact (proj1 (scoping_without_schema ex_scoped _ _ _ [] eq_refl eq_refl) ["t"; "b"]%string (tok "x")
           eq_refl eq_refl).
Defined.

End Behaviour.
