(* ===== verification/Refinement.v ===== *)
(** * The automaton refines the grammar

    [Refinement] relates the parser state to the specification's
    grammar ([Grammar.derives]): every entry of the stack carries a
    derivation of the tokens it covers, with the entry's minor as the
    semantic value, and the stack, read from the bottom, derives the
    tokens consumed since it was last (re)initialised ([der_state]).
    Each semantic action of [yy_reduce] builds the value of the
    production it reduces ([yy_rule_action_derives]); a shift adds a
    one-token derivation.  Two invariants are carried through the loop
    by [LoopInvariant]: [ghost], for a parse that keeps [ctx->ok]: it
    leaves in [ctx->root] the value of a derivation of the input, or
    of a suffix of it when the 100-entry stack overflowed (which needs
    at least 100 tokens); and [recovered], for every parse: the root
    derives a subsequence of the input, since the error action only
    discards the look-ahead, and an overflow or a failure at end of
    input only the stack.  The trees are therefore well formed
    ([Grammar.wf_node]).

    The mask of [modifierlist ':' expr] agrees with the specification
    only when the query has a schema; the theorems are stated for a
    schema [s]. *)

From Stdlib Require Import ZArith String List Bool Lia.
From S2P Require Import Prelude Tables QueryNode Grammar Automaton Invariants Safety LoopInvariant.
Import ListNotations.
Import Tables QueryNode Grammar Automaton Invariants Safety LoopInvariant.
Open Scope Z_scope.
Open Scope lemon_scope.

Module Refinement.

Section Refine.
Context {IndexSpec : Type} `{FR : FieldResolver IndexSpec}.
Variable s : IndexSpec.

(** ** The stack as a derivation *)

(** The semantic value a minor holds ([yyinit] holds none). *)
Definition minor_sem (m : YYMINORTYPE) : option sem :=
  match m with
  | yyinit => None
  | yy0 t => Some (SemToken t)
  | yy2 v => Some (SemNames v)
  | yy3 n => Some (SemNode n)
  end.

(** An entry derives [w]: its major derives [w] with the entry's value;
    the bottom entry, holding no value, covers no token. *)
Definition entry_der (e : yyStackEntry) (w : list token) : Prop :=
  match minor_sem (minor e) with
  | Some v => derives (Some s) (major e) w v
  | None => w = []
  end.

(** The stack (top first) derives [w], read from the bottom. *)
Fixpoint stack_der (st : list yyStackEntry) (w : list token) : Prop :=
  match st with
  | [] => w = []
  | e :: st' => exists w1 w2, w = w1 ++ w2 /\ stack_der st' w1 /\ entry_der e w2
  end.

Lemma stack_der_app (l1 l2 : list yyStackEntry) (w : list token) :
  stack_der (l1 ++ l2) w <-> exists w1 w2, w = w1 ++ w2 /\ stack_der l2 w1 /\ stack_der l1 w2.
Proof.
  revert w. induction l1 as [|e l1 IH]; intros w; simpl.
  - split; [intros H; exists w, []; rewrite app_nil_r; auto|].
    intros (w1 & w2 & -> & H1 & ->). rewrite app_nil_r. exact H1.
  - split.
    + intros (u1 & u2 & -> & Hu1 & Hu2). apply IH in Hu1 as (w1 & w2 & -> & H1 & H2).
      exists w1, (w2 ++ u2). rewrite app_assoc. split; [reflexivity|]. split; [exact H1|].
      exists w2, u2. auto.
    + intros (w1 & w2 & -> & H1 & (u1 & u2 & -> & Hu1 & Hu2)).
      exists (w1 ++ u1), u2. rewrite app_assoc. split; [reflexivity|]. split; [|exact Hu2].
      apply IH. exists w1, u1. auto.
Qed.

(** A typed entry covers at least one token. *)
Lemma entry_der_typed (e : yyStackEntry) (w : list token) :
  typedb (major e) (minor e) = true -> entry_der e w -> (1 <= length w)%nat.
Proof.
  unfold entry_der. intros Hty Hd.
  destruct (minor e); simpl in Hty, Hd; [discriminate Hty| | |];
    apply derives_nonempty in Hd; (destruct w; simpl; [contradiction | lia]).
Qed.

(** The stack never holds more entries than one per token, plus the
    bottom: an overflow needs at least [YYSTACKDEPTH - 1] tokens. *)
Lemma stack_der_length (st : list yyStackEntry) (w : list token) :
  wf_stack st -> stack_der st w -> (length st <= S (length w))%nat.
Proof.
  revert w. induction st as [|e [|e' st] IH]; intros w Hwf Hd; simpl; [lia | lia|].
  destruct Hwf as (_ & Hty & Hwf). destruct Hd as (w1 & w2 & -> & H1 & H2).
  pose proof (IH w1 Hwf H1) as Hl. pose proof (entry_der_typed _ _ Hty H2).
  simpl in Hl. rewrite length_app. lia.
Qed.

(** ** The field list mask *)

Lemma fold_lor_acc (names : list string) (acc : Z) :
  fold_left (fun acc name =>
      Z.lor acc (IndexSpec_GetFieldBit s name (Z.of_nat (String.length name)))) names acc
  = Z.lor acc (field_bits s names).
Proof.
  revert acc. induction names as [|n names IH]; intros acc; simpl.
  - rewrite Z.lor_0_r. reflexivity.
  - rewrite IH, Z.lor_assoc. reflexivity.
Qed.

(** With a schema, the left fold of [parser.c] and the OR of the
    specification compute the same mask. *)
Lemma modifierlist_mask_field_bits (names : list string) :
  modifierlist_mask (Some s) names = field_bits s names.
Proof. unfold modifierlist_mask. rewrite fold_lor_acc. apply Z.lor_0_l. Qed.

(** ** The semantic actions build the grammar's values *)

(** Turn the derivations of the popped entries into hypotheses on their
    majors, and a terminal's derivation into its one token. *)
Ltac split_der :=
  repeat match goal with
  | H : exists _, _ |- _ => destruct H
  | H : _ /\ _ |- _ => destruct H
  | H : stack_der [] _ |- _ => cbn [stack_der] in H; subst
  | H : stack_der (_ :: _) _ |- _ => cbn [stack_der] in H
  | H : entry_der _ _ |- _ => unfold entry_der in H; cbn [minor_sem minor major] in H
  | H : derives _ ?k ?w (SemToken ?t) |- _ =>
      lazymatch eval vm_compute in (is_terminal k) with
      | true =>
          let t' := fresh "t" in let E := fresh "E" in
          destruct (derives_terminal _ _ _ _ H ltac:(lia)) as (t' & -> & E);
          injection E as <-; clear H
      end
  end.

(** Put a concatenation of popped segments in right-nested form. *)
Ltac norm_app := rewrite ?app_nil_l, <- ?app_assoc; cbn [app].

Lemma yy_rule_action_derives (p : @yyParser IndexSpec) (r : Z) (w : list token)
  (gm : YYMINORTYPE) (p1 : @yyParser IndexSpec) :
  spec (pctx p) = Some s -> 0 <= r < YYNRULE ->
  (length (rule_rhs r) < length (yystack p))%nat ->
  map major (firstn (length (rule_rhs r)) (yystack p)) = rev (rule_rhs r) ->
  Forall (fun e => typedb (major e) (minor e) = true) (firstn (length (rule_rhs r)) (yystack p)) ->
  stack_der (firstn (length (rule_rhs r)) (yystack p)) w ->
  yy_rule_action p r = Ok (gm, p1) ->
  if rule_lhs r =? NT_query then derives_query (Some s) w (root (pctx p1))
  else exists v, minor_sem gm = Some v /\ derives (Some s) (rule_lhs r) w v.
Proof.
  intros Hsp Hr Hlen Hmaj Hty Hd Hact. destruct p as [st errc c live]. simpl in *.
  apply rule_cases in Hr.
  repeat (destruct Hr as [->|Hr]); [..|subst];
    let r := match goal with |- context [rule_lhs ?r] => r end in
    let v := eval vm_compute in (rule_rhs r) in change (rule_rhs r) with v in *;
    let v := eval vm_compute in (rule_lhs r) in change (rule_lhs r) with v in *;
    destruct st as [|[s0 X0 m0] [|[s1 X1 m1] [|[s2 X2 m2] st]]];
    simpl in Hlen, Hmaj, Hty, Hd |- *; try lia; try discriminate Hmaj;
    try (inversion Hmaj; subst; clear Hmaj); pop_typed;
    unfold yy_rule_action in Hact; simpl in Hact; rewrite ?Hsp in Hact;
    injection Hact as <- <-; split_der; subst; simpl.
  all: try (constructor; assumption).
  all: try rewrite modifierlist_mask_field_bits.
  all: eexists; split; [reflexivity|]; norm_app.
  all: try (econstructor; eassumption).
  all: first [ refine (D_expr_fields (Some s) _ _ _ _ _ _ _)
             | refine (D_expr_field (Some s) _ _ _ _ _ _ _) ]; eassumption.
Qed.

(** ** A reduce keeps the stack a derivation *)

(** The bottom entry covers no token. *)
Lemma stack_der_bottom (e : yyStackEntry) (w : list token) :
  wf_stack [e] -> stack_der [e] w -> w = [].
Proof.
  destruct e as [st X m]. intros (_ & _ & Hm) (w1 & w2 & -> & -> & Hd).
  simpl in Hm. subst m. exact Hd.
Qed.

(** A reduce either replaces the popped entries by the left-hand side,
    which derives the tokens they covered, or (a [query] rule) accepts:
    the stack is emptied and [ctx->root] is the value of a derivation
    of all the tokens the stack covered. *)
Lemma yy_reduce_derives (p p' : @yyParser IndexSpec) (la a : Z) (e : yyStackEntry)
  (rest : list yyStackEntry) (w : list token) :
  yystack p = e :: rest -> wf_stack (e :: rest) -> 0 <= la < 11 ->
  yy_find_shift_action (stateno e) la = Ok a -> YYNSTATE <= a < YYNSTATE + YYNRULE ->
  spec (pctx p) = Some s -> stack_der (yystack p) w -> root (pctx p) = None ->
  yy_reduce p (a - YYNSTATE) = Ok p' ->
  (stack_der (yystack p') w /\ root (pctx p') = None)
  \/ (yystack p' = [] /\ derives_query (Some s) w (root (pctx p'))).
Proof.
  intros Hst Hwf Hla Hf Ha Hsp Hd Hroot Hred.
  pose proof (yy_reduce_result p p' la a e rest Hst Hwf Hla Hf Ha Hred) as Hres.
  cbv zeta in Hres. rewrite <- Hst in Hwf.
  destruct (yy_reduce_frame _ _ _ _ _ Hst Hwf Hla Hf Ha) as (Hlen & Hmaj & Hty & _).
  set (r := a - YYNSTATE) in *. set (n := length (rule_rhs r)) in *.
  assert (Hr : 0 <= r < YYNRULE) by (unfold r, YYNRULE, YYNSTATE in *; lia).
  destruct Hres as (gm & p1 & Hact & Hcase).
  rewrite <- (firstn_skipn n (yystack p)) in Hd.
  apply stack_der_app in Hd as (w1 & w2 & -> & Hd1 & Hd2).
  pose proof (yy_rule_action_derives p r w2 gm p1 Hsp Hr Hlen Hmaj Hty Hd2 Hact) as Hder.
  destruct Hcase as [(Hnq & _ & Hc & _ & a' & Hs') | (Hq & Hs' & Hc & b & Hb & Hwfb)].
  - (* a goto: the left-hand side is pushed *)
    apply Z.eqb_neq in Hnq. rewrite Hnq in Hder. destruct Hder as (v & Hv & Hdv).
    left. split; [|rewrite Hc; exact Hroot]. rewrite Hs'.
    exists w1, w2. split; [reflexivity|]. split; [exact Hd1|].
    unfold entry_der. cbn [minor major]. rewrite Hv. exact Hdv.
  - (* the accept *)
    rewrite Hq, Z.eqb_refl in Hder. rewrite Hb in Hd1.
    rewrite (stack_der_bottom _ _ Hwfb Hd1). simpl app.
    right. split; [exact Hs'|]. rewrite Hc. exact Hder.
Qed.

(** A shifted token derives itself. *)
Lemma stack_der_shift (st : list yyStackEntry) (w : list token) (a la : Z) (t : QueryToken) :
  1 <= la < 11 -> stack_der st w -> stack_der (mkEntry a la (yy0 t) :: st) (w ++ [(la, t)]).
Proof.
  intros Hla Hd. exists w, [(la, t)]. split; [reflexivity|]. split; [exact Hd|].
  unfold entry_der. cbn [minor_sem minor major]. constructor. exact Hla.
Qed.

(** A reduce on a parser whose stack derives [w] and whose root is
    not set: the error state and the schema are kept, and the stack
    still derives [w] or the accepted root is a derivation of [w]. *)
Lemma yy_reduce_step_der (p p' : @yyParser IndexSpec) (la a : Z) (e : yyStackEntry)
  (rest : list yyStackEntry) (w : list token) :
  inv p -> yystack p = e :: rest -> 0 <= la < 11 ->
  yy_find_shift_action (stateno e) la = Ok a -> YYNSTATE <= a < YYNSTATE + YYNRULE ->
  spec (pctx p) = Some s -> stack_der (yystack p) w -> root (pctx p) = None ->
  yy_reduce p (a - YYNSTATE) = Ok p' ->
  spec (pctx p') = Some s /\ ok (pctx p') = ok (pctx p) /\ yyerrcnt p' = yyerrcnt p
  /\ ((stack_der (yystack p') w /\ root (pctx p') = None)
      \/ (yystack p' = [] /\ derives_query (Some s) w (root (pctx p')))).
Proof.
  intros (Hwf & Hacc & _) Hst Hla Hf Ha Hsp Hd Hroot Hred. rewrite Hst in Hwf.
  destruct (yy_reduce_ok p la a e rest Hst Hwf Hacc Hla Hf Ha (fun _ => Hroot))
    as (p2 & Hr2 & _ & _ & He & Hok & _ & Hs & _).
  rewrite Hred in Hr2. injection Hr2 as <-.
  split; [congruence|]. split; [exact Hok|]. split; [exact He|].
  exact (yy_reduce_derives p p' la a e rest w Hst Hwf Hla Hf Ha Hsp Hd Hroot Hred).
Qed.

(** ** The state of the derivation

    [der_state w p]: the stack derives [w] and no root is set yet, or
    the parse was accepted (or, at end of input, abandoned): the stack
    is empty and [ctx->root] is the value of a query [w]. *)
Definition der_state (w : list token) (p : @yyParser IndexSpec) : Prop :=
  (stack_der (yystack p) w /\ root (pctx p) = None)
  \/ (yystack p = [] /\ derives_query (Some s) w (root (pctx p))).

(** On a nonempty stack, the first case holds. *)
Lemma der_state_nonempty (w : list token) (p : @yyParser IndexSpec) :
  yystack p <> [] -> der_state w p -> stack_der (yystack p) w /\ root (pctx p) = None.
Proof. intros Hne [H | [H _]]; [exact H | contradiction]. Qed.

(** A reduce keeps the derivation state. *)
Lemma der_state_reduce (p p' : @yyParser IndexSpec) (la a : Z) (e : yyStackEntry)
  (rest : list yyStackEntry) (w : list token) :
  inv p -> yystack p = e :: rest -> 0 <= la < 11 ->
  yy_find_shift_action (stateno e) la = Ok a -> YYNSTATE <= a < YYNSTATE + YYNRULE ->
  spec (pctx p) = Some s -> der_state w p -> yy_reduce p (a - YYNSTATE) = Ok p' ->
  yyerrcnt p' = yyerrcnt p /\ der_state w p'.
Proof.
  intros Hinv Hst Hla Hf Ha Hsp Hd Hred.
  destruct (der_state_nonempty w p ltac:(rewrite Hst; discriminate) Hd) as [Hd' Hrt].
  destruct (yy_reduce_step_der p p' la a e rest w Hinv Hst Hla Hf Ha Hsp Hd' Hrt Hred)
    as (_ & _ & He & Hcase).
  split; [exact He | exact Hcase].
Qed.

(** A shift leaves the context and [yyerrcnt] alone. *)
Lemma yy_shift_frame (p p1 : @yyParser IndexSpec) (a la : Z) (m : YYMINORTYPE) :
  inv p -> yy_shift p a la m = Ok p1 -> pctx p1 = pctx p /\ yyerrcnt p1 = yyerrcnt p.
Proof.
  intros (Hwf & _ & _) Hsh. rewrite yy_shift_ok in Hsh by (apply wf_stack_entries_ok, Hwf).
  destruct (_ >=? _); injection Hsh as <-; auto.
Qed.

(** A shift pushes the token; an overflow, which needs at least 99
    tokens on the stack, empties it and the tokens covered so far are
    lost. *)
Lemma der_state_shift (p p1 : @yyParser IndexSpec) (w : list token) (a la : Z) (t : QueryToken) :
  inv p -> 1 <= la < 11 -> yystack p <> [] -> der_state w p ->
  yy_shift p a la (yy0 t) = Ok p1 ->
  ((99 <= length w)%nat /\ der_state [] p1) \/ der_state (w ++ [(la, t)]) p1.
Proof.
  intros (Hwf & _ & _) Hla Hne Hd Hsh.
  destruct (der_state_nonempty w p Hne Hd) as [Hd' Hrt].
  rewrite yy_shift_ok in Hsh by (apply wf_stack_entries_ok, Hwf).
  destruct (Z.of_nat (length (yystack p)) >=? YYSTACKDEPTH) eqn:Eov; injection Hsh as <-.
  - apply Z.geb_le in Eov. pose proof (stack_der_length _ _ Hwf Hd') as Hl.
    left. split; [unfold YYSTACKDEPTH in Eov; lia|]. left. split; [reflexivity | exact Hrt].
  - right. left. split; [apply stack_der_shift; assumption | exact Hrt].
Qed.

(** The error action keeps the stack, or at end of input empties it
    (with no root set yet): the empty query. *)
Lemma der_state_error (p p' : @yyParser IndexSpec) (w : list token) (eoi : bool) :
  yystack p <> [] -> der_state w p -> root (pctx p') = root (pctx p) ->
  yystack p' = (if eoi then [] else yystack p) ->
  (eoi = true /\ der_state [] p') \/ (eoi = false /\ der_state w p').
Proof.
  intros Hne Hd Hr Hs. destruct (der_state_nonempty w p Hne Hd) as [Hd' Hrt].
  destruct eoi; [left | right]; (split; [reflexivity|]).
  - right. rewrite Hs, Hr, Hrt. split; [reflexivity | constructor].
  - left. rewrite Hs, Hr. auto.
Qed.

(** [Parse]'s re-initialisation of an empty stack: the new stack
    derives no token. *)
Lemma der_state_init (p : @yyParser IndexSpec) :
  root (pctx p) = None -> der_state [] (set_errcnt (set_stack p yy_init_stack) (-1)).
Proof.
  intros Hr. left. split; [|exact Hr]. exists [], []. split; [reflexivity|].
  split; reflexivity.
Qed.

(** ** The derivation invariant of a parse that keeps [ctx->ok]

    [ghost cs p], for the tokens [cs] fed so far: the query has the
    schema [s], and while [ctx->ok] is set no error has been seen
    ([yyerrcnt <= 0]) and [cs] splits as [pre ++ w], where [pre] was
    dropped by stack overflows (so is empty unless [cs] has at least
    [YYSTACKDEPTH] tokens) and [der_state w p]. *)
Definition ghost (cs : list token) (p : @yyParser IndexSpec) : Prop :=
  spec (pctx p) = Some s /\
  (ok (pctx p) = true ->
   yyerrcnt p <= 0 /\
   exists pre w, cs = pre ++ w /\ (pre = [] \/ YYSTACKDEPTH <= Z.of_nat (length cs))
     /\ der_state w p).

(** A parser whose [ctx->ok] is cleared keeps the invariant for any
    tokens. *)
Lemma ghost_failed (cs : list token) (p : @yyParser IndexSpec) :
  spec (pctx p) = Some s -> ok (pctx p) = false -> ghost cs p.
Proof. intros Hs Hok. split; [exact Hs | rewrite Hok; discriminate]. Qed.

(** One iteration keeps [ghost]: the obligation [P_step] of
    [LoopInvariant]. *)
Lemma ghost_step (p p' : @yyParser IndexSpec) (la m' : Z) (t : QueryToken) (cs : list token) :
  inv p -> yystack p <> [] -> 0 <= la < 11 -> (la = TK_EOF -> root (pctx p) = None) ->
  ghost cs p -> yy_parse_step p la (yy0 t) (la =? TK_EOF) = Ok (p', m') ->
  ghost (if m' =? YYNOCODE then fed la t cs else cs) p'.
Proof.
  intros Hinv Hne Hla Hroot [Hsp Hg] H. pose proof Hinv as (Hwf & _ & _).
  destruct (yystack p) as [|e rest] eqn:Hst; [contradiction|]. rewrite <- Hst in Hne.
  destruct (yy_parse_step_cases p p' e rest la m' t _ Hst Hwf Hla H)
    as (a & Hf & [(Ha & Heof & -> & p1 & Hs1 & ->) | [(Ha & -> & Hr) | (Ha & -> & Hsp' & _ & _ & Hok)]]).
  - (* a shift *)
    rewrite Z.eqb_refl. unfold fed. rewrite Heof. apply Z.eqb_neq in Heof.
    assert (Hla' : 1 <= la < 11) by (unfold TK_EOF in Heof; lia).
    destruct (yy_shift_frame p p1 a la _ Hinv Hs1) as (Hc1 & He1).
    split; [simpl; rewrite Hc1; exact Hsp|]. simpl. rewrite Hc1, He1. intros Hok.
    destruct (Hg Hok) as (Herr & pre & w & -> & Hpre & Hd). split; [lia|].
    destruct (der_state_shift p p1 w a la t Hinv Hla' Hne Hd Hs1) as [(Hlw & Hd1) | Hd1].
    + exists ((pre ++ w) ++ [(la, t)]), []. rewrite app_nil_r.
      split; [reflexivity|]. split; [right; rewrite !length_app in *; simpl; unfold YYSTACKDEPTH; lia|].
      exact Hd1.
    + exists pre, (w ++ [(la, t)]). rewrite app_assoc. split; [reflexivity|]. split; [|exact Hd1].
      destruct Hpre; [left; assumption | right; rewrite !length_app in *; lia].
  - (* a reduce *)
    replace (la =? YYNOCODE) with false by (symmetry; apply Z.eqb_neq; unfold YYNOCODE; lia).
    destruct (yy_reduce_spec p p' la a e rest Hst Hwf Hla Hf Ha Hr)
      as (Hs' & Hok'). split; [congruence|]. rewrite Hok'. intros Hok.
    destruct (Hg Hok) as (Herr & pre & w & Hcs & Hpre & Hd).
    destruct (der_state_reduce p p' la a e rest w Hinv Hst Hla Hf Ha Hsp Hd Hr) as (He & Hd').
    split; [lia|]. exists pre, w. auto.
  - (* the error action clears [ctx->ok] *)
    rewrite Z.eqb_refl. apply ghost_failed; [congruence|].
    apply Hok. destruct (ok (pctx p)) eqn:Hok0; [left; apply (Hg eq_refl) | right; reflexivity].
Qed.
(** The re-initialisation keeps [ghost]: an empty stack with no root
    has derived nothing since the dropped prefix. *)
Lemma ghost_init (p : @yyParser IndexSpec) (cs : list token) :
  inv p -> yystack p = [] -> root (pctx p) = None -> ghost cs p ->
  ghost cs (set_errcnt (set_stack p yy_init_stack) (-1)).
Proof.
  intros _ Hst Hr [Hsp Hg]. split; [exact Hsp|]. intros Hok.
  destruct (Hg Hok) as (_ & pre & w & -> & Hpre & [[Hd _] | [_ Hq]]).
  - rewrite Hst in Hd. simpl in Hd. subst w. split; [simpl; lia|].
    exists pre, []. split; [reflexivity|]. split; [exact Hpre | apply der_state_init, Hr].
  - rewrite Hr in Hq. inversion Hq; subst. split; [simpl; lia|].
    exists pre, []. split; [reflexivity|]. split; [exact Hpre | apply der_state_init, Hr].
Qed.

(** ** Error recovery deletes tokens

    [recovered cs p]: whatever errors were met, the state derives a
    subsequence of the tokens fed so far: the error action discards the
    look-ahead, an overflow or the end-of-input failure discards the
    stack, and nothing else is lost. *)
Definition recovered (cs : list token) (p : @yyParser IndexSpec) : Prop :=
  spec (pctx p) = Some s /\ exists w, subseq w cs /\ der_state w p.

Lemma recovered_step (p p' : @yyParser IndexSpec) (la m' : Z) (t : QueryToken) (cs : list token) :
  inv p -> yystack p <> [] -> 0 <= la < 11 -> (la = TK_EOF -> root (pctx p) = None) ->
  recovered cs p -> yy_parse_step p la (yy0 t) (la =? TK_EOF) = Ok (p', m') ->
  recovered (if m' =? YYNOCODE then fed la t cs else cs) p'.
Proof.
  intros Hinv Hne Hla Hroot (Hsp & w & Hsub & Hd) H. pose proof Hinv as (Hwf & _ & _).
  destruct (yystack p) as [|e rest] eqn:Hst; [contradiction|]. rewrite <- Hst in Hne.
  destruct (yy_parse_step_cases p p' e rest la m' t _ Hst Hwf Hla H)
    as (a & Hf & [(Ha & Heof & -> & p1 & Hs1 & ->) | [(Ha & -> & Hr) | (Ha & -> & Hsp' & Hr' & Hs' & _)]]).
  - (* a shift *)
    rewrite Z.eqb_refl. unfold fed. rewrite Heof. apply Z.eqb_neq in Heof.
    destruct (yy_shift_frame p p1 a la _ Hinv Hs1) as (Hc1 & _).
    split; [simpl; rewrite Hc1; exact Hsp|].
    destruct (der_state_shift p p1 w a la t Hinv ltac:(unfold TK_EOF in Heof; lia) Hne Hd Hs1)
      as [(_ & Hd1) | Hd1]; [exists [] | exists (w ++ [(la, t)])]; split; auto with lemon.
  - (* a reduce *)
    replace (la =? YYNOCODE) with false by (symmetry; apply Z.eqb_neq; unfold YYNOCODE; lia).
    destruct (yy_reduce_spec p p' la a e rest Hst Hwf Hla Hf Ha Hr)
      as (Hs2 & _). split; [congruence|].
    exists w. split; [exact Hsub|].
    exact (proj2 (der_state_reduce p p' la a e rest w Hinv Hst Hla Hf Ha Hsp Hd Hr)).
  - (* the error action drops the look-ahead, and the stack at end of input *)
    rewrite Z.eqb_refl. split; [congruence|].
    destruct (der_state_error p p' w _ Hne Hd Hr' Hs') as [(_ & Hd') | (_ & Hd')].
    + exists []. split; [apply subseq_nil_l | exact Hd'].
    + exists w. split; [unfold fed; destruct (la =? TK_EOF); auto with lemon | exact Hd'].
Qed.

Lemma recovered_init (p : @yyParser IndexSpec) (cs : list token) :
  inv p -> yystack p = [] -> root (pctx p) = None -> recovered cs p ->
  recovered cs (set_errcnt (set_stack p yy_init_stack) (-1)).
Proof.
  intros _ _ Hr (Hsp & _). split; [exact Hsp|].
  exists []. split; [apply subseq_nil_l | apply der_state_init, Hr].
Qed.

(** At the end of a parse (an empty stack) the root is the value of a
    query over a subsequence of the tokens fed. *)
Lemma recovered_root (cs : list token) (p : @yyParser IndexSpec) :
  recovered cs p -> yystack p = [] ->
  exists w, subseq w cs /\ derives_query (Some s) w (root (pctx p)).
Proof.
  intros (_ & w & Hsub & [[Hd Hr] | [_ Hq]]) Hemp; [|eauto].
  rewrite Hemp in Hd. simpl in Hd. subst w. rewrite Hr. eauto using Q_empty.
Qed.

(** The fresh parser of [Query_Parse] satisfies both invariants. *)
Lemma fresh_der_state :
  der_state [] (@ParseAlloc IndexSpec (mkCtx None true None (Some s))).
Proof. right. split; [reflexivity | constructor]. Qed.

Lemma fresh_recovered : recovered [] (@ParseAlloc IndexSpec (mkCtx None true None (Some s))).
Proof. split; [reflexivity | exists []; split; [constructor | apply fresh_der_state]]. Qed.

End Refine.

Section Claims.
Context {IndexSpec : Type} `{FR : FieldResolver IndexSpec}.

(** C5. Refinement of the grammar: when a parse of a lexer token
    stream with a schema returns with [ctx->ok] still set, the input
    splits as [pre ++ w] where [w] is a query of the specification's
    grammar and [ctx->root] is the tree the specification builds for
    it; [pre] is empty (the whole input is derived) when the input has
    fewer than [YYSTACKDEPTH] tokens. *)
Theorem Query_Parse_refines (s : IndexSpec) (ts : list (Z * QueryToken)) (eof : QueryToken)
  (p : @yyParser IndexSpec) :
  lexer_tokens ts -> Query_Parse (Some s) ts eof = Ok p -> ok (pctx p) = true ->
  exists pre w, ts = pre ++ w /\ derives_query (Some s) w (root (pctx p))
    /\ (Z.of_nat (length ts) < YYSTACKDEPTH -> pre = []).
Proof.
  intros Hts H Hok.
  assert (Hg0 : ghost s [] (ParseAlloc (mkCtx None true None (Some s)))).
  { split; [reflexivity|]. intros _. split; [simpl; lia|].
    exists [], []. split; [reflexivity|]. split; [left; reflexivity | apply fresh_der_state]. }
  destruct (Query_Parse_P (ghost s) (ghost_step s) (ghost_init s) _ ts eof p Hg0 Hts H)
    as ((_ & Hg) & Hemp).
  destruct (Hg Hok) as (_ & pre & w & -> & Hpre & Hd).
  exists pre, w. split; [reflexivity|]. split.
  - destruct Hd as [[Hd Hr] | [_ Hq]]; [|exact Hq].
    rewrite Hemp in Hd. simpl in Hd. subst w. rewrite Hr. constructor.
  - intros Hl. destruct Hpre as [Hpre|Hpre]; [exact Hpre | unfold token in *; lia].
Qed.

(** C6. Error recovery only deletes tokens: whatever syntax errors a
    parse of a lexer token stream with a schema meets, and whether or
    not it keeps [ctx->ok], [ctx->root] is the tree the specification's
    grammar builds for a subsequence of the input (the empty query when
    no root is set). *)
Theorem Query_Parse_recovers (s : IndexSpec) (ts : list (Z * QueryToken)) (eof : QueryToken)
  (p : @yyParser IndexSpec) :
  lexer_tokens ts -> Query_Parse (Some s) ts eof = Ok p ->
  exists w, subseq w ts /\ derives_query (Some s) w (root (pctx p)).
Proof.
  intros Hts H.
  destruct (Query_Parse_P (recovered s) (recovered_step s) (recovered_init s) _ ts eof p
              (fresh_recovered s) Hts H)
    as (Hrec & Hemp).
  exact (recovered_root s ts p Hrec Hemp).
Qed.

(** C7. The trees a parse returns are well formed: whatever errors a
    parse of a lexer token stream with a schema meets, a root it sets
    has the shapes of the specification's trees (an implicit
    intersection of at least two children, an exact phrase of at least
    one term, a union of at least two terms, at every depth). *)
Theorem Query_Parse_root_wf (s : IndexSpec) (ts : list (Z * QueryToken)) (eof : QueryToken)
  (p : @yyParser IndexSpec) (n : QueryNode) :
  lexer_tokens ts -> Query_Parse (Some s) ts eof = Ok p -> root (pctx p) = Some n ->
  wf_node n = true.
Proof.
  intros Hts H Hn.
  destruct (Query_Parse_P (recovered s) (recovered_step s) (recovered_init s) _ ts eof p
              (fresh_recovered s) Hts H)
    as (Hrec & Hemp).
  destruct (recovered_root s ts p Hrec Hemp) as (w & _ & Hq). rewrite Hn in Hq.
  exact (derives_query_wf _ _ _ Hq).
Qed.

End Claims.

(** ** An instance: [@title:(a b)] with a two-field schema *)

Definition ref_schema : ListSchema := ["body"; "title"]%string.
Definition ref_tokens : list (Z * QueryToken) :=
  [(TK_AT, mkToken "@" 1 0); (TK_TERM, mkToken "title" 5 1); (TK_COLON, mkToken ":" 1 6);
   (TK_LP, mkToken "(" 1 7); (TK_TERM, mkToken "a" 1 8); (TK_TERM, mkToken "b" 1 10);
   (TK_RP, mkToken ")" 1 11)].
Definition ref_eof : QueryToken := mkToken EmptyString 0 12.
Definition ref_result : @yyParser ListSchema :=
  match Query_Parse (Some ref_schema) ref_tokens ref_eof with
  | Ok p => p
  | Stuck _ => ParseAlloc (mkCtx None true None None)
  end.

Lemma Query_Parse_refines_witness :
  lexer_tokens ref_tokens /\ Query_Parse (Some ref_schema) ref_tokens ref_eof = Ok ref_result
  /\ ok (pctx ref_result) = true
  /\ exists pre w, ref_tokens = pre ++ w
       /\ derives_query (Some ref_schema) w (root (pctx ref_result))
       /\ (Z.of_nat (length ref_tokens) < YYSTACKDEPTH -> pre = []).
Proof.
  assert (Hts : lexer_tokens ref_tokens) by (repeat constructor; simpl; vm_compute; discriminate).
  assert (Hp : Query_Parse (Some ref_schema) ref_tokens ref_eof = Ok ref_result)
    by (vm_compute; reflexivity).
  assert (Hok : ok (pctx ref_result) = true) by (vm_compute; reflexivity).
  split; [exact Hts|]. split; [exact Hp|]. split; [exact Hok|].
  exact (Query_Parse_refines ref_schema ref_tokens ref_eof ref_result Hts Hp Hok).
Defined.

(** ** An instance of recovery: [: a] drops the stray colon *)

Definition rec_tokens : list (Z * QueryToken) :=
  [(TK_COLON, mkToken ":" 1 0); (TK_TERM, mkToken "a" 1 2)].
Definition rec_eof : QueryToken := mkToken EmptyString 0 3.
Definition rec_result : @yyParser ListSchema :=
  match Query_Parse (Some ref_schema) rec_tokens rec_eof with
  | Ok p => p
  | Stuck _ => ParseAlloc (mkCtx None true None None)
  end.

Lemma Query_Parse_recovers_witness :
  lexer_tokens rec_tokens /\ Query_Parse (Some ref_schema) rec_tokens rec_eof = Ok rec_result
  /\ ok (pctx rec_result) = false /\ root (pctx rec_result) <> None
  /\ exists w, subseq w rec_tokens /\ derives_query (Some ref_schema) w (root (pctx rec_result)).
Proof.
  assert (Hts : lexer_tokens rec_tokens) by (repeat constructor; simpl; vm_compute; discriminate).
  assert (Hp : Query_Parse (Some ref_schema) rec_tokens rec_eof = Ok rec_result)
    by (vm_compute; reflexivity).
  split; [exact Hts|]. split; [exact Hp|]. split; [vm_compute; reflexivity|].
  split; [vm_compute; discriminate|].
  exact (Query_Parse_recovers ref_schema rec_tokens rec_eof rec_result Hts Hp).
Defined.

Lemma Query_Parse_root_wf_witness :
  lexer_tokens ref_tokens /\ Query_Parse (Some ref_schema) ref_tokens ref_eof = Ok ref_result
  /\ root (pctx ref_result) = Some (QN_Phrase 2 false [NewTokenNode "a" 1; NewTokenNode "b" 1])
  /\ wf_node (QN_Phrase 2 false [NewTokenNode "a" 1; NewTokenNode "b" 1]) = true.
Proof.
  assert (Hts : lexer_tokens ref_tokens) by (repeat constructor; simpl; vm_compute; discriminate).
  assert (Hp : Query_Parse (Some ref_schema) ref_tokens ref_eof = Ok ref_result)
    by (vm_compute; reflexivity).
  assert (Hr : root (pctx ref_result) = Some (QN_Phrase 2 false [NewTokenNode "a" 1; NewTokenNode "b" 1]))
    by (vm_compute; reflexivity).
  split; [exact Hts|]. split; [exact Hp|]. split; [exact Hr|].
  exact (Query_Parse_root_wf ref_schema ref_tokens ref_eof ref_result _ Hts Hp Hr).
Defined.

End Refinement.
