(* ===== verification/Completeness.v ===== *)
(** * The automaton accepts every query of the grammar

    The converse of [Refinement]: every token sequence that the
    specification's grammar derives as a query, with fewer than
    [YYSTACKDEPTH] tokens, is parsed by [Query_Parse] with [ctx->ok]
    set and with the grammar's tree in [ctx->root].  With [Refinement]
    this makes the parser and the grammar equivalent on such inputs,
    and shows the grammar unambiguous there: the parser is a function.

    The proof follows the LR argument.  For a state [s] on top of the
    stack that expects the symbol [X], and a look-ahead [la] that may
    follow [X] there, feeding the tokens of a derivation of [X] leaves
    a stack that the reductions on [la] turn into the stack with [X]
    pushed ([child_ok]).  The triples [(s, X, la)] for which this is
    needed are computed once ([la_tbl], a fixpoint from the start
    symbols) and the table is checked by evaluation to be closed: for
    each rule of [X] the path of its right-hand side exists in the
    automaton, the triples its children need are in the table, and the
    state at the end of the path reduces that rule on [la]
    ([la_check]).  That check is where the absence of LALR conflicts in
    the generated tables shows.  [first] gives the terminals a
    derivation of a symbol can start with. *)

From Stdlib Require Import ZArith String List Bool Lia Relations.
From S2P Require Import Prelude Tables QueryNode Grammar Automaton Invariants Safety LoopInvariant Refinement.
Import ListNotations.
Import Tables QueryNode Grammar Automaton Invariants Safety LoopInvariant Refinement.
Open Scope Z_scope.
Open Scope lemon_scope.

Module Completeness.

(** ** The look-ahead table *)

(** The terminals a derivation of [X] starts with. *)
Definition first (X : Z) : list Z :=
  if X <? 11 then [X]
  else if (X =? NT_modifier) || (X =? NT_modifierlist) then [TK_AT]
  else if X =? NT_union then [TK_TERM]
  else if X =? NT_exact then [TK_QUOTE]
  else [TK_TERM; TK_LP; TK_MINUS; TK_TILDE; TK_AT; TK_QUOTE].

(** The states after each symbol of [ys], read from [s]. *)
Fixpoint walk (s : Z) (ys : list Z) : option (list Z) :=
  match ys with
  | [] => Some []
  | y :: ys' =>
      match yy_trans s y with
      | Some s1 => match walk s1 ys' with Some l => Some (s1 :: l) | None => None end
      | None => None
      end
  end.

Definition triple : Type := (Z * Z * Z)%type.

Definition teqb (a b : triple) : bool :=
  let '(x1, y1, z1) := a in let '(x2, y2, z2) := b in (x1 =? x2) && (y1 =? y2) && (z1 =? z2).

Definition tmem (t : triple) (l : list triple) : bool := existsb (teqb t) l.

(** The triples the children of a right-hand side [ys] need, from the
    state [s] and with the states [sts] of its path: each child but the
    last is followed by a first terminal of the next one, the last by
    [la]. *)
Fixpoint needs_go (s : Z) (ys : list Z) (sts : list Z) (la : Z) : list triple :=
  match ys, sts with
  | y :: ((y' :: _) as ys'), s1 :: sts' =>
      map (fun a => (s, y, a)) (first y') ++ needs_go s1 ys' sts' la
  | [y], _ => [(s, y, la)]
  | _, _ => []
  end.

Definition rules : list Z := map Z.of_nat (seq 0 22).

Definition rule_needs (s X la r : Z) : list triple :=
  if rule_lhs r =? X then
    match walk s (rule_rhs r) with Some sts => needs_go s (rule_rhs r) sts la | None => [] end
  else [].

Definition step_tbl (tbl : list triple) : list triple :=
  fold_left (fun acc t => if tmem t acc then acc else acc ++ [t])
    (flat_map (fun '(s, X, la) => if X <? 11 then [] else flat_map (rule_needs s X la) rules) tbl)
    tbl.

(** Iterate until nothing is added (the fuel only bounds the search;
    [la_check] checks the result). *)
Fixpoint iter_tbl (n : nat) (tbl : list triple) : list triple :=
  match n with
  | O => tbl
  | S n' => let tbl' := step_tbl tbl in
            if (length tbl' =? length tbl)%nat then tbl else iter_tbl n' tbl'
  end.

(** The start symbols of [query ::= exprlist | expr], followed by the
    end of input. *)
Definition la_seeds : list triple := [(0, NT_exprlist, TK_EOF); (0, NT_expr, TK_EOF)].

Definition la_tbl : list triple := Eval vm_compute in iter_tbl 30 la_seeds.

(** What a triple of the table promises: the transition on [X] exists,
    and, for a nonterminal, every rule of [X] runs from [s]: its path
    exists, its children's triples are in the table, and the end of the
    path reduces the rule on [la]. *)
Definition rule_ok (s X la r : Z) : bool :=
  if rule_lhs r =? X then
    match walk s (rule_rhs r) with
    | Some sts =>
        forallb (fun t => tmem t la_tbl) (needs_go s (rule_rhs r) sts la)
        && match yy_find_shift_action (last sts s) la with
           | Ok a => a =? YYNSTATE + r
           | Stuck _ => false
           end
    | None => false
    end
  else true.

Definition entry_ok (t : triple) : bool :=
  let '(s, X, la) := t in
  match yy_trans s X with
  | Some _ => (0 <=? la) && (la <? 11) && ((X <? 11) || forallb (rule_ok s X la) rules)
  | None => false
  end.

Lemma la_check : forallb entry_ok la_tbl = true.
Proof. vm_compute. reflexivity. Qed.

Lemma la_seeds_in : forallb (fun t => tmem t la_tbl) la_seeds = true.
Proof. vm_compute. reflexivity. Qed.

Lemma teqb_eq (a b : triple) : teqb a b = true -> a = b.
Proof.
  destruct a as [[x1 y1] z1], b as [[x2 y2] z2]. simpl.
  intros H. apply andb_true_iff in H as [H H3]. apply andb_true_iff in H as [H1 H2].
  apply Z.eqb_eq in H1, H2, H3. subst. reflexivity.
Qed.

Lemma tmem_In (t : triple) (l : list triple) : tmem t l = true -> In t l.
Proof.
  unfold tmem. intros H. apply existsb_exists in H as (t' & Hin & He).
  apply teqb_eq in He. subst. exact Hin.
Qed.

Lemma la_tbl_entry (t : triple) : tmem t la_tbl = true -> entry_ok t = true.
Proof.
  intros H. apply tmem_In in H. exact (proj1 (forallb_forall _ _) la_check t H).
Qed.

Lemma la_tbl_seed (t : triple) : In t la_seeds -> tmem t la_tbl = true.
Proof.
  intros H. exact (proj1 (forallb_forall _ _) la_seeds_in t H).
Qed.

(** The facts a triple of the table gives. *)
Lemma la_tbl_trans (s X la : Z) :
  tmem (s, X, la) la_tbl = true -> (exists g, yy_trans s X = Some g) /\ 0 <= la < 11.
Proof.
  intros H. apply la_tbl_entry in H. unfold entry_ok in H.
  destruct (yy_trans s X) as [g|]; [|discriminate].
  apply andb_true_iff in H as [H _]. apply andb_true_iff in H as [H1 H2].
  apply Z.leb_le in H1. apply Z.ltb_lt in H2. eauto.
Qed.

Lemma la_tbl_rule (s X la r : Z) :
  tmem (s, X, la) la_tbl = true -> 11 <= X -> 0 <= r < YYNRULE -> rule_lhs r = X ->
  exists sts, walk s (rule_rhs r) = Some sts
    /\ (forall t, In t (needs_go s (rule_rhs r) sts la) -> tmem t la_tbl = true)
    /\ yy_find_shift_action (last sts s) la = Ok (YYNSTATE + r).
Proof.
  intros H HX Hr Hl. apply la_tbl_entry in H. unfold entry_ok in H.
  destruct (yy_trans s X) as [g|]; [|discriminate].
  apply andb_true_iff in H as [_ H]. replace (X <? 11) with false in H by (symmetry; apply Z.ltb_ge; lia).
  cbn [orb] in H. assert (Hin : In r rules).
  { unfold rules. apply in_map_iff. exists (Z.to_nat r). split; [lia|]. apply in_seq.
    unfold YYNRULE in Hr. lia. }
  pose proof (proj1 (forallb_forall _ _) H r Hin) as Hok. unfold rule_ok in Hok.
  rewrite Hl, Z.eqb_refl in Hok. destruct (walk s (rule_rhs r)) as [sts|]; [|discriminate].
  apply andb_true_iff in Hok as [Hn Ha]. exists sts. split; [reflexivity|]. split.
  - intros t Ht. exact (proj1 (forallb_forall _ _) Hn t Ht).
  - destruct (yy_find_shift_action (last sts s) la) as [a|]; [|discriminate].
    apply Z.eqb_eq in Ha. subst. reflexivity.
Qed.

(** ** The first terminal of a derivation *)

Definition first_ok (X : Z) (w : list token) : Prop :=
  exists a t w', w = (a, t) :: w' /\ In a (first X).

Section First.
Context {IndexSpec : Type} `{FR : FieldResolver IndexSpec}.

Lemma derives_first (sp : option IndexSpec) (X : Z) (w : list token) (v : sem) :
  derives sp X w v -> first_ok X w.
Proof.
  induction 1 as [k t Hk | | | | | | | | | | | | | | | | | | |].
  { exists k, t, []. split; [reflexivity|]. unfold first.
    replace (k <? 11) with true by (symmetry; apply Z.ltb_lt; lia). left. reflexivity. }
  all: repeat match goal with IH : first_ok _ _ |- _ => destruct IH as (? & ? & ? & -> & ?) end;
    (eexists _, _, _; split; [simpl; reflexivity|]);
    unfold first, NT_expr, NT_exprlist, NT_union, NT_exact, NT_modifier, NT_modifierlist,
      TK_TERM, TK_LP, TK_MINUS, TK_TILDE, TK_AT, TK_QUOTE in *; simpl in *; tauto.
Qed.

End First.

(** ** Runs of the loop *)

Section Runs.
Context {IndexSpec : Type} `{FR : FieldResolver IndexSpec}.

(** One reduce of the loop of [Parse] on the look-ahead [la], other
    than the accept. *)
Definition red (la : Z) (p q : @yyParser IndexSpec) : Prop :=
  exists e rest a, yystack p = e :: rest /\ yy_find_shift_action (stateno e) la = Ok a
    /\ YYNSTATE <= a < YYNSTATE + YYNRULE /\ rule_lhs (a - YYNSTATE) <> NT_query
    /\ yy_reduce p (a - YYNSTATE) = Ok q.

Definition reds (la : Z) : relation (@yyParser IndexSpec) := clos_refl_trans_1n _ (red la).

Lemma ctx_eq (c1 c2 : @parseCtx IndexSpec) :
  root c1 = root c2 -> ok c1 = ok c2 -> errorMsg c1 = errorMsg c2 -> spec c1 = spec c2 -> c1 = c2.
Proof. destruct c1, c2; simpl; intros; subst; reflexivity. Qed.

Lemma red_post (la : Z) (p q : @yyParser IndexSpec) :
  inv p -> 0 <= la < 11 -> red la p q ->
  inv q /\ pctx q = pctx p /\ yystack q <> []
  /\ (yy_measure (yystack q) < yy_measure (yystack p))%nat.
Proof.
  intros (Hwf & Hacc & Hmsg) Hla (e & rest & a & Hst & Hf & Ha & Hq & Hr).
  rewrite Hst in Hwf.
  destruct (yy_reduce_ok p la a e rest Hst Hwf Hacc Hla Hf Ha (fun E => match Hq E with end))
    as (q' & Hr' & Hwf' & Hacc' & _ & Hok & Hms & Hsp & Hcase).
  rewrite Hr in Hr'. injection Hr' as <-.
  apply Z.eqb_neq in Hq. rewrite Hq in Hcase. destruct Hcase as (Hroot & Hne & Hm).
  split; [split; [exact Hwf' | split; [exact Hacc' |]]|].
  - unfold msg_inv in *. rewrite Hok, Hms. exact Hmsg.
  - split; [apply ctx_eq; assumption|]. split; [exact Hne | exact Hm].
Qed.

(** The loop gives the same result with any fuel above the measure. *)
Lemma yy_parse_loop_fuel (f : nat) :
  forall (f' : nat) (p : @yyParser IndexSpec) (la : Z) (t : QueryToken),
  inv p -> yystack p <> [] -> 0 <= la < 11 -> (la = TK_EOF -> root (pctx p) = None) ->
  (yy_measure (yystack p) < f)%nat -> (yy_measure (yystack p) < f')%nat ->
  yy_parse_loop f p la (yy0 t) (la =? TK_EOF) = yy_parse_loop f' p la (yy0 t) (la =? TK_EOF).
Proof.
  induction f as [|f IH]; intros [|f'] p la t Hinv Hne Hla Hroot H1 H2; try lia.
  destruct (yy_parse_step_ok p la t Hinv Hne Hla Hroot)
    as (p1 & m1 & Hs & Hinv1 & _ & _ & Hcase).
  simpl. rewrite Hs. simpl obind.
  destruct ((m1 =? YYNOCODE) || (length (yystack p1) =? 0)%nat) eqn:Estop; [reflexivity|].
  apply orb_false_iff in Estop as [E1 E2]. apply Z.eqb_neq in E1. apply Nat.eqb_neq in E2.
  destruct Hcase as [(E & _) | [E | (-> & Hne1 & Hr1 & Hm)]];
    [contradiction | rewrite E in E2; contradiction|].
  apply IH; [exact Hinv1 | exact Hne1 | exact Hla | rewrite Hr1; exact Hroot | lia | lia].
Qed.

(** [Parse] unfolded on a parser whose stack is not empty. *)
Lemma Parse_nonempty (p : @yyParser IndexSpec) (la : Z) (t : QueryToken) :
  yystack p <> [] ->
  Parse p la t = yy_parse_loop (S (yy_measure (yystack p))) p la (yy0 t) (la =? TK_EOF).
Proof. intros Hne. unfold Parse. destruct (yystack p) eqn:E; [contradiction|]. rewrite E. reflexivity. Qed.

Lemma yy_parse_loop_red (f : nat) (p q : @yyParser IndexSpec) (la : Z) (m : YYMINORTYPE) (eoi : bool) :
  yy_parse_step p la m eoi = Ok (q, la) -> la <> YYNOCODE -> yystack q <> [] ->
  yy_parse_loop (S f) p la m eoi = yy_parse_loop f q la m eoi.
Proof.
  intros H Hla Hne. simpl. rewrite H. simpl obind.
  replace ((la =? YYNOCODE) || (length (yystack q) =? 0)%nat) with false; [reflexivity|].
  symmetry. apply orb_false_iff. split; [apply Z.eqb_neq, Hla|].
  apply Nat.eqb_neq. destruct (yystack q); [contradiction | discriminate].
Qed.

(** A reduce done before the look-ahead is handed to [Parse] changes
    nothing: [Parse] would have done it first. *)
Lemma Parse_red (la : Z) (t : QueryToken) (p q : @yyParser IndexSpec) :
  inv p -> 0 <= la < 11 -> root (pctx p) = None -> red la p q ->
  Parse p la t = Parse q la t.
Proof.
  intros Hinv Hla Hr Hred.
  destruct (red_post la p q Hinv Hla Hred) as (Hinvq & Hc & Hneq & Hm).
  destruct Hred as (e & rest & a & Hst & Hf & Ha & _ & Hy).
  rewrite (Parse_nonempty p) by (rewrite Hst; discriminate).
  rewrite (Parse_nonempty q) by exact Hneq.
  assert (Hstep : yy_parse_step p la (yy0 t) (la =? TK_EOF) = Ok (q, la)).
  { unfold yy_parse_step. rewrite Hst, obind_ok, Hf, obind_ok.
    replace (a <? YYNSTATE) with false by (symmetry; apply Z.ltb_ge; lia).
    replace (a <? YYNSTATE + YYNRULE) with true by (symmetry; apply Z.ltb_lt; lia).
    rewrite Hy. reflexivity. }
  rewrite (yy_parse_loop_red _ p q la _ _ Hstep ltac:(unfold YYNOCODE; lia) Hneq).
  apply yy_parse_loop_fuel; [exact Hinvq | exact Hneq | exact Hla | rewrite Hc; intros; exact Hr | lia | lia].
Qed.

Lemma Parse_reds (la : Z) (t : QueryToken) (p q : @yyParser IndexSpec) :
  inv p -> 0 <= la < 11 -> root (pctx p) = None -> reds la p q ->
  Parse p la t = Parse q la t /\ inv q /\ pctx q = pctx p.
Proof.
  intros Hinv Hla Hr H. induction H as [p | p p1 q H1 H IH]; [auto|].
  destruct (red_post la p p1 Hinv Hla H1) as (Hinv1 & Hc1 & _ & _).
  destruct (IH Hinv1 ltac:(rewrite Hc1; exact Hr)) as (E & Hinvq & Hcq).
  rewrite (Parse_red la t p p1 Hinv Hla Hr H1), E. split; [reflexivity|]. split; [exact Hinvq | congruence].
Qed.

(** Feeding [w] from [p] and then doing the reductions [la] calls for
    gives [p']. *)
Definition runs (la : Z) (p : @yyParser IndexSpec) (w : list token) (p' : @yyParser IndexSpec)
  : Prop :=
  exists pw, Parse_all p w = Ok pw /\ inv pw /\ root (pctx pw) = None /\ reds la pw p'.

(** Feeding [w1] then [w2], when [w2] starts with the look-ahead the
    run of [w1] was completed for. *)
Lemma runs_seq (a la : Z) (p p1 p2 : @yyParser IndexSpec) (w1 w2 : list token) (t : QueryToken)
  (w2' : list token) :
  0 <= a < 11 -> w2 = (a, t) :: w2' -> runs a p w1 p1 -> runs la p1 w2 p2 -> runs la p (w1 ++ w2) p2.
Proof.
  intros Ha -> (pw1 & H1 & Hinv1 & Hr1 & Hreds1) (pw2 & H2 & Hinv2 & Hr2 & Hreds2).
  exists pw2. split; [|auto].
  rewrite Parse_all_app, H1. simpl obind. cbn [Parse_all] in H2 |- *.
  rewrite (proj1 (Parse_reds a t pw1 p1 Hinv1 Ha Hr1 Hreds1)). exact H2.
Qed.

Lemma reds_snoc (la : Z) (p q r : @yyParser IndexSpec) :
  reds la p q -> red la q r -> reds la p r.
Proof.
  intros H Hr. induction H as [p | p p1 q H1 H IH].
  - econstructor; [exact Hr | constructor].
  - econstructor; [exact H1 | exact (IH Hr)].
Qed.

Lemma runs_red (la : Z) (p q r : @yyParser IndexSpec) (w : list token) :
  runs la p w q -> red la q r -> runs la p w r.
Proof. intros (pw & H & Hi & Hr & Hs) Hred. exists pw. eauto using reds_snoc. Qed.

Lemma runs_post (la : Z) (p q : @yyParser IndexSpec) (w : list token) :
  0 <= la < 11 -> runs la p w q -> inv q /\ root (pctx q) = None.
Proof.
  intros Hla (pw & _ & Hi & Hr & Hs).
  destruct (Parse_reds la (mkToken EmptyString 0 0) pw q Hi Hla Hr Hs) as (_ & Hiq & Hc).
  rewrite Hc. auto.
Qed.

(** A shift of a terminal from a state whose action on it is a shift. *)
Lemma Parse_shift (p : @yyParser IndexSpec) (e : yyStackEntry) (rest : list yyStackEntry)
  (k s1 : Z) (t : QueryToken) :
  inv p -> yystack p = e :: rest -> 1 <= k < 11 -> yy_trans (stateno e) k = Some s1 ->
  (length (yystack p) < Z.to_nat YYSTACKDEPTH)%nat ->
  Parse p k t = Ok (set_errcnt (set_stack p (mkEntry s1 k (yy0 t) :: yystack p)) (yyerrcnt p - 1)).
Proof.
  intros Hinv Hst Hk Htr Hlen.
  assert (Hf : yy_find_shift_action (stateno e) k = Ok s1 /\ 0 <= s1 < YYNSTATE).
  { unfold yy_trans in Htr. rewrite is_terminal_token in Htr by lia.
    destruct (yy_find_shift_action (stateno e) k) as [a|]; [|discriminate].
    destruct ((0 <=? a) && (a <? YYNSTATE)) eqn:E; [|discriminate]. injection Htr as <-.
    apply andb_true_iff in E as [E1 E2]. apply Z.leb_le in E1. apply Z.ltb_lt in E2. auto. }
  destruct Hf as [Hf Hs1].
  rewrite Parse_nonempty by (rewrite Hst; discriminate). cbn [yy_parse_loop].
  unfold yy_parse_step. rewrite Hst, obind_ok, Hf, obind_ok.
  replace (s1 <? YYNSTATE) with true by (symmetry; apply Z.ltb_lt; lia).
  replace (k =? TK_EOF) with false by (symmetry; apply Z.eqb_neq; unfold TK_EOF; lia).
  unfold yy_shift. rewrite Hst in Hlen |- *.
  replace (Z.of_nat (length (e :: rest)) >=? YYSTACKDEPTH) with false
    by (symmetry; rewrite Z.geb_leb; apply Z.leb_gt; unfold YYSTACKDEPTH in *; simpl length in *; lia).
  reflexivity.
Qed.

End Runs.

(** ** Every derivation runs *)

(** The minor a semantic value is stored in. *)
Definition sem_minor (v : sem) : YYMINORTYPE :=
  match v with SemToken t => yy0 t | SemNames n => yy2 n | SemNode n => yy3 n end.

(** The entries the children of a right-hand side push, in order, with
    the states [sts] of its path. *)
Fixpoint pushed (sts ys : list Z) (vs : list sem) (st : list yyStackEntry) : list yyStackEntry :=
  match sts, ys, vs with
  | s1 :: sts', y :: ys', v :: vs' => pushed sts' ys' vs' (mkEntry s1 y (sem_minor v) :: st)
  | _, _, _ => st
  end.

Lemma walk_length (s : Z) (ys sts : list Z) : walk s ys = Some sts -> length sts = length ys.
Proof.
  revert s sts. induction ys as [|y ys IH]; intros s sts H; simpl in H; [injection H as <-; reflexivity|].
  destruct (yy_trans s y) as [s1|]; [|discriminate].
  destruct (walk s1 ys) as [l|] eqn:E; [|discriminate]. injection H as <-. simpl. f_equal. eauto.
Qed.

Lemma pushed_app (sts ys : list Z) (vs : list sem) (st st' : list yyStackEntry) :
  pushed sts ys vs (st ++ st') = pushed sts ys vs st ++ st'.
Proof.
  revert sts vs st. induction ys as [|y ys IH]; intros [|s1 sts] [|v vs] st; try reflexivity.
  exact (IH sts vs (mkEntry s1 y (sem_minor v) :: st)).
Qed.

Lemma pushed_length (sts ys : list Z) (vs : list sem) (st : list yyStackEntry) :
  length sts = length ys -> length vs = length ys ->
  length (pushed sts ys vs st) = (length ys + length st)%nat.
Proof.
  revert sts vs st. induction ys as [|y ys IH]; intros [|s1 sts] [|v vs] st H1 H2;
    simpl in *; try discriminate; [reflexivity|].
  rewrite IH by lia. simpl. lia.
Qed.

Lemma pushed_skipn (sts ys : list Z) (vs : list sem) (st : list yyStackEntry) :
  length sts = length ys -> length vs = length ys -> skipn (length ys) (pushed sts ys vs st) = st.
Proof.
  intros H1 H2. rewrite <- (app_nil_l st), pushed_app, skipn_app.
  pose proof (pushed_length sts ys vs [] H1 H2) as Hl. simpl in Hl.
  rewrite skipn_all2 by lia. rewrite Hl, Nat.add_0_r, Nat.sub_diag. reflexivity.
Qed.

Lemma last_cons_default {A : Type} (x : A) (l : list A) (d d' : A) : last (x :: l) d = last (x :: l) d'.
Proof. revert x. induction l as [|y l IH]; intros x; [reflexivity|]. exact (IH y). Qed.

(** The top of the pushed entries is the last state of the path. *)
Lemma pushed_top (sts ys : list Z) (vs : list sem) (st : list yyStackEntry) (d : Z) :
  ys <> [] -> length sts = length ys -> length vs = length ys ->
  exists e' st', pushed sts ys vs st = e' :: st' /\ stateno e' = last sts d.
Proof.
  revert sts vs st d. induction ys as [|y ys IH]; intros [|s1 sts] [|v vs] st d Hne H1 H2;
    simpl in *; try discriminate; [contradiction|].
  destruct ys as [|y' ys'].
  - destruct sts, vs; simpl in *; try discriminate. eexists _, _. split; reflexivity.
  - destruct (IH sts vs (mkEntry s1 y (sem_minor v) :: st) s1 ltac:(discriminate) ltac:(lia) ltac:(lia))
      as (e' & st' & -> & He). exists e', st'. split; [reflexivity|].
    rewrite He. destruct sts as [|z' sts]; simpl in *; [discriminate|].
    exact (last_cons_default z' sts s1 d).
Qed.

Section Complete.
Context {IndexSpec : Type} `{FR : FieldResolver IndexSpec}.
Variable s : IndexSpec.

(** A derivation of [Y] covering [w] with value [v] runs from any
    parser whose top state expects [Y] with the look-ahead [la], as
    long as the stack cannot overflow: feeding [w] and doing the
    reductions [la] calls for pushes [Y] with its value. *)
Definition child_ok (Y : Z) (w : list token) (v : sem) : Prop :=
  forall (p : @yyParser IndexSpec) e rest la,
  inv p -> yystack p = e :: rest -> root (pctx p) = None -> spec (pctx p) = Some s ->
  tmem (stateno e, Y, la) la_tbl = true ->
  (length (yystack p) + length w <= Z.to_nat YYSTACKDEPTH)%nat ->
  exists g p', yy_trans (stateno e) Y = Some g /\ runs la p w p' /\ pctx p' = pctx p
    /\ yystack p' = mkEntry g Y (sem_minor v) :: yystack p.

Lemma token_child (k : Z) (t : QueryToken) : 1 <= k < 11 -> child_ok k [(k, t)] (SemToken t).
Proof.
  intros Hk p e rest la Hinv Hst Hr Hsp Hm Hlen.
  destruct (la_tbl_trans _ _ _ Hm) as ((g & Hg) & _).
  pose proof (Parse_shift p e rest k g t Hinv Hst Hk Hg ltac:(unfold YYSTACKDEPTH in *; simpl in Hlen |- *; lia)) as Hp.
  destruct (Parse_ok p k t Hinv ltac:(lia) ltac:(unfold TK_EOF; lia)) as (p1 & Hp1 & Hinv1 & _ & Hr1 & _).
  rewrite Hp in Hp1. injection Hp1 as <-.
  exists g, (set_errcnt (set_stack p (mkEntry g k (yy0 t) :: yystack p)) (yyerrcnt p - 1)).
  split; [exact Hg|]. split; [|split; reflexivity].
  exists (set_errcnt (set_stack p (mkEntry g k (yy0 t) :: yystack p)) (yyerrcnt p - 1)).
  split; [cbn [Parse_all]; rewrite Hp; reflexivity|]. split; [exact Hinv1|].
  split; [exact Hr | constructor].
Qed.

(** The children of a rule: each runs and starts with a first terminal
    of its symbol. *)
Fixpoint children_ok (ys : list Z) (ws : list (list token)) (vs : list sem) : Prop :=
  match ys, ws, vs with
  | [], [], [] => True
  | y :: ys', w :: ws', v :: vs' => child_ok y w v /\ first_ok y w /\ children_ok ys' ws' vs'
  | _, _, _ => False
  end.

Lemma children_ok_length (ys : list Z) (ws : list (list token)) (vs : list sem) :
  children_ok ys ws vs -> length vs = length ys.
Proof.
  revert ws vs. induction ys as [|y ys IH]; intros [|w ws] [|v vs] H; simpl in *; try tauto.
  f_equal. exact (IH ws vs (proj2 (proj2 H))).
Qed.

Lemma run_children (ys : list Z) :
  forall ws vs, children_ok ys ws vs ->
  forall (p : @yyParser IndexSpec) e rest la sts,
  inv p -> yystack p = e :: rest -> root (pctx p) = None -> spec (pctx p) = Some s ->
  walk (stateno e) ys = Some sts ->
  (forall t, In t (needs_go (stateno e) ys sts la) -> tmem t la_tbl = true) ->
  (length (yystack p) + length (concat ws) <= Z.to_nat YYSTACKDEPTH)%nat -> 0 <= la < 11 ->
  ys <> [] ->
  exists p', runs la p (concat ws) p' /\ pctx p' = pctx p /\ yystack p' = pushed sts ys vs (yystack p).
Proof.
  induction ys as [|y ys IH]; intros [|w ws] [|v vs] Hch p e rest la sts Hinv Hst Hr Hsp Hw Hn Hlen Hla Hne;
    simpl in Hch; try tauto.
  destruct Hch as (Hc & (a0 & t0 & w0 & Hw0 & _) & Hch).
  cbn [walk] in Hw. destruct (yy_trans (stateno e) y) as [s1|] eqn:Htr; [|discriminate].
  destruct (walk s1 ys) as [sts'|] eqn:Hw'; [|discriminate]. injection Hw as <-.
  cbn [concat] in Hlen |- *. rewrite length_app in Hlen. subst w.
  destruct ys as [|y2 ys2].
  - (* the last child *)
    destruct ws, vs; simpl in Hch; try tauto. rewrite app_nil_r.
    destruct (Hc p e rest la Hinv Hst Hr Hsp (Hn _ (or_introl eq_refl)) ltac:(cbn [length] in *; unfold token in *; lia))
      as (g & p1 & Hg & Hrun & Hc1 & Hs1).
    rewrite Htr in Hg. injection Hg as <-.
    exists p1. split; [exact Hrun|]. split; [exact Hc1|]. rewrite Hs1. destruct sts'; reflexivity.
  - (* a child followed by another: the look-ahead is its first terminal *)
    destruct ws as [|w2 ws2], vs as [|v2 vs2]; simpl in Hch; try tauto.
    destruct Hch as (Hc2 & (a & t & w2' & -> & Ha) & Hch2).
    destruct sts' as [|s2 sts2]; [apply walk_length in Hw'; discriminate|].
    assert (Hma : tmem (stateno e, y, a) la_tbl = true)
      by (apply Hn; cbn [needs_go]; apply in_or_app; left; apply in_map_iff; eauto).
    destruct (la_tbl_trans _ _ _ Hma) as (_ & Ha').
    destruct (Hc p e rest a Hinv Hst Hr Hsp Hma ltac:(cbn [length] in *; unfold token in *; lia))
      as (g & p1 & Hg & Hrun1 & Hc1 & Hs1).
    rewrite Htr in Hg. injection Hg as <-.
    destruct (runs_post a p p1 _ Ha' Hrun1) as (Hinv1 & Hr1).
    destruct (IH (((a, t) :: w2') :: ws2) (v2 :: vs2) (conj Hc2 (conj (ex_intro _ a (ex_intro _ t (ex_intro _ w2' (conj eq_refl Ha)))) Hch2))
                p1 (mkEntry s1 y (sem_minor v)) (yystack p) la (s2 :: sts2) Hinv1 Hs1 Hr1
                ltac:(rewrite Hc1; exact Hsp) Hw'
                ltac:(intros x Hx; apply Hn; cbn [needs_go]; apply in_or_app; right; exact Hx)
                ltac:(rewrite Hs1; cbn [length] in *; unfold token in *; lia) Hla ltac:(discriminate))
      as (p2 & Hrun2 & Hc2' & Hs2).
    exists p2. split.
    + cbn [concat] in Hrun2 |- *.
      exact (runs_seq a la p p1 p2 ((a0, t0) :: w0) _ t (w2' ++ concat ws2) Ha' eq_refl Hrun1 Hrun2).
    + split; [congruence|]. rewrite Hs2, Hs1. reflexivity.
Qed.

(** A reduce that pops at least one entry and finds a goto. *)
Lemma yy_reduce_goto (q q1 : @yyParser IndexSpec) (r : Z) (gm : YYMINORTYPE) (e : yyStackEntry)
  (rest : list yyStackEntry) (g : Z) :
  yy_rule_action q r = Ok (gm, q1) -> yystack q1 = yystack q ->
  skipn (Z.to_nat (rule_nrhs r)) (yystack q) = e :: rest ->
  yy_find_reduce_action (stateno e) (rule_lhs r) = Ok g -> 0 <= g < YYNSTATE -> 0 < rule_nrhs r ->
  yy_reduce q r = Ok (set_stack q1 (mkEntry g (rule_lhs r) gm :: e :: rest)).
Proof.
  intros Ha Hs Hk Hg Hg' Hn. unfold yy_reduce. rewrite Ha, obind_ok. cbv beta iota.
  rewrite Hs, Hk, obind_ok, Hg, obind_ok.
  replace (g <? YYNSTATE) with true by (symmetry; apply Z.ltb_lt; lia).
  replace (rule_nrhs r >? 0) with true by (symmetry; apply Z.gtb_lt; lia). reflexivity.
Qed.

(** The goto of a nonterminal is a transition of [yy_trans]. *)
Lemma yy_trans_find_reduce (s0 X g : Z) :
  11 <= X -> yy_trans s0 X = Some g -> yy_find_reduce_action s0 X = Ok g /\ 0 <= g < YYNSTATE.
Proof.
  intros HX H. unfold yy_trans in H.
  replace (is_terminal X) with false in H
    by (unfold is_terminal, YYERRORSYM; symmetry; apply andb_false_iff; right; apply Z.ltb_ge; lia).
  destruct (yy_find_reduce_action s0 X) as [a|]; [|discriminate].
  destruct ((0 <=? a) && (a <? YYNSTATE)) eqn:E; [|discriminate]. injection H as <-.
  apply andb_true_iff in E as [E1 E2]. apply Z.leb_le in E1. apply Z.ltb_lt in E2. auto.
Qed.

(** A rule whose children run, and whose semantic action computes [v]
    from their values, runs. *)
Lemma rule_run (r X : Z) (w : list token) (ws : list (list token)) (vs : list sem) (v : sem) :
  0 <= r < YYNRULE -> rule_lhs r = X -> X <> NT_query -> concat ws = w ->
  children_ok (rule_rhs r) ws vs ->
  (forall (q : @yyParser IndexSpec) sts e rest, length sts = length (rule_rhs r) ->
     yystack q = pushed sts (rule_rhs r) vs (e :: rest) -> spec (pctx q) = Some s ->
     exists q1, yy_rule_action q r = Ok (sem_minor v, q1)
                /\ yystack q1 = yystack q /\ pctx q1 = pctx q) ->
  child_ok X w v.
Proof.
  intros Hr Hl Hq Hw Hch Hact p e rest la Hinv Hst Hroot Hsp Hm Hlen. subst X w.
  destruct (rule_rhs_length r Hr) as (Hn & HX & Hqn).
  assert (Hnz : 0 < rule_nrhs r) by (destruct Hqn; [contradiction | lia]).
  destruct (la_tbl_trans _ _ _ Hm) as ((g & Hg) & Hla).
  destruct (la_tbl_rule _ _ _ r Hm ltac:(unfold NT_modifierlist in HX; lia) Hr eq_refl)
    as (sts & Hw & Hneeds & Hact_la).
  assert (Hne : rule_rhs r <> []) by (intros E; rewrite E in Hn; simpl in Hn; lia).
  destruct (run_children _ _ _ Hch p e rest la sts Hinv Hst Hroot Hsp Hw Hneeds Hlen Hla Hne)
    as (pn & Hrun & Hcn & Hsn).
  pose proof (walk_length _ _ _ Hw) as Hlsts. pose proof (children_ok_length _ _ _ Hch) as Hlvs.
  destruct (pushed_top sts (rule_rhs r) vs (yystack p) (stateno e) Hne Hlsts Hlvs)
    as (en & stn & Hpt & Hsten).
  destruct (Hact pn sts e rest Hlsts ltac:(rewrite Hsn, Hst; reflexivity) ltac:(rewrite Hcn; exact Hsp))
    as (q1 & Hq1 & Hsq1 & Hcq1).
  destruct (yy_trans_find_reduce (stateno e) (rule_lhs r) g ltac:(unfold NT_modifierlist in HX; lia) Hg)
    as (Hgoto & Hgr).
  assert (Hred : yy_reduce pn r = Ok (set_stack q1 (mkEntry g (rule_lhs r) (sem_minor v) :: e :: rest))).
  { apply yy_reduce_goto; auto.
    rewrite Hsn, Hst, <- Hn, Nat2Z.id. apply pushed_skipn; assumption. }
  exists g, (set_stack q1 (mkEntry g (rule_lhs r) (sem_minor v) :: e :: rest)).
  split; [exact Hg|]. split; [|split; [cbn [pctx set_stack]; congruence | cbn [yystack set_stack]; rewrite Hst; reflexivity]].
  apply (runs_red la p pn); [exact Hrun|].
  exists en, stn, (YYNSTATE + r). rewrite Hsn, Hpt, Hsten.
  replace (YYNSTATE + r - YYNSTATE) with r by lia.
  split; [reflexivity|]. split; [exact Hact_la|]. split; [unfold YYNRULE in *; lia|].
  split; [exact Hq | exact Hred].
Qed.

(** The obligations of [rule_run] for one rule: the children, and the
    semantic action computed on the pushed values. *)
Ltac rhs_literal r :=
  let v := eval vm_compute in (rule_rhs r) in change (rule_rhs r) with v.

Ltac children_tac :=
  cbn [children_ok];
  repeat split;
  first [ assumption
        | eapply derives_first; eassumption
        | apply token_child; unfold TK_LP, TK_RP, TK_TERM, TK_MINUS, TK_TILDE, TK_STAR,
            TK_COLON, TK_AT, TK_OR, TK_QUOTE; lia
        | eexists _, _, _; split; [reflexivity | vm_compute; auto] ].

Ltac action_tac :=
  let q := fresh "q" in let sts := fresh "sts" in
  let Hlen := fresh "Hlen" in let Hq := fresh "Hq" in let Hsp := fresh "Hsp" in
  intros q sts ? ? Hlen Hq Hsp;
  destruct sts as [|? [|? [|? [|]]]]; cbn [length] in Hlen; try discriminate;
  cbn [pushed] in Hq; unfold yy_rule_action, yymsp; rewrite Hq;
  cbn -[modifierlist_mask IndexSpec_GetFieldBit]; rewrite ?Hsp, ?modifierlist_mask_field_bits;
  eexists; split; [reflexivity | split; cbn; rewrite ?Hq; reflexivity].

Ltac rule_tac r ws vs :=
  refine (rule_run r _ _ ws vs _ _ _ _ _ _ _);
  [ unfold YYNRULE; lia
  | reflexivity
  | unfold NT_query, NT_exprlist, NT_expr, NT_union, NT_exact, NT_modifier, NT_modifierlist; lia
  | cbn [concat app]; rewrite ?app_nil_r; reflexivity
  | rhs_literal r; children_tac
  | rhs_literal r; action_tac ].

(** Every derivation of the grammar runs. *)
Lemma derives_child_ok (X : Z) (w : list token) (v : sem) :
  derives (Some s) X w v -> child_ok X w v.
Proof.
  induction 1 as [k t Hk | w1 w2 a b | w1 w2 m cs e | w n | l w r n | l w r n | t
                 | o w n | o w n | t s0 | w1 c w2 names n | w1 c w2 t n | a t | w a o t
                 | w names o t | q t | w m cs t | w q n | w m cs o t | a o b ].
  - apply token_child. assumption.
  - rule_tac 3 [w1; w2] [SemNode a; SemNode b].
  - rule_tac 4 [w1; w2] [SemNode (QN_Phrase m false cs); SemNode e].
  - rule_tac 5 [w] [SemNode n].
  - rule_tac 6 [[(TK_LP, l)]; w; [(TK_RP, r)]] [SemToken l; SemNode n; SemToken r].
  - rule_tac 7 [[(TK_LP, l)]; w; [(TK_RP, r)]] [SemToken l; SemNode n; SemToken r].
  - rule_tac 8 [[(TK_TERM, t)]] [SemToken t].
  - rule_tac 9 [[(TK_MINUS, o)]; w] [SemToken o; SemNode n].
  - rule_tac 10 [[(TK_TILDE, o)]; w] [SemToken o; SemNode n].
  - rule_tac 14 [[(TK_TERM, t)]; [(TK_STAR, s0)]] [SemToken t; SemToken s0].
  - rule_tac 15 [w1; [(TK_COLON, c)]; w2] [SemNames names; SemToken c; SemNode n].
  - rule_tac 16 [w1; [(TK_COLON, c)]; w2] [SemToken t; SemToken c; SemNode n].
  - rule_tac 11 [[(TK_AT, a)]; [(TK_TERM, t)]] [SemToken a; SemToken t].
  - rule_tac 12 [w; [(TK_OR, o)]; [(TK_TERM, t)]] [SemToken a; SemToken o; SemToken t].
  - rule_tac 13 [w; [(TK_OR, o)]; [(TK_TERM, t)]] [SemNames names; SemToken o; SemToken t].
  - rule_tac 17 [[(TK_QUOTE, q)]; [(TK_TERM, t)]] [SemToken q; SemToken t].
  - rule_tac 18 [w; [(TK_TERM, t)]] [SemNode (QN_Phrase m true cs); SemToken t].
  - rule_tac 19 [w; [(TK_QUOTE, q)]] [SemNode n; SemToken q].
  - rule_tac 20 [w; [(TK_OR, o)]; [(TK_TERM, t)]] [SemNode (QN_Union m cs); SemToken o; SemToken t].
  - rule_tac 21 [[(TK_TERM, a)]; [(TK_OR, o)]; [(TK_TERM, b)]] [SemToken a; SemToken o; SemToken b].
Qed.

(** ** From a derivation to an accepted query *)

(** The context [Query_Parse] starts from, and the parser after the
    first call of [Parse] has initialised its stack. *)
Definition ctx0 : parseCtx := mkCtx None true None (Some s).
Definition p_init : @yyParser IndexSpec := mkParser yy_init_stack (-1) ctx0 0.

Lemma inv_p_init : inv p_init.
Proof. unfold inv, acct, msg_inv. simpl. repeat split; auto. Qed.

(** The first call of [Parse] on a fresh parser runs on [p_init]. *)
Lemma Parse_all_alloc (w : list token) :
  w <> [] -> Parse_all (ParseAlloc ctx0) w = Parse_all p_init w.
Proof. destruct w as [|[k t] w]; [contradiction | reflexivity]. Qed.

(** End of input after a whole [exprlist] or [expr]: [query ::= X] is
    reduced, [root] is set, and the parser accepts, emptying its stack. *)
Lemma Parse_accept (p : @yyParser IndexSpec) (X g : Z) (n : QueryNode) (eof : QueryToken) :
  X = NT_exprlist \/ X = NT_expr -> yy_trans 0 X = Some g ->
  yystack p = [mkEntry g X (yy3 n); mkEntry 0 TK_EOF yyinit] -> pctx p = ctx0 ->
  Parse p TK_EOF eof = Ok (mkParser [] (yyerrcnt p) (mkCtx (Some n) true None (Some s)) (live_nodes p)).
Proof.
  intros HX Hg Hst Hc. destruct p as [st ec c lv]. cbn in Hst, Hc. subst st c.
  destruct HX as [-> | ->]; vm_compute in Hg; injection Hg as <-; vm_compute; reflexivity.
Qed.

Lemma Query_Parse_nonempty_complete (X : Z) (w : list token) (n : QueryNode) (eof : QueryToken) :
  X = NT_exprlist \/ X = NT_expr -> derives (Some s) X w (SemNode n) ->
  (length w < Z.to_nat YYSTACKDEPTH)%nat ->
  exists p, Query_Parse (Some s) w eof = Ok p /\ pctx p = mkCtx (Some n) true None (Some s).
Proof.
  intros HX Hd Hlen.
  assert (Hseed : tmem (0, X, TK_EOF) la_tbl = true)
    by (apply la_tbl_seed; destruct HX as [-> | ->]; simpl; auto).
  destruct (derives_child_ok X w (SemNode n) Hd p_init (mkEntry 0 TK_EOF yyinit) [] TK_EOF
              inv_p_init eq_refl eq_refl eq_refl Hseed ltac:(cbn [yystack p_init length yy_init_stack]; lia))
    as (g & p' & Hg & (pw & Hpw & Hinvw & Hrw & Hreds) & Hcp & Hsp).
  destruct (Parse_reds TK_EOF eof pw p' Hinvw ltac:(unfold TK_EOF; lia) Hrw Hreds) as (E & _ & _).
  unfold Query_Parse. fold ctx0. rewrite Parse_all_app, Parse_all_alloc by exact (derives_nonempty _ _ _ _ Hd).
  rewrite Hpw, obind_ok. cbn [Parse_all]. rewrite E, (Parse_accept p' X g n eof HX Hg Hsp Hcp).
  eexists. split; reflexivity.
Qed.

(** The empty query: end of input reduces [query ::=] and accepts. *)
Lemma Query_Parse_empty (eof : QueryToken) :
  Query_Parse (Some s) [] eof = Ok (mkParser [] (-1) ctx0 0).
Proof. reflexivity. Qed.

(** Every query of the grammar with fewer than [YYSTACKDEPTH] tokens is
    accepted, with its tree. *)
Lemma derives_query_accepted (w : list token) (r : option QueryNode) (eof : QueryToken) :
  derives_query (Some s) w r -> (length w < Z.to_nat YYSTACKDEPTH)%nat ->
  exists p, Query_Parse (Some s) w eof = Ok p /\ pctx p = mkCtx r true None (Some s).
Proof.
  intros Hq Hlen. destruct Hq as [w n Hd | w n Hd | ].
  - exact (Query_Parse_nonempty_complete NT_exprlist w n eof (or_introl eq_refl) Hd Hlen).
  - exact (Query_Parse_nonempty_complete NT_expr w n eof (or_intror eq_refl) Hd Hlen).
  - eexists. split; [apply Query_Parse_empty | reflexivity].
Qed.

(** A parse with [ctx->ok] set derives the whole input, when it has
    fewer than [YYSTACKDEPTH] tokens (the invariant [ghost] of
    [Refinement]). *)
Lemma Query_Parse_sound (ts : list token) (eof : QueryToken) (p : @yyParser IndexSpec) :
  lexer_tokens ts -> (length ts < Z.to_nat YYSTACKDEPTH)%nat ->
  Query_Parse (Some s) ts eof = Ok p -> ok (pctx p) = true ->
  derives_query (Some s) ts (root (pctx p)).
Proof.
  intros Hts Hlen H Hok.
  assert (Hg0 : ghost s [] (ParseAlloc ctx0)).
  { split; [reflexivity|]. intros _. split; [simpl; lia|].
    exists [], []. split; [reflexivity|]. split; [left; reflexivity | apply fresh_der_state]. }
  destruct (Query_Parse_P (ghost s) (ghost_step s) (ghost_init s) _ ts eof p Hg0 Hts H)
    as ((_ & Hg) & Hemp).
  destruct (Hg Hok) as (_ & pre & w & -> & Hpre & Hd).
  destruct Hpre as [-> | Hpre]; [|change (Z.to_nat YYSTACKDEPTH) with 100%nat in Hlen; unfold YYSTACKDEPTH in Hpre; lia].
  destruct Hd as [[Hd Hr] | [_ Hq]]; [|exact Hq].
  rewrite Hemp in Hd. simpl in Hd. subst w. rewrite Hr. constructor.
Qed.

End Complete.

Section Claims.
Context {IndexSpec : Type} `{FR : FieldResolver IndexSpec}.

(** C8. Completeness of the parser: every token sequence the
    specification's grammar derives as a query with the tree [r], with
    fewer than [YYSTACKDEPTH] tokens, is parsed by [Query_Parse] without
    error: the parse returns with [ctx->ok] set, no diagnostic, and
    [ctx->root] equal to [r]. *)
Theorem Query_Parse_complete (s : IndexSpec) (w : list token) (r : option QueryNode)
  (eof : QueryToken) :
  derives_query (Some s) w r -> (length w < Z.to_nat YYSTACKDEPTH)%nat ->
  exists p, Query_Parse (Some s) w eof = Ok p /\ pctx p = mkCtx r true None (Some s).
Proof. exact (derives_query_accepted s w r eof). Qed.

(** C9. The parser decides the grammar: for a lexer token stream of
    fewer than [YYSTACKDEPTH] tokens and a schema, a parse ends with
    [ctx->ok] set exactly when the stream is a query of the
    specification's grammar, and then [ctx->root] is the tree of every
    derivation of it. *)
Theorem Query_Parse_decides (s : IndexSpec) (ts : list token) (eof : QueryToken)
  (p : @yyParser IndexSpec) :
  lexer_tokens ts -> (length ts < Z.to_nat YYSTACKDEPTH)%nat ->
  Query_Parse (Some s) ts eof = Ok p ->
  (ok (pctx p) = true <-> exists r, derives_query (Some s) ts r)
  /\ (forall r, derives_query (Some s) ts r -> root (pctx p) = r).
Proof.
  intros Hts Hlen H.
  assert (Hr : forall r, derives_query (Some s) ts r -> pctx p = mkCtx r true None (Some s)).
  { intros r Hq. destruct (derives_query_accepted s ts r eof Hq Hlen) as (p' & H' & Hc).
    rewrite H in H'. injection H' as ->. exact Hc. }
  split; [split|].
  - intros Hok. exists (root (pctx p)). exact (Query_Parse_sound s ts eof p Hts Hlen H Hok).
  - intros (r & Hq). rewrite (Hr r Hq). reflexivity.
  - intros r Hq. rewrite (Hr r Hq). reflexivity.
Qed.

(** The grammar is unambiguous on the inputs the parser accepts:
    two derivations of the same token sequence of fewer than
    [YYSTACKDEPTH] tokens as a query build the same tree, since the
    deterministic automaton builds the tree of each. *)
Theorem derives_query_unambiguous (s : IndexSpec) (w : list token) (r1 r2 : option QueryNode) :
  derives_query (Some s) w r1 -> derives_query (Some s) w r2 ->
  (length w < Z.to_nat YYSTACKDEPTH)%nat -> r1 = r2.
Proof.
  intros H1 H2 Hlen.
  destruct (derives_query_accepted s w r1 (mkToken EmptyString 0 0) H1 Hlen) as (p1 & E1 & C1).
  destruct (derives_query_accepted s w r2 (mkToken EmptyString 0 0) H2 Hlen) as (p2 & E2 & C2).
  rewrite E1 in E2. injection E2 as <-. rewrite C1 in C2. injection C2 as E. exact E.
Qed.

End Claims.

(** ** Instances: [@title:(a b)] is accepted with its tree, [: a] is
    not a query *)

Definition ref_tree : QueryNode :=
  scope_field (Some ref_schema) (mkToken "title" 5 1)
    (QN_Phrase RS_FIELDMASK_ALL false [NewTokenNode "a" 1; NewTokenNode "b" 1]).

Lemma ref_derives : derives_query (Some ref_schema) ref_tokens (Some ref_tree).
Proof.
  exact (Q_expr _ _ _
    (D_expr_field _ [(TK_AT, mkToken "@" 1 0); (TK_TERM, mkToken "title" 5 1)] (mkToken ":" 1 6)
       [(TK_LP, mkToken "(" 1 7); (TK_TERM, mkToken "a" 1 8); (TK_TERM, mkToken "b" 1 10);
        (TK_RP, mkToken ")" 1 11)] _ _
       (D_modifier _ _ _)
       (D_expr_paren_list _ _ [(TK_TERM, mkToken "a" 1 8); (TK_TERM, mkToken "b" 1 10)] _ _
          (D_exprlist_pair _ [(TK_TERM, mkToken "a" 1 8)] [(TK_TERM, mkToken "b" 1 10)] _ _
             (D_expr_term _ _) (D_expr_term _ _))))).
Qed.

Lemma ref_tokens_short : (length ref_tokens < Z.to_nat YYSTACKDEPTH)%nat.
Proof. change (Z.to_nat YYSTACKDEPTH) with 100%nat. unfold ref_tokens. simpl. lia. Qed.

Lemma Query_Parse_complete_witness :
  derives_query (Some ref_schema) ref_tokens (Some ref_tree)
  /\ exists p, Query_Parse (Some ref_schema) ref_tokens ref_eof = Ok p
     /\ pctx p = mkCtx (Some ref_tree) true None (Some ref_schema).
Proof.
  split; [exact ref_derives|].
  exact (Query_Parse_complete ref_schema ref_tokens (Some ref_tree) ref_eof ref_derives
           ref_tokens_short).
Defined.

Lemma Query_Parse_decides_witness :
  root (pctx ref_result) = Some ref_tree
  /\ ok (pctx rec_result) = false /\ ~ (exists r, derives_query (Some ref_schema) rec_tokens r).
Proof.
  assert (Hts : lexer_tokens ref_tokens) by (repeat constructor; simpl; vm_compute; discriminate).
  assert (Hp : Query_Parse (Some ref_schema) ref_tokens ref_eof = Ok ref_result)
    by (vm_compute; reflexivity).
  assert (Hts' : lexer_tokens rec_tokens) by (repeat constructor; simpl; vm_compute; discriminate).
  assert (Hp' : Query_Parse (Some ref_schema) rec_tokens rec_eof = Ok rec_result)
    by (vm_compute; reflexivity).
  assert (Hl' : (length rec_tokens < Z.to_nat YYSTACKDEPTH)%nat)
    by (change (Z.to_nat YYSTACKDEPTH) with 100%nat; unfold rec_tokens; simpl; lia).
  assert (Hok' : ok (pctx rec_result) = false) by (vm_compute; reflexivity).
  split; [exact (proj2 (Query_Parse_decides ref_schema ref_tokens ref_eof ref_result Hts
                          ref_tokens_short Hp) _ ref_derives)|].
  split; [exact Hok'|].
  intros Hq. apply (proj1 (Query_Parse_decides ref_schema rec_tokens rec_eof rec_result Hts' Hl' Hp'))
    in Hq. rewrite Hok' in Hq. discriminate.
Defined.

Lemma derives_query_unambiguous_witness :
  derives_query (Some ref_schema) ref_tokens (Some ref_tree) /\ Some ref_tree = Some ref_tree.
Proof.
  split; [exact ref_derives|].
  exact (derives_query_unambiguous ref_schema ref_tokens _ _ ref_derives ref_derives ref_tokens_short).
Defined.

End Completeness.
