(* ===== verification/Driver.v ===== *)
(** * The driver of [Parse] over a stack policy

    [parser.c] compiles its stack in one of several ways, chosen by the
    preprocessor: a fixed array of [YYSTACKDEPTH] entries (the build
    [Automaton] models), an array grown by [realloc] when
    [YYSTACKDEPTH <= 0] ([GrowStack]), with or without the peak counter
    of [YYTRACKMAXSTACKDEPTH].  Only [yy_shift] and the set-up and
    tear-down of the stack differ between them; [yy_reduce] and the
    loop of [Parse] are the same text.  [StackPolicy] is that interface:
    a state [St] holding a [yyParser], and the [yy_shift] of the build.
    [yy_reduce_c], [yy_parse_step_c] and [yy_parse_loop_c] are the
    driver written once against it; on the fixed policy they are
    [Automaton]'s [yy_reduce], [yy_parse_step] and [yy_parse_loop]
    ([yy_parse_loop_fixed]).

    [Sim] proves the simulation every build relies on: a policy whose
    [yy_shift] pushes like the fixed one below [YYSTACKDEPTH] entries
    runs every call of the loop that starts below that depth exactly as
    the fixed build does, and [Proj] the stronger form for a policy
    that shifts exactly as the fixed array does and only records more;
    [PolicyInv] carries an invariant of the policy's own state through
    the loop. *)

From Stdlib Require Import ZArith String List Bool Lia.
From S2P Require Import Prelude Tables QueryNode Grammar Automaton Invariants Safety LoopInvariant StackDepth.
Import ListNotations.
Import Tables QueryNode Grammar Automaton Invariants Safety LoopInvariant StackDepth.
Open Scope Z_scope.
Open Scope lemon_scope.

Module Driver.

(** What a build of the stack provides to the driver: the parser it
    holds, the parser replaced, and its [yy_shift]. *)
Class StackPolicy {IndexSpec : Type} (St : Type) := {
  sp_parser : St -> @yyParser IndexSpec;
  sp_set : St -> @yyParser IndexSpec -> St;
  sp_shift : St -> Z -> Z -> YYMINORTYPE -> outcome St
}.

Section Generic.
Context {IndexSpec : Type} `{FR : FieldResolver IndexSpec}.
Context {St : Type} `{SP : @StackPolicy IndexSpec St}.

(** [yy_reduce], the goto through the policy's [yy_shift] when nothing
    was popped. *)
Definition yy_reduce_c (s : St) (yyruleno : Z) : outcome St :=
  '(yygotominor, p1) <- yy_rule_action (sp_parser s) yyruleno ;;
  let yygoto := rule_lhs yyruleno in
  let yysize := rule_nrhs yyruleno in
  let st := skipn (Z.to_nat yysize) (yystack p1) in
  below <- (match st with
            | e :: _ => Ok e
            | [] => Stuck (AssertFailed "yymsp[-yysize] within the stack")
            end) ;;
  yyact <- yy_find_reduce_action (stateno below) yygoto ;;
  if yyact <? YYNSTATE then
    if yysize >? 0 then Ok (sp_set s (set_stack p1 (mkEntry yyact yygoto yygotominor :: st)))
    else sp_shift (sp_set s (set_stack p1 st)) yyact yygoto yygotominor
  else if yyact =? YY_ACCEPT_ACTION then p' <- yy_accept (set_stack p1 st) ;; Ok (sp_set s p')
  else Stuck (AssertFailed "yyact == YYNSTATE + YYNRULE + 1").

(** One iteration of the loop of [Parse]. *)
Definition yy_parse_step_c (s : St) (yymajor : Z) (yyminorunion : YYMINORTYPE)
  (yyendofinput : bool) : outcome (St * Z) :=
  let p := sp_parser s in
  top <- (match yystack p with
          | e :: _ => Ok e
          | [] => Stuck (AssertFailed "yyidx >= 0")
          end) ;;
  yyact <- yy_find_shift_action (stateno top) yymajor ;;
  if yyact <? YYNSTATE then
    if yyendofinput then Stuck (AssertFailed "!yyendofinput")
    else
      s1 <- sp_shift s yyact yymajor yyminorunion ;;
      let p1 := sp_parser s1 in
      Ok (sp_set s1 (set_errcnt p1 (yyerrcnt p1 - 1)), YYNOCODE)
  else if yyact <? YYNSTATE + YYNRULE then
    s1 <- yy_reduce_c s (yyact - YYNSTATE) ;; Ok (s1, yymajor)
  else if negb (yyact =? YY_ERROR_ACTION) then Stuck (AssertFailed "yyact == YY_ERROR_ACTION")
  else
    p1 <- (if yyerrcnt p <=? 0 then yy_syntax_error p yymajor yyminorunion else Ok p) ;;
    p2 <- yy_destructor (set_errcnt p1 3) yymajor yyminorunion ;;
    p3 <- (if yyendofinput then yy_parse_failed p2 else Ok p2) ;;
    Ok (sp_set s p3, YYNOCODE).

(** The loop, [while (yymajor != YYNOCODE && yyidx >= 0)]. *)
Fixpoint yy_parse_loop_c (fuel : nat) (s : St) (yymajor : Z) (yyminorunion : YYMINORTYPE)
  (yyendofinput : bool) : outcome St :=
  match fuel with
  | O => Stuck OutOfFuel
  | S f =>
      '(s1, m1) <- yy_parse_step_c s yymajor yyminorunion yyendofinput ;;
      if (m1 =? YYNOCODE) || (length (yystack (sp_parser s1)) =? 0)%nat then Ok s1
      else yy_parse_loop_c f s1 m1 yyminorunion yyendofinput
  end.

End Generic.

(** ** The fixed array of [Automaton] *)

#[export] Instance fixed_policy {IndexSpec : Type} `{FR : FieldResolver IndexSpec}
  : @StackPolicy IndexSpec (@yyParser IndexSpec) := {
  sp_parser := fun p => p;
  sp_set := fun _ p => p;
  sp_shift := yy_shift
}.

Section Fixed.
Context {IndexSpec : Type} `{FR : FieldResolver IndexSpec}.

Lemma yy_reduce_fixed (p : @yyParser IndexSpec) (r : Z) :
  yy_reduce_c (SP := fixed_policy) p r = yy_reduce p r.
Proof.
  unfold yy_reduce_c, yy_reduce. cbn [sp_parser sp_set sp_shift fixed_policy].
  destruct (yy_rule_action p r) as [[gm p1]|]; [|reflexivity]. cbn [obind].
  destruct (skipn _ (yystack p1)) as [|below st]; [reflexivity|]. cbn [obind].
  destruct (yy_find_reduce_action _ _) as [a|]; [|reflexivity]. cbn [obind].
  destruct (a <? YYNSTATE); [reflexivity|]. destruct (a =? YY_ACCEPT_ACTION); [|reflexivity].
  apply obind_ret_r.
Qed.

Lemma yy_parse_step_fixed (p : @yyParser IndexSpec) (la : Z) (m : YYMINORTYPE) (eoi : bool) :
  yy_parse_step_c (SP := fixed_policy) p la m eoi = yy_parse_step p la m eoi.
Proof.
  unfold yy_parse_step_c, yy_parse_step. cbn [sp_parser sp_set sp_shift fixed_policy].
  destruct (yystack p) as [|top rest]; [reflexivity|]. cbn [obind].
  destruct (yy_find_shift_action _ _) as [a|]; [|reflexivity]. cbn [obind].
  destruct (a <? YYNSTATE); [reflexivity|].
  destruct (a <? YYNSTATE + YYNRULE); [|reflexivity]. rewrite yy_reduce_fixed. reflexivity.
Qed.

(** On the fixed array the generic driver is [Automaton]'s loop. *)
Lemma yy_parse_loop_fixed (fuel : nat) (p : @yyParser IndexSpec) (la : Z) (m : YYMINORTYPE)
  (eoi : bool) :
  yy_parse_loop_c (SP := fixed_policy) fuel p la m eoi = yy_parse_loop fuel p la m eoi.
Proof.
  revert p la. induction fuel as [|fuel IH]; intros p la; [reflexivity|].
  cbn [yy_parse_loop_c yy_parse_loop]. rewrite yy_parse_step_fixed.
  destruct (yy_parse_step p la m eoi) as [[p1 m1]|]; [|reflexivity]. cbn [obind].
  destruct (_ || _); [reflexivity | apply IH].
Qed.

End Fixed.

(** ** Facts of the fixed build the simulation uses *)

Section Facts.
Context {IndexSpec : Type} `{FR : FieldResolver IndexSpec}.

(** Below [YYSTACKDEPTH] entries [yy_shift] pushes. *)
Lemma yy_shift_push (p : @yyParser IndexSpec) (a X : Z) (m : YYMINORTYPE) :
  (length (yystack p) < Z.to_nat YYSTACKDEPTH)%nat ->
  yy_shift p a X m = Ok (set_stack p (mkEntry a X m :: yystack p)).
Proof.
  intros H. unfold yy_shift.
  replace (Z.of_nat (length (yystack p)) >=? YYSTACKDEPTH) with false
    by (symmetry; rewrite Z.geb_leb; apply Z.leb_gt; change (Z.to_nat YYSTACKDEPTH) with 100%nat in H;
        unfold YYSTACKDEPTH; lia).
  reflexivity.
Qed.

Lemma yy_pop_all_empty (p p' : @yyParser IndexSpec) :
  yy_pop_all p = Ok p' -> yystack p' = [].
Proof. unfold yy_pop_all. intros H. apply yy_pop_n_frame in H as [_ ->]. apply skipn_all. Qed.

(** The error branch leaves the stack, or empties it at end of input. *)
Lemma error_branch_length (p p1 p2 p3 : @yyParser IndexSpec) (la : Z) (m : YYMINORTYPE) (eoi : bool) :
  (if yyerrcnt p <=? 0 then yy_syntax_error p la m else Ok p) = Ok p1 ->
  yy_destructor (set_errcnt p1 3) la m = Ok p2 ->
  (if eoi then yy_parse_failed p2 else Ok p2) = Ok p3 ->
  (length (yystack p3) <= length (yystack p))%nat.
Proof.
  intros H1 H2 H3. apply yy_destructor_frame in H2 as (_ & Hs2 & _).
  assert (Hs1 : yystack p1 = yystack p).
  { destruct (yyerrcnt p <=? 0); [|injection H1 as <-; reflexivity].
    unfold yy_syntax_error in H1. apply obind_ok_inv in H1 as (t & _ & H1). injection H1 as <-.
    reflexivity. }
  destruct eoi; [apply yy_pop_all_empty in H3; rewrite H3; simpl; lia|].
  injection H3 as <-. rewrite Hs2. simpl. rewrite Hs1. lia.
Qed.

(** An iteration of the loop that keeps the look-ahead (a reduce)
    never lengthens the stack: the only rule with an empty right-hand
    side is [query ::=], whose goto is the accept. *)
Lemma yy_parse_step_keeps_length (p p1 : @yyParser IndexSpec) (la : Z) (t : QueryToken) (eoi : bool) :
  inv p -> 0 <= la < 11 -> yy_parse_step p la (yy0 t) eoi = Ok (p1, la) ->
  (length (yystack p1) <= length (yystack p))%nat.
Proof.
  intros (Hwf & _ & _) Hla H.
  destruct (yystack p) as [|e rest] eqn:Hst; [unfold yy_parse_step in H; rewrite Hst in H; discriminate H|].
  destruct (yy_parse_step_cases p p1 e rest la la t eoi Hst Hwf Hla H)
    as (a & Hf & [(_ & _ & E & _) | [(Ha & _ & Hr) | (_ & E & _)]]);
    [unfold YYNOCODE in E; lia | | unfold YYNOCODE in E; lia].
  destruct (yy_reduce_result p p1 la a e rest Hst Hwf Hla Hf Ha Hr)
    as (gm & p2 & _ & [(_ & Hn & _ & _ & a' & Hs') | (_ & Hs' & _)]); rewrite Hs'; [|simpl; lia].
  rewrite Hst. cbn [length]. rewrite length_skipn. cbn [length]. lia.
Qed.

(** [Parse]'s re-initialisation of an empty stack keeps the invariant. *)
Lemma inv_init (p : @yyParser IndexSpec) :
  inv p -> yystack p = [] -> inv (set_errcnt (set_stack p yy_init_stack) (-1)).
Proof.
  intros (_ & Hacc & Hmsg) Hst. unfold inv, acct in *. rewrite Hst in Hacc. simpl in *.
  split; [repeat split | split; [exact Hacc | exact Hmsg]].
Qed.

(** [yy_shift] pushes one entry or empties the stack. *)
Lemma yy_shift_length (p p' : @yyParser IndexSpec) (a X : Z) (m : YYMINORTYPE) :
  yy_shift p a X m = Ok p' -> (length (yystack p') <= S (length (yystack p)))%nat.
Proof.
  unfold yy_shift. intros H. destruct (_ >=? _).
  - unfold yyStackOverflow in H. rewrite (yy_pop_all_empty _ _ H). simpl. lia.
  - injection H as <-. simpl. lia.
Qed.

End Facts.

(** ** Invariants of a policy over the loop *)

Section PolicyInv.
Context {IndexSpec : Type} `{FR : FieldResolver IndexSpec}.
Context {St : Type} `{SP : @StackPolicy IndexSpec St}.

Variable I : St -> Prop.
Hypothesis I_set : forall s p, I s ->
  (length (yystack p) <= length (yystack (sp_parser s)))%nat -> I (sp_set s p).
Hypothesis shift_I : forall s a X m s', I s -> sp_shift s a X m = Ok s' -> I s'.

Lemma yy_reduce_c_inv (s s' : St) (r : Z) : I s -> yy_reduce_c s r = Ok s' -> I s'.
Proof.
  intros HI H. unfold yy_reduce_c in H.
  destruct (yy_rule_action (sp_parser s) r) as [[gm p1]|] eqn:Hact; [|discriminate H].
  apply yy_rule_action_stack in Hact. cbn [obind] in H.
  destruct (skipn (Z.to_nat (rule_nrhs r)) (yystack p1)) as [|below st] eqn:Hsk; [discriminate H|].
  cbn [obind] in H.
  destruct (yy_find_reduce_action (stateno below) (rule_lhs r)) as [a|]; [|discriminate H].
  cbn [obind] in H. destruct (a <? YYNSTATE).
  - destruct (Z.gtb_spec (rule_nrhs r) 0) as [Gt|Le].
    + injection H as <-. apply I_set; [exact HI|].
      pose proof (reduce_pop_shorter p1 r below st Gt Hsk) as Hl. rewrite Hact in Hl. simpl in *. lia.
    + assert (Hl : (length (yystack (set_stack p1 (below :: st))) <= length (yystack (sp_parser s)))%nat)
        by (cbn [yystack set_stack]; rewrite <- Hsk, length_skipn, Hact; lia).
      exact (shift_I _ _ _ _ _ (I_set s _ HI Hl) H).
  - destruct (a =? YY_ACCEPT_ACTION); [|discriminate H].
    apply obind_ok_inv in H as (p' & Hp' & H). injection H as <-. apply I_set; [exact HI|].
    unfold yy_accept in Hp'. rewrite (yy_pop_all_empty _ _ Hp'). simpl. lia.
Qed.

Lemma yy_parse_step_c_inv (s s1 : St) (la m1 : Z) (m : YYMINORTYPE) (eoi : bool) :
  I s -> yy_parse_step_c s la m eoi = Ok (s1, m1) -> I s1.
Proof.
  intros HI H. unfold yy_parse_step_c in H.
  destruct (yystack (sp_parser s)) as [|top rest]; [discriminate H|]. cbn [obind] in H.
  destruct (yy_find_shift_action (stateno top) la) as [a|]; [|discriminate H]. cbn [obind] in H.
  destruct (a <? YYNSTATE).
  - destruct eoi; [discriminate H|]. apply obind_ok_inv in H as (s2 & Hs2 & H).
    injection H as <- _. pose proof (shift_I _ _ _ _ _ HI Hs2) as HI2.
    apply I_set; [exact HI2 | simpl; lia].
  - destruct (a <? YYNSTATE + YYNRULE).
    + apply obind_ok_inv in H as (s2 & Hs2 & H). injection H as <- _.
      exact (yy_reduce_c_inv _ _ _ HI Hs2).
    + destruct (negb (a =? YY_ERROR_ACTION)); [discriminate H|].
      apply obind_ok_inv in H as (q1 & H1 & H). apply obind_ok_inv in H as (q2 & H2 & H).
      apply obind_ok_inv in H as (q3 & H3 & H). injection H as <- _.
      apply I_set; [exact HI | exact (error_branch_length _ _ _ _ _ _ _ H1 H2 H3)].
Qed.

(** The policy's invariant holds after every call of the loop. *)
Lemma yy_parse_loop_c_inv (fuel : nat) :
  forall (s s' : St) (la : Z) (m : YYMINORTYPE) (eoi : bool),
  I s -> yy_parse_loop_c fuel s la m eoi = Ok s' -> I s'.
Proof.
  induction fuel as [|fuel IH]; intros s s' la m eoi HI H; [discriminate H|].
  cbn [yy_parse_loop_c] in H. apply obind_ok_inv in H as ([s1 m1] & Hs & H).
  pose proof (yy_parse_step_c_inv _ _ _ _ _ _ HI Hs) as HI1.
  destruct (_ || _); [injection H as <-; exact HI1 | exact (IH _ _ _ _ _ HI1 H)].
Qed.

End PolicyInv.

(** ** Simulation of the fixed build *)

Section Sim.
Context {IndexSpec : Type} `{FR : FieldResolver IndexSpec}.
Context {St : Type} `{SP : @StackPolicy IndexSpec St}.

(** The policy's own invariant (for a growable array: the entries fit
    the allocation). *)
Variable I : St -> Prop.

Hypothesis sp_parser_set : forall s p, sp_parser (sp_set s p) = p.
Hypothesis I_set : forall s p, I s ->
  (length (yystack p) <= length (yystack (sp_parser s)))%nat -> I (sp_set s p).
(** Below [YYSTACKDEPTH] entries the policy's [yy_shift] pushes. *)
Hypothesis shift_agrees : forall s a X m, I s ->
  (length (yystack (sp_parser s)) < Z.to_nat YYSTACKDEPTH)%nat ->
  exists s', sp_shift s a X m = Ok s'
    /\ sp_parser s' = set_stack (sp_parser s) (mkEntry a X m :: yystack (sp_parser s)) /\ I s'.

Lemma yy_reduce_c_sim (s : St) (r : Z) (p' : @yyParser IndexSpec) :
  I s -> (length (yystack (sp_parser s)) < Z.to_nat YYSTACKDEPTH)%nat ->
  yy_reduce (sp_parser s) r = Ok p' ->
  exists s', yy_reduce_c s r = Ok s' /\ sp_parser s' = p' /\ I s'.
Proof.
  intros HI Hlen H. unfold yy_reduce in H. unfold yy_reduce_c.
  destruct (yy_rule_action (sp_parser s) r) as [[gm p1]|] eqn:Hact; [|discriminate H].
  apply yy_rule_action_stack in Hact. cbn [obind] in *.
  destruct (skipn (Z.to_nat (rule_nrhs r)) (yystack p1)) as [|below st] eqn:Hsk; [discriminate H|].
  cbn [obind] in *.
  destruct (yy_find_reduce_action (stateno below) (rule_lhs r)) as [a|]; [|discriminate H].
  cbn [obind] in *.
  destruct (a <? YYNSTATE).
  - destruct (Z.gtb_spec (rule_nrhs r) 0) as [Gt|Le].
    + injection H as <-. eexists. split; [reflexivity|]. split; [apply sp_parser_set|].
      apply I_set; [exact HI|]. pose proof (reduce_pop_shorter p1 r below st Gt Hsk) as Hl.
      rewrite Hact in Hl. simpl in *. lia.
    + replace (Z.to_nat (rule_nrhs r)) with 0%nat in Hsk by lia. cbn [skipn] in Hsk.
      rewrite Hact in Hsk.
      assert (HI' : I (sp_set s (set_stack p1 (below :: st))))
        by (apply I_set; [exact HI | cbn [yystack set_stack]; rewrite <- Hsk; lia]).
      destruct (shift_agrees _ a (rule_lhs r) gm HI'
                  ltac:(rewrite sp_parser_set; cbn [yystack set_stack]; rewrite <- Hsk; exact Hlen))
        as (s' & Hs' & Hp' & HIs').
      rewrite sp_parser_set in Hp'.
      rewrite yy_shift_push in H by (cbn [yystack set_stack]; rewrite <- Hsk; exact Hlen).
      injection H as <-. exists s'. auto.
  - destruct (a =? YY_ACCEPT_ACTION); [|discriminate H].
    rewrite H. cbn [obind]. eexists. split; [reflexivity|]. split; [apply sp_parser_set|].
    apply I_set; [exact HI|]. unfold yy_accept in H. rewrite (yy_pop_all_empty _ _ H). simpl. lia.
Qed.

Lemma yy_parse_step_c_sim (s : St) (la : Z) (m : YYMINORTYPE) (eoi : bool)
  (p1 : @yyParser IndexSpec) (m1 : Z) :
  I s -> (length (yystack (sp_parser s)) < Z.to_nat YYSTACKDEPTH)%nat ->
  yy_parse_step (sp_parser s) la m eoi = Ok (p1, m1) ->
  exists s1, yy_parse_step_c s la m eoi = Ok (s1, m1) /\ sp_parser s1 = p1 /\ I s1.
Proof.
  intros HI Hlen H. unfold yy_parse_step in H. unfold yy_parse_step_c.
  destruct (yystack (sp_parser s)) as [|top rest] eqn:Hst; [discriminate H|]. cbn [obind] in *.
  destruct (yy_find_shift_action (stateno top) la) as [a|]; [|discriminate H]. cbn [obind] in *.
  destruct (a <? YYNSTATE).
  - destruct eoi; [discriminate H|].
    rewrite yy_shift_push in H by (rewrite Hst; exact Hlen). cbn [obind] in H.
    destruct (shift_agrees s a la m HI ltac:(rewrite Hst; exact Hlen)) as (s' & Hs' & Hp' & HI').
    rewrite Hs'. cbn [obind]. injection H as <- <-. eexists. split; [reflexivity|].
    rewrite Hp', Hst. split; [rewrite sp_parser_set; reflexivity|].
    apply I_set; [exact HI'|]. rewrite Hp'. cbn [yystack set_errcnt set_stack]. rewrite ?Hst. lia.
  - destruct (a <? YYNSTATE + YYNRULE).
    + apply obind_ok_inv in H as (p2 & Hr & H). injection H as <- <-.
      destruct (yy_reduce_c_sim s (a - YYNSTATE) p2 HI ltac:(rewrite Hst; exact Hlen) Hr)
        as (s' & Hs' & Hp' & HI'). rewrite Hs'. cbn [obind]. eauto.
    + destruct (negb (a =? YY_ERROR_ACTION)); [discriminate H|].
      apply obind_ok_inv in H as (q1 & H1 & H). apply obind_ok_inv in H as (q2 & H2 & H).
      apply obind_ok_inv in H as (q3 & H3 & H). injection H as <- <-.
      rewrite H1. cbn [obind]. rewrite H2. cbn [obind]. rewrite H3. cbn [obind].
      eexists. split; [reflexivity|]. split; [apply sp_parser_set|].
      apply I_set; [exact HI|]. exact (error_branch_length _ _ _ _ _ _ _ H1 H2 H3).
Qed.

(** Every call of the loop that starts in the invariant, below
    [YYSTACKDEPTH] entries, runs as in the fixed build. *)
Lemma yy_parse_loop_c_sim (fuel : nat) :
  forall (s : St) (la : Z) (t : QueryToken) (p' : @yyParser IndexSpec),
  I s -> inv (sp_parser s) -> yystack (sp_parser s) <> [] -> 0 <= la < 11 ->
  (la = TK_EOF -> root (pctx (sp_parser s)) = None) ->
  (length (yystack (sp_parser s)) < Z.to_nat YYSTACKDEPTH)%nat ->
  yy_parse_loop fuel (sp_parser s) la (yy0 t) (la =? TK_EOF) = Ok p' ->
  exists s', yy_parse_loop_c fuel s la (yy0 t) (la =? TK_EOF) = Ok s' /\ sp_parser s' = p' /\ I s'.
Proof.
  induction fuel as [|fuel IH]; intros s la t p' HI Hinv Hne Hla Hroot Hlen H; [discriminate H|].
  cbn [yy_parse_loop] in H. apply obind_ok_inv in H as ([p1 m1] & Hs & H).
  destruct (yy_parse_step_c_sim s la _ _ p1 m1 HI Hlen Hs) as (s1 & Hs1 & Hp1 & HI1).
  cbn [yy_parse_loop_c]. rewrite Hs1. cbn [obind]. rewrite Hp1.
  destruct ((m1 =? YYNOCODE) || (length (yystack p1) =? 0)%nat) eqn:Estop.
  - injection H as <-. eauto.
  - apply orb_false_iff in Estop as [E1 E2]. apply Z.eqb_neq in E1. apply Nat.eqb_neq in E2.
    destruct (yy_parse_step_ok _ la t Hinv Hne Hla Hroot) as (p2 & m2 & Hs2 & Hinv1 & _ & _ & Hcase).
    rewrite Hs in Hs2. injection Hs2 as <- <-.
    destruct (yy_parse_step_shape _ p1 la m1 t Hinv Hla Hs) as [E | (-> & _)]; [contradiction|].
    assert (Hne1 : yystack p1 <> []) by (intros E; rewrite E in E2; contradiction).
    destruct Hcase as [(E & _) | [E | (_ & _ & Hr1 & _)]];
      [unfold YYNOCODE in E; lia | contradiction|].
    pose proof (yy_parse_step_keeps_length _ p1 la t _ Hinv Hla Hs) as Hl.
    rewrite <- Hp1 in Hinv1, Hne1, Hr1, Hl, H.
    exact (IH s1 la t p' HI1 Hinv1 Hne1 Hla ltac:(rewrite Hr1; exact Hroot) ltac:(lia) H).
Qed.

End Sim.

(** ** Policies whose [yy_shift] is the fixed one *)

(** A policy that only observes [yy_shift] (it shifts as the fixed
    array does, and may record more) runs every loop as the fixed
    build, at any depth. *)
Section Proj.
Context {IndexSpec : Type} `{FR : FieldResolver IndexSpec}.
Context {St : Type} `{SP : @StackPolicy IndexSpec St}.

Hypothesis sp_parser_set : forall s p, sp_parser (sp_set s p) = p.
Hypothesis shift_proj : forall s a X m p', yy_shift (sp_parser s) a X m = Ok p' ->
  exists s', sp_shift s a X m = Ok s' /\ sp_parser s' = p'.

Lemma yy_reduce_c_proj (s : St) (r : Z) (p' : @yyParser IndexSpec) :
  yy_reduce (sp_parser s) r = Ok p' -> exists s', yy_reduce_c s r = Ok s' /\ sp_parser s' = p'.
Proof.
  intros H. unfold yy_reduce in H. unfold yy_reduce_c.
  destruct (yy_rule_action (sp_parser s) r) as [[gm p1]|]; [|discriminate H]. cbn [obind] in *.
  destruct (skipn (Z.to_nat (rule_nrhs r)) (yystack p1)) as [|below st]; [discriminate H|].
  cbn [obind] in *.
  destruct (yy_find_reduce_action (stateno below) (rule_lhs r)) as [a|]; [|discriminate H].
  cbn [obind] in *. destruct (a <? YYNSTATE).
  - destruct (rule_nrhs r >? 0).
    + injection H as <-. eexists. split; [reflexivity | apply sp_parser_set].
    + rewrite <- (sp_parser_set s (set_stack p1 (below :: st))) in H. exact (shift_proj _ _ _ _ _ H).
  - destruct (a =? YY_ACCEPT_ACTION); [|discriminate H].
    rewrite H. cbn [obind]. eexists. split; [reflexivity | apply sp_parser_set].
Qed.

Lemma yy_parse_loop_c_proj (fuel : nat) :
  forall (s : St) (la : Z) (m : YYMINORTYPE) (eoi : bool) (p' : @yyParser IndexSpec),
  yy_parse_loop fuel (sp_parser s) la m eoi = Ok p' ->
  exists s', yy_parse_loop_c fuel s la m eoi = Ok s' /\ sp_parser s' = p'.
Proof.
  induction fuel as [|fuel IH]; intros s la m eoi p' H; [discriminate H|].
  cbn [yy_parse_loop] in H. apply obind_ok_inv in H as ([p1 m1] & Hs & H).
  assert (Hs1 : exists s1, yy_parse_step_c s la m eoi = Ok (s1, m1) /\ sp_parser s1 = p1).
  { unfold yy_parse_step in Hs. unfold yy_parse_step_c.
    destruct (yystack (sp_parser s)) as [|top rest]; [discriminate Hs|]. cbn [obind] in *.
    destruct (yy_find_shift_action (stateno top) la) as [a|]; [|discriminate Hs]. cbn [obind] in *.
    destruct (a <? YYNSTATE).
    - destruct eoi; [discriminate Hs|]. apply obind_ok_inv in Hs as (q1 & Hq1 & Hs).
      injection Hs as <- <-. destruct (shift_proj _ _ _ _ _ Hq1) as (s2 & Hs2 & Hp2).
      rewrite Hs2. cbn [obind]. eexists. split; [reflexivity|]. rewrite sp_parser_set, Hp2. reflexivity.
    - destruct (a <? YYNSTATE + YYNRULE).
      + apply obind_ok_inv in Hs as (q1 & Hq1 & Hs). injection Hs as <- <-.
        destruct (yy_reduce_c_proj _ _ _ Hq1) as (s2 & Hs2 & Hp2). rewrite Hs2. cbn [obind]. eauto.
      + destruct (negb (a =? YY_ERROR_ACTION)); [discriminate Hs|].
        apply obind_ok_inv in Hs as (q1 & H1 & Hs). apply obind_ok_inv in Hs as (q2 & H2 & Hs).
        apply obind_ok_inv in Hs as (q3 & H3 & Hs). injection Hs as <- <-.
        rewrite H1. cbn [obind]. rewrite H2. cbn [obind]. rewrite H3. cbn [obind].
        eexists. split; [reflexivity | apply sp_parser_set]. }
  destruct Hs1 as (s1 & Hs1 & Hp1). cbn [yy_parse_loop_c]. rewrite Hs1. cbn [obind]. rewrite Hp1.
  destruct (_ || _); [injection H as <-; eauto|]. rewrite <- Hp1 in H. exact (IH _ _ _ _ _ H).
Qed.

End Proj.

End Driver.
