(* ===== verification/GrowStack.v ===== *)
(** * The growable stack ([YYSTACKDEPTH <= 0])

    Built with [YYSTACKDEPTH] at most 0, [parser.c] keeps its stack in
    a heap array of [yystksz] entries, grown by [yyGrowStack] (lines
    330 to 351) to [2 * yystksz + 100] entries whenever [yy_shift]
    finds it full (lines 620 to 628).  [ParseAlloc] makes the first
    allocation (lines 374 to 376), [Parse] refuses to start on a parser
    that has no array (lines 1019 to 1026), and [ParseFree] frees it.

    The state is [yyParserG]: the [yyParser] of [Automaton], the
    allocated size [yystksz], and the number of [realloc] calls made.
    The allocator is the section variable [realloc_ok]: its answer to
    the [n]-th call for a given size (any behaviour of [realloc] is one
    such function).  [yy_shift_g] is the [yy_shift] of this build, and
    the loop of [Parse] is [Driver]'s, on [grow_policy].

    What is proved: whatever [realloc] answers, the stack never holds
    more entries than the array has room for ([Parse_g_in_bounds]);
    with an allocator that never fails, a whole parse of a lexer token
    stream of fewer than [YYSTACKDEPTH - 1] tokens returns exactly the
    parser the fixed build returns ([Query_Parse_g_refines]); the sizes
    are [100 * (2^k - 1)] and the growth past [100 * (2^24 - 1)]
    entries overflows [int] ([yyGrowStack_overflow]); and when the
    allocation of [ParseAlloc] fails, every query is reported parsed,
    with no error and no tree ([alloc_failure_accepts_everything]).

    Not modelled: the [yyidx] of [-2], [-3], ... that the refused calls
    of [Parse] leave (the model keeps the empty stack; only [yyidx < 0]
    is ever tested), the byte count [newSize * sizeof(yyStackEntry)],
    which cannot overflow a 64-bit [size_t] for an [int] [newSize], and
    the [malloc] of [ParseAlloc] itself. *)

From Stdlib Require Import ZArith String List Bool Lia.
From S2P Require Import Prelude Tables QueryNode Grammar Automaton Invariants Safety LoopInvariant StackDepth Driver.
Import ListNotations.
Import Tables QueryNode Grammar Automaton Invariants Safety LoopInvariant StackDepth Driver.
Open Scope Z_scope.
Open Scope lemon_scope.

Module GrowStack.

(** [int] is 32 bits wide: [INT_MAX = 2^31 - 1], [INT_MIN = -2^31]. *)
Definition INT_MAX : Z := 2147483647.
Definition INT_MIN : Z := -2147483648.
Definition int_ok (z : Z) : bool := (INT_MIN <=? z) && (z <=? INT_MAX).

Lemma int_ok_true (z : Z) : INT_MIN <= z <= INT_MAX -> int_ok z = true.
Proof. intros H. unfold int_ok. apply andb_true_iff. split; apply Z.leb_le; lia. Qed.

Lemma int_ok_false (z : Z) : INT_MAX < z -> int_ok z = false.
Proof. intros H. unfold int_ok. apply andb_false_iff. right. apply Z.leb_gt. exact H. Qed.

Section Grow.
Context {IndexSpec : Type} `{FR : FieldResolver IndexSpec}.

(** The parser with its heap stack: [yystksz] entries allocated. *)
Record yyParserG := mkParserG {
  gparser : @yyParser IndexSpec;
  yystksz : Z;
  yyreallocs : nat
}.

Definition set_gparser (q : yyParserG) (p : @yyParser IndexSpec) : yyParserG :=
  mkParserG p (yystksz q) (yyreallocs q).

(** Whether the [n]-th call of [realloc], for [newSize] entries,
    succeeds. *)
Variable realloc_ok : nat -> Z -> bool.

(** [yyGrowStack]: [newSize = p->yystksz*2 + 100], in [int]; on success
    of [realloc] the array has [newSize] entries, on failure it is
    unchanged. *)
Definition yyGrowStack (q : yyParserG) : outcome yyParserG :=
  let twice := yystksz q * 2 in
  if negb (int_ok twice) then Stuck (SignedOverflow "p->yystksz*2")
  else
    let newSize := twice + 100 in
    if negb (int_ok newSize) then Stuck (SignedOverflow "p->yystksz*2 + 100")
    else if realloc_ok (yyreallocs q) newSize
    then Ok (mkParserG (gparser q) newSize (S (yyreallocs q)))
    else Ok (mkParserG (gparser q) (yystksz q) (S (yyreallocs q))).

(** [yy_shift] of this build: [yyidx++]; if the array is full, grow
    it, and if it is still full, [yyStackOverflow]; else write the
    entry at [yyidx]. *)
Definition yy_shift_g (q : yyParserG) (yyNewState yyMajor : Z) (m : YYMINORTYPE)
  : outcome yyParserG :=
  let yyidx := Z.of_nat (length (yystack (gparser q))) in
  let push q1 := set_gparser q1 (set_stack (gparser q1)
                                   (mkEntry yyNewState yyMajor m :: yystack (gparser q1))) in
  if yyidx >=? yystksz q then
    q1 <- yyGrowStack q ;;
    if yyidx >=? yystksz q1 then p' <- yyStackOverflow (gparser q1) ;; Ok (set_gparser q1 p')
    else Ok (push q1)
  else Ok (push q).

Definition grow_policy : @StackPolicy IndexSpec yyParserG := {|
  sp_parser := gparser;
  sp_set := set_gparser;
  sp_shift := yy_shift_g
|}.

(** [ParseAlloc]: [yyidx = -1], [yystack = NULL], [yystksz = 0], then
    [yyGrowStack]. *)
Definition ParseAlloc_g (c : parseCtx) : outcome yyParserG :=
  yyGrowStack (mkParserG (ParseAlloc c) 0 0).

(** [Parse]: on an empty stack, a parser with no array overflows at
    once and returns; otherwise the stack is (re)initialised and the
    loop runs. *)
Definition Parse_g (q : yyParserG) (yymajor : Z) (yyminor : QueryToken) : outcome yyParserG :=
  let go q0 := yy_parse_loop_c (SP := grow_policy) (S (yy_measure (yystack (gparser q0)))) q0
                 yymajor (yy0 yyminor) (yymajor =? TK_EOF) in
  match yystack (gparser q) with
  | [] =>
      if yystksz q <=? 0 then p' <- yyStackOverflow (gparser q) ;; Ok (set_gparser q p')
      else go (set_gparser q (set_errcnt (set_stack (gparser q) yy_init_stack) (-1)))
  | _ => go q
  end.

(** [ParseFree]: pop every entry (then free the array and the parser). *)
Definition ParseFree_g (q : yyParserG) : outcome yyParserG :=
  p' <- yy_pop_all (gparser q) ;; Ok (set_gparser q p').

Fixpoint Parse_all_g (q : yyParserG) (ts : list (Z * QueryToken)) : outcome yyParserG :=
  match ts with
  | [] => Ok q
  | (k, t) :: ts' => q' <- Parse_g q k t ;; Parse_all_g q' ts'
  end.

(** [Query_Parse] on this build. *)
Definition Query_Parse_g (sp : option IndexSpec) (ts : list (Z * QueryToken)) (eof : QueryToken)
  : outcome yyParserG :=
  q0 <- ParseAlloc_g (mkCtx None true None sp) ;;
  q <- Parse_all_g q0 (ts ++ [(TK_EOF, eof)]) ;;
  ParseFree_g q.

(** ** The array bound *)

(** The entries fit the array. *)
Definition in_bounds (q : yyParserG) : Prop :=
  (Z.of_nat (length (yystack (gparser q))) <= yystksz q) /\ 0 <= yystksz q.

Lemma yyGrowStack_frame (q q1 : yyParserG) :
  0 <= yystksz q -> yyGrowStack q = Ok q1 ->
  gparser q1 = gparser q /\ yystksz q <= yystksz q1.
Proof.
  unfold yyGrowStack. intros Hq H.
  destruct (negb (int_ok (yystksz q * 2))); [discriminate H|].
  destruct (negb (int_ok (yystksz q * 2 + 100))); [discriminate H|].
  destruct (realloc_ok _ _); injection H as <-; simpl; (split; [reflexivity | lia]).
Qed.

Lemma in_bounds_set (q : yyParserG) (p : @yyParser IndexSpec) :
  in_bounds q -> (length (yystack p) <= length (yystack (gparser q)))%nat ->
  in_bounds (set_gparser q p).
Proof. unfold in_bounds. intros [H1 H2] H3. cbn [gparser yystksz set_gparser]. lia. Qed.

(** [yy_shift_g] writes only inside the array. *)
Lemma yy_shift_g_in_bounds (q q' : yyParserG) (a X : Z) (m : YYMINORTYPE) :
  in_bounds q -> yy_shift_g q a X m = Ok q' -> in_bounds q'.
Proof.
  unfold yy_shift_g, in_bounds. intros [Hl Hs] H.
  destruct (Z.geb_spec (Z.of_nat (length (yystack (gparser q)))) (yystksz q)) as [Ge|Lt].
  - apply obind_ok_inv in H as (q1 & Hg & H).
    destruct (yyGrowStack_frame q q1 Hs Hg) as (Hp1 & Hs1). rewrite Hp1 in *.
    destruct (Z.geb_spec (Z.of_nat (length (yystack (gparser q)))) (yystksz q1)) as [Ge1|Lt1].
    + apply obind_ok_inv in H as (p' & Hp' & H). injection H as <-. simpl.
      unfold yyStackOverflow in Hp'. rewrite (yy_pop_all_empty _ _ Hp'). simpl. lia.
    + injection H as <-. simpl. lia.
  - injection H as <-. simpl. lia.
Qed.

(** [Parse_g] keeps the entries inside the array, whatever [realloc]
    answers. *)
Lemma Parse_g_bounds (q q' : yyParserG) (k : Z) (t : QueryToken) :
  in_bounds q -> Parse_g q k t = Ok q' -> in_bounds q'.
Proof.
  intros Hb H. unfold Parse_g in H.
  assert (Hloop : forall q0, in_bounds q0 ->
            yy_parse_loop_c (SP := grow_policy) (S (yy_measure (yystack (gparser q0)))) q0 k (yy0 t)
              (k =? TK_EOF) = Ok q' -> in_bounds q').
  { intros q0 Hb0 H0.
    exact (yy_parse_loop_c_inv (SP := grow_policy) in_bounds in_bounds_set
             (fun s a X m s' Hs Hsh => yy_shift_g_in_bounds s s' a X m Hs Hsh) _ _ _ _ _ _ Hb0 H0). }
  destruct (yystack (gparser q)) as [|e rest] eqn:Hst; [|rewrite <- Hst in H; exact (Hloop q Hb H)].
  destruct (Z.leb_spec (yystksz q) 0) as [Le|Gt].
  - apply obind_ok_inv in H as (p' & Hp' & H). injection H as <-.
    apply in_bounds_set; [exact Hb|]. unfold yyStackOverflow in Hp'.
    rewrite (yy_pop_all_empty _ _ Hp'). simpl. lia.
  - refine (Hloop (set_gparser q (set_errcnt (set_stack (gparser q) yy_init_stack) (-1))) _ H).
    unfold in_bounds in *. simpl. lia.
Qed.

Lemma Parse_all_g_app (ts1 ts2 : list (Z * QueryToken)) (q : yyParserG) :
  Parse_all_g q (ts1 ++ ts2) = (q' <- Parse_all_g q ts1 ;; Parse_all_g q' ts2).
Proof.
  revert q. induction ts1 as [|[k t] ts IH]; intros q; simpl; [reflexivity|].
  destruct (Parse_g q k t); simpl; [apply IH | reflexivity].
Qed.

Lemma set_gparser_same (q : yyParserG) : set_gparser q (gparser q) = q.
Proof. destruct q. reflexivity. Qed.

(** A parser whose array could not be allocated: [Parse] overflows at
    once and returns it unchanged. *)
Lemma Parse_g_no_array (q : yyParserG) (k : Z) (t : QueryToken) :
  yystack (gparser q) = [] -> yystksz q <= 0 -> Parse_g q k t = Ok q.
Proof.
  intros Hst Hs. unfold Parse_g. rewrite Hst.
  replace (yystksz q <=? 0) with true by (symmetry; apply Z.leb_le; exact Hs).
  unfold yyStackOverflow, yy_pop_all. rewrite Hst. cbn [length yy_pop_n obind].
  apply f_equal, set_gparser_same.
Qed.

Lemma Parse_all_g_no_array (ts : list (Z * QueryToken)) (q : yyParserG) :
  yystack (gparser q) = [] -> yystksz q <= 0 -> Parse_all_g q ts = Ok q.
Proof.
  intros Hst Hs. induction ts as [|[k t] ts IH]; [reflexivity|].
  simpl. rewrite (Parse_g_no_array q k t Hst Hs). exact IH.
Qed.

Lemma Parse_all_g_bounds (ts : list (Z * QueryToken)) (q q' : yyParserG) :
  in_bounds q -> Parse_all_g q ts = Ok q' -> in_bounds q'.
Proof.
  revert q. induction ts as [|[k t] ts IH]; intros q Hb H; simpl in H; [injection H as <-; exact Hb|].
  apply obind_ok_inv in H as (q1 & H1 & H). exact (IH q1 (Parse_g_bounds q q1 k t Hb H1) H).
Qed.

(** ** With an allocator that never fails, the fixed build's parse *)

Section Reliable.

Hypothesis realloc_always : forall n z, realloc_ok n z = true.

(** The array is allocated. *)
Definition allocated (q : yyParserG) : Prop := in_bounds q /\ 0 < yystksz q.

(** Below [YYSTACKDEPTH] entries [yy_shift_g] pushes, growing the array
    when it is full. *)
Lemma yy_shift_g_push (q : yyParserG) (a X : Z) (m : YYMINORTYPE) :
  allocated q -> (length (yystack (gparser q)) < Z.to_nat YYSTACKDEPTH)%nat ->
  exists q', yy_shift_g q a X m = Ok q'
    /\ gparser q' = set_stack (gparser q) (mkEntry a X m :: yystack (gparser q)) /\ allocated q'.
Proof.
  intros [[Hl Hs] Hpos] Hlen. change (Z.to_nat YYSTACKDEPTH) with 100%nat in Hlen.
  unfold yy_shift_g, allocated, in_bounds.
  destruct (Z.geb_spec (Z.of_nat (length (yystack (gparser q)))) (yystksz q)) as [Ge|Lt].
  - unfold yyGrowStack. rewrite !int_ok_true by (unfold INT_MIN, INT_MAX; lia). rewrite realloc_always. cbn [negb obind yystksz].
    destruct (Z.geb_spec (Z.of_nat (length (yystack (gparser q)))) (yystksz q * 2 + 100)); [lia|].
    eexists. split; [reflexivity|]. simpl. split; [reflexivity | lia].
  - eexists. split; [reflexivity|]. simpl. split; [reflexivity | lia].
Qed.

Lemma allocated_set (q : yyParserG) (p : @yyParser IndexSpec) :
  allocated q -> (length (yystack p) <= length (yystack (gparser q)))%nat ->
  allocated (set_gparser q p).
Proof. intros [Hb Hp] Hl. split; [exact (in_bounds_set q p Hb Hl) | exact Hp]. Qed.

(** One call of [Parse] that starts below [YYSTACKDEPTH] entries runs
    as in the fixed build. *)
Lemma Parse_g_sim (q : yyParserG) (k : Z) (t : QueryToken) (p' : @yyParser IndexSpec) :
  allocated q -> inv (gparser q) -> 0 <= k < 11 -> (k = TK_EOF -> root (pctx (gparser q)) = None) ->
  (length (yystack (gparser q)) < Z.to_nat YYSTACKDEPTH)%nat ->
  Parse (gparser q) k t = Ok p' ->
  exists q', Parse_g q k t = Ok q' /\ gparser q' = p' /\ allocated q'.
Proof.
  intros Ha Hinv Hk Hroot Hlen H. unfold Parse in H. unfold Parse_g.
  pose proof (yy_parse_loop_c_sim (SP := grow_policy) allocated (fun _ _ => eq_refl) allocated_set
                yy_shift_g_push) as Hsim.
  destruct (yystack (gparser q)) as [|e rest] eqn:Hst.
  - destruct Ha as [Hb Hpos]. replace (yystksz q <=? 0) with false by (symmetry; apply Z.leb_gt; exact Hpos).
    exact (Hsim _ (set_gparser q (set_errcnt (set_stack (gparser q) yy_init_stack) (-1))) k t p'
             ltac:(split; [unfold in_bounds; simpl; lia | exact Hpos])
             (inv_init _ Hinv Hst) ltac:(simpl; discriminate) Hk Hroot
             ltac:(simpl; change (Z.to_nat YYSTACKDEPTH) with 100%nat; lia) H).
  - rewrite <- Hst in *.
    exact (Hsim _ q k t p' Ha Hinv ltac:(cbn [sp_parser grow_policy]; rewrite Hst; discriminate) Hk Hroot Hlen H).
Qed.

(** Every entry above the bottom one holds at least one token: the
    stack never has more than one entry per token fed, plus one. *)
Definition short_stack (cs : list token) (p : @yyParser IndexSpec) : Prop :=
  (length (yystack p) <= S (length cs))%nat.

Lemma short_stack_step (p p' : @yyParser IndexSpec) (la m' : Z) (t : QueryToken) (cs : list token) :
  inv p -> yystack p <> [] -> 0 <= la < 11 -> (la = TK_EOF -> root (pctx p) = None) ->
  short_stack cs p -> yy_parse_step p la (yy0 t) (la =? TK_EOF) = Ok (p', m') ->
  short_stack (if m' =? YYNOCODE then fed la t cs else cs) p'.
Proof.
  unfold short_stack. intros Hinv Hne Hla _ Hs H. pose proof Hinv as (Hwf & _ & _).
  assert (Hfed : (length cs <= length (fed la t cs))%nat)
    by (unfold fed; destruct (la =? TK_EOF); [|rewrite length_app]; lia).
  destruct (yystack p) as [|e rest] eqn:Hst; [contradiction|].
  destruct (yy_parse_step_cases p p' e rest la m' t _ Hst Hwf Hla H)
    as (a & _ & [(_ & Heof & -> & p1 & Hs1 & ->) | [(_ & -> & _) | (_ & -> & _ & _ & Hs' & _)]]).
  - rewrite Z.eqb_refl. unfold fed. rewrite Heof, length_app. apply yy_shift_length in Hs1.
    rewrite Hst in Hs1. simpl in *. lia.
  - replace (la =? YYNOCODE) with false by (symmetry; apply Z.eqb_neq; unfold YYNOCODE; lia).
    pose proof (yy_parse_step_keeps_length p p' la t _ Hinv Hla H) as Hk. rewrite Hst in Hk. lia.
  - rewrite Z.eqb_refl, Hs'. destruct (la =? TK_EOF); [simpl; lia | rewrite Hst; simpl in *; lia].
Qed.

Lemma short_stack_init (p : @yyParser IndexSpec) (cs : list token) :
  inv p -> yystack p = [] -> root (pctx p) = None -> short_stack cs p ->
  short_stack cs (set_errcnt (set_stack p yy_init_stack) (-1)).
Proof. unfold short_stack. simpl. lia. Qed.

(** A whole sequence of [Parse] calls of fewer than [YYSTACKDEPTH - 1]
    tokens runs as in the fixed build. *)
Lemma Parse_all_g_sim (ts : list token) :
  forall (q : yyParserG) (p' : @yyParser IndexSpec) (cs : list token),
  allocated q -> inv (gparser q) -> lexer_tokens ts -> root (pctx (gparser q)) = None ->
  short_stack cs (gparser q) -> (length cs + length ts < Z.to_nat YYSTACKDEPTH - 1)%nat ->
  Parse_all (gparser q) ts = Ok p' ->
  exists q', Parse_all_g q ts = Ok q' /\ gparser q' = p' /\ allocated q'.
Proof.
  induction ts as [|[k t] ts IH]; intros q p' cs Ha Hinv Hts Hroot Hs Hlen H; simpl in H.
  - injection H as <-. exists q. auto.
  - inversion Hts as [|? ? Hk Hts']; subst. simpl in Hk.
    apply obind_ok_inv in H as (p1 & H1 & H).
    assert (Hk' : k <> TK_EOF) by (unfold TK_EOF; lia).
    unfold short_stack in Hs. change (Z.to_nat YYSTACKDEPTH) with 100%nat in *. simpl in Hlen.
    destruct (Parse_g_sim q k t p1 Ha Hinv ltac:(lia) ltac:(intros; contradiction)
                ltac:(change (Z.to_nat YYSTACKDEPTH) with 100%nat; lia) H1) as (q1 & Hq1 & Hp1 & Ha1).
    destruct (Parse_ok _ k t Hinv ltac:(lia) ltac:(intros; contradiction))
      as (p2 & H2 & Hinv1 & _ & Hr1 & _). rewrite H1 in H2. injection H2 as <-.
    pose proof (Parse_P short_stack short_stack_step short_stack_init _ p1 k t cs Hinv ltac:(lia)
                  Hroot Hs H1) as Hs1.
    unfold fed in Hs1. replace (k =? TK_EOF) with false in Hs1 by (symmetry; apply Z.eqb_neq, Hk').
    rewrite <- Hp1 in Hinv1, Hr1, Hs1, H.
    destruct (IH q1 p' (cs ++ [(k, t)]) Ha1 Hinv1 Hts' ltac:(rewrite Hr1; [exact Hroot | exact Hk'])
                Hs1 ltac:(rewrite length_app; simpl; change (Z.to_nat YYSTACKDEPTH) with 100%nat; lia) H)
      as (q' & Hq' & Hp' & Ha').
    exists q'. simpl. rewrite Hq1. cbn [obind]. auto.
Qed.

End Reliable.

End Grow.

(** ** The sizes of the array *)

(** The size after [k] successful growths from 0. *)
Definition grown_size (k : nat) : Z := 100 * (2 ^ Z.of_nat k - 1).

Lemma grown_size_bounds (k : nat) :
  ((k < 24)%nat -> 0 <= grown_size k <= 838860700)
  /\ ((24 <= k)%nat -> 1677721500 <= grown_size k).
Proof.
  unfold grown_size. split; intros Hk.
  - assert (0 < 2 ^ Z.of_nat k <= 2 ^ 23)
      by (split; [apply Z.pow_pos_nonneg | apply Z.pow_le_mono_r]; lia).
    change (2 ^ 23) with 8388608 in *. lia.
  - assert (2 ^ 24 <= 2 ^ Z.of_nat k) by (apply Z.pow_le_mono_r; lia).
    change (2 ^ 24) with 16777216 in *. lia.
Qed.

Lemma grown_size_S (k : nat) : grown_size (S k) = grown_size k * 2 + 100.
Proof. unfold grown_size. rewrite Nat2Z.inj_succ, Z.pow_succ_r by lia. lia. Qed.

Section Claims.
Context {IndexSpec : Type} `{FR : FieldResolver IndexSpec}.

(** C21. With an allocator that never fails, the growable build is the
    fixed build on short inputs: a whole parse of a lexer token stream
    of fewer than [YYSTACKDEPTH - 1] tokens returns, on the heap stack
    grown by [yyGrowStack], exactly the parser (stack, context, nodes)
    the fixed 100-entry build returns. *)
Theorem Query_Parse_g_refines (realloc_ok : nat -> Z -> bool) (sp : option IndexSpec)
  (ts : list token) (eof : QueryToken) (p : @yyParser IndexSpec) :
  (forall n z, realloc_ok n z = true) -> lexer_tokens ts ->
  (length ts < Z.to_nat YYSTACKDEPTH - 1)%nat ->
  Query_Parse sp ts eof = Ok p ->
  exists q, Query_Parse_g realloc_ok sp ts eof = Ok q /\ gparser q = p.
Proof.
  intros Hall Hts Hlen H. unfold Query_Parse in H. rewrite Parse_all_app in H.
  set (c := mkCtx None true None sp) in *.
  apply obind_ok_inv in H as (p2 & H2 & Hfree). apply obind_ok_inv in H2 as (p1 & H1 & H2).
  cbn [Parse_all] in H2. apply obind_ok_inv in H2 as (p2' & H2 & E). injection E as ->.
  assert (Hinv0 : inv (ParseAlloc c)) by (unfold inv, acct, msg_inv; simpl; repeat split; auto).
  assert (Ha0 : ParseAlloc_g realloc_ok c = Ok (mkParserG (ParseAlloc c) 100 1))
    by (unfold ParseAlloc_g, yyGrowStack; rewrite Hall; reflexivity).
  destruct (Parse_all_g_sim realloc_ok Hall ts (mkParserG (ParseAlloc c) 100 1) p1 []
              ltac:(split; [unfold in_bounds; simpl; lia | simpl; lia]) Hinv0 Hts eq_refl
              ltac:(unfold short_stack; simpl; lia) ltac:(simpl; exact Hlen) H1)
    as (q1 & Hq1 & Hp1 & Ha1).
  destruct (Parse_all_P (short_stack) short_stack_step short_stack_init ts _ p1 [] Hinv0 Hts
              eq_refl ltac:(unfold short_stack; simpl; lia) H1) as (Hs1 & Hinv1 & Hr1).
  rewrite <- Hp1 in Hinv1, Hr1, Hs1, H2. unfold short_stack in Hs1. simpl in Hs1.
  destruct (Parse_g_sim realloc_ok Hall q1 TK_EOF eof p2 Ha1 Hinv1 ltac:(unfold TK_EOF; lia)
              ltac:(intros; exact Hr1) ltac:(change (Z.to_nat YYSTACKDEPTH) with 100%nat in *; lia) H2)
    as (q2 & Hq2 & Hp2 & _).
  unfold Query_Parse_g. fold c. rewrite Ha0, obind_ok, Parse_all_g_app, Hq1, obind_ok. cbn [Parse_all_g].
  rewrite Hq2, obind_ok, obind_ok. unfold ParseFree_g. rewrite Hp2. unfold ParseFree in Hfree.
  rewrite Hfree. eexists. split; reflexivity.
Qed.

(** C22. Whatever [realloc] answers, the heap stack is never written
    out of bounds: after [ParseAlloc] and any sequence of [Parse]
    calls the stack holds at most [yystksz] entries, the size of the
    array allocated. *)
Theorem Parse_all_g_in_bounds (realloc_ok : nat -> Z -> bool) (c : parseCtx)
  (ts : list (Z * QueryToken)) (q0 q : yyParserG) :
  ParseAlloc_g realloc_ok c = Ok q0 -> Parse_all_g realloc_ok q0 ts = Ok q ->
  (Z.of_nat (length (@yystack IndexSpec (gparser q))) <= yystksz q) /\ 0 <= yystksz q.
Proof.
  intros H0 H. fold (in_bounds q). apply (Parse_all_g_bounds realloc_ok ts q0 q); [|exact H].
  unfold ParseAlloc_g, yyGrowStack in H0. cbn [yystksz gparser yyreallocs] in H0.
  destruct (realloc_ok 0%nat (0 * 2 + 100)); injection H0 as <-; unfold in_bounds; simpl; lia.
Qed.

(** C23. The sizes [yyGrowStack] gives the array are [100 * (2^k - 1)]
    after [k] successful growths, and computing the next size in [int]
    is defined exactly for [k < 24]: growing an array of
    [100 * (2^24 - 1) = 1677721500] entries overflows
    [p->yystksz*2 + 100] (undefined behaviour) instead of failing like
    an allocation. *)
Theorem yyGrowStack_overflow (realloc_ok : nat -> Z -> bool) (q : @yyParserG IndexSpec) (k : nat) :
  yystksz q = grown_size k ->
  (is_ok (yyGrowStack realloc_ok q) = true <-> (k < 24)%nat)
  /\ (forall q1, yyGrowStack realloc_ok q = Ok q1 ->
      realloc_ok (yyreallocs q) (yystksz q * 2 + 100) = true -> yystksz q1 = grown_size (S k)).
Proof.
  intros Hq. pose proof (grown_size_bounds k) as [Hlt Hge]. unfold yyGrowStack. rewrite Hq.
  split.
  - destruct (Nat.lt_ge_cases k 24) as [Hk|Hk].
    + specialize (Hlt Hk). rewrite !int_ok_true by (unfold INT_MIN, INT_MAX; lia). cbn [negb].
      destruct (realloc_ok _ _); (split; [intros _; exact Hk | intros _; reflexivity]).
    + specialize (Hge Hk). rewrite int_ok_false by (unfold INT_MAX; lia).
      cbn [negb is_ok]. split; [discriminate | lia].
  - intros q1 H Hr. rewrite grown_size_S.
    destruct (negb _); [discriminate H|]. destruct (negb _); [discriminate H|].
    rewrite Hr in H. injection H as <-. reflexivity.
Qed.

(** C24. When the first [realloc] (the one of [ParseAlloc]) fails,
    every [Parse] call returns at once and the query, whatever its
    tokens (a syntax error included), is reported parsed: [ctx->ok]
    stays set, with no diagnostic and no tree. *)
Theorem alloc_failure_accepts_everything (realloc_ok : nat -> Z -> bool) (sp : option IndexSpec)
  (ts : list (Z * QueryToken)) (eof : QueryToken) :
  realloc_ok 0%nat 100 = false ->
  exists q, Query_Parse_g realloc_ok sp ts eof = Ok q /\ pctx (gparser q) = mkCtx None true None sp.
Proof.
  intros Hf. unfold Query_Parse_g.
  replace (ParseAlloc_g realloc_ok (mkCtx None true None sp))
    with (Ok (mkParserG (ParseAlloc (mkCtx None true None sp)) 0 1))
    by (unfold ParseAlloc_g, yyGrowStack; cbn [yystksz yyreallocs gparser];
        change (0 * 2 + 100) with 100; rewrite Hf; reflexivity).
  rewrite obind_ok, Parse_all_g_no_array by (simpl; first [reflexivity | lia]). rewrite obind_ok.
  eexists. split; reflexivity.
Qed.

(** C25. With an allocator that never fails, the growable build never
    overflows while the size of its array can still be computed in
    [int]: from an array of [100 * (2^k - 1)] entries with [k < 24]
    holding at most that many, every [yy_shift] pushes the new entry
    (growing the array when it is full) and keeps it within the array;
    where the fixed build empties its stack at 100 entries. *)
Theorem yy_shift_g_never_overflows (realloc_ok : nat -> Z -> bool) (q : @yyParserG IndexSpec)
  (k : nat) (a X : Z) (m : YYMINORTYPE) :
  (forall n z, realloc_ok n z = true) -> yystksz q = grown_size k -> (k < 24)%nat ->
  Z.of_nat (length (yystack (gparser q))) <= yystksz q ->
  exists q', yy_shift_g realloc_ok q a X m = Ok q'
    /\ gparser q' = set_stack (gparser q) (mkEntry a X m :: yystack (gparser q))
    /\ Z.of_nat (length (yystack (gparser q'))) <= yystksz q'.
Proof.
  intros Hall Hq Hk Hl. pose proof (proj1 (grown_size_bounds k) Hk) as Hb. rewrite <- Hq in Hb.
  unfold yy_shift_g.
  destruct (Z.geb_spec (Z.of_nat (length (yystack (gparser q)))) (yystksz q)) as [Ge|Lt].
  - unfold yyGrowStack. rewrite !int_ok_true by (unfold INT_MIN, INT_MAX; lia). rewrite Hall.
    cbn [negb obind yystksz].
    destruct (Z.geb_spec (Z.of_nat (length (yystack (gparser q)))) (yystksz q * 2 + 100)); [lia|].
    eexists. split; [reflexivity|]. simpl. split; [reflexivity | lia].
  - eexists. split; [reflexivity|]. simpl. split; [reflexivity | lia].
Qed.

End Claims.

(** ** Instances *)

(** [- - ... - a]: [n] prefix negations, nested [n + 1] entries deep on
    the stack. *)
Definition negations (n : nat) : list (Z * QueryToken) :=
  map (fun i => (TK_MINUS, mkToken "-" 1 (Z.of_nat i))) (seq 0 n)
  ++ [(TK_TERM, mkToken "a" 1 (Z.of_nat n))].

Fixpoint nots (n : nat) (x : QueryNode) : QueryNode :=
  match n with O => x | S k => NewNotNode (nots k x) end.

Definition g_eof : QueryToken := mkToken EmptyString 0 1000.

(** The allocators: one that never fails, one that fails from its
    second call on, one that always fails. *)
Definition realloc_always_ok : nat -> Z -> bool := fun _ _ => true.
Definition realloc_once : nat -> Z -> bool := fun n _ => Nat.eqb n 0.
Definition realloc_never : nat -> Z -> bool := fun _ _ => false.

(** Past the fixed depth the builds part: [- - ... - a] with 120
    negations needs 122 entries; the growable build, its array grown to
    300 entries, parses it to 120 nested negations with [ctx->ok] set,
    while the fixed build overflows at 100 entries, restarts silently,
    and returns another tree. *)
Example grow_parses_past_fixed_depth :
  (exists q, Query_Parse_g (IndexSpec := ListSchema) realloc_always_ok None (negations 120) g_eof = Ok q
     /\ yystksz q = 300 /\ pctx (gparser q) = mkCtx (Some (nots 120 (NewTokenNode "a" 1))) true None None)
  /\ (exists p, Query_Parse (IndexSpec := ListSchema) None (negations 120) g_eof = Ok p
     /\ root (pctx p) <> Some (nots 120 (NewTokenNode "a" 1))).
Proof.
  split; eexists; (split; [vm_compute; reflexivity|]); vm_compute; [split; reflexivity | discriminate].
Qed.

Lemma Query_Parse_g_refines_witness :
  lexer_tokens (negations 3)
  /\ exists q, Query_Parse_g (IndexSpec := ListSchema) realloc_always_ok None (negations 3) g_eof = Ok q
     /\ pctx (gparser q) = mkCtx (Some (nots 3 (NewTokenNode "a" 1))) true None None.
Proof.
  assert (Hts : lexer_tokens (negations 3))
    by (apply Forall_forall; intros kt Hin; unfold negations in Hin; simpl in Hin;
        repeat (destruct Hin as [<- | Hin]; [cbn; unfold TK_MINUS, TK_TERM; lia|]); contradiction).
  assert (Hp : Query_Parse (IndexSpec := ListSchema) None (negations 3) g_eof
               = Ok (mkParser [] (-5) (mkCtx (Some (nots 3 (NewTokenNode "a" 1))) true None None) 4))
    by (vm_compute; reflexivity).
  split; [exact Hts|].
  destruct (Query_Parse_g_refines realloc_always_ok None (negations 3) g_eof _ (fun _ _ => eq_refl) Hts
              ltac:(vm_compute; lia) Hp) as (q & Hq & Hg).
  exists q. split; [exact Hq | rewrite Hg; reflexivity].
Defined.

Lemma Parse_all_g_in_bounds_witness :
  exists q0 q, ParseAlloc_g (IndexSpec := ListSchema) realloc_once (mkCtx None true None None) = Ok q0
    /\ Parse_all_g realloc_once q0 (negations 120) = Ok q
    /\ yystksz q = 100 /\ Z.of_nat (length (yystack (gparser q))) <= yystksz q.
Proof.
  assert (H0 : ParseAlloc_g (IndexSpec := ListSchema) realloc_once (mkCtx None true None None)
               = Ok (mkParserG (ParseAlloc (mkCtx None true None None)) 100 1)) by reflexivity.
  destruct (Parse_all_g realloc_once (mkParserG (ParseAlloc (mkCtx None true None None)) 100 1)
              (negations 120)) as [q|why] eqn:H; [|vm_compute in H; discriminate H].
  exists (mkParserG (ParseAlloc (mkCtx None true None None)) 100 1), q.
  split; [exact H0|]. split; [exact H|].
  split; [vm_compute in H; injection H as <-; reflexivity|].
  exact (proj1 (Parse_all_g_in_bounds realloc_once _ _ _ _ H0 H)).
Defined.

Lemma yyGrowStack_overflow_witness :
  is_ok (yyGrowStack (IndexSpec := ListSchema) realloc_always_ok
           (mkParserG (ParseAlloc (mkCtx None true None None)) 1677721500 24)) = false
  /\ is_ok (yyGrowStack (IndexSpec := ListSchema) realloc_always_ok
           (mkParserG (ParseAlloc (mkCtx None true None None)) 838860700 23)) = true.
Proof.
  split.
  - destruct (yyGrowStack_overflow (IndexSpec := ListSchema) realloc_always_ok
                (mkParserG (ParseAlloc (mkCtx None true None None)) 1677721500 24) 24 eq_refl)
      as [[H _] _].
    destruct (is_ok _); [|reflexivity]. specialize (H eq_refl). lia.
  - exact (proj2 (proj1 (yyGrowStack_overflow (IndexSpec := ListSchema) realloc_always_ok
             (mkParserG (ParseAlloc (mkCtx None true None None)) 838860700 23) 23 eq_refl)) ltac:(lia)).
Defined.

Lemma alloc_failure_accepts_everything_witness :
  realloc_never 0%nat 100 = false
  /\ (exists p, Query_Parse (IndexSpec := ListSchema) None [(TK_RP, mkToken ")" 1 0)] g_eof = Ok p
        /\ ok (pctx p) = false)
  /\ exists q, Query_Parse_g (IndexSpec := ListSchema) realloc_never None [(TK_RP, mkToken ")" 1 0)] g_eof
               = Ok q /\ pctx (gparser q) = mkCtx None true None None.
Proof.
  split; [reflexivity|]. split; [eexists; split; [vm_compute; reflexivity | reflexivity]|].
  exact (alloc_failure_accepts_everything realloc_never None _ g_eof eq_refl).
Defined.

Lemma yy_shift_g_never_overflows_witness :
  grown_size 1 = 100
  /\ exists q', yy_shift_g (IndexSpec := ListSchema) realloc_always_ok
                 (mkParserG (set_stack (ParseAlloc (mkCtx None true None None))
                               (repeat (mkEntry 0 TK_EOF yyinit) 100)) 100 1) 6 TK_MINUS yyinit = Ok q'
      /\ length (yystack (gparser q')) = 101%nat /\ yystksz q' = 300.
Proof.
  split; [reflexivity|].
  destruct (yy_shift_g_never_overflows (IndexSpec := ListSchema) realloc_always_ok
              (mkParserG (set_stack (ParseAlloc (mkCtx None true None None))
                            (repeat (mkEntry 0 TK_EOF yyinit) 100)) 100 1) 1 6 TK_MINUS yyinit
              (fun _ _ => eq_refl) eq_refl ltac:(lia) ltac:(vm_compute; discriminate))
    as (q' & Hq & Hg & _).
  exists q'. split; [exact Hq|]. rewrite Hg. split; [reflexivity|].
  vm_compute in Hq. injection Hq as <-. reflexivity.
Defined.

End GrowStack.
