(* ===== verification/StackPeak.v ===== *)
(** * The peak counter ([YYTRACKMAXSTACKDEPTH])

    With [YYTRACKMAXSTACKDEPTH] defined, [yyParser] has a field
    [yyidxMax], "Maximum value of yyidx" (line 243), set to 0 by
    [ParseAlloc] (lines 370 to 372) and raised by [yy_shift] right
    after [yyidx++] (lines 612 to 616), before the overflow test;
    [ParseStackPeak] returns it (lines 485 to 493), documented as "the
    peak depth of the stack".  The build modelled here is the fixed
    array with the counter: [yyParserT] adds [yyidxMax] to the parser,
    [yy_shift_t] is its [yy_shift], and [Parse]'s loop is [Driver]'s on
    [track_policy].

    [Parse_all_t_proj]: the counter changes nothing else; every parse
    returns the parser of the build without it.  [ParseStackPeak_bound]:
    the counter never passes [YYSTACKDEPTH] and is at least the index
    of the top entry.  [ParseStackPeak_index]: it is an index, not a
    depth: a parse whose stack held two entries at most reports 1,
    while after an overflow it reports [YYSTACKDEPTH] (100), the index
    of the entry that was never written. *)

From Stdlib Require Import ZArith String List Bool Lia.
From S2P Require Import Prelude Tables QueryNode Grammar Automaton Invariants Safety LoopInvariant StackDepth Driver GrowStack.
Import ListNotations.
Import Tables QueryNode Grammar Automaton Invariants Safety LoopInvariant StackDepth Driver.
Open Scope Z_scope.
Open Scope lemon_scope.

Module StackPeak.

Section Track.
Context {IndexSpec : Type} `{FR : FieldResolver IndexSpec}.

(** The parser with its peak counter. *)
Record yyParserT := mkParserT {
  tparser : @yyParser IndexSpec;
  yyidxMax : Z
}.

Definition set_tparser (q : yyParserT) (p : @yyParser IndexSpec) : yyParserT :=
  mkParserT p (yyidxMax q).

(** [yy_shift] with the counter: [yyidx++], raise [yyidxMax] to it,
    then the fixed build's overflow test and push. *)
Definition yy_shift_t (q : yyParserT) (yyNewState yyMajor : Z) (m : YYMINORTYPE)
  : outcome yyParserT :=
  let yyidx := Z.of_nat (length (yystack (tparser q))) in
  let mx := if yyidx >? yyidxMax q then yyidx else yyidxMax q in
  p' <- yy_shift (tparser q) yyNewState yyMajor m ;; Ok (mkParserT p' mx).

Definition track_policy : @StackPolicy IndexSpec yyParserT := {|
  sp_parser := tparser;
  sp_set := set_tparser;
  sp_shift := yy_shift_t
|}.

(** [ParseAlloc]: [yyidx = -1], [yyidxMax = 0]. *)
Definition ParseAlloc_t (c : parseCtx) : yyParserT := mkParserT (ParseAlloc c) 0.

(** [Parse]: (re)initialise an empty stack (the counter is left alone),
    then the loop. *)
Definition Parse_t (q : yyParserT) (yymajor : Z) (yyminor : QueryToken) : outcome yyParserT :=
  let q0 := match yystack (tparser q) with
            | [] => set_tparser q (set_errcnt (set_stack (tparser q) yy_init_stack) (-1))
            | _ => q
            end in
  yy_parse_loop_c (SP := track_policy) (S (yy_measure (yystack (tparser q0)))) q0
    yymajor (yy0 yyminor) (yymajor =? TK_EOF).

Fixpoint Parse_all_t (q : yyParserT) (ts : list (Z * QueryToken)) : outcome yyParserT :=
  match ts with
  | [] => Ok q
  | (k, t) :: ts' => q' <- Parse_t q k t ;; Parse_all_t q' ts'
  end.

(** [ParseStackPeak]. *)
Definition ParseStackPeak (q : yyParserT) : Z := yyidxMax q.

(** ** The counter changes nothing else *)

Lemma yy_shift_t_proj (q : yyParserT) (a X : Z) (m : YYMINORTYPE) (p' : @yyParser IndexSpec) :
  yy_shift (tparser q) a X m = Ok p' -> exists q', yy_shift_t q a X m = Ok q' /\ tparser q' = p'.
Proof. intros H. unfold yy_shift_t. rewrite H. cbn [obind]. eauto. Qed.

Lemma Parse_t_proj (q : yyParserT) (k : Z) (t : QueryToken) (p' : @yyParser IndexSpec) :
  Parse (tparser q) k t = Ok p' -> exists q', Parse_t q k t = Ok q' /\ tparser q' = p'.
Proof.
  intros H. unfold Parse in H. unfold Parse_t.
  pose proof (yy_parse_loop_c_proj (SP := track_policy) (fun _ _ => eq_refl) yy_shift_t_proj) as Hp.
  destruct (yystack (tparser q)) eqn:Hst.
  - exact (Hp _ (set_tparser q (set_errcnt (set_stack (tparser q) yy_init_stack) (-1))) _ _ _ _ H).
  - exact (Hp _ q _ _ _ _ H).
Qed.

(** Every sequence of [Parse] calls returns the parser of the build
    without the counter. *)
Lemma Parse_all_t_proj (ts : list (Z * QueryToken)) :
  forall (q : yyParserT) (p' : @yyParser IndexSpec),
  Parse_all (tparser q) ts = Ok p' -> exists q', Parse_all_t q ts = Ok q' /\ tparser q' = p'.
Proof.
  induction ts as [|[k t] ts IH]; intros q p' H; simpl in H; [injection H as <-; exists q; auto|].
  apply obind_ok_inv in H as (p1 & H1 & H).
  destruct (Parse_t_proj q k t p1 H1) as (q1 & Hq1 & Hp1). rewrite <- Hp1 in H.
  destruct (IH q1 p' H) as (q' & Hq' & Hp'). exists q'. simpl. rewrite Hq1. cbn [obind]. auto.
Qed.

(** ** The bound on the counter *)

(** The counter is at least the top index and at most [YYSTACKDEPTH],
    and the stack fits its array. *)
Definition peak_ok (q : yyParserT) : Prop :=
  Z.of_nat (length (yystack (tparser q))) - 1 <= yyidxMax q /\ 0 <= yyidxMax q <= YYSTACKDEPTH
  /\ depth_ok (tparser q).

Lemma peak_ok_set (q : yyParserT) (p : @yyParser IndexSpec) :
  peak_ok q -> (length (yystack p) <= length (yystack (tparser q)))%nat -> peak_ok (set_tparser q p).
Proof. unfold peak_ok, depth_ok. simpl. lia. Qed.

Lemma yy_shift_t_peak (q q' : yyParserT) (a X : Z) (m : YYMINORTYPE) :
  peak_ok q -> yy_shift_t q a X m = Ok q' -> peak_ok q'.
Proof.
  unfold yy_shift_t, peak_ok. intros (Hm & Hm' & Hd) H. apply obind_ok_inv in H as (p' & Hp' & H).
  injection H as <-. cbn [tparser yyidxMax].
  pose proof (yy_shift_depth _ _ _ _ _ Hd Hp') as Hd'. pose proof (yy_shift_length _ _ _ _ _ Hp') as Hl.
  unfold depth_ok in *. split; [|split; [|exact Hd']].
  all: destruct (Z.gtb_spec (Z.of_nat (length (yystack (tparser q)))) (yyidxMax q)); lia.
Qed.

Lemma Parse_t_peak (q q' : yyParserT) (k : Z) (t : QueryToken) :
  peak_ok q -> Parse_t q k t = Ok q' -> peak_ok q'.
Proof.
  intros Hq H. unfold Parse_t in H.
  refine (yy_parse_loop_c_inv (SP := track_policy) peak_ok peak_ok_set
            (fun s a X m s' Hs Hsh => yy_shift_t_peak s s' a X m Hs Hsh) _ _ _ _ _ _ _ H).
  destruct (yystack (tparser q)) eqn:Hst; [|exact Hq].
  unfold peak_ok, depth_ok in *. rewrite Hst in Hq. simpl in *. unfold YYSTACKDEPTH in *. lia.
Qed.

Lemma Parse_all_t_peak (ts : list (Z * QueryToken)) (q q' : yyParserT) :
  peak_ok q -> Parse_all_t q ts = Ok q' -> peak_ok q'.
Proof.
  revert q. induction ts as [|[k t] ts IH]; intros q Hq H; simpl in H; [injection H as <-; exact Hq|].
  apply obind_ok_inv in H as (q1 & H1 & H). exact (IH q1 (Parse_t_peak q q1 k t Hq H1) H).
Qed.

End Track.

(** The counter after any sequence of [Parse] calls from [ParseAlloc]
    is between the index of the top entry and [YYSTACKDEPTH]. *)
Theorem ParseStackPeak_bound {IndexSpec : Type} `{FR : FieldResolver IndexSpec} (c : parseCtx)
  (ts : list (Z * QueryToken)) (q : @yyParserT IndexSpec) :
  Parse_all_t (ParseAlloc_t c) ts = Ok q ->
  Z.of_nat (length (yystack (tparser q))) - 1 <= ParseStackPeak q <= YYSTACKDEPTH.
Proof.
  intros H. assert (H0 : peak_ok (ParseAlloc_t c)) by (unfold peak_ok, depth_ok, YYSTACKDEPTH; simpl; lia).
  destruct (Parse_all_t_peak ts _ q H0 H) as (H1 & H2 & _). unfold ParseStackPeak. lia.
Qed.

(** The counter is the largest index, one less than the largest number
    of entries, except after an overflow: [a] held two entries and
    reports 1; 120 negations overflow the 100 entries and report 100. *)
Lemma ParseStackPeak_index :
  (exists q, Parse_all_t (IndexSpec := ListSchema) (ParseAlloc_t (mkCtx None true None None))
               [(TK_TERM, mkToken "a" 1 0)] = Ok q
     /\ length (yystack (tparser q)) = 2%nat /\ ParseStackPeak q = 1)
  /\ (exists q, Parse_all_t (IndexSpec := ListSchema) (ParseAlloc_t (mkCtx None true None None))
               (GrowStack.negations 120) = Ok q
     /\ ParseStackPeak q = YYSTACKDEPTH).
Proof. split; eexists; (split; [vm_compute; reflexivity | vm_compute; auto]). Qed.

End StackPeak.
