(* ===== verification/DebugTrace.v ===== *)
(** * The trace output of the build without [NDEBUG]

    Compiled without [NDEBUG], [parser.c] writes a line to [yyTraceFILE]
    at each step of the automaton, each beginning with [yyTracePrompt]:
    ["Input %s"] when [Parse] is called (lines 1038 to 1042), ["Shift %d"]
    followed by the ["Stack:"] line listing the symbols of entries 1 to
    [yyidx] after each push (lines 638 to 647), ["Reduce [%s]."] with the
    rule text before each reduce (lines 698 to 704), ["Popping %s"] for
    each entry popped (lines 448 to 454), ["Stack Overflow!"],
    ["Accept!"], ["Fail!"] and ["Syntax Error!"] (lines 593 to 597, 974
    to 978, 932 to 936, 1058 to 1062).  The same build has no fast path
    in [yy_reduce]: every goto goes through [yy_shift].

    The output is modelled as a writer over [outcome]: a [traced A] is
    the result together with the list of strings the [fprintf] calls
    wrote, in order.  [yyTokenName[X]] past the table and a null prompt
    printed with [%s] are [UndefinedRead].  The functions of the build
    are those of [Automaton] with the [fprintf] calls in place, over the
    globals [tr] of [Tracing].

    [Query_Parse_d_erase]: tracing on or off, the debug build returns
    exactly the parser the [NDEBUG] build returns, on every lexer token
    stream.  [Query_Parse_d_quiet]: with no trace stream nothing is
    written.  [yy_shift_d_trace]: the two lines of a push, and the
    ["Stack:"] line names the symbols on the stack, from which they are
    read back.  [Parse_d_reports_error]: a call that clears [ctx->ok]
    wrote ["Syntax Error!"]. *)

From Stdlib Require Import ZArith Ascii String List Bool Lia.
From S2P Require Import Prelude Tables Tracing QueryNode Automaton Invariants Safety LoopInvariant StackDepth Driver.
Import ListNotations.
Import Tables Tracing QueryNode Automaton Invariants Safety LoopInvariant StackDepth Driver.
Open Scope Z_scope.
Open Scope lemon_scope.

(** ** The trace monad *)

(** A result and the text written, one string per [fprintf] call. *)
Definition traced (A : Type) : Type := outcome (A * list string).

Definition tret {A : Type} (a : A) : traced A := Ok (a, []).

Definition tbind {A B : Type} (m : traced A) (k : A -> traced B) : traced B :=
  match m with
  | Ok (a, w) => match k a with Ok (b, w') => Ok (b, w ++ w') | Stuck r => Stuck r end
  | Stuck r => Stuck r
  end.

(** Code that writes nothing. *)
Definition tlift {A : Type} (m : outcome A) : traced A := a <- m ;; Ok (a, []).

(** [fputs]: one piece of text written. *)
Definition emit (s : string) : traced unit := Ok (tt, [s]).

(** The result without the text. *)
Definition erase {A : Type} (m : traced A) : outcome A := x <- m ;; Ok (fst x).

Declare Scope trace_scope.
Delimit Scope trace_scope with trace.
Notation "x <~ m ;; k" := (tbind m (fun x => k))
  (at level 61, m at next level, right associativity) : trace_scope.
Notation "' pat <~ m ;; k" := (tbind m (fun x => match x with pat => k end))
  (at level 61, pat pattern, m at next level, right associativity) : trace_scope.
Open Scope trace_scope.

(** [erase] is a morphism of monads. *)
Lemma erase_tbind {A B : Type} (m : traced A) (k : A -> traced B) :
  erase (tbind m k) = obind (erase m) (fun a => erase (k a)).
Proof. destruct m as [[a w]|r]; simpl; [destruct (k a) as [[b w']|r']|]; reflexivity. Qed.

Lemma erase_tlift {A : Type} (m : outcome A) : erase (tlift m) = m.
Proof. destruct m; reflexivity. Qed.

Lemma erase_tret {A : Type} (a : A) : erase (tret a) = Ok a.
Proof. reflexivity. Qed.

(** Writing text that cannot fail changes no result. *)
Lemma erase_then {B : Type} (m : traced unit) (k : traced B) :
  erase m = Ok tt -> erase (tbind m (fun _ => k)) = erase k.
Proof. intros H. rewrite erase_tbind, H. reflexivity. Qed.

(** What a bound computation wrote is what its two parts wrote. *)
Lemma tbind_ok_inv {A B : Type} (m : traced A) (k : A -> traced B) (b : B) (w : list string) :
  tbind m k = Ok (b, w) -> exists a w1 w2, m = Ok (a, w1) /\ k a = Ok (b, w2) /\ w = w1 ++ w2.
Proof.
  destruct m as [[a w1]|r]; simpl; [|discriminate].
  destruct (k a) as [[b' w2]|r] eqn:Hk; intros H; [|discriminate].
  injection H as <- <-. exists a, w1, w2. auto.
Qed.

Lemma tlift_ok_inv {A : Type} (m : outcome A) (a : A) (w : list string) :
  tlift m = Ok (a, w) -> m = Ok a /\ w = [].
Proof. destruct m; simpl; intros H; [injection H as <- <-; auto | discriminate]. Qed.

Create Rewrite HintDb trace_rw.
#[export] Hint Rewrite @erase_tbind @erase_tlift @erase_tret @obind_ok : trace_rw.

Module DebugTrace.

(** [yyTokenName[X]]: a read past the table is undefined. *)
Definition yyTokenName_at (X : Z) : outcome string :=
  if in_range X (Z.of_nat (length yyTokenName)) then Ok (token_name X)
  else Stuck (UndefinedRead "yyTokenName[X]").

Section Debug.
Context {IndexSpec : Type} `{FR : FieldResolver IndexSpec}.

(** The globals [yyTraceFILE] and [yyTracePrompt]. *)
Variable tr : TraceState.

(** [if( yyTraceFILE )]. *)
Definition trace_file : bool := is_set (yyTraceFILE tr).

Definition traced_if (b : bool) (m : traced unit) : traced unit := if b then m else tret tt.

(** [fprintf(yyTraceFILE, "%s...", yyTracePrompt, ...)]. *)
Definition fprintf_p (s : string) : traced unit :=
  match yyTracePrompt tr with
  | Some pr => emit (pr ++ s)
  | None => Stuck (UndefinedRead "yyTracePrompt")
  end.

(** [yy_pop_parser_stack]: ["Popping %s"] with the name of the top
    symbol, then its destructor. *)
Definition yy_pop_parser_stack_d (p : @yyParser IndexSpec) : traced (yyParser * Z) :=
  match yystack p with
  | [] => tret (p, 0)
  | e :: rest =>
      _ <~ traced_if trace_file
             (nm <~ tlift (yyTokenName_at (major e)) ;; fprintf_p ("Popping " ++ nm ++ newline)) ;;
      p' <~ tlift (yy_destructor p (major e) (minor e)) ;;
      tret (set_stack p' rest, major e)
  end.

Fixpoint yy_pop_n_d (n : nat) (p : @yyParser IndexSpec) : traced yyParser :=
  match n with
  | O => tret p
  | S n' => '(p', _) <~ yy_pop_parser_stack_d p ;; yy_pop_n_d n' p'
  end.

Definition yy_pop_all_d (p : @yyParser IndexSpec) : traced yyParser :=
  yy_pop_n_d (length (yystack p)) p.

(** [yyStackOverflow]: [yyidx--], ["Stack Overflow!"], pop everything. *)
Definition yyStackOverflow_d (p : @yyParser IndexSpec) : traced yyParser :=
  _ <~ traced_if trace_file (fprintf_p ("Stack Overflow!" ++ newline)) ;; yy_pop_all_d p.

(** [yy_accept] and [yy_parse_failed]: their line, then pop everything. *)
Definition yy_accept_d (p : @yyParser IndexSpec) : traced yyParser :=
  _ <~ traced_if trace_file (fprintf_p ("Accept!" ++ newline)) ;; yy_pop_all_d p.

Definition yy_parse_failed_d (p : @yyParser IndexSpec) : traced yyParser :=
  _ <~ traced_if trace_file (fprintf_p ("Fail!" ++ newline)) ;; yy_pop_all_d p.

(** The loop [for(i=1; i<=yyidx; i++) fprintf(" %s", ...)] over the
    entries, bottom first. *)
Fixpoint trace_stack (es : list yyStackEntry) : traced unit :=
  match es with
  | [] => tret tt
  | e :: es' => nm <~ tlift (yyTokenName_at (major e)) ;; _ <~ emit (" " ++ nm) ;; trace_stack es'
  end.

(** [yy_shift]: the overflow test, the push, then, when [yyidx > 0],
    ["Shift %d"] and the ["Stack:"] line. *)
Definition yy_shift_d (p : @yyParser IndexSpec) (yyNewState yyMajor : Z) (m : YYMINORTYPE)
  : traced yyParser :=
  if Z.of_nat (length (yystack p)) >=? YYSTACKDEPTH then yyStackOverflow_d p
  else
    let p' := set_stack p (mkEntry yyNewState yyMajor m :: yystack p) in
    _ <~ traced_if (trace_file && (0 <? yyidx p'))
           (_ <~ fprintf_p ("Shift " ++ fmt_d yyNewState ++ newline) ;;
            _ <~ fprintf_p "Stack:" ;;
            _ <~ trace_stack (tl (rev (yystack p'))) ;;
            emit newline) ;;
    tret p'.

(** [yy_reduce] of this build: ["Reduce [%s]."] for a rule number in
    the table, the action, and the goto through [yy_shift]. *)
Definition yy_reduce_d (p : @yyParser IndexSpec) (yyruleno : Z) : traced yyParser :=
  _ <~ traced_if (trace_file && in_range yyruleno (Z.of_nat (length yyRuleName)))
         (fprintf_p ("Reduce [" ++ nth (Z.to_nat yyruleno) yyRuleName EmptyString ++ "]." ++ newline)) ;;
  '(yygotominor, p1) <~ tlift (yy_rule_action p yyruleno) ;;
  let yygoto := rule_lhs yyruleno in
  let yysize := rule_nrhs yyruleno in
  let st := skipn (Z.to_nat yysize) (yystack p1) in
  below <~ tlift (match st with
                  | e :: _ => Ok e
                  | [] => Stuck (AssertFailed "yymsp[-yysize] within the stack")
                  end) ;;
  yyact <~ tlift (yy_find_reduce_action (stateno below) yygoto) ;;
  if yyact <? YYNSTATE then yy_shift_d (set_stack p1 st) yyact yygoto yygotominor
  else if yyact =? YY_ACCEPT_ACTION then yy_accept_d (set_stack p1 st)
  else tlift (Stuck (AssertFailed "yyact == YYNSTATE + YYNRULE + 1")).

(** One iteration of the loop of [Parse]; the error branch first
    writes ["Syntax Error!"]. *)
Definition yy_parse_step_d (p : @yyParser IndexSpec) (yymajor : Z) (yyminorunion : YYMINORTYPE)
  (yyendofinput : bool) : traced (yyParser * Z) :=
  top <~ tlift (match yystack p with
                | e :: _ => Ok e
                | [] => Stuck (AssertFailed "yyidx >= 0")
                end) ;;
  yyact <~ tlift (yy_find_shift_action (stateno top) yymajor) ;;
  if yyact <? YYNSTATE then
    if yyendofinput then tlift (Stuck (AssertFailed "!yyendofinput"))
    else
      p1 <~ yy_shift_d p yyact yymajor yyminorunion ;;
      tret (set_errcnt p1 (yyerrcnt p1 - 1), YYNOCODE)
  else if yyact <? YYNSTATE + YYNRULE then
    p1 <~ yy_reduce_d p (yyact - YYNSTATE) ;; tret (p1, yymajor)
  else if negb (yyact =? YY_ERROR_ACTION) then tlift (Stuck (AssertFailed "yyact == YY_ERROR_ACTION"))
  else
    _ <~ traced_if trace_file (fprintf_p ("Syntax Error!" ++ newline)) ;;
    p1 <~ tlift (if yyerrcnt p <=? 0 then yy_syntax_error p yymajor yyminorunion else Ok p) ;;
    p2 <~ tlift (yy_destructor (set_errcnt p1 3) yymajor yyminorunion) ;;
    p3 <~ (if yyendofinput then yy_parse_failed_d p2 else tret p2) ;;
    tret (p3, YYNOCODE).

Fixpoint yy_parse_loop_d (fuel : nat) (p : @yyParser IndexSpec) (yymajor : Z)
  (yyminorunion : YYMINORTYPE) (yyendofinput : bool) : traced yyParser :=
  match fuel with
  | O => tlift (Stuck OutOfFuel)
  | S f =>
      '(p1, m1) <~ yy_parse_step_d p yymajor yyminorunion yyendofinput ;;
      if (m1 =? YYNOCODE) || (length (yystack p1) =? 0)%nat then tret p1
      else yy_parse_loop_d f p1 m1 yyminorunion yyendofinput
  end.

(** [Parse]: (re)initialise, ["Input %s"], then the loop. *)
Definition Parse_d (p : @yyParser IndexSpec) (yymajor : Z) (yyminor : QueryToken) : traced yyParser :=
  let p0 := match yystack p with
            | [] => set_errcnt (set_stack p yy_init_stack) (-1)
            | _ => p
            end in
  _ <~ traced_if trace_file
         (nm <~ tlift (yyTokenName_at yymajor) ;; fprintf_p ("Input " ++ nm ++ newline)) ;;
  yy_parse_loop_d (S (yy_measure (yystack p0))) p0 yymajor (yy0 yyminor) (yymajor =? TK_EOF).

(** [ParseFree]: pop (with its ["Popping"] lines) what is left. *)
Definition ParseFree_d (p : @yyParser IndexSpec) : traced yyParser := yy_pop_all_d p.

Fixpoint Parse_all_d (p : @yyParser IndexSpec) (ts : list (Z * QueryToken)) : traced yyParser :=
  match ts with
  | [] => tret p
  | (k, t) :: ts' => p' <~ Parse_d p k t ;; Parse_all_d p' ts'
  end.

Definition Query_Parse_d (sp : option IndexSpec) (ts : list (Z * QueryToken)) (eof : QueryToken)
  : traced yyParser :=
  p <~ Parse_all_d (ParseAlloc (mkCtx None true None sp)) (ts ++ [(TK_EOF, eof)]) ;;
  ParseFree_d p.

End Debug.

(** ** The symbols have names *)

(** Every major on the stack is a symbol of [yyTokenName]. *)
Definition names_ok (st : list yyStackEntry) : Prop := Forall (fun e => 0 <= major e < 19) st.

Lemma yyTokenName_at_ok (X : Z) : 0 <= X < 19 -> yyTokenName_at X = Ok (token_name X).
Proof.
  intros H. unfold yyTokenName_at. replace (in_range X _) with true; [reflexivity|].
  symmetry. apply in_range_spec. simpl. lia.
Qed.

Lemma names_ok_skipn (n : nat) (st : list yyStackEntry) : names_ok st -> names_ok (skipn n st).
Proof.
  revert st. induction n as [|n IH]; intros st H; [exact H|].
  destruct st as [|e st]; [constructor|]. inversion H; subst. apply IH. assumption.
Qed.

Lemma names_ok_tl_rev (st : list yyStackEntry) : names_ok st -> names_ok (tl (rev st)).
Proof.
  intros H. apply Forall_rev in H. destruct (rev st); [constructor|]. inversion H; assumption.
Qed.

Lemma rule_lhs_range (r : Z) : 0 <= rule_lhs r < 19.
Proof.
  unfold rule_lhs. destruct (nth_in_or_default (Z.to_nat r) yyRuleInfo (0, 0)) as [Hin|Hd].
  2: rewrite Hd; simpl; lia.
  assert (Hall : Forall (fun x : Z * Z => 0 <= fst x < 19) yyRuleInfo)
    by (repeat constructor; simpl; lia).
  rewrite Forall_forall in Hall. exact (Hall _ Hin).
Qed.

(** ** Tracing changes no result *)

Section Erase.
Context {IndexSpec : Type} `{FR : FieldResolver IndexSpec}.
Variable tr : TraceState.
(** The globals as [ParseTrace] leaves them. *)
Hypothesis Hcons : trace_consistent tr = true.

Lemma fprintf_p_erase (s : string) : trace_file tr = true -> erase (fprintf_p tr s) = Ok tt.
Proof.
  unfold trace_consistent, trace_file, fprintf_p in *.
  destruct (yyTraceFILE tr), (yyTracePrompt tr); simpl in *; congruence.
Qed.

Lemma traced_if_erase (b : bool) (m : traced unit) :
  (b = true -> erase m = Ok tt) -> erase (traced_if b m) = Ok tt.
Proof. destruct b; simpl; auto. Qed.

Lemma name_line_erase (X : Z) (f : string -> string) :
  0 <= X < 19 -> erase (traced_if (trace_file tr) (nm <~ tlift (yyTokenName_at X) ;; fprintf_p tr (f nm)))
                 = Ok tt.
Proof.
  intros HX. apply traced_if_erase. intros Hf.
  rewrite erase_tbind, erase_tlift, yyTokenName_at_ok by exact HX. apply fprintf_p_erase, Hf.
Qed.

Lemma plain_line_erase (b : bool) (s : string) :
  (b = true -> trace_file tr = true) -> erase (traced_if b (fprintf_p tr s)) = Ok tt.
Proof. intros Hb. apply traced_if_erase. intros H. apply fprintf_p_erase, Hb, H. Qed.

Lemma trace_stack_erase (es : list yyStackEntry) : names_ok es -> erase (trace_stack es) = Ok tt.
Proof.
  induction es as [|e es IH]; intros H; [reflexivity|]. inversion H; subst. cbn [trace_stack].
  rewrite erase_tbind, erase_tlift, yyTokenName_at_ok by assumption. cbn [obind].
  rewrite erase_then by reflexivity. apply IH. assumption.
Qed.

Lemma yy_pop_parser_stack_d_erase (p : @yyParser IndexSpec) :
  names_ok (yystack p) -> erase (yy_pop_parser_stack_d tr p) = yy_pop_parser_stack p.
Proof.
  unfold yy_pop_parser_stack_d, yy_pop_parser_stack. intros H.
  destruct (yystack p) as [|e rest]; [reflexivity|]. inversion H; subst.
  rewrite erase_then by (apply name_line_erase; assumption).
  autorewrite with trace_rw. destruct (yy_destructor p (major e) (minor e)); reflexivity.
Qed.

Lemma yy_pop_n_d_erase (n : nat) (p : @yyParser IndexSpec) :
  names_ok (yystack p) -> erase (yy_pop_n_d tr n p) = yy_pop_n n p.
Proof.
  revert p. induction n as [|n IH]; intros p H; [reflexivity|]. simpl.
  rewrite erase_tbind, yy_pop_parser_stack_d_erase by exact H.
  unfold yy_pop_parser_stack in *. destruct (yystack p) as [|e rest] eqn:Hst.
  - simpl. apply IH. rewrite Hst. constructor.
  - destruct (yy_destructor p (major e) (minor e)) as [q|]; [|reflexivity].
    simpl. apply IH. simpl. inversion H; assumption.
Qed.

Lemma yy_pop_all_d_erase (p : @yyParser IndexSpec) :
  names_ok (yystack p) -> erase (yy_pop_all_d tr p) = yy_pop_all p.
Proof. apply yy_pop_n_d_erase. Qed.

Lemma yy_shift_d_erase (p : @yyParser IndexSpec) (a X : Z) (m : YYMINORTYPE) :
  names_ok (yystack p) -> 0 <= X < 19 -> erase (yy_shift_d tr p a X m) = yy_shift p a X m.
Proof.
  intros H HX. unfold yy_shift_d, yy_shift. destruct (_ >=? _).
  - unfold yyStackOverflow_d, yyStackOverflow.
    rewrite erase_then by (apply plain_line_erase; auto). apply yy_pop_all_d_erase, H.
  - rewrite erase_then; [reflexivity|]. apply traced_if_erase. intros Hb.
    apply andb_true_iff in Hb as [Hf _].
    rewrite erase_then by (apply fprintf_p_erase, Hf).
    rewrite erase_then by (apply fprintf_p_erase, Hf).
    rewrite erase_then; [reflexivity|]. apply trace_stack_erase, names_ok_tl_rev.
    constructor; assumption.
Qed.

Lemma yy_reduce_d_erase (p : @yyParser IndexSpec) (r : Z) :
  names_ok (yystack p) -> erase (yy_reduce_d tr p r) = yy_reduce_debug p r.
Proof.
  intros H. unfold yy_reduce_d, yy_reduce_debug.
  rewrite erase_then by (apply plain_line_erase; intros Hb; apply andb_true_iff in Hb; tauto).
  autorewrite with trace_rw.
  destruct (yy_rule_action p r) as [[gm p1]|] eqn:Hact; [|reflexivity]. simpl.
  apply yy_rule_action_stack in Hact.
  autorewrite with trace_rw.
  destruct (skipn (Z.to_nat (rule_nrhs r)) (yystack p1)) as [|below rest] eqn:Hs; [reflexivity|].
  simpl. autorewrite with trace_rw.
  destruct (yy_find_reduce_action (stateno below) (rule_lhs r)) as [act|]; [|reflexivity]. simpl.
  assert (Hn : names_ok (below :: rest)) by (rewrite <- Hs, Hact; apply names_ok_skipn, H).
  destruct (act <? YYNSTATE); [apply yy_shift_d_erase; [exact Hn | apply rule_lhs_range]|].
  destruct (act =? YY_ACCEPT_ACTION); [|reflexivity].
  unfold yy_accept_d, yy_accept. rewrite erase_then by (apply plain_line_erase; auto).
  apply yy_pop_all_d_erase, Hn.
Qed.

Lemma yy_parse_failed_d_erase (p : @yyParser IndexSpec) :
  names_ok (yystack p) -> erase (yy_parse_failed_d tr p) = yy_parse_failed p.
Proof.
  intros H. unfold yy_parse_failed_d, yy_parse_failed.
  rewrite erase_then by (apply plain_line_erase; auto). apply yy_pop_all_d_erase, H.
Qed.

End Erase.

(** ** What one iteration of the [NDEBUG] loop keeps *)

Section Frame.
Context {IndexSpec : Type} `{FR : FieldResolver IndexSpec}.

Lemma error_report_stack (b : bool) (p p1 : @yyParser IndexSpec) (la : Z) (m : YYMINORTYPE) :
  (if b then yy_syntax_error p la m else Ok p) = Ok p1 -> yystack p1 = yystack p.
Proof.
  destruct b; [|intros H; injection H as <-; reflexivity].
  unfold yy_syntax_error. intros H. apply obind_ok_inv in H as (t & _ & H). injection H as <-.
  reflexivity.
Qed.

Lemma yy_shift_names (p p' : @yyParser IndexSpec) (a X : Z) (m : YYMINORTYPE) :
  names_ok (yystack p) -> 0 <= X < 19 -> yy_shift p a X m = Ok p' -> names_ok (yystack p').
Proof.
  unfold yy_shift. intros H HX Hs. destruct (_ >=? _).
  - unfold yyStackOverflow in Hs. rewrite (yy_pop_all_empty _ _ Hs). constructor.
  - injection Hs as <-. constructor; assumption.
Qed.

Lemma yy_reduce_names (p p' : @yyParser IndexSpec) (r : Z) :
  names_ok (yystack p) -> yy_reduce p r = Ok p' -> names_ok (yystack p').
Proof.
  unfold yy_reduce. intros H Hr.
  apply obind_ok_inv in Hr as ([gm p1] & Hact & Hr). apply yy_rule_action_stack in Hact.
  destruct (skipn (Z.to_nat (rule_nrhs r)) (yystack p1)) as [|below rest] eqn:Hs; [discriminate Hr|].
  rewrite obind_ok in Hr. apply obind_ok_inv in Hr as (act & _ & Hr).
  assert (Hn : names_ok (below :: rest)) by (rewrite <- Hs, Hact; apply names_ok_skipn, H).
  destruct (act <? YYNSTATE); [destruct (rule_nrhs r >? 0)|].
  - injection Hr as <-. constructor; [apply rule_lhs_range | inversion Hn; assumption].
  - exact (yy_shift_names (set_stack p1 (below :: rest)) p' act _ gm Hn (rule_lhs_range r) Hr).
  - destruct (act =? YY_ACCEPT_ACTION); [|discriminate Hr].
    unfold yy_accept in Hr. rewrite (yy_pop_all_empty _ _ Hr). constructor.
Qed.

(** An iteration keeps the names and the depth bound, and returns the
    look-ahead or [YYNOCODE]. *)
Lemma yy_parse_step_frame (p p' : @yyParser IndexSpec) (la m' : Z) (m : YYMINORTYPE) (eoi : bool) :
  names_ok (yystack p) -> depth_ok p -> 0 <= la < 19 ->
  yy_parse_step p la m eoi = Ok (p', m') ->
  names_ok (yystack p') /\ depth_ok p' /\ (m' = YYNOCODE \/ m' = la).
Proof.
  intros H Hd Hla Hs. unfold yy_parse_step in Hs.
  destruct (yystack p) as [|e rest] eqn:Hst; [discriminate Hs|]. rewrite obind_ok in Hs.
  apply obind_ok_inv in Hs as (a & _ & Hs).
  destruct (a <? YYNSTATE); [|destruct (a <? YYNSTATE + YYNRULE)].
  - destruct eoi; [discriminate Hs|]. apply obind_ok_inv in Hs as (p1 & Hsh & Hs).
    injection Hs as <- <-. split; [exact (yy_shift_names p p1 a la m ltac:(rewrite Hst; exact H) Hla Hsh)|].
    split; [exact (yy_shift_depth _ _ _ _ _ Hd Hsh) | auto].
  - apply obind_ok_inv in Hs as (p1 & Hr & Hs). injection Hs as <- <-.
    split; [exact (yy_reduce_names p p1 _ ltac:(rewrite Hst; exact H) Hr)|]. split; [exact (yy_reduce_depth _ _ _ Hd Hr) | auto].
  - destruct (negb _); [discriminate Hs|].
    apply obind_ok_inv in Hs as (p1 & H1 & Hs). apply obind_ok_inv in Hs as (p2 & H2 & Hs).
    apply obind_ok_inv in Hs as (p3 & H3 & Hs). injection Hs as <- <-.
    pose proof (error_branch_length _ _ _ _ _ _ _ H1 H2 H3) as Hl.
    split; [|split; [unfold depth_ok in *; lia | auto]].
    destruct eoi; [unfold yy_parse_failed in H3; rewrite (yy_pop_all_empty _ _ H3); constructor|].
    injection H3 as <-. apply yy_destructor_frame in H2 as (_ & -> & _). simpl.
    rewrite (error_report_stack _ _ _ _ _ H1), Hst. exact H.
Qed.

Lemma yy_parse_loop_frame (fuel : nat) :
  forall (p p' : @yyParser IndexSpec) (la : Z) (m : YYMINORTYPE) (eoi : bool),
  names_ok (yystack p) -> depth_ok p -> 0 <= la < 19 ->
  yy_parse_loop fuel p la m eoi = Ok p' -> names_ok (yystack p') /\ depth_ok p'.
Proof.
  induction fuel as [|fuel IH]; intros p p' la m eoi H Hd Hla Hl; [discriminate Hl|].
  simpl in Hl. apply obind_ok_inv in Hl as ([p1 m1] & Hs & Hl).
  destruct (yy_parse_step_frame _ _ _ _ _ _ H Hd Hla Hs) as (H1 & Hd1 & Hm1).
  destruct Hm1 as [->| ->].
  - rewrite Z.eqb_refl in Hl. cbn [orb] in Hl. injection Hl as <-. auto.
  - destruct (_ || _); [injection Hl as <-; auto | exact (IH _ _ _ _ _ H1 Hd1 Hla Hl)].
Qed.

Lemma init_frame (p : @yyParser IndexSpec) :
  names_ok (yystack p) -> depth_ok p ->
  names_ok (yystack (match yystack p with [] => set_errcnt (set_stack p yy_init_stack) (-1) | _ => p end))
  /\ depth_ok (match yystack p with [] => set_errcnt (set_stack p yy_init_stack) (-1) | _ => p end).
Proof.
  intros H Hd. destruct (yystack p) as [|e rest] eqn:Hst; [|split; [rewrite Hst|]; assumption].
  split; [unfold names_ok; simpl; constructor; [unfold TK_EOF; simpl; lia | constructor] | apply depth_ok_init].
Qed.

Lemma Parse_frame (p p' : @yyParser IndexSpec) (la : Z) (t : QueryToken) :
  names_ok (yystack p) -> depth_ok p -> 0 <= la < 19 ->
  Parse p la t = Ok p' -> names_ok (yystack p') /\ depth_ok p'.
Proof.
  intros H Hd Hla Hp. unfold Parse in Hp. destruct (init_frame p H Hd) as [H0 Hd0].
  exact (yy_parse_loop_frame _ _ _ _ _ _ H0 Hd0 Hla Hp).
Qed.

(** Token kinds that have names. *)
Definition named_tokens (ts : list (Z * QueryToken)) : Prop := Forall (fun kt => 0 <= fst kt < 19) ts.

Lemma Parse_all_frame (ts : list (Z * QueryToken)) :
  forall p p' : @yyParser IndexSpec, named_tokens ts -> names_ok (yystack p) -> depth_ok p ->
  Parse_all p ts = Ok p' -> names_ok (yystack p') /\ depth_ok p'.
Proof.
  induction ts as [|[k t] ts IH]; intros p p' Hts H Hd Hp; simpl in Hp; [injection Hp as <-; auto|].
  inversion Hts as [|? ? Hk Hts']; subst. simpl in Hk. apply obind_ok_inv in Hp as (p1 & H1 & Hp).
  destruct (Parse_frame _ _ _ _ H Hd Hk H1) as [Hn1 Hd1]. exact (IH _ _ Hts' Hn1 Hd1 Hp).
Qed.

End Frame.

Section EraseLoop.
Context {IndexSpec : Type} `{FR : FieldResolver IndexSpec}.
Variable tr : TraceState.
Hypothesis Hcons : trace_consistent tr = true.

Lemma yy_parse_step_d_erase (p : @yyParser IndexSpec) (la : Z) (m : YYMINORTYPE) (eoi : bool) :
  names_ok (yystack p) -> depth_ok p -> 0 <= la < 19 ->
  erase (yy_parse_step_d tr p la m eoi) = yy_parse_step p la m eoi.
Proof.
  intros H Hd Hla. unfold yy_parse_step_d, yy_parse_step. autorewrite with trace_rw.
  destruct (yystack p) as [|e rest] eqn:Hst; [reflexivity|]. cbn [obind]. autorewrite with trace_rw.
  assert (Hn : names_ok (yystack p)) by (rewrite Hst; exact H). clear H.
  destruct (yy_find_shift_action (stateno e) la) as [a|]; [|reflexivity]. cbn [obind].
  destruct (a <? YYNSTATE); [|destruct (a <? YYNSTATE + YYNRULE)].
  - destruct eoi; [reflexivity|].
    rewrite erase_tbind, (yy_shift_d_erase tr Hcons p a la m Hn Hla).
    destruct (yy_shift p a la m); reflexivity.
  - rewrite erase_tbind, (yy_reduce_d_erase tr Hcons p _ Hn), <- (yy_reduce_debug_agrees p _ Hd).
    destruct (yy_reduce p _); reflexivity.
  - destruct (negb _); [reflexivity|].
    rewrite erase_then by (apply (plain_line_erase tr Hcons); auto). autorewrite with trace_rw.
    destruct (if yyerrcnt p <=? 0 then _ else _) as [p1|] eqn:H1; [|reflexivity]. cbn [obind].
    autorewrite with trace_rw.
    destruct (yy_destructor (set_errcnt p1 3) la m) as [p2|] eqn:H2; [|reflexivity]. cbn [obind].
    destruct eoi; [|reflexivity].
    apply yy_destructor_frame in H2 as (_ & Hs2 & _). apply error_report_stack in H1.
    rewrite erase_tbind, (yy_parse_failed_d_erase tr Hcons p2)
      by (rewrite Hs2; simpl; rewrite H1; exact Hn).
    destruct (yy_parse_failed p2); reflexivity.
Qed.

Lemma yy_parse_loop_d_erase (fuel : nat) :
  forall (p : @yyParser IndexSpec) (la : Z) (m : YYMINORTYPE) (eoi : bool),
  names_ok (yystack p) -> depth_ok p -> 0 <= la < 19 ->
  erase (yy_parse_loop_d tr fuel p la m eoi) = yy_parse_loop fuel p la m eoi.
Proof.
  induction fuel as [|fuel IH]; intros p la m eoi H Hd Hla; [reflexivity|]. cbn [yy_parse_loop_d yy_parse_loop].
  rewrite erase_tbind, yy_parse_step_d_erase by assumption.
  destruct (yy_parse_step p la m eoi) as [[p1 m1]|] eqn:Hs; [|reflexivity]. cbn [obind].
  destruct (yy_parse_step_frame _ _ _ _ _ _ H Hd Hla Hs) as (H1 & Hd1 & Hm1).
  destruct Hm1 as [->| ->]; [rewrite Z.eqb_refl; reflexivity|].
  destruct (_ || _); [reflexivity | apply IH; assumption].
Qed.

Lemma Parse_d_erase (p : @yyParser IndexSpec) (la : Z) (t : QueryToken) :
  names_ok (yystack p) -> depth_ok p -> 0 <= la < 19 -> erase (Parse_d tr p la t) = Parse p la t.
Proof.
  intros H Hd Hla. unfold Parse_d, Parse.
  rewrite erase_then by (apply (name_line_erase tr Hcons); exact Hla).
  destruct (init_frame p H Hd) as [H0 Hd0]. apply yy_parse_loop_d_erase; assumption.
Qed.

Lemma Parse_all_d_erase (ts : list (Z * QueryToken)) :
  forall p : @yyParser IndexSpec, named_tokens ts -> names_ok (yystack p) -> depth_ok p ->
  erase (Parse_all_d tr p ts) = Parse_all p ts.
Proof.
  induction ts as [|[k t] ts IH]; intros p Hts H Hd; [reflexivity|].
  inversion Hts as [|? ? Hk Hts']; subst. simpl in Hk.
  cbn [Parse_all_d Parse_all]. rewrite erase_tbind, Parse_d_erase by assumption.
  destruct (Parse p k t) as [p1|] eqn:Hp; [|reflexivity]. cbn [obind].
  destruct (Parse_frame _ _ _ _ H Hd Hk Hp). apply IH; assumption.
Qed.

End EraseLoop.

(** ** Tracing off writes nothing *)

(** A computation that, when it returns, wrote nothing. *)
Definition quiet {A : Type} (m : traced A) : Prop := forall a w, m = Ok (a, w) -> w = [].

Lemma quiet_tbind {A B : Type} (m : traced A) (k : A -> traced B) :
  quiet m -> (forall a, quiet (k a)) -> quiet (tbind m k).
Proof.
  intros Hm Hk b w H. apply tbind_ok_inv in H as (a & w1 & w2 & H1 & H2 & ->).
  rewrite (Hm _ _ H1), (Hk _ _ _ H2). reflexivity.
Qed.

Lemma quiet_tlift {A : Type} (m : outcome A) : quiet (tlift m).
Proof. intros a w H. apply tlift_ok_inv in H as [_ ->]. reflexivity. Qed.

Lemma quiet_tret {A : Type} (a : A) : quiet (tret a).
Proof. intros b w H. injection H as _ <-. reflexivity. Qed.

Create HintDb quiet discriminated.
#[export] Hint Resolve quiet_tlift quiet_tret : quiet.

(** Split binds and branches until only the leaves are left. *)
Ltac quiet_auto :=
  repeat first
    [ apply quiet_tbind; [|intros ?]
    | progress cbv beta iota zeta
    | match goal with |- quiet (match ?x with _ => _ end) => destruct x end
    | match goal with |- quiet (if ?b then _ else _) => destruct b end
    | solve [eauto with quiet] ].

Section Quiet.
Context {IndexSpec : Type} `{FR : FieldResolver IndexSpec}.
Variable tr : TraceState.
Hypothesis Hoff : yyTraceFILE tr = None.

Lemma quiet_line (m : traced unit) : quiet (traced_if (trace_file tr) m).
Proof. unfold trace_file. rewrite Hoff. apply quiet_tret. Qed.

Lemma quiet_line_and (b : bool) (m : traced unit) : quiet (traced_if (trace_file tr && b) m).
Proof. unfold trace_file. rewrite Hoff. apply quiet_tret. Qed.

#[local] Hint Resolve quiet_line quiet_line_and : quiet.

Lemma yy_pop_n_d_quiet (n : nat) (p : @yyParser IndexSpec) : quiet (yy_pop_n_d tr n p).
Proof.
  revert p. induction n as [|n IH]; intros p; cbn [yy_pop_n_d]; [apply quiet_tret|].
  apply quiet_tbind; [unfold yy_pop_parser_stack_d; quiet_auto | intros [p' X]; apply IH].
Qed.

Lemma yy_pop_all_d_quiet (p : @yyParser IndexSpec) : quiet (yy_pop_all_d tr p).
Proof. apply yy_pop_n_d_quiet. Qed.
#[local] Hint Resolve yy_pop_all_d_quiet : quiet.

Lemma yy_shift_d_quiet (p : @yyParser IndexSpec) (a X : Z) (m : YYMINORTYPE) :
  quiet (yy_shift_d tr p a X m).
Proof. unfold yy_shift_d, yyStackOverflow_d. quiet_auto. Qed.
#[local] Hint Resolve yy_shift_d_quiet : quiet.

Lemma yy_parse_step_d_quiet (p : @yyParser IndexSpec) (la : Z) (m : YYMINORTYPE) (eoi : bool) :
  quiet (yy_parse_step_d tr p la m eoi).
Proof.
  unfold yy_parse_step_d, yy_reduce_d, yy_accept_d, yy_parse_failed_d. quiet_auto.
Qed.

Lemma yy_parse_loop_d_quiet (fuel : nat) :
  forall (p : @yyParser IndexSpec) (la : Z) (m : YYMINORTYPE) (eoi : bool),
  quiet (yy_parse_loop_d tr fuel p la m eoi).
Proof.
  induction fuel as [|fuel IH]; intros p la m eoi; cbn [yy_parse_loop_d]; [apply quiet_tlift|].
  apply quiet_tbind; [apply yy_parse_step_d_quiet|]. intros [p1 m1].
  destruct (_ || _); [apply quiet_tret | apply IH].
Qed.

Lemma Parse_all_d_quiet (ts : list (Z * QueryToken)) :
  forall p : @yyParser IndexSpec, quiet (Parse_all_d tr p ts).
Proof.
  induction ts as [|[k t] ts IH]; intros p; cbn [Parse_all_d]; [apply quiet_tret|].
  apply quiet_tbind; [|intros q; apply IH].
  unfold Parse_d. apply quiet_tbind; [apply quiet_line | intros _; apply yy_parse_loop_d_quiet].
Qed.

End Quiet.

(** ** Reading the ["Stack:"] line back *)

(** A word [" %s"] of the ["Stack:"] line. *)
Definition read_symbol (w : string) : option Z :=
  match w with
  | String c nm => if Ascii.eqb c " "%char then symbol_code nm else None
  | EmptyString => None
  end.

(** The words the loop writes, one per entry, name each symbol. *)
Lemma trace_stack_words (es : list yyStackEntry) :
  names_ok es ->
  exists ws, trace_stack es = Ok (tt, ws) /\ map read_symbol ws = map (fun e => Some (major e)) es.
Proof.
  induction es as [|e es IH]; intros H; [exists []; auto|]. inversion H as [|? ? He Hes]; subst.
  destruct (IH Hes) as (ws & Hw & Hm). exists ((" " ++ token_name (major e))%string :: ws).
  cbn [trace_stack]. unfold tlift. rewrite yyTokenName_at_ok by exact He. cbn [obind tbind emit].
  rewrite Hw. split; [reflexivity|]. cbn [map]. rewrite Hm. simpl. rewrite symbol_code_name by exact He.
  reflexivity.
Qed.

(** ** Only the error branch clears [ctx->ok] *)

(** Invert a [traced] computation that returned. *)
Ltac tinv H :=
  repeat match type of H with
  | tbind _ _ = Ok (_, _) =>
      let a := fresh "a" in let w1 := fresh "w" in let w2 := fresh "w" in
      let H1 := fresh "H" in let Hw := fresh "Hw" in
      apply tbind_ok_inv in H as (a & w1 & w2 & H1 & H & Hw); cbv beta in H
  | tlift _ = Ok (_, _) => let Hw := fresh "Hw" in apply tlift_ok_inv in H as [H Hw]
  | tret _ = Ok (_, _) => injection H; clear H; intros; subst
  end.

Section Flag.
Context {IndexSpec : Type} `{FR : FieldResolver IndexSpec}.
Variable tr : TraceState.

Lemma yy_pop_n_d_ctx (n : nat) :
  forall (p p' : @yyParser IndexSpec) w, yy_pop_n_d tr n p = Ok (p', w) -> pctx p' = pctx p.
Proof.
  induction n as [|n IH]; intros p p' w H; cbn [yy_pop_n_d] in H; [tinv H; reflexivity|].
  tinv H. destruct a as [q X]. rewrite (IH _ _ _ H). unfold yy_pop_parser_stack_d in H0.
  destruct (yystack p) as [|e rest]; tinv H0; [reflexivity|].
  tinv H2. apply yy_destructor_frame in H2 as [Hc _]. subst. exact Hc.
Qed.

Lemma yy_pop_all_d_ctx (p p' : @yyParser IndexSpec) w :
  yy_pop_all_d tr p = Ok (p', w) -> pctx p' = pctx p.
Proof. apply yy_pop_n_d_ctx. Qed.

Lemma yy_shift_d_ctx (p p' : @yyParser IndexSpec) (a X : Z) (m : YYMINORTYPE) w :
  yy_shift_d tr p a X m = Ok (p', w) -> pctx p' = pctx p.
Proof.
  unfold yy_shift_d, yyStackOverflow_d. intros H. destruct (_ >=? _); tinv H.
  - exact (yy_pop_all_d_ctx _ _ _ H).
  - reflexivity.
Qed.

Lemma yy_reduce_d_flag (p p' : @yyParser IndexSpec) (r : Z) w :
  yy_reduce_d tr p r = Ok (p', w) -> ok (pctx p') = ok (pctx p).
Proof.
  unfold yy_reduce_d, yy_accept_d. intros H. tinv H. destruct a0 as [gm p1]. tinv H1.
  rewrite <- (proj2 (yy_rule_action_flags _ _ _ _ H1)). tinv H. tinv H2. tinv H3.
  destruct (a1 <? YYNSTATE); [rewrite (yy_shift_d_ctx _ _ _ _ _ _ H); reflexivity|].
  destruct (a1 =? YY_ACCEPT_ACTION); [|discriminate H]. tinv H.
  rewrite (yy_pop_all_d_ctx _ _ _ H). reflexivity.
Qed.

(** The line of the error branch. *)
Definition syntax_error_line (pr : string) : string := (pr ++ "Syntax Error!" ++ newline)%string.

Section Reports.
Hypothesis Hfile : yyTraceFILE tr <> None.
Variable pr : string.
Hypothesis Hpr : yyTracePrompt tr = Some pr.

Lemma yy_parse_step_d_reports (p p' : @yyParser IndexSpec) (la m' : Z) (m : YYMINORTYPE) (eoi : bool) w :
  yy_parse_step_d tr p la m eoi = Ok ((p', m'), w) -> ok (pctx p) = true -> ok (pctx p') = false ->
  In (syntax_error_line pr) w.
Proof.
  unfold yy_parse_step_d. intros H Hok Hok'.
  apply tbind_ok_inv in H as (top & w1 & w2 & _ & H & ->). cbv beta in H.
  apply tbind_ok_inv in H as (a & w3 & w4 & _ & H & ->). cbv beta in H.
  destruct (a <? YYNSTATE); [|destruct (a <? YYNSTATE + YYNRULE)].
  - destruct eoi; [apply tlift_ok_inv in H as [H _]; discriminate H|].
    apply tbind_ok_inv in H as (p1 & w5 & w6 & Hs & H & ->). injection H as <- _ _.
    apply yy_shift_d_ctx in Hs. simpl in Hok'. congruence.
  - apply tbind_ok_inv in H as (p1 & w5 & w6 & Hr & H & ->). injection H as <- _ _.
    apply yy_reduce_d_flag in Hr. congruence.
  - destruct (negb _); [apply tlift_ok_inv in H as [H _]; discriminate H|].
    apply tbind_ok_inv in H as (u & w5 & w6 & Hl & _ & ->).
    unfold traced_if, trace_file, fprintf_p, emit in Hl. rewrite Hpr in Hl.
    destruct (yyTraceFILE tr); [|contradiction]. injection Hl as _ <-.
    apply in_or_app. right. apply in_or_app. right. simpl. auto.
Qed.

Lemma yy_parse_loop_d_reports (fuel : nat) :
  forall (p p' : @yyParser IndexSpec) (la : Z) (m : YYMINORTYPE) (eoi : bool) w,
  yy_parse_loop_d tr fuel p la m eoi = Ok (p', w) -> ok (pctx p) = true -> ok (pctx p') = false ->
  In (syntax_error_line pr) w.
Proof.
  induction fuel as [|fuel IH]; intros p p' la m eoi w H Hok Hok'; cbn [yy_parse_loop_d] in H;
    [discriminate H|].
  tinv H. destruct a as [p1 m1]. subst. apply in_or_app.
  destruct (ok (pctx p1)) eqn:Hok1; [right | left; exact (yy_parse_step_d_reports _ _ _ _ _ _ _ H0 Hok Hok1)].
  destruct (_ || _); [tinv H; congruence | exact (IH _ _ _ _ _ _ H Hok1 Hok')].
Qed.

End Reports.

End Flag.

Section Claims.
Context {IndexSpec : Type} `{FR : FieldResolver IndexSpec}.

(** C26. The debug build parses as the [NDEBUG] build: with the trace
    globals as [ParseTrace] leaves them, tracing on or off, a whole
    parse of any lexer token stream in the build without [NDEBUG]
    (which prints its trace and has no fast path in [yy_reduce])
    returns exactly what [Query_Parse] returns: the same parser,
    context and allocation count, and it fails exactly where the
    [NDEBUG] build fails. *)
Theorem Query_Parse_d_erase (tr : TraceState) (sp : option IndexSpec) (ts : list (Z * QueryToken))
  (eof : QueryToken) :
  trace_consistent tr = true -> lexer_tokens ts ->
  erase (Query_Parse_d tr sp ts eof) = Query_Parse sp ts eof.
Proof.
  intros Hc Hts. unfold Query_Parse_d, Query_Parse.
  assert (Hn : named_tokens (ts ++ [(TK_EOF, eof)])).
  { apply Forall_app. split; [|repeat constructor; unfold TK_EOF; simpl; lia].
    refine (Forall_impl _ _ Hts). simpl. lia. }
  assert (H0 : names_ok (yystack (@ParseAlloc IndexSpec (mkCtx None true None sp)))
               /\ depth_ok (@ParseAlloc IndexSpec (mkCtx None true None sp)))
    by (split; [constructor | unfold depth_ok, YYSTACKDEPTH; simpl; lia]).
  destruct H0 as [Hn0 Hd0].
  rewrite erase_tbind, (Parse_all_d_erase tr Hc _ _ Hn Hn0 Hd0).
  destruct (Parse_all _ _) as [p|] eqn:Hp; [|reflexivity]. cbn [obind].
  destruct (Parse_all_frame _ _ _ Hn Hn0 Hd0 Hp) as [Hnp _].
  exact (yy_pop_all_d_erase tr Hc p Hnp).
Qed.

(** C27. Without a trace stream nothing is written: when [yyTraceFILE]
    is [NULL], every [fprintf] of a whole parse is skipped, whatever
    the prompt and the tokens. *)
Theorem Query_Parse_d_quiet (tr : TraceState) (sp : option IndexSpec) (ts : list (Z * QueryToken))
  (eof : QueryToken) (p : @yyParser IndexSpec) (w : list string) :
  yyTraceFILE tr = None -> Query_Parse_d tr sp ts eof = Ok (p, w) -> w = [].
Proof.
  intros Hoff. unfold Query_Parse_d, ParseFree_d.
  apply quiet_tbind; [apply Parse_all_d_quiet, Hoff | intros q; apply yy_pop_all_d_quiet, Hoff].
Qed.

(** C28. The trace of a push: with tracing on, a shift onto a stack of
    1 to 99 entries writes ["Shift <state>"], then the ["Stack:"] line,
    one word per entry from index 1 to the new top, then the newline;
    the words read back, through [yyTokenName], as the majors of those
    entries, so the line shows the stack exactly. *)
Theorem yy_shift_d_trace (tr : TraceState) (pr : string) (p : @yyParser IndexSpec) (a X : Z)
  (m : YYMINORTYPE) :
  yyTraceFILE tr <> None -> yyTracePrompt tr = Some pr -> names_ok (yystack p) -> 0 <= X < 19 ->
  (1 <= length (yystack p) < 100)%nat ->
  exists ws, yy_shift_d tr p a X m
             = Ok (set_stack p (mkEntry a X m :: yystack p),
                   [(pr ++ "Shift " ++ fmt_d a ++ newline)%string; (pr ++ "Stack:")%string]
                   ++ ws ++ [newline])
    /\ map read_symbol ws = map (fun e => Some (major e)) (tl (rev (mkEntry a X m :: yystack p))).
Proof.
  intros Hf Hpr Hn HX Hl.
  destruct (trace_stack_words (tl (rev (mkEntry a X m :: yystack p))))
    as (ws & Hw & Hm); [apply names_ok_tl_rev; constructor; assumption|].
  exists ws. split; [|exact Hm].
  unfold yy_shift_d.
  destruct (Z.geb_spec (Z.of_nat (length (yystack p))) YYSTACKDEPTH) as [Ge|_];
    [unfold YYSTACKDEPTH in Ge; lia|].
  replace (trace_file tr && (0 <? yyidx _)) with true.
  2:{ symmetry. apply andb_true_iff. split.
      - unfold trace_file. destruct (yyTraceFILE tr); [reflexivity | contradiction].
      - apply Z.ltb_lt. unfold yyidx, set_stack. cbn [yystack length]. lia. }
  cbv zeta. unfold traced_if, fprintf_p. rewrite Hpr. cbn [yystack set_stack]. rewrite Hw.
  cbn [tbind emit tret]. rewrite app_nil_r. reflexivity.
Qed.

(** C29. Every error the context reports is in the trace: with tracing
    on, a call of [Parse] that clears [ctx->ok] has written the
    ["Syntax Error!"] line; the shifts, reduces, accepts and pops of
    the debug build never touch the flag. *)
Theorem Parse_d_reports_error (tr : TraceState) (pr : string) (p p' : @yyParser IndexSpec) (la : Z)
  (t : QueryToken) (w : list string) :
  yyTraceFILE tr <> None -> yyTracePrompt tr = Some pr -> Parse_d tr p la t = Ok (p', w) ->
  ok (pctx p) = true -> ok (pctx p') = false -> In (syntax_error_line pr) w.
Proof.
  intros Hf Hpr H Hok Hok'. unfold Parse_d in H. tinv H. subst. apply in_or_app. right.
  refine (yy_parse_loop_d_reports tr Hf pr Hpr _ _ _ _ _ _ _ H _ Hok').
  destruct (yystack p); exact Hok.
Qed.

End Claims.

(** ** The trace of a query, and instances of the theorems *)

(** Tracing to some stream with the prompt ["> "], and no tracing. *)
Definition tr_on : TraceState := mkTrace (Some 1%nat) (Some "> "%string).
Definition tr_off : TraceState := mkTrace None None.
Definition dt_tokens : list (Z * QueryToken) := [(TK_TERM, mkToken "a" 1 0)].
Definition dt_eof : QueryToken := mkToken EmptyString 0 1.

(** What was written by a whole parse. *)
Definition trace_of (tr : TraceState) (ts : list (Z * QueryToken)) (eof : QueryToken)
  : option (list string) :=
  match Query_Parse_d (IndexSpec := ListSchema) tr None ts eof with
  | Ok (_, w) => Some w
  | Stuck _ => None
  end.

(** The trace of the query [a]: the input [TERM] is shifted into
    state 10; at end of input [expr ::= TERM] is reduced and its goto
    shifted into state 5; [query ::= expr] is reduced, whose goto is the
    accept, and the accept pops the bottom entry [$]. *)
Example trace_of_single_term :
  trace_of tr_on dt_tokens dt_eof
  = Some (map (fun s => "> " ++ s)%string
            ["Input TERM" ++ newline; "Shift 10" ++ newline]%string
          ++ ["> Stack:"; " TERM"; newline]%string
          ++ map (fun s => "> " ++ s)%string
            ["Input $" ++ newline; "Reduce [expr ::= TERM]." ++ newline; "Shift 5" ++ newline]%string
          ++ ["> Stack:"; " expr"; newline]%string
          ++ map (fun s => "> " ++ s)%string
            ["Reduce [query ::= expr]." ++ newline; "Accept!" ++ newline; "Popping $" ++ newline]%string).
Proof. vm_compute. reflexivity. Qed.

Lemma dt_tokens_lexer : lexer_tokens dt_tokens.
Proof. constructor; [unfold TK_TERM; simpl; lia | constructor]. Qed.

Lemma Query_Parse_d_erase_witness :
  trace_consistent tr_on = true /\ lexer_tokens dt_tokens
  /\ erase (Query_Parse_d (IndexSpec := ListSchema) tr_on None dt_tokens dt_eof)
     = Query_Parse None dt_tokens dt_eof.
Proof.
  split; [reflexivity|]. split; [exact dt_tokens_lexer|].
  exact (Query_Parse_d_erase tr_on None dt_tokens dt_eof eq_refl dt_tokens_lexer).
Defined.

Definition dt_quiet_result : @yyParser ListSchema * list string :=
  match Query_Parse_d (IndexSpec := ListSchema) tr_off None dt_tokens dt_eof with
  | Ok r => r
  | Stuck _ => (ParseAlloc (mkCtx None true None None), [])
  end.

Lemma Query_Parse_d_quiet_witness :
  yyTraceFILE tr_off = None
  /\ Query_Parse_d tr_off None dt_tokens dt_eof = Ok (fst dt_quiet_result, snd dt_quiet_result)
  /\ snd dt_quiet_result = [].
Proof.
  assert (H : Query_Parse_d tr_off None dt_tokens dt_eof = Ok (fst dt_quiet_result, snd dt_quiet_result))
    by (vm_compute; reflexivity).
  split; [reflexivity|]. split; [exact H|].
  exact (Query_Parse_d_quiet tr_off None dt_tokens dt_eof _ _ eq_refl H).
Defined.

(** A parser after [Parse] of [$]'s bottom entry only: the stack of a
    fresh parse. *)
Definition dt_parser : @yyParser ListSchema :=
  set_stack (ParseAlloc (mkCtx None true None None)) yy_init_stack.

Lemma yy_shift_d_trace_witness :
  exists ws, yy_shift_d tr_on dt_parser 10 TK_TERM (yy0 (mkToken "a" 1 0))
             = Ok (set_stack dt_parser (mkEntry 10 TK_TERM (yy0 (mkToken "a" 1 0)) :: yystack dt_parser),
                   [("> " ++ "Shift " ++ fmt_d 10 ++ newline)%string; ("> " ++ "Stack:")%string]
                   ++ ws ++ [newline])
    /\ map read_symbol ws
       = map (fun e => Some (major e)) (tl (rev (mkEntry 10 TK_TERM (yy0 (mkToken "a" 1 0)) :: yystack dt_parser))).
Proof.
  refine (yy_shift_d_trace tr_on "> " dt_parser 10 TK_TERM (yy0 (mkToken "a" 1 0)) _ eq_refl _ _ _).
  - discriminate.
  - constructor; [unfold TK_EOF; simpl; lia | constructor].
  - unfold TK_TERM. lia.
  - simpl. lia.
Defined.

Definition dt_error_result : @yyParser ListSchema * list string :=
  match Parse_d tr_on (ParseAlloc (mkCtx None true None None)) TK_RP (mkToken ")" 1 0) with
  | Ok r => r
  | Stuck _ => (ParseAlloc (mkCtx None true None None), [])
  end.

Lemma Parse_d_reports_error_witness :
  Parse_d tr_on (ParseAlloc (mkCtx None true None None)) TK_RP (mkToken ")" 1 0)
    = Ok (fst dt_error_result, snd dt_error_result)
  /\ ok (pctx (fst dt_error_result)) = false
  /\ In (syntax_error_line "> ") (snd dt_error_result).
Proof.
  assert (H : Parse_d tr_on (ParseAlloc (mkCtx None true None None)) TK_RP (mkToken ")" 1 0)
              = Ok (fst dt_error_result, snd dt_error_result)) by (vm_compute; reflexivity).
  assert (Hok : ok (pctx (fst dt_error_result)) = false) by (vm_compute; reflexivity).
  split; [exact H|]. split; [exact Hok|].
  exact (Parse_d_reports_error tr_on "> " _ _ _ _ _ ltac:(discriminate) eq_refl H eq_refl Hok).
Defined.

End DebugTrace.
