(* ===== verification/NoRecovery.v ===== *)
(** * The build with [YYNOERRORRECOVERY]

    An application may define [YYNOERRORRECOVERY] "if they intend to
    abandon the parse upon the first syntax error seen" (lines 1118 to
    1129).  The error branch of [Parse] then calls [yy_syntax_error] on
    every error, runs the token's destructor and drops the token: it
    neither sets [yyerrcnt] to 3 nor calls [yy_parse_failed], which is
    not compiled (lines 927 to 942).  Everything else is [Automaton]'s.

    [Query_Parse_nr_agrees]: a parse that the default build ends with
    [ctx->ok] set runs identically in this build (the error branch was
    never taken).  [Query_Parse_nr_safe]: for every lexer token stream
    this build returns, and after [ParseFree] no node is left unowned
    and [ctx->ok] is cleared exactly when a message is stored, although
    a syntax error at end of input leaves the stack in place.
    [no_recovery_behaviour]: unlike the default build it reports a
    second error three tokens early, and a parser reused after a
    failed end of input resumes the abandoned parse. *)

From Stdlib Require Import ZArith String List Bool Lia.
From S2P Require Import Prelude Tables QueryNode Automaton Invariants Safety LoopInvariant StackDepth Driver.
Import ListNotations.
Import Tables QueryNode Automaton Invariants Safety LoopInvariant StackDepth Driver.
Open Scope Z_scope.
Open Scope lemon_scope.

Module NoRecovery.

Section Build.
Context {IndexSpec : Type} `{FR : FieldResolver IndexSpec}.

(** One iteration of the loop of [Parse]; on the error action:
    [yy_syntax_error], [yy_destructor], [yymajor = YYNOCODE]. *)
Definition yy_parse_step_nr (p : @yyParser IndexSpec) (yymajor : Z) (yyminorunion : YYMINORTYPE)
  (yyendofinput : bool) : outcome (yyParser * Z) :=
  top <- (match yystack p with
          | e :: _ => Ok e
          | [] => Stuck (AssertFailed "yyidx >= 0")
          end) ;;
  yyact <- yy_find_shift_action (stateno top) yymajor ;;
  if yyact <? YYNSTATE then
    if yyendofinput then Stuck (AssertFailed "!yyendofinput")
    else
      p1 <- yy_shift p yyact yymajor yyminorunion ;;
      Ok (set_errcnt p1 (yyerrcnt p1 - 1), YYNOCODE)
  else if yyact <? YYNSTATE + YYNRULE then
    p1 <- yy_reduce p (yyact - YYNSTATE) ;; Ok (p1, yymajor)
  else if negb (yyact =? YY_ERROR_ACTION) then Stuck (AssertFailed "yyact == YY_ERROR_ACTION")
  else
    p1 <- yy_syntax_error p yymajor yyminorunion ;;
    p2 <- yy_destructor p1 yymajor yyminorunion ;;
    Ok (p2, YYNOCODE).

Fixpoint yy_parse_loop_nr (fuel : nat) (p : @yyParser IndexSpec) (yymajor : Z)
  (yyminorunion : YYMINORTYPE) (yyendofinput : bool) : outcome yyParser :=
  match fuel with
  | O => Stuck OutOfFuel
  | S f =>
      '(p1, m1) <- yy_parse_step_nr p yymajor yyminorunion yyendofinput ;;
      if (m1 =? YYNOCODE) || (length (yystack p1) =? 0)%nat then Ok p1
      else yy_parse_loop_nr f p1 m1 yyminorunion yyendofinput
  end.

Definition Parse_nr (p : @yyParser IndexSpec) (yymajor : Z) (yyminor : QueryToken) : outcome yyParser :=
  let p0 := match yystack p with
            | [] => set_errcnt (set_stack p yy_init_stack) (-1)
            | _ => p
            end in
  yy_parse_loop_nr (S (yy_measure (yystack p0))) p0 yymajor (yy0 yyminor) (yymajor =? TK_EOF).

Fixpoint Parse_all_nr (p : @yyParser IndexSpec) (ts : list (Z * QueryToken)) : outcome yyParser :=
  match ts with
  | [] => Ok p
  | (k, t) :: ts' => p' <- Parse_nr p k t ;; Parse_all_nr p' ts'
  end.

Definition Query_Parse_nr (sp : option IndexSpec) (ts : list (Z * QueryToken)) (eof : QueryToken)
  : outcome yyParser :=
  p <- Parse_all_nr (ParseAlloc (mkCtx None true None sp)) (ts ++ [(TK_EOF, eof)]) ;;
  ParseFree p.

Lemma Parse_all_nr_app (ts1 ts2 : list (Z * QueryToken)) (p : @yyParser IndexSpec) :
  Parse_all_nr p (ts1 ++ ts2) = (q <- Parse_all_nr p ts1 ;; Parse_all_nr q ts2).
Proof.
  revert p. induction ts1 as [|[k t] ts IH]; intros q; simpl; [reflexivity|].
  destruct (Parse_nr q k t); simpl; [apply IH | reflexivity].
Qed.

(** ** The two builds differ only in the error branch *)

Lemma yy_parse_step_nr_eq (p : @yyParser IndexSpec) (la a : Z) (m : YYMINORTYPE) (eoi : bool)
  (e : yyStackEntry) (rest : list yyStackEntry) :
  yystack p = e :: rest -> yy_find_shift_action (stateno e) la = Ok a -> a <> YY_ERROR_ACTION ->
  yy_parse_step_nr p la m eoi = yy_parse_step p la m eoi.
Proof.
  intros Hst Hf Ha. unfold yy_parse_step_nr, yy_parse_step. rewrite Hst. cbn [obind]. rewrite Hf. cbn [obind].
  destruct (a <? YYNSTATE); [reflexivity|]. destruct (a <? YYNSTATE + YYNRULE); [reflexivity|].
  replace (a =? YY_ERROR_ACTION) with false by (symmetry; apply Z.eqb_neq, Ha). reflexivity.
Qed.

(** ** The error counter and [ctx->ok] *)

Lemma yy_pop_n_errcnt (n : nat) (p p' : @yyParser IndexSpec) :
  yy_pop_n n p = Ok p' -> yyerrcnt p' = yyerrcnt p.
Proof.
  revert p. induction n as [|n IH]; intros p H; simpl in H; [injection H as <-; reflexivity|].
  apply obind_ok_inv in H as ([q X] & Hq & H). rewrite (IH _ H).
  unfold yy_pop_parser_stack in Hq. destruct (yystack p); [injection Hq as <- _; reflexivity|].
  apply obind_ok_inv in Hq as (q' & Hd & Hq). injection Hq as <- _.
  apply yy_destructor_frame in Hd as (_ & _ & He). exact He.
Qed.

(** Popping keeps the counter and the context. *)
Lemma yy_pop_all_flags (p p' : @yyParser IndexSpec) :
  yy_pop_all p = Ok p' -> yyerrcnt p' = yyerrcnt p /\ pctx p' = pctx p.
Proof.
  intros H. split; [exact (yy_pop_n_errcnt _ _ _ H) | exact (proj1 (yy_pop_n_frame _ _ _ H))].
Qed.

Lemma yy_shift_flags (p p' : @yyParser IndexSpec) (a X : Z) (m : YYMINORTYPE) :
  yy_shift p a X m = Ok p' -> yyerrcnt p' = yyerrcnt p /\ pctx p' = pctx p.
Proof.
  unfold yy_shift. intros H. destruct (_ >=? _); [exact (yy_pop_all_flags _ _ H)|].
  injection H as <-. auto.
Qed.

Lemma yy_reduce_flags (p p' : @yyParser IndexSpec) (r : Z) :
  yy_reduce p r = Ok p' -> yyerrcnt p' = yyerrcnt p /\ ok (pctx p') = ok (pctx p).
Proof.
  unfold yy_reduce. intros H. apply obind_ok_inv in H as ([gm p1] & Hact & H).
  destruct (yy_rule_action_flags _ _ _ _ Hact) as [He Hok]. rewrite <- He, <- Hok.
  destruct (skipn _ _) as [|below rest]; [discriminate H|]. rewrite obind_ok in H.
  apply obind_ok_inv in H as (act & _ & H).
  destruct (act <? YYNSTATE); [destruct (_ >? 0)|].
  - injection H as <-. auto.
  - destruct (yy_shift_flags _ _ _ _ _ H) as [-> ->]. auto.
  - destruct (act =? YY_ACCEPT_ACTION); [|discriminate H].
    destruct (yy_pop_all_flags _ _ H) as [-> ->]. auto.
Qed.

(** While [ctx->ok] is set, no error has been met and the counter is
    at most 0. *)
Definition errinv (p : @yyParser IndexSpec) : Prop := ok (pctx p) = true -> yyerrcnt p <= 0.

(** The error branch of the default build leaves [ctx->ok] cleared
    when [errinv] held. *)
Lemma error_branch_clears (p p1 p2 p3 : @yyParser IndexSpec) (la : Z) (m : YYMINORTYPE) (eoi : bool) :
  errinv p ->
  (if yyerrcnt p <=? 0 then yy_syntax_error p la m else Ok p) = Ok p1 ->
  yy_destructor (set_errcnt p1 3) la m = Ok p2 ->
  (if eoi then yy_parse_failed p2 else Ok p2) = Ok p3 ->
  ok (pctx p3) = false.
Proof.
  unfold errinv. intros Hinv H1 H2 H3.
  assert (Hc3 : pctx p3 = pctx p2)
    by (destruct eoi; [exact (proj2 (yy_pop_all_flags _ _ H3)) | injection H3 as <-; reflexivity]).
  apply yy_destructor_frame in H2 as (Hc2 & _ & _). rewrite Hc3, Hc2. cbn [pctx set_errcnt].
  destruct (Z.leb_spec (yyerrcnt p) 0).
  - unfold yy_syntax_error in H1. apply obind_ok_inv in H1 as (t & _ & H1). injection H1 as <-.
    reflexivity.
  - injection H1 as <-. destruct (ok (pctx p)); [specialize (Hinv eq_refl); lia | reflexivity].
Qed.

(** An iteration of the default build keeps [errinv]; if it leaves
    [ctx->ok] set, it found it set and did not take the error branch,
    so this build runs it identically. *)
Lemma yy_parse_step_nr_agrees (p p' : @yyParser IndexSpec) (la m' : Z) (m : YYMINORTYPE) (eoi : bool) :
  errinv p -> yy_parse_step p la m eoi = Ok (p', m') ->
  errinv p' /\ (ok (pctx p') = true -> ok (pctx p) = true /\ yy_parse_step_nr p la m eoi = Ok (p', m')).
Proof.
  intros Hinv H. pose proof H as H0.
  destruct (yystack p) as [|e rest] eqn:Hst; [unfold yy_parse_step in H; rewrite Hst in H; discriminate H|].
  unfold yy_parse_step in H. rewrite Hst, obind_ok in H.
  apply obind_ok_inv in H as (a & Hf & H).
  destruct (Z.eq_dec a YY_ERROR_ACTION) as [->|Ha].
  - change (YY_ERROR_ACTION <? YYNSTATE) with false in H.
    change (YY_ERROR_ACTION <? YYNSTATE + YYNRULE) with false in H.
    rewrite Z.eqb_refl in H. cbn [negb] in H.
    apply obind_ok_inv in H as (p1 & H1 & H). apply obind_ok_inv in H as (p2 & H2 & H).
    apply obind_ok_inv in H as (p3 & H3 & H). injection H as <- _.
    pose proof (error_branch_clears _ _ _ _ _ _ _ Hinv H1 H2 H3) as Hok.
    unfold errinv. rewrite Hok. split; intros E; discriminate E.
  - rewrite (yy_parse_step_nr_eq p la a m eoi e rest Hst Hf Ha), H0.
    unfold errinv in *. destruct (a <? YYNSTATE); [|destruct (a <? YYNSTATE + YYNRULE)].
    + destruct eoi; [discriminate H|]. apply obind_ok_inv in H as (p1 & Hs & H). injection H as <- <-.
      destruct (yy_shift_flags _ _ _ _ _ Hs) as [He Hc]. cbn [yyerrcnt pctx set_errcnt].
      rewrite He, Hc. split; [intros Hok; specialize (Hinv Hok); lia | auto].
    + apply obind_ok_inv in H as (p1 & Hr & H). injection H as <- <-.
      destruct (yy_reduce_flags _ _ _ Hr) as [He Hok]. rewrite He, Hok. auto.
    + replace (a =? YY_ERROR_ACTION) with false in H by (symmetry; apply Z.eqb_neq, Ha).
      discriminate H.
Qed.

Lemma yy_parse_loop_nr_agrees (fuel : nat) :
  forall (p p' : @yyParser IndexSpec) (la : Z) (m : YYMINORTYPE) (eoi : bool),
  errinv p -> yy_parse_loop fuel p la m eoi = Ok p' ->
  errinv p' /\ (ok (pctx p') = true -> ok (pctx p) = true /\ yy_parse_loop_nr fuel p la m eoi = Ok p').
Proof.
  induction fuel as [|fuel IH]; intros p p' la m eoi Hinv H; [discriminate H|].
  cbn [yy_parse_loop] in H. apply obind_ok_inv in H as ([p1 m1] & Hs & H).
  destruct (yy_parse_step_nr_agrees _ _ _ _ _ _ Hinv Hs) as [Hinv1 Hagr].
  cbn [yy_parse_loop_nr]. destruct ((m1 =? YYNOCODE) || (length (yystack p1) =? 0)%nat) eqn:Ec.
  - injection H as <-. split; [exact Hinv1|]. intros Hok.
    destruct (Hagr Hok) as [Hok0 ->]. cbn [obind]. rewrite Ec. auto.
  - destruct (IH _ _ _ _ _ Hinv1 H) as [Hinv' Hagr']. split; [exact Hinv'|]. intros Hok.
    destruct (Hagr' Hok) as [Hok1 Hl]. destruct (Hagr Hok1) as [Hok0 ->]. cbn [obind]. rewrite Ec. auto.
Qed.

Lemma Parse_nr_agrees (p p' : @yyParser IndexSpec) (la : Z) (t : QueryToken) :
  errinv p -> Parse p la t = Ok p' ->
  errinv p' /\ (ok (pctx p') = true -> ok (pctx p) = true /\ Parse_nr p la t = Ok p').
Proof.
  unfold Parse, Parse_nr. intros Hinv H.
  assert (Hinv0 : errinv (match yystack p with [] => set_errcnt (set_stack p yy_init_stack) (-1) | _ => p end)
                  /\ pctx (match yystack p with [] => set_errcnt (set_stack p yy_init_stack) (-1) | _ => p end) = pctx p)
    by (destruct (yystack p); [split; [intros _; simpl; lia | reflexivity] | auto]).
  destruct Hinv0 as [Hinv0 Hc0]. rewrite <- Hc0.
  exact (yy_parse_loop_nr_agrees _ _ _ _ _ _ Hinv0 H).
Qed.

(** Once cleared, [ctx->ok] stays cleared. *)
Lemma Parse_all_cleared (ts : list (Z * QueryToken)) :
  forall p p' : @yyParser IndexSpec, ok (pctx p) = false -> Parse_all p ts = Ok p' -> ok (pctx p') = false.
Proof.
  induction ts as [|[k t] ts IH]; intros p p' E H; cbn [Parse_all] in H; [injection H as <-; exact E|].
  apply obind_ok_inv in H as (p1 & H1 & H). apply (IH p1); [|exact H].
  destruct (ok (pctx p1)) eqn:E1; [|reflexivity].
  destruct (Parse_nr_agrees p p1 k t ltac:(intros F; congruence) H1) as [_ Hx].
  destruct (Hx E1) as [F _]. congruence.
Qed.

Lemma Parse_all_nr_agrees (ts : list (Z * QueryToken)) :
  forall p p' : @yyParser IndexSpec, errinv p -> Parse_all p ts = Ok p' ->
  errinv p' /\ (ok (pctx p') = true -> Parse_all_nr p ts = Ok p').
Proof.
  induction ts as [|[k t] ts IH]; intros p p' Hinv H; cbn [Parse_all Parse_all_nr] in *;
    [injection H as <-; auto|].
  apply obind_ok_inv in H as (p1 & H1 & H).
  destruct (Parse_nr_agrees _ _ _ _ Hinv H1) as [Hinv1 Hagr].
  destruct (IH _ _ Hinv1 H) as [Hinv' Hagr']. split; [exact Hinv'|]. intros Hok.
  pose proof (Hagr' Hok) as Hl.
  assert (Hok1 : ok (pctx p1) = true)
    by (destruct (ok (pctx p1)) eqn:E; [reflexivity | rewrite (Parse_all_cleared _ _ _ E H) in Hok; exact Hok]).
  destruct (Hagr Hok1) as [_ ->]. cbn [obind]. exact Hl.
Qed.

End Build.

(** ** Safety of this build *)

Section Safe.
Context {IndexSpec : Type} `{FR : FieldResolver IndexSpec}.

(** The error branch: report, discard the token, go on. *)
Lemma nr_error_branch_ok (p : @yyParser IndexSpec) (la : Z) (t : QueryToken) :
  inv p -> 0 <= la < 11 ->
  exists p', (p1 <- yy_syntax_error p la (yy0 t) ;; p2 <- yy_destructor p1 la (yy0 t) ;; Ok (p2, YYNOCODE))
             = Ok (p', YYNOCODE)
    /\ inv p' /\ root (pctx p') = root (pctx p) /\ spec (pctx p') = spec (pctx p).
Proof.
  intros (Hwf & Hacc & Hmsg) Hla. unfold yy_syntax_error. cbn [get_yy0 obind].
  rewrite yy_destructor_token by exact Hla.
  eexists; split; [reflexivity|]. unfold inv, acct, msg_inv in *. simpl in *.
  repeat split; try assumption; intros H; discriminate H.
Qed.

(** What an iteration of this build leaves: [step_post] without the
    empty stack at end of input. *)
Definition step_post_nr (p p' : @yyParser IndexSpec) (la m' : Z) : Prop :=
  inv p' /\ spec (pctx p') = spec (pctx p)
  /\ (la <> TK_EOF -> root (pctx p') = root (pctx p))
  /\ (m' = YYNOCODE
      \/ yystack p' = []
      \/ (m' = la /\ yystack p' <> [] /\ root (pctx p') = root (pctx p)
          /\ (yy_measure (yystack p') < yy_measure (yystack p))%nat)).

Lemma yy_parse_step_nr_ok (p : @yyParser IndexSpec) (la : Z) (t : QueryToken) :
  inv p -> yystack p <> [] -> 0 <= la < 11 -> (la = TK_EOF -> root (pctx p) = None) ->
  exists p' m', yy_parse_step_nr p la (yy0 t) (la =? TK_EOF) = Ok (p', m') /\ step_post_nr p p' la m'.
Proof.
  intros Hinv Hne Hla Hroot. pose proof Hinv as (Hwf & _ & _).
  destruct (yystack p) as [|e rest] eqn:Hst; [contradiction|].
  destruct (yy_find_shift_action_cases _ _ (wf_stack_top_range _ _ Hwf) Hla) as (a & Hf & _ & _).
  destruct (Z.eq_dec a YY_ERROR_ACTION) as [->|Ha].
  - destruct (nr_error_branch_ok p la t Hinv Hla) as (p' & Hb & Hinv' & Hr & Hs).
    unfold yy_parse_step_nr. rewrite Hst. cbn [obind]. rewrite Hf. cbn [obind].
    change (YY_ERROR_ACTION <? YYNSTATE) with false. change (YY_ERROR_ACTION <? YYNSTATE + YYNRULE) with false.
    rewrite Z.eqb_refl. cbn [negb]. rewrite Hb. do 2 eexists; split; [reflexivity|].
    unfold step_post_nr. auto.
  - rewrite (yy_parse_step_nr_eq p la a _ _ e rest Hst Hf Ha).
    rewrite <- Hst in Hne. destruct (yy_parse_step_ok p la t Hinv Hne Hla Hroot)
      as (p' & m' & Hs & Hinv' & Hsp & Hr & Hcase).
    exists p', m'. split; [exact Hs|]. unfold step_post_nr. split; [exact Hinv'|].
    split; [exact Hsp|]. split; [exact Hr|].
    destruct Hcase as [(-> & _) | Hcase]; [left; reflexivity | right; exact Hcase].
Qed.

Lemma yy_parse_loop_nr_ok (fuel : nat) :
  forall (p : @yyParser IndexSpec) (la : Z) (t : QueryToken),
  inv p -> yystack p <> [] -> 0 <= la < 11 -> (la = TK_EOF -> root (pctx p) = None) ->
  (yy_measure (yystack p) < fuel)%nat ->
  exists p', yy_parse_loop_nr fuel p la (yy0 t) (la =? TK_EOF) = Ok p'
    /\ inv p' /\ spec (pctx p') = spec (pctx p) /\ (la <> TK_EOF -> root (pctx p') = root (pctx p)).
Proof.
  induction fuel as [|fuel IH]; intros p la t Hinv Hne Hla Hroot Hfuel; [lia|].
  destruct (yy_parse_step_nr_ok p la t Hinv Hne Hla Hroot) as (p1 & m1 & Hs & Hinv1 & Hsp1 & Hr1 & Hcase).
  cbn [yy_parse_loop_nr]. rewrite Hs, obind_ok.
  destruct Hcase as [-> | [Hemp | (-> & Hne1 & Hr1' & Hm)]].
  - rewrite Z.eqb_refl. eexists; split; [reflexivity|]. auto.
  - rewrite Hemp, orb_true_r. eexists; split; [reflexivity|]. auto.
  - replace (la =? YYNOCODE) with false by (symmetry; apply Z.eqb_neq; unfold YYNOCODE; lia).
    replace (length (yystack p1) =? 0)%nat with false
      by (symmetry; apply Nat.eqb_neq; destruct (yystack p1); [contradiction | discriminate]).
    cbn [orb].
    destruct (IH p1 la t Hinv1 Hne1 Hla ltac:(intros E; rewrite Hr1'; auto) ltac:(lia))
      as (p' & Hl & Hinv' & Hsp' & Hr').
    exists p'. split; [exact Hl|]. split; [exact Hinv'|]. split; [congruence|].
    intros E. rewrite Hr' by exact E. exact Hr1'.
Qed.

Lemma Parse_nr_ok (p : @yyParser IndexSpec) (la : Z) (t : QueryToken) :
  inv p -> 0 <= la < 11 -> (la = TK_EOF -> root (pctx p) = None) ->
  exists p', Parse_nr p la t = Ok p'
    /\ inv p' /\ spec (pctx p') = spec (pctx p) /\ (la <> TK_EOF -> root (pctx p') = root (pctx p)).
Proof.
  intros Hinv Hla Hroot. unfold Parse_nr.
  set (p0 := match yystack p with
             | [] => set_errcnt (set_stack p yy_init_stack) (-1)
             | _ => p
             end).
  assert (H0 : inv p0 /\ yystack p0 <> [] /\ pctx p0 = pctx p).
  { unfold p0. destruct (yystack p) as [|e rest] eqn:Hst.
    - split; [exact (inv_init p Hinv Hst)|]. split; [unfold yy_init_stack; discriminate | reflexivity].
    - split; [exact Hinv|]. split; [rewrite Hst; discriminate | reflexivity]. }
  destruct H0 as (Hinv0 & Hne0 & Hc0).
  destruct (yy_parse_loop_nr_ok (S (yy_measure (yystack p0))) p0 la t Hinv0 Hne0 Hla
              ltac:(rewrite Hc0; exact Hroot) ltac:(lia)) as (p' & Hl & Hpost).
  exists p'. split; [exact Hl|]. rewrite Hc0 in Hpost. exact Hpost.
Qed.

Lemma Parse_all_nr_ok (ts : list (Z * QueryToken)) :
  forall p : @yyParser IndexSpec, inv p -> lexer_tokens ts ->
  exists p', Parse_all_nr p ts = Ok p' /\ inv p'
             /\ root (pctx p') = root (pctx p) /\ spec (pctx p') = spec (pctx p).
Proof.
  induction ts as [|[k t] ts IH]; intros p Hinv Hts; cbn [Parse_all_nr].
  - eexists; split; [reflexivity|]. auto.
  - inversion Hts as [|? ? Hk Hts']; subst. simpl in Hk.
    destruct (Parse_nr_ok p k t Hinv ltac:(lia) ltac:(unfold TK_EOF; lia)) as (p1 & Hp & Hinv1 & Hsp1 & Hr1).
    rewrite Hp, obind_ok. destruct (IH p1 Hinv1 Hts') as (p' & Hl & Hinv' & Hr' & Hsp').
    exists p'. split; [exact Hl|]. split; [exact Hinv'|].
    rewrite Hr', Hsp', Hsp1, Hr1 by (unfold TK_EOF; lia). auto.
Qed.

End Safe.

Section Claims.
Context {IndexSpec : Type} `{FR : FieldResolver IndexSpec}.

(** C30. On every parse the default build ends with [ctx->ok] set,
    this build computes exactly the same parser: the two differ only
    in the error branch, which such a parse never takes (the first
    error always finds [yyerrcnt <= 0] and clears [ctx->ok], which is
    never set again). *)
Theorem Query_Parse_nr_agrees (sp : option IndexSpec) (ts : list (Z * QueryToken)) (eof : QueryToken)
  (p : @yyParser IndexSpec) :
  Query_Parse sp ts eof = Ok p -> ok (pctx p) = true -> Query_Parse_nr sp ts eof = Ok p.
Proof.
  unfold Query_Parse, Query_Parse_nr. intros H Hok. apply obind_ok_inv in H as (q & Hq & H).
  assert (H0 : errinv (@ParseAlloc IndexSpec (mkCtx None true None sp))) by (intros _; simpl; lia).
  destruct (Parse_all_nr_agrees _ _ _ H0 Hq) as [_ Hagr].
  unfold ParseFree in H. rewrite Hagr; [exact H|].
  rewrite <- (proj2 (yy_pop_all_flags _ _ H)). exact Hok.
Qed.

(** C31. Safety of this build: for every lexer token stream a whole
    parse returns, and after [ParseFree] the stack is empty, every
    live node is owned by [ctx->root], and [ctx->ok] is cleared
    exactly when a message is stored, even though an error at end of
    input leaves [Parse] with entries on the stack. *)
Theorem Query_Parse_nr_safe (sp : option IndexSpec) (ts : list (Z * QueryToken)) (eof : QueryToken) :
  lexer_tokens ts ->
  exists p, Query_Parse_nr sp ts eof = Ok p /\ yystack p = []
    /\ live_nodes p = root_nodes (root (pctx p)) /\ (ok (pctx p) = true <-> errorMsg (pctx p) = None).
Proof.
  intros Hts. unfold Query_Parse_nr.
  assert (Hinv0 : inv (@ParseAlloc IndexSpec (mkCtx None true None sp)))
    by (unfold inv, acct, msg_inv; simpl; repeat split; auto).
  destruct (Parse_all_nr_ok ts _ Hinv0 Hts) as (p1 & Hp1 & Hinv1 & Hr1 & _).
  rewrite Parse_all_nr_app, Hp1, obind_ok. cbn [Parse_all_nr].
  destruct (Parse_nr_ok p1 TK_EOF eof Hinv1 ltac:(unfold TK_EOF; lia) ltac:(intros _; exact Hr1))
    as (p2 & Hp2 & (Hwf2 & Hacc2 & Hmsg2) & _).
  rewrite Hp2, obind_ok. cbn [obind]. unfold ParseFree.
  rewrite yy_pop_all_ok by (apply wf_stack_entries_ok, Hwf2).
  eexists; split; [reflexivity|]. unfold acct in Hacc2. simpl. split; [reflexivity|].
  split; [lia | exact Hmsg2].
Qed.

(** C32. The error action of this build, in full: whatever the state,
    the token and [yyerrcnt], the error is reported ([ctx->ok]
    cleared, any earlier message overwritten), the token dropped, and
    the stack, the counter, the root and the nodes are left as they
    were, also at end of input: the parse is not abandoned, as the
    comment of [YYNOERRORRECOVERY] announces, but goes on. *)
Theorem yy_parse_step_nr_error (p : @yyParser IndexSpec) (e : yyStackEntry) (rest : list yyStackEntry)
  (la : Z) (t : QueryToken) (eoi : bool) :
  yystack p = e :: rest -> 0 <= la < 11 ->
  yy_find_shift_action (stateno e) la = Ok YY_ERROR_ACTION ->
  yy_parse_step_nr p la (yy0 t) eoi
  = Ok (mkParser (yystack p) (yyerrcnt p)
          (mkCtx (root (pctx p)) false (Some (snprintf (qt_len t + 100) (fmt_syntax_error t)))
                 (spec (pctx p)))
          (live_nodes p), YYNOCODE).
Proof.
  intros Hst Hla Hf. unfold yy_parse_step_nr. rewrite Hst. cbn [obind]. rewrite Hf. cbn [obind].
  change (YY_ERROR_ACTION <? YYNSTATE) with false.
  change (YY_ERROR_ACTION <? YYNSTATE + YYNRULE) with false. rewrite Z.eqb_refl. cbn [negb].
  unfold yy_syntax_error. cbn [obind get_yy0]. rewrite yy_destructor_token by exact Hla.
  rewrite <- Hst. destruct p; reflexivity.
Qed.

End Claims.

(** ** The two builds on erroneous input *)

(** What the caller sees: the root, [ok], the message, the live nodes
    and the entries left on the stack. *)
Definition nr_result (o : outcome (@yyParser ListSchema))
  : option (option QueryNode * bool * option string * nat * nat) :=
  match o with
  | Ok p => Some (root (pctx p), ok (pctx p), errorMsg (pctx p), live_nodes p, length (yystack p))
  | Stuck _ => None
  end.

Definition nr_p0 : @yyParser ListSchema := ParseAlloc (mkCtx None true None None).
Definition nr_eof (pos : Z) : QueryToken := mkToken EmptyString 0 pos.
(** [) a )]: two errors, one token apart. *)
Definition nr_two_errors : list (Z * QueryToken) :=
  [(TK_RP, mkToken ")" 1 0); (TK_TERM, mkToken "a" 1 2); (TK_RP, mkToken ")" 1 4)].
(** [(a] and end of input, then [)] and end of input, to one parser. *)
Definition nr_unclosed : list (Z * QueryToken) :=
  [(TK_LP, mkToken "(" 1 0); (TK_TERM, mkToken "a" 1 1); (TK_EOF, nr_eof 2)].
Definition nr_reuse : list (Z * QueryToken) := nr_unclosed ++ [(TK_RP, mkToken ")" 1 0); (TK_EOF, nr_eof 1)].

(** This build does not abandon the parse at the first error, as its
    comment announces.  On [) a )] it reports the second error,
    which the default build suppresses within three tokens of the
    first, so the diagnostic names offset 4 instead of 0.  An error at
    end of input leaves the three entries of [(a] on the stack (one
    node live), and a parser fed more tokens resumes that parse: [)]
    and end of input accept it and set [ctx->root] to [a], where the
    default build, which emptied the stack, parses [)] afresh and ends
    with no root. *)
Example no_recovery_behaviour :
  nr_result (Query_Parse None nr_two_errors (nr_eof 5))
    = Some (Some (QN_Token RS_FIELDMASK_ALL "a" 1), false,
            Some ("Syntax error at offset 0 near ')'" ++ newline)%string, 1%nat, 0%nat)
  /\ nr_result (Query_Parse_nr None nr_two_errors (nr_eof 5))
    = Some (Some (QN_Token RS_FIELDMASK_ALL "a" 1), false,
            Some ("Syntax error at offset 4 near ')'" ++ newline)%string, 1%nat, 0%nat)
  /\ nr_result (Parse_all_nr nr_p0 nr_unclosed)
    = Some (None, false, Some ("Syntax error at offset 2 near ''" ++ newline)%string, 1%nat, 3%nat)
  /\ nr_result (Parse_all_nr nr_p0 nr_reuse)
    = Some (Some (QN_Token RS_FIELDMASK_ALL "a" 1), false,
            Some ("Syntax error at offset 2 near ''" ++ newline)%string, 1%nat, 0%nat)
  /\ nr_result (Parse_all nr_p0 nr_reuse)
    = Some (None, false, Some ("Syntax error at offset 0 near ')'" ++ newline)%string, 0%nat, 0%nat).
Proof. repeat split; vm_compute; reflexivity. Qed.

(** ** Instances of the theorems *)

Definition nr_ok_tokens : list (Z * QueryToken) := [(TK_TERM, mkToken "a" 1 0); (TK_TERM, mkToken "b" 1 2)].
Definition nr_ok_result : @yyParser ListSchema :=
  match Query_Parse None nr_ok_tokens (nr_eof 3) with Ok p => p | Stuck _ => nr_p0 end.

Lemma Query_Parse_nr_agrees_witness :
  Query_Parse None nr_ok_tokens (nr_eof 3) = Ok nr_ok_result /\ ok (pctx nr_ok_result) = true
  /\ Query_Parse_nr None nr_ok_tokens (nr_eof 3) = Ok nr_ok_result.
Proof.
  assert (H : Query_Parse None nr_ok_tokens (nr_eof 3) = Ok nr_ok_result) by (vm_compute; reflexivity).
  assert (Hok : ok (pctx nr_ok_result) = true) by (vm_compute; reflexivity).
  split; [exact H|]. split; [exact Hok|]. exact (Query_Parse_nr_agrees None _ _ _ H Hok).
Defined.

Lemma nr_two_errors_lexer : lexer_tokens nr_two_errors.
Proof. repeat constructor; unfold TK_RP, TK_TERM; simpl; lia. Qed.

Lemma Query_Parse_nr_safe_witness :
  lexer_tokens nr_two_errors
  /\ exists p, Query_Parse_nr (IndexSpec := ListSchema) None nr_two_errors (nr_eof 5) = Ok p
       /\ yystack p = [] /\ live_nodes p = root_nodes (root (pctx p))
       /\ (ok (pctx p) = true <-> errorMsg (pctx p) = None).
Proof.
  split; [exact nr_two_errors_lexer|].
  exact (Query_Parse_nr_safe None nr_two_errors (nr_eof 5) nr_two_errors_lexer).
Defined.

(** [(] then [)]: the error action in state 1, reached by [LP], on a
    parser that already reported an error. *)
Definition nr_failed : @yyParser ListSchema :=
  mkParser [mkEntry 1 TK_LP (yy0 (mkToken "(" 1 0)); mkEntry 0 TK_EOF yyinit] 3
           (mkCtx None false (Some "first"%string) None) 0.

Lemma yy_parse_step_nr_error_witness :
  0 <= TK_RP < 11 /\ yy_find_shift_action 1 TK_RP = Ok YY_ERROR_ACTION
  /\ yy_parse_step_nr nr_failed TK_RP (yy0 (mkToken ")" 1 1)) true
     = Ok (mkParser (yystack nr_failed) 3
             (mkCtx None false (Some ("Syntax error at offset 1 near ')'" ++ newline)%string) None) 0,
           YYNOCODE).
Proof.
  assert (Hla : 0 <= TK_RP < 11) by (unfold TK_RP; lia).
  assert (Hf : yy_find_shift_action 1 TK_RP = Ok YY_ERROR_ACTION) by (vm_compute; reflexivity).
  split; [exact Hla|]. split; [exact Hf|].
  rewrite (yy_parse_step_nr_error nr_failed _ _ TK_RP (mkToken ")" 1 1) true eq_refl Hla Hf).
  vm_compute. reflexivity.
Defined.

End NoRecovery.
